(** * An in-process message broker: topics, queues, leases and the idempotency guard

    Shallow embedding of the Go package [broker] (message.go, queue.go,
    topic.go, broker.go, worker.go, retry.go) and the properties of its
    delivery state machine.

    Go pointers ([*Message], [*Queue], [*Topic], [*Broker],
    [*InMemoryIdempotencyStore]) are addresses in a store; a queue holds the
    addresses of its messages, so two slots of a queue (or two queues) that
    hold the same pointer see each other's writes, as in the source.  Every
    pointer handed to a method is taken to be non-nil.

    [time.Now()] and [uuid.New()] are oracles of the world: each call consumes
    the next reading.  A [go func()] statement records the goroutine in the
    world; the scheduler runs it later.  The methods of [Queue] hold the
    queue's mutex from entry to exit, so each is one transition of the world;
    the properties are about calls that run one after the other.  The one
    call that is made while another runs, [Stop] on a worker that is in the
    loop of [Start], is a signal of that loop.  The lines written by
    [logInfo], [logError] and [logDebug] are not part of the world.

    The two services built on the package follow: the payment service with
    its gRPC server (services/payment) and the order service
    (services/order/internal/service).  Their structs are passed from call to
    call; the clock and the uuid source are those of the world. *)

From Stdlib Require Import ZArith Lia Floats.
From Stdlib.Strings Require Import Byte.
From stdpp Require Import base option list strings gmap functions.

Open Scope Z_scope.

(** ** Machine integers and time *)

(** Go's [int] and [int64] on the 64-bit targets of the repository: signed,
    wrapping on overflow. *)
Definition wrap64 (z : Z) : Z := (z + 2 ^ 63) mod 2 ^ 64 - 2 ^ 63.

Definition min_int64 : Z := - 2 ^ 63.
Definition max_int64 : Z := 2 ^ 63 - 1.

(** [x++] on an [int] or [int64] field. *)
Definition incr (x : Z) : Z := wrap64 (x + 1).

(** [time.Time] is an instant, counted in nanoseconds from the zero time
    (January 1, year 1, 00:00:00 UTC); [time.Duration] is an [int64] number of
    nanoseconds. *)
Definition Time := Z.
Definition Duration := Z.

Definition zero_Time : Time := 0.

Definition Time_IsZero (t : Time) : bool := t =? 0.
Definition Time_After (t u : Time) : bool := u <? t.
Definition Time_Add (t : Time) (d : Duration) : Time := t + d.

(** [t.Sub(u)]: the difference, saturated to the range of [Duration]. *)
Definition Time_Sub (t u : Time) : Duration :=
  if max_int64 <? t - u then max_int64
  else if t - u <? min_int64 then min_int64
  else t - u.

(** ** Errors (retry.go) *)

Inductive error : Type :=
  | ErrTopicNotFound
  | ErrQueueNotFound
  | ErrMessageNotFound
  | ErrInvalidReceiptHandle
  | ErrQueueEmpty
  | ErrHandler (reason : string).   (* any other error value, e.g. of a handler *)

(** ** The data model *)

Definition loc := nat.    (* *Message *)
Definition qref := nat.   (* *Queue *)
Definition tref := nat.   (* *Topic *)
Definition bref := nat.   (* *Broker *)
Definition sref := nat.   (* *InMemoryIdempotencyStore *)

(** message.go: [Metadata] is [None] for the nil map. *)
Record Message : Type := mkMessage {
  ID : string;
  Type_ : string;
  Payload : list byte;
  Metadata : option (gmap string string);
  Timestamp : Time;
  RetryCount : Z;
  VisibleAt : Time;
  ReceiptHandle : string
}.

Record QueueStats : Type := mkQueueStats {
  TotalReceived : Z;
  TotalProcessed : Z;
  TotalFailed : Z;
  CurrentSize : Z
}.

(** queue.go: [deadLetterQueue] is [None] for nil. *)
Record Queue : Type := mkQueue {
  name : string;
  messages : list loc;
  visibilityTimeout : Duration;
  maxRetries : Z;
  deadLetterQueue : option qref;
  stats : QueueStats
}.

(** topic.go; the field is [name] in the source. *)
Record Topic : Type := mkTopic {
  topic_name : string;
  subscribers : list qref
}.

Record BrokerConfig : Type := mkBrokerConfig {
  DefaultVisibilityTimeout : Duration;
  DefaultMaxRetries : Z;
  EnableLogging : bool
}.

Record Broker : Type := mkBroker {
  topics : gmap string tref;
  queues : gmap string qref;
  config : BrokerConfig
}.

(** worker.go *)
Record InMemoryIdempotencyStore : Type := mkStore {
  processed : gmap string Time;
  ttl : Duration
}.

(** [context.Context], as far as a caller can set it up: an optional deadline.
    No function of the package reads its context. *)
Record Context : Type := mkContext {
  deadline : option Time
}.

(** The goroutine started by [moveToDeadLetterQueueLocked]: the closure
    captures the source queue [q] and the clone [dlqMsg]. *)
Inductive Goroutine : Type :=
  | DLQDeposit (q : qref) (dlqMsg : loc).

(** ** The world: stores, oracles, pending goroutines *)

Record World : Type := mkWorld {
  heapM : loc -> Message;
  nextM : loc;
  heapQ : qref -> Queue;
  nextQ : qref;
  heapT : tref -> Topic;
  nextT : tref;
  heapB : bref -> Broker;
  heapS : sref -> InMemoryIdempotencyStore;
  clock : nat -> Time;      (* the successive readings of time.Now() *)
  tick : nat;               (* readings consumed so far *)
  uuids : nat -> string;    (* the successive values of uuid.New().String() *)
  drawn : nat;              (* uuids consumed so far *)
  goroutines : list Goroutine
}.

Definition set_heapM (f : (loc -> Message) -> (loc -> Message)) (w : World) : World :=
  mkWorld (f (heapM w)) (nextM w) (heapQ w) (nextQ w) (heapT w) (nextT w)
          (heapB w) (heapS w) (clock w) (tick w) (uuids w) (drawn w) (goroutines w).
Definition set_nextM (n : loc) (w : World) : World :=
  mkWorld (heapM w) n (heapQ w) (nextQ w) (heapT w) (nextT w)
          (heapB w) (heapS w) (clock w) (tick w) (uuids w) (drawn w) (goroutines w).
Definition set_heapQ (f : (qref -> Queue) -> (qref -> Queue)) (w : World) : World :=
  mkWorld (heapM w) (nextM w) (f (heapQ w)) (nextQ w) (heapT w) (nextT w)
          (heapB w) (heapS w) (clock w) (tick w) (uuids w) (drawn w) (goroutines w).
Definition set_nextQ (n : qref) (w : World) : World :=
  mkWorld (heapM w) (nextM w) (heapQ w) n (heapT w) (nextT w)
          (heapB w) (heapS w) (clock w) (tick w) (uuids w) (drawn w) (goroutines w).
Definition set_heapT (f : (tref -> Topic) -> (tref -> Topic)) (w : World) : World :=
  mkWorld (heapM w) (nextM w) (heapQ w) (nextQ w) (f (heapT w)) (nextT w)
          (heapB w) (heapS w) (clock w) (tick w) (uuids w) (drawn w) (goroutines w).
Definition set_nextT (n : tref) (w : World) : World :=
  mkWorld (heapM w) (nextM w) (heapQ w) (nextQ w) (heapT w) n
          (heapB w) (heapS w) (clock w) (tick w) (uuids w) (drawn w) (goroutines w).
Definition set_heapB (f : (bref -> Broker) -> (bref -> Broker)) (w : World) : World :=
  mkWorld (heapM w) (nextM w) (heapQ w) (nextQ w) (heapT w) (nextT w)
          (f (heapB w)) (heapS w) (clock w) (tick w) (uuids w) (drawn w) (goroutines w).
Definition set_heapS
    (f : (sref -> InMemoryIdempotencyStore) -> (sref -> InMemoryIdempotencyStore))
    (w : World) : World :=
  mkWorld (heapM w) (nextM w) (heapQ w) (nextQ w) (heapT w) (nextT w)
          (heapB w) (f (heapS w)) (clock w) (tick w) (uuids w) (drawn w) (goroutines w).
Definition set_tick (n : nat) (w : World) : World :=
  mkWorld (heapM w) (nextM w) (heapQ w) (nextQ w) (heapT w) (nextT w)
          (heapB w) (heapS w) (clock w) n (uuids w) (drawn w) (goroutines w).
Definition set_drawn (n : nat) (w : World) : World :=
  mkWorld (heapM w) (nextM w) (heapQ w) (nextQ w) (heapT w) (nextT w)
          (heapB w) (heapS w) (clock w) (tick w) (uuids w) n (goroutines w).
Definition set_goroutines (f : list Goroutine -> list Goroutine) (w : World) : World :=
  mkWorld (heapM w) (nextM w) (heapQ w) (nextQ w) (heapT w) (nextT w)
          (heapB w) (heapS w) (clock w) (tick w) (uuids w) (drawn w) (f (goroutines w)).

(** ** The state monad of the package *)

Definition M (A : Type) : Type := World -> A * World.

#[global] Instance M_ret : MRet M := fun A (a : A) w => (a, w).
#[global] Instance M_bind : MBind M :=
  fun A B (f : A -> M B) (c : M A) w => let '(a, w') := c w in f a w'.

Definition get : M World := fun w => (w, w).
Definition modify (f : World -> World) : M unit := fun w => (tt, f w).

(** [time.Now()] *)
Definition time_Now : M Time :=
  fun w => (clock w (tick w), set_tick (S (tick w)) w).

(** [uuid.New().String()] *)
Definition uuid_New : M string :=
  fun w => (uuids w (drawn w), set_drawn (S (drawn w)) w).

(** [&Message{...}] *)
Definition new_Message (m : Message) : M loc :=
  fun w => (nextM w, set_nextM (S (nextM w)) (set_heapM <[nextM w := m]> w)).

(** Reading through a pointer, and updating the struct it points to. *)
Definition load (p : loc) : M Message := fun w => (heapM w p, w).
Definition update (p : loc) (f : Message -> Message) : M unit :=
  modify (set_heapM (fun h => <[p := f (h p)]> h)).

Definition loadQ (q : qref) : M Queue := fun w => (heapQ w q, w).
Definition updateQ (q : qref) (f : Queue -> Queue) : M unit :=
  modify (set_heapQ (fun h => <[q := f (h q)]> h)).

(** [go f()] *)
Definition go (g : Goroutine) : M unit :=
  modify (set_goroutines (fun gs => gs ++ [g])).

(** ** message.go *)

Definition set_ID (x : string) (m : Message) : Message :=
  mkMessage x (Type_ m) (Payload m) (Metadata m) (Timestamp m) (RetryCount m)
            (VisibleAt m) (ReceiptHandle m).
Definition set_Metadata (x : option (gmap string string)) (m : Message) : Message :=
  mkMessage (ID m) (Type_ m) (Payload m) x (Timestamp m) (RetryCount m)
            (VisibleAt m) (ReceiptHandle m).
Definition set_Timestamp (x : Time) (m : Message) : Message :=
  mkMessage (ID m) (Type_ m) (Payload m) (Metadata m) x (RetryCount m)
            (VisibleAt m) (ReceiptHandle m).
Definition set_RetryCount (x : Z) (m : Message) : Message :=
  mkMessage (ID m) (Type_ m) (Payload m) (Metadata m) (Timestamp m) x
            (VisibleAt m) (ReceiptHandle m).
Definition set_VisibleAt (x : Time) (m : Message) : Message :=
  mkMessage (ID m) (Type_ m) (Payload m) (Metadata m) (Timestamp m) (RetryCount m)
            x (ReceiptHandle m).
Definition set_ReceiptHandle (x : string) (m : Message) : Message :=
  mkMessage (ID m) (Type_ m) (Payload m) (Metadata m) (Timestamp m) (RetryCount m)
            (VisibleAt m) x.

(** The built-ins [make([]byte, n)] and [copy(dst, src)]: [copy] overwrites
    the first [min (len dst) (len src)] elements of [dst]. *)
Definition make_bytes (n : nat) : list byte := replicate n x00.

Definition copy (dst src : list byte) : list byte :=
  take (length dst `min` length src)%nat src ++ drop (length dst `min` length src)%nat dst.

(** [for k, v := range src { dst[k] = v }], started from the empty map. *)
Definition copy_map (src : gmap string string) : gmap string string :=
  map_fold (fun k v dst => <[k := v]> dst) ∅ src.

Module Message.

(** The pure part of [m.SetMetadata(key, value)]. *)
Definition with_metadata (key value : string) (m : Message) : Message :=
  match Metadata m with
  | None => set_Metadata (Some (<[key := value]> ∅)) m
  | Some md => set_Metadata (Some (<[key := value]> md)) m
  end.

Definition SetMetadata (p : loc) (key value : string) : M unit :=
  update p (with_metadata key value).

(** [m.GetMetadata(key)]: indexing a Go map at a missing key yields [""]. *)
Definition metadata_of (key : string) (m : Message) : string :=
  match Metadata m with
  | None => ""
  | Some md => default "" (md !! key)
  end.


(** The struct that [m.Clone()] builds, given the uuid it draws. *)
Definition clone_of (id : string) (m : Message) : Message :=
  {| ID := id;
     Type_ := Type_ m;
     Payload := copy (make_bytes (length (Payload m))) (Payload m);
     Metadata := match Metadata m with
                 | Some md => Some (copy_map md)
                 | None => None
                 end;
     Timestamp := Timestamp m;
     RetryCount := 0;
     VisibleAt := zero_Time;
     ReceiptHandle := "" |}.

Definition Clone (p : loc) : M loc :=
  id ← uuid_New;
  m ← load p;
  new_Message (clone_of id m).

(** The value of [m.IsVisible()] when the call of [time.Now()] in it reads [now]. *)
Definition visible_at (now : Time) (m : Message) : bool :=
  Time_IsZero (VisibleAt m) || Time_After now (VisibleAt m).

(** [m.IsVisible()]: [||] is lazy, the clock is read only for a message whose
    [VisibleAt] is set. *)
Definition IsVisible (p : loc) : M bool :=
  m ← load p;
  if Time_IsZero (VisibleAt m) then mret true
  else now ← time_Now; mret (Time_After now (VisibleAt m)).

(** [m.Decode(v)]: [json.Unmarshal] is the library's; the decoded value is
    returned instead of being stored through [v]. *)
Definition Decode {V : Type} (json_Unmarshal : list byte -> V + error) (p : loc)
    : M (V + error) :=
  m ← load p; mret (json_Unmarshal (Payload m)).

End Message.

(** [NewMessage(messageType, payload)].  [json.Marshal] is the library's; the
    code is read for whatever it returns on [payload].  The fields of the
    literal are evaluated in the order they are written. *)
Definition NewMessage {V : Type} (json_Marshal : V -> list byte + error)
    (messageType : string) (payload : V) : M (option loc * option error) :=
  match json_Marshal payload with
  | inr err => mret (None, Some err)
  | inl payloadBytes =>
      id ← uuid_New;
      now ← time_Now;
      msg ← new_Message {| ID := id;
                            Type_ := messageType;
                            Payload := payloadBytes;
                            Metadata := Some ∅;
                            Timestamp := now;
                            RetryCount := 0;
                            VisibleAt := zero_Time;
                            ReceiptHandle := "" |};
      mret (Some msg, None)
  end.

(** ** queue.go *)

Definition set_messages (x : list loc) (q : Queue) : Queue :=
  mkQueue (name q) x (visibilityTimeout q) (maxRetries q) (deadLetterQueue q) (stats q).
Definition set_visibilityTimeout (x : Duration) (q : Queue) : Queue :=
  mkQueue (name q) (messages q) x (maxRetries q) (deadLetterQueue q) (stats q).
Definition set_maxRetries (x : Z) (q : Queue) : Queue :=
  mkQueue (name q) (messages q) (visibilityTimeout q) x (deadLetterQueue q) (stats q).
Definition set_deadLetterQueue (x : option qref) (q : Queue) : Queue :=
  mkQueue (name q) (messages q) (visibilityTimeout q) (maxRetries q) x (stats q).
Definition set_stats (x : QueueStats) (q : Queue) : Queue :=
  mkQueue (name q) (messages q) (visibilityTimeout q) (maxRetries q) (deadLetterQueue q) x.

Definition set_TotalReceived (x : Z) (s : QueueStats) : QueueStats :=
  mkQueueStats x (TotalProcessed s) (TotalFailed s) (CurrentSize s).
Definition set_TotalProcessed (x : Z) (s : QueueStats) : QueueStats :=
  mkQueueStats (TotalReceived s) x (TotalFailed s) (CurrentSize s).
Definition set_TotalFailed (x : Z) (s : QueueStats) : QueueStats :=
  mkQueueStats (TotalReceived s) (TotalProcessed s) x (CurrentSize s).
Definition set_CurrentSize (x : Z) (s : QueueStats) : QueueStats :=
  mkQueueStats (TotalReceived s) (TotalProcessed s) (TotalFailed s) x.

(** [len(s)] as an [int]. *)
Definition len {A} (l : list A) : Z := Z.of_nat (length l).

(** [q.stats.X++] and [q.stats.CurrentSize = len(q.messages)] *)
Definition incr_TotalReceived (Q : Queue) : Queue :=
  set_stats (set_TotalReceived (incr (TotalReceived (stats Q))) (stats Q)) Q.
Definition incr_TotalProcessed (Q : Queue) : Queue :=
  set_stats (set_TotalProcessed (incr (TotalProcessed (stats Q))) (stats Q)) Q.
Definition incr_TotalFailed (Q : Queue) : Queue :=
  set_stats (set_TotalFailed (incr (TotalFailed (stats Q))) (stats Q)) Q.
Definition sync_CurrentSize (Q : Queue) : Queue :=
  set_stats (set_CurrentSize (len (messages Q)) (stats Q)) Q.

(** [q.messages = append(q.messages[:i], q.messages[i+1:]...)] *)
Definition remove_at (i : nat) (Q : Queue) : Queue :=
  set_messages (take i (messages Q) ++ drop (S i) (messages Q)) Q.

(** [context.WithTimeout(context.Background(), d)] reads the clock. *)
Definition context_WithTimeout (d : Duration) : M Context :=
  now ← time_Now; mret (mkContext (Some (Time_Add now d))).

Definition Background : Context := mkContext None.

Module Queue.

Definition Enqueue (q : qref) (ctx : Context) (msg : loc) : M (option error) :=
  m ← load msg;
  (if decide (ID m = "") then id ← uuid_New; update msg (set_ID id) else mret tt);;
  m ← load msg;
  (if Time_IsZero (Timestamp m)
   then now ← time_Now; update msg (set_Timestamp now)
   else mret tt);;
  updateQ q (fun Q => set_messages (messages Q ++ [msg]) Q);;
  updateQ q incr_TotalReceived;;
  updateQ q sync_CurrentSize;;
  mret None.

(** The body of the [for] of [Receive], over the slots not yet visited. *)
Fixpoint Receive_loop (q : qref) (now : Time) (msgs : list loc) : M (option loc) :=
  match msgs with
  | [] => mret None
  | msg :: rest =>
      v ← Message.IsVisible msg;
      if (v : bool) then
        Q ← loadQ q;
        update msg (set_VisibleAt (Time_Add now (visibilityTimeout Q)));;
        h ← uuid_New;
        update msg (set_ReceiptHandle h);;
        update msg (fun m => set_RetryCount (incr (RetryCount m)) m);;
        mret (Some msg)
      else Receive_loop q now rest
  end.

(** [Receive] returns [(msg, nil)] or [(nil, nil)]: its error is always nil. *)
Definition Receive (q : qref) (ctx : Context) : M (option loc * option error) :=
  now ← time_Now;
  Q ← loadQ q;
  r ← Receive_loop q now (messages Q);
  mret (r, None).

(** The [for i, msg := range q.messages] of [Acknowledge], from slot [i] on. *)
Fixpoint Acknowledge_loop (q : qref) (receiptHandle : string) (i : nat)
    (msgs : list loc) : M (option error) :=
  match msgs with
  | [] => mret (Some ErrInvalidReceiptHandle)
  | msg :: rest =>
      m ← load msg;
      if decide (ReceiptHandle m = receiptHandle) then
        updateQ q (remove_at i);;
        updateQ q incr_TotalProcessed;;
        updateQ q sync_CurrentSize;;
        mret None
      else Acknowledge_loop q receiptHandle (S i) rest
  end.

Definition Acknowledge (q : qref) (ctx : Context) (receiptHandle : string)
    : M (option error) :=
  Q ← loadQ q;
  Acknowledge_loop q receiptHandle 0 (messages Q).

(** The removal loop of [moveToDeadLetterQueueLocked]: the first slot whose
    message carries the ID of [msg] is cut out. *)
Fixpoint remove_loop (q : qref) (msg : loc) (i : nat) (msgs : list loc) : M unit :=
  match msgs with
  | [] => mret tt
  | p :: rest =>
      m ← load p;
      x ← load msg;
      if decide (ID m = ID x) then
        updateQ q (remove_at i);;
        updateQ q sync_CurrentSize
      else remove_loop q msg (S i) rest
  end.

Definition moveToDeadLetterQueueLocked (q : qref) (msg : loc) : M (option error) :=
  Q ← loadQ q;
  match deadLetterQueue Q with
  | None =>
      updateQ q incr_TotalFailed;;
      Q ← loadQ q;
      remove_loop q msg 0 (messages Q);;
      mret None
  | Some _ =>
      dlqMsg ← Message.Clone msg;
      Message.SetMetadata dlqMsg "original_queue" (name Q);;
      Message.SetMetadata dlqMsg "failure_reason" "max_retries_exceeded";;
      update dlqMsg (set_ReceiptHandle "");;
      update dlqMsg (set_VisibleAt zero_Time);;
      Q ← loadQ q;
      remove_loop q msg 0 (messages Q);;
      updateQ q incr_TotalFailed;;
      go (DLQDeposit q dlqMsg);;
      mret None
  end.

Fixpoint Nack_loop (q : qref) (receiptHandle : string) (msgs : list loc)
    : M (option error) :=
  match msgs with
  | [] => mret (Some ErrInvalidReceiptHandle)
  | msg :: rest =>
      m ← load msg;
      if decide (ReceiptHandle m = receiptHandle) then
        Q ← loadQ q;
        if maxRetries Q <=? RetryCount m then moveToDeadLetterQueueLocked q msg
        else
          update msg (set_VisibleAt zero_Time);;
          update msg (set_ReceiptHandle "");;
          mret None
      else Nack_loop q receiptHandle rest
  end.

Definition Nack (q : qref) (ctx : Context) (receiptHandle : string)
    : M (option error) :=
  Q ← loadQ q;
  Nack_loop q receiptHandle (messages Q).

Definition Size (q : qref) : M Z :=
  Q ← loadQ q; mret (len (messages Q)).

Definition Name (q : qref) : M string :=
  Q ← loadQ q; mret (name Q).

(** [q.Stats()] brings [CurrentSize] up to date and returns a copy of the
    counters. *)
Definition Stats (q : qref) : M QueueStats :=
  updateQ q sync_CurrentSize;;
  Q ← loadQ q; mret (stats Q).

End Queue.

(** Running a pending goroutine: the body of the [go func()] of
    [moveToDeadLetterQueueLocked].  The source dereferences
    [q.deadLetterQueue], which was not nil when the goroutine was started and
    is never assigned after construction. *)
Definition run_goroutine (g : Goroutine) : M unit :=
  match g with
  | DLQDeposit q dlqMsg =>
      ctx ← context_WithTimeout (5 * 1000000000);
      Q ← loadQ q;
      match deadLetterQueue Q with
      | Some dlq => Queue.Enqueue dlq ctx dlqMsg;; mret tt
      | None => mret tt
      end
  end.

(** The scheduler picks the [i]-th pending goroutine and runs it. *)
Definition schedule (i : nat) : M unit :=
  w ← get;
  match goroutines w !! i with
  | Some g =>
      modify (set_goroutines (fun gs => take i gs ++ drop (S i) gs));;
      run_goroutine g
  | None => mret tt
  end.

(** ** topic.go *)

(** [s := make([]*Queue, len(t)); copy(s, t)]: a snapshot of the slice. *)
Definition copy_slice {A} (src : list A) : list A :=
  take (length src) src.

Definition loadT (t : tref) : M Topic := fun w => (heapT w t, w).
Definition updateT (t : tref) (f : Topic -> Topic) : M unit :=
  modify (set_heapT (fun h => <[t := f (h t)]> h)).

Module Topic.

Definition addSubscriber (t : tref) (queue : qref) : M unit :=
  updateT t (fun T => mkTopic (topic_name T) (subscribers T ++ [queue])).

(** The [for _, queue := range subscribers] of [Publish].  The error of
    [Enqueue] is only logged. *)
Fixpoint Publish_loop (t : tref) (ctx : Context) (msg : loc) (subs : list qref)
    : M unit :=
  match subs with
  | [] => mret tt
  | queue :: rest =>
      clone ← Message.Clone msg;
      T ← loadT t;
      Message.SetMetadata clone "source_topic" (topic_name T);;
      d ← uuid_New;
      Message.SetMetadata clone "delivery_id" d;;
      Queue.Enqueue queue ctx clone;;
      Publish_loop t ctx msg rest
  end.

Definition Publish (t : tref) (ctx : Context) (msg : loc) : M (option error) :=
  T ← loadT t;
  let subscribers := copy_slice (subscribers T) in
  m ← load msg;
  (if Time_IsZero (Timestamp m)
   then now ← time_Now; update msg (set_Timestamp now)
   else mret tt);;
  Publish_loop t ctx msg subscribers;;
  mret None.

Definition SubscriberCount (t : tref) : M Z :=
  T ← loadT t; mret (len (subscribers T)).

Definition Name (t : tref) : M string :=
  T ← loadT t; mret (topic_name T).

End Topic.

(** ** broker.go *)

Definition loadB (b : bref) : M Broker := fun w => (heapB w b, w).
Definition updateB (b : bref) (f : Broker -> Broker) : M unit :=
  modify (set_heapB (fun h => <[b := f (h b)]> h)).

(** [&Topic{...}] and [&Queue{...}] *)
Definition new_Topic (T : Topic) : M tref :=
  fun w => (nextT w, set_nextT (S (nextT w)) (set_heapT <[nextT w := T]> w)).
Definition new_Queue (Q : Queue) : M qref :=
  fun w => (nextQ w, set_nextQ (S (nextQ w)) (set_heapQ <[nextQ w := Q]> w)).

Definition DefaultBrokerConfig : BrokerConfig :=
  {| DefaultVisibilityTimeout := 30 * 1000000000;
     DefaultMaxRetries := 3;
     EnableLogging := true |}.

(** The struct behind the pointer that [NewBroker(config)] returns. *)
Definition NewBroker (config : BrokerConfig) : Broker :=
  {| topics := ∅; queues := ∅; config := config |}.

(** [type QueueOption func(q *Queue)] *)
Definition QueueOption : Type := qref -> M unit.

Definition WithVisibilityTimeout (d : Duration) : QueueOption :=
  fun q => updateQ q (set_visibilityTimeout d).
Definition WithMaxRetries (n : Z) : QueueOption :=
  fun q => updateQ q (set_maxRetries n).
Definition WithDLQ (dlq : option qref) : QueueOption :=
  fun q => updateQ q (set_deadLetterQueue dlq).

(** [for _, opt := range opts { opt(queue) }] *)
Fixpoint apply_opts (queue : qref) (opts : list QueueOption) : M unit :=
  match opts with
  | [] => mret tt
  | opt :: rest => opt queue;; apply_opts queue rest
  end.

Record BrokerStats : Type := mkBrokerStats {
  TopicCount : Z;
  QueueCount : Z;
  Queues : gmap string QueueStats
}.

Module Broker.

Definition CreateTopic (b : bref) (name : string) : M tref :=
  B ← loadB b;
  match topics B !! name with
  | Some existing => mret existing
  | None =>
      topic ← new_Topic {| topic_name := name; subscribers := [] |};
      updateB b (fun B => mkBroker (<[name := topic]> (topics B)) (queues B) (config B));;
      mret topic
  end.

Definition GetTopic (b : bref) (name : string) : M (option tref) :=
  B ← loadB b; mret (topics B !! name).

Definition CreateQueue (b : bref) (name : string) (opts : list QueueOption) : M qref :=
  B ← loadB b;
  match queues B !! name with
  | Some existing => mret existing
  | None =>
      queue ← new_Queue {| name := name;
                           messages := [];
                           visibilityTimeout := DefaultVisibilityTimeout (config B);
                           maxRetries := DefaultMaxRetries (config B);
                           deadLetterQueue := None;
                           stats := mkQueueStats 0 0 0 0 |};
      apply_opts queue opts;;
      updateB b (fun B => mkBroker (topics B) (<[name := queue]> (queues B)) (config B));;
      mret queue
  end.

Definition GetQueue (b : bref) (name : string) : M (option qref) :=
  B ← loadB b; mret (queues B !! name).

Definition Subscribe (b : bref) (topicName queueName : string) : M (option error) :=
  B ← loadB b;
  match topics B !! topicName with
  | None => mret (Some ErrTopicNotFound)
  | Some topic =>
      match queues B !! queueName with
      | None => mret (Some ErrQueueNotFound)
      | Some queue => Topic.addSubscriber topic queue;; mret None
      end
  end.

Definition Publish (b : bref) (ctx : Context) (topicName : string) (msg : loc)
    : M (option error) :=
  B ← loadB b;
  match topics B !! topicName with
  | None => mret (Some ErrTopicNotFound)
  | Some topic => Topic.Publish topic ctx msg
  end.

(** [for name, queue := range b.queues { stats.Queues[name] = queue.Stats() }],
    over the entries of the map in the order the iteration visits them (Go
    leaves the order open). *)
Fixpoint Stats_loop (entries : list (string * qref)) (stats : BrokerStats)
    : M BrokerStats :=
  match entries with
  | [] => mret stats
  | (name, queue) :: rest =>
      s ← Queue.Stats queue;
      Stats_loop rest
        (mkBrokerStats (TopicCount stats) (QueueCount stats) (<[name := s]> (Queues stats)))
  end.

Definition Stats (b : bref) : M BrokerStats :=
  B ← loadB b;
  let stats := {| TopicCount := Z.of_nat (size (topics B));
                  QueueCount := Z.of_nat (size (queues B));
                  Queues := ∅ |} in
  Stats_loop (map_to_list (queues B)) stats.

End Broker.

(** ** worker.go: handlers, the idempotency store, the idempotent worker *)

(** [type MessageHandler func(m *Message) error] *)
Definition MessageHandler : Type := loc -> M (option error).

Record WorkerConfig : Type := mkWorkerConfig {
  PollInterval : Duration;
  Concurrency : Z
}.

Definition DefaultWorkerConfig : WorkerConfig :=
  {| PollInterval := 100 * 1000000; Concurrency := 1 |}.

Record WorkerStats : Type := mkWorkerStats {
  MessagesProcessed : Z;
  MessagesFailed : Z;
  TotalProcessTime : Duration
}.

(** [stopCh chan struct{}]: nothing is ever sent on it, so all that a
    receive can tell is whether it has been closed. *)
Inductive chan_state : Type :=
  | chan_open
  | chan_closed.

(** The [Worker] struct, without its mutex. *)
Record Worker : Type := mkWorker {
  worker_name : string;
  worker_queue : qref;
  handler : MessageHandler;
  worker_config : WorkerConfig;
  worker_stats : WorkerStats;
  running : bool;
  stopCh : chan_state
}.

Definition NewWorker (name : string) (queue : qref) (handler : MessageHandler) : Worker :=
  {| worker_name := name;
     worker_queue := queue;
     handler := handler;
     worker_config := DefaultWorkerConfig;
     worker_stats := mkWorkerStats 0 0 0;
     running := false;
     stopCh := chan_open |}.

Definition NewWorkerWithConfig (name : string) (queue : qref) (handler : MessageHandler)
    (config : WorkerConfig) : Worker :=
  {| worker_name := name;
     worker_queue := queue;
     handler := handler;
     worker_config := config;
     worker_stats := mkWorkerStats 0 0 0;
     running := false;
     stopCh := chan_open |}.

Definition set_worker_stats (x : WorkerStats) (w : Worker) : Worker :=
  mkWorker (worker_name w) (worker_queue w) (handler w) (worker_config w) x (running w)
           (stopCh w).
Definition set_running (x : bool) (w : Worker) : Worker :=
  mkWorker (worker_name w) (worker_queue w) (handler w) (worker_config w)
           (worker_stats w) x (stopCh w).
Definition set_stopCh (x : chan_state) (w : Worker) : Worker :=
  mkWorker (worker_name w) (worker_queue w) (handler w) (worker_config w)
           (worker_stats w) (running w) x.

(** [w.stats.MessagesFailed++], and the two assignments after a successful
    acknowledgement; [TotalProcessTime] is an [int64] of nanoseconds. *)
Definition incr_MessagesFailed (w : Worker) : Worker :=
  set_worker_stats
    (mkWorkerStats (MessagesProcessed (worker_stats w))
                   (incr (MessagesFailed (worker_stats w)))
                   (TotalProcessTime (worker_stats w))) w.
Definition count_processed (elapsed : Duration) (w : Worker) : Worker :=
  set_worker_stats
    (mkWorkerStats (incr (MessagesProcessed (worker_stats w)))
                   (MessagesFailed (worker_stats w))
                   (wrap64 (TotalProcessTime (worker_stats w) + elapsed))) w.

(** [time.Sleep(d)] lets time pass: the later readings of the clock are the
    oracle's. *)
Definition time_Sleep (d : Duration) : M unit := mret tt.

(** What happens around the loop of [Start], in order.  [Stopped]: another
    goroutine calls [Stop()]; the loop reads neither [running] nor [stopCh]
    outside its [select], so the call counts as made just before the next
    [select].  [Cancelled err]: [ctx.Done()] is ready and the [select] takes
    that case, [ctx.Err()] being [err].  [Proceed]: the [select] does not
    take the case of [ctx.Done()]; it takes the case of [stopCh] when that
    channel is closed, and [default] otherwise. *)
Inductive Signal : Type :=
  | Proceed
  | Cancelled (err : error)
  | Stopped.

(** [Start] has returned, or is still in its loop when the signals run out,
    or the program has ended in a panic of the goroutine that called
    [Stop]. *)
Inductive Outcome : Type :=
  | Returned (err : option error)
  | Polling
  | Panicked (msg : string).

(** The result of a call that may panic. *)
Inductive may_panic (A : Type) : Type :=
  | Done (a : A)
  | Panic (msg : string).
Arguments Done {A} a.
Arguments Panic {A} msg.

(** [type IdempotencyStore interface] *)
Class IdempotencyStore (S : Type) : Type := {
  IsProcessed : S -> string -> M bool;
  MarkProcessed : S -> string -> M (option error)
}.

Definition loadS (s : sref) : M InMemoryIdempotencyStore := fun w => (heapS w s, w).
Definition updateS (s : sref) (f : InMemoryIdempotencyStore -> InMemoryIdempotencyStore)
    : M unit :=
  modify (set_heapS (fun h => <[s := f (h s)]> h)).

(** [time.Since(t)] is [time.Now().Sub(t)]. *)
Definition time_Since (t : Time) : M Duration :=
  now ← time_Now; mret (Time_Sub now t).

(** The methods of [*Worker] pass the worker struct along.  The one method
    that other goroutines call while [Start] is in its loop, [Stop], enters
    the loop as the signal [Stopped]. *)
Module Worker.

(** [Stop]: [close] panics on a channel that is closed already. *)
Definition Stop (w : Worker) : may_panic Worker :=
  if running w then
    match stopCh w with
    | chan_closed => Panic "close of closed channel"
    | chan_open => Done (set_running false (set_stopCh chan_closed w))
    end
  else Done w.

Definition processMessage (w : Worker) (ctx : Context) (msg : loc) : M Worker :=
  start ← time_Now;
  err ← handler w msg;
  elapsed ← time_Since start;
  match err with
  | Some _ =>
      let w := incr_MessagesFailed w in
      m ← load msg;
      Queue.Nack (worker_queue w) ctx (ReceiptHandle m);;
      mret w
  | None =>
      m ← load msg;
      ackErr ← Queue.Acknowledge (worker_queue w) ctx (ReceiptHandle m);
      match ackErr with
      | Some _ => mret w
      | None => mret (count_processed elapsed w)
      end
  end.

(** The [for] of [Start].  A closed [stopCh] is always ready, so [default]
    is taken only while it is open. *)
Fixpoint Start_loop (signals : list Signal) (w : Worker) (ctx : Context)
    : M (Outcome * Worker) :=
  match signals with
  | [] => mret (Polling, w)
  | Stopped :: rest =>
      match Stop w with
      | Panic msg => mret (Panicked msg, w)
      | Done w => Start_loop rest w ctx
      end
  | Cancelled err :: _ => mret (Returned (Some err), w)
  | Proceed :: rest =>
      match stopCh w with
      | chan_closed => mret (Returned None, w)
      | chan_open =>
          r ← Queue.Receive (worker_queue w) ctx;
          match r with
          | (_, Some _) =>
              time_Sleep (PollInterval (worker_config w));;
              Start_loop rest w ctx
          | (None, None) =>
              time_Sleep (PollInterval (worker_config w));;
              Start_loop rest w ctx
          | (Some msg, None) =>
              w ← processMessage w ctx msg;
              Start_loop rest w ctx
          end
      end
  end.

Definition Start (signals : list Signal) (w : Worker) (ctx : Context)
    : M (Outcome * Worker) :=
  if running w then mret (Returned None, w)
  else Start_loop signals (set_running true w) ctx.

Definition Stats (w : Worker) : WorkerStats := worker_stats w.

End Worker.

(** The struct behind the pointer that [NewInMemoryIdempotencyStore(ttl)] returns. *)
Definition NewInMemoryIdempotencyStore (ttl : Duration) : InMemoryIdempotencyStore :=
  {| processed := ∅; ttl := ttl |}.

Module InMemoryIdempotencyStore.

Definition IsProcessed (s : sref) (messageID : string) : M bool :=
  S ← loadS s;
  match processed S !! messageID with
  | None => mret false
  | Some timestamp =>
      since ← time_Since timestamp;
      if ttl S <? since then mret false else mret true
  end.

Definition MarkProcessed (s : sref) (messageID : string) : M (option error) :=
  now ← time_Now;
  updateS s (fun S => mkStore (<[messageID := now]> (processed S)) (ttl S));;
  mret None.

End InMemoryIdempotencyStore.

#[global] Instance InMemory_IdempotencyStore : IdempotencyStore sref := {
  IsProcessed := InMemoryIdempotencyStore.IsProcessed;
  MarkProcessed := InMemoryIdempotencyStore.MarkProcessed
}.

(** The closure [wrappedHandler] of [IdempotentWorker]. *)
Definition wrappedHandler {S} `{IdempotencyStore S}
    (handler : MessageHandler) (store : S) : MessageHandler :=
  fun msg =>
    m ← load msg;
    skip ← IsProcessed store (ID m);
    if (skip : bool) then mret None
    else
      err ← handler msg;
      match err with
      | Some e => mret (Some e)
      | None => m ← load msg; MarkProcessed store (ID m)
      end.

Definition IdempotentWorker {S} `{IdempotencyStore S}
    (name : string) (queue : qref) (handler : MessageHandler) (store : S) : Worker :=
  NewWorker name queue (wrappedHandler handler store).

(** ** retry.go: the backoff schedule *)

Record RetryConfig : Type := mkRetryConfig {
  MaxRetries : Z;
  InitialBackoff : Duration;
  MaxBackoff : Duration;
  BackoffFactor : float
}.

Definition DefaultRetryConfig : RetryConfig :=
  {| MaxRetries := 3;
     InitialBackoff := 100 * 1000000;
     MaxBackoff := 30 * 1000000000;
     BackoffFactor := 2.0%float |}.

(** The conversion [float64(x)] of an [int64]: the nearest binary64 value,
    ties to even. *)
Definition float64_of_int64 (x : Z) : float :=
  SF2Prim (binary_normalize prec emax x 0 false).

(** The conversion [int64(f)], here to [time.Duration]: the fraction is
    discarded.  Where the truncated value is not an [int64] (or [f] is an
    infinity or a NaN) the language leaves the result to the implementation:
    it is [unrepresentable f]. *)
Definition int64_of_float64 (unrepresentable : float -> Z) (f : float) : Z :=
  match Prim2SF f with
  | S754_zero _ => 0
  | S754_finite s m e =>
      let a := if 0 <=? e then Z.pos m * 2 ^ e else Z.pos m / 2 ^ (- e) in
      let v := if s then - a else a in
      if (min_int64 <=? v) && (v <=? max_int64) then v else unrepresentable f
  | _ => unrepresentable f
  end.

Module RetryConfig.

(** The [for i := 0; i < attempt; i++] of [BackoffDuration], with [n] turns
    left. *)
Fixpoint BackoffDuration_loop (unrepresentable : float -> Z) (c : RetryConfig)
    (n : nat) (backoff : Duration) : Duration :=
  match n with
  | O => backoff
  | S n =>
      let backoff :=
        int64_of_float64 unrepresentable (float64_of_int64 backoff * BackoffFactor c)%float in
      if MaxBackoff c <? backoff then MaxBackoff c
      else BackoffDuration_loop unrepresentable c n backoff
  end.

Definition BackoffDuration (unrepresentable : float -> Z) (c : RetryConfig)
    (attempt : Z) : Duration :=
  if attempt <=? 0 then InitialBackoff c
  else BackoffDuration_loop unrepresentable c (Z.to_nat attempt) (InitialBackoff c).

End RetryConfig.

(** ** The payment service (services/payment/internal/service, internal/server) *)

(** The request and response structs come from the generated package
    [proto/payment], whose file is not among the sources: the records below
    have the fields that the services read and write, with the types these
    uses fix.  The two enumerations of that package are kept abstract: the
    constants the code names, the zero value that a struct literal leaves in
    a field it does not set, and the method [String()] of the error codes.
    The lines written with [log.Printf] are not part of the world. *)
Class PaymentEnums : Type := {
  PaymentErrorCode : Type;
  PaymentErrorCode_zero : PaymentErrorCode;
  PaymentErrorCode_PAYMENT_ERROR_CODE_PROCESSING_ERROR : PaymentErrorCode;
  PaymentErrorCode_PAYMENT_ERROR_CODE_LIMIT_EXCEEDED : PaymentErrorCode;
  PaymentErrorCode_PAYMENT_ERROR_CODE_INVALID_CARD : PaymentErrorCode;
  PaymentErrorCode_String : PaymentErrorCode -> string;
  PaymentStatus : Type;
  PaymentStatus_PAYMENT_STATUS_COMPLETED : PaymentStatus
}.

Record PaymentRequest : Type := mkPaymentRequest {
  IdempotencyKey : string;
  OrderID : string;
  AmountCents : Z;
  Currency : string;
  CustomerEmail : string
}.

Record PaymentResponse {PE : PaymentEnums} : Type := mkPaymentResponse {
  Success : bool;
  TransactionID : string;
  ErrorCode : PaymentErrorCode;
  ErrorMessage : string;
  ProcessedAt : Time
}.

(** [PaymentStatusRequest] has the one field [TransactionID]. *)
Record PaymentStatusRequest : Type := mkPaymentStatusRequest {
  query_TransactionID : string
}.

(** [PaymentStatusResponse]; the fields are [TransactionID], [OrderID], ... in
    the source. *)
Record PaymentStatusResponse {PE : PaymentEnums} : Type := mkPaymentStatusResponse {
  tx_TransactionID : string;
  tx_OrderID : string;
  tx_AmountCents : Z;
  tx_Currency : string;
  tx_Status : PaymentStatus;
  tx_CreatedAt : Time
}.

Record PaymentConfig : Type := mkPaymentConfig {
  MaxAmountCents : Z;
  SimulateLatency : Duration;
  FailureRate : float
}.

Definition DefaultPaymentConfig : PaymentConfig :=
  {| MaxAmountCents := 1000000;
     SimulateLatency := 100 * 1000000;
     FailureRate := 0.0%float |}.

(** The [PaymentService] struct, without its mutex.  The two maps hold
    pointers in the source; no function of the service writes through them
    after the struct they point to is built, so they hold the structs here.
    The field is [config] in the source. *)
Record PaymentService {PE : PaymentEnums} : Type := mkPaymentService {
  transactions : gmap string PaymentStatusResponse;
  processedKeys : gmap string PaymentResponse;
  payment_config : PaymentConfig
}.

Record PaymentStats : Type := mkPaymentStats {
  TotalTransactions : Z;
  TotalAmountCents : Z;
  CachedIdempotencies : Z
}.

(** [errors.New("transaction not found")] *)
Definition ErrTransactionNotFound : error := ErrHandler "transaction not found".

#[global] Instance error_eq_dec : EqDecision error.
Proof. solve_decision. Defined.

Definition NewPaymentService {PE : PaymentEnums} (config : PaymentConfig) : PaymentService :=
  {| transactions := ∅; processedKeys := ∅; payment_config := config |}.

Definition set_transactions {PE : PaymentEnums} (x : gmap string PaymentStatusResponse)
    (s : PaymentService) : PaymentService :=
  mkPaymentService _ x (processedKeys s) (payment_config s).
Definition set_processedKeys {PE : PaymentEnums} (x : gmap string PaymentResponse)
    (s : PaymentService) : PaymentService :=
  mkPaymentService _ (transactions s) x (payment_config s).

Module PaymentService.

(** [uuid.New().String()] has 36 characters, so the slice [[:8]] of it is in
    range.  [%] is the remainder of the truncated division. *)
Definition processPaymentInternal {PE : PaymentEnums} (s : PaymentService)
    (req : PaymentRequest) : M PaymentResponse :=
  now ← time_Now;
  if AmountCents req <=? 0 then
    mret {| Success := false;
            TransactionID := "";
            ErrorCode := PaymentErrorCode_PAYMENT_ERROR_CODE_PROCESSING_ERROR;
            ErrorMessage := "Amount must be positive";
            ProcessedAt := now |}
  else if MaxAmountCents (payment_config s) <? AmountCents req then
    mret {| Success := false;
            TransactionID := "";
            ErrorCode := PaymentErrorCode_PAYMENT_ERROR_CODE_LIMIT_EXCEEDED;
            ErrorMessage := "Amount exceeds maximum allowed";
            ProcessedAt := now |}
  else if decide (OrderID req = "") then
    mret {| Success := false;
            TransactionID := "";
            ErrorCode := PaymentErrorCode_PAYMENT_ERROR_CODE_PROCESSING_ERROR;
            ErrorMessage := "Order ID is required";
            ProcessedAt := now |}
  else if Z.rem (AmountCents req) 100 =? 99 then
    mret {| Success := false;
            TransactionID := "";
            ErrorCode := PaymentErrorCode_PAYMENT_ERROR_CODE_INVALID_CARD;
            ErrorMessage := "Card declined (simulated)";
            ProcessedAt := now |}
  else
    u ← uuid_New;
    let transactionID := "tx_" +:+ String.substring 0 8 u in
    mret {| Success := true;
            TransactionID := transactionID;
            ErrorCode := PaymentErrorCode_zero;
            ErrorMessage := "";
            ProcessedAt := now |}.

(** [ProcessPayment] returns the response, a nil error, and leaves the service
    in the state returned beside them. *)
Definition ProcessPayment {PE : PaymentEnums} (s : PaymentService) (ctx : Context)
    (req : PaymentRequest)
    : M ((option PaymentResponse * option error) * PaymentService) :=
  (if 0 <? SimulateLatency (payment_config s)
   then time_Sleep (SimulateLatency (payment_config s)) else mret tt);;
  match processedKeys s !! IdempotencyKey req with
  | Some cached => mret ((Some cached, None), s)
  | None =>
      response ← processPaymentInternal s req;
      let s := set_processedKeys (<[IdempotencyKey req := response]> (processedKeys s)) s in
      let s :=
        if Success response then
          set_transactions
            (<[TransactionID response :=
                 {| tx_TransactionID := TransactionID response;
                    tx_OrderID := OrderID req;
                    tx_AmountCents := AmountCents req;
                    tx_Currency := Currency req;
                    tx_Status := PaymentStatus_PAYMENT_STATUS_COMPLETED;
                    tx_CreatedAt := ProcessedAt response |}]> (transactions s)) s
        else s in
      mret ((Some response, None), s)
  end.

Definition GetPaymentStatus {PE : PaymentEnums} (s : PaymentService) (ctx : Context)
    (req : PaymentStatusRequest) : option PaymentStatusResponse * option error :=
  match transactions s !! query_TransactionID req with
  | None => (None, Some ErrTransactionNotFound)
  | Some tx => (Some tx, None)
  end.

(** The [for _, tx := range s.transactions] of [Stats]. *)
Fixpoint Stats_loop {PE : PaymentEnums} (entries : list (string * PaymentStatusResponse))
    (totalAmount : Z) : Z :=
  match entries with
  | [] => totalAmount
  | (_, tx) :: rest => Stats_loop rest (wrap64 (totalAmount + tx_AmountCents tx))
  end.

Definition Stats {PE : PaymentEnums} (s : PaymentService) : PaymentStats :=
  {| TotalTransactions := Z.of_nat (size (transactions s));
     CachedIdempotencies := Z.of_nat (size (processedKeys s));
     TotalAmountCents := Stats_loop (map_to_list (transactions s)) 0 |}.

End PaymentService.

(** [google.golang.org/grpc]: the codes that the server uses, and the error
    that [status.Error(c, msg)] builds. *)
Inductive Code : Type := InvalidArgument | NotFound | Internal.

Inductive rpc_error : Type :=
  | status_Error (c : Code) (msg : string).

(** [validatePaymentRequest(req)] *)
Definition validatePaymentRequest (req : PaymentRequest) : option rpc_error :=
  if decide (OrderID req = "") then
    Some (status_Error InvalidArgument "order_id is required")
  else if AmountCents req <=? 0 then
    Some (status_Error InvalidArgument "amount must be positive")
  else if decide (Currency req = "") then
    Some (status_Error InvalidArgument "currency is required")
  else if decide (IdempotencyKey req = "") then
    Some (status_Error InvalidArgument "idempotency_key is required")
  else None.

(** The [PaymentServer] struct holds a pointer to the service: a method of the
    server takes the service and returns it as its calls leave it.
    [Error] is the method [Error()] of the errors of the grpc library. *)
Module PaymentServer.

Definition ProcessPayment {PE : PaymentEnums} (Error : rpc_error -> string)
    (svc : PaymentService) (ctx : Context) (req : PaymentRequest)
    : M ((option PaymentResponse * option rpc_error) * PaymentService) :=
  match validatePaymentRequest req with
  | Some err => mret ((None, Some (status_Error InvalidArgument (Error err))), svc)
  | None =>
      r ← PaymentService.ProcessPayment svc ctx req;
      let '((resp, err), svc) := r in
      match err with
      | Some _ => mret ((None, Some (status_Error Internal "payment processing failed")), svc)
      | None => mret ((resp, None), svc)
      end
  end.

Definition GetPaymentStatus {PE : PaymentEnums} (svc : PaymentService) (ctx : Context)
    (req : PaymentStatusRequest) : option PaymentStatusResponse * option rpc_error :=
  if decide (query_TransactionID req = "") then
    (None, Some (status_Error InvalidArgument "transaction_id is required"))
  else
    let '(resp, err) := PaymentService.GetPaymentStatus svc ctx req in
    match err with
    | Some err =>
        if decide (err = ErrTransactionNotFound)
        then (None, Some (status_Error NotFound "transaction not found"))
        else (None, Some (status_Error Internal "failed to get status"))
    | None => (resp, None)
    end.

End PaymentServer.

(** ** The order service (services/order/internal/service) *)

(** The structs [Order] and [OrderItem] and the enumeration [OrderStatus]
    come from the generated package [proto/order], whose file is not among
    the sources: the records have the fields that the service and its HTTP
    handler read and write; of the enumeration, the three constants that the
    code names and the comparison of its values.  The lines written with
    [log.Printf] are not part of the world. *)
Class OrderEnums : Type := {
  OrderStatus : Type;
  OrderStatus_eq_dec :: EqDecision OrderStatus;
  OrderStatus_ORDER_STATUS_PENDING : OrderStatus;
  OrderStatus_ORDER_STATUS_PAID : OrderStatus;
  OrderStatus_ORDER_STATUS_CANCELLED : OrderStatus
}.

(** [Quantity] is an [int32], [UnitPriceCents] an [int64]. *)
Record OrderItem : Type := mkOrderItem {
  ProductID : string;
  ProductName : string;
  Quantity : Z;
  UnitPriceCents : Z
}.

(** The fields are [ID], [CustomerID], ... in the source. *)
Record Order {OE : OrderEnums} : Type := mkOrder {
  order_ID : string;
  order_CustomerID : string;
  order_CustomerEmail : string;
  order_Items : list OrderItem;
  order_TotalCents : Z;
  order_Currency : string;
  order_Status : OrderStatus;
  order_CreatedAt : Time;
  order_UpdatedAt : Time;
  order_PaymentTransactionID : string
}.

(** errors.go: the four error values of the package and the error type
    [*PaymentDeclinedError]. *)
Inductive order_error : Type :=
  | ErrOrderNotFound
  | ErrNoItems
  | ErrMissingEmail
  | ErrPaymentServiceUnavailable
  | PaymentDeclinedError (code message : string).

(** [e.Error()] of a [*PaymentDeclinedError]:
    [fmt.Sprintf("payment declined: %s - %s", e.Code, e.Message)]. *)
Definition PaymentDeclinedError_Error (code message : string) : string :=
  "payment declined: " +:+ code +:+ " - " +:+ message.

Definition IsPaymentDeclined (err : order_error) : bool :=
  match err with
  | PaymentDeclinedError _ _ => true
  | _ => false
  end.

(** [payment.PaymentServiceClient], the interface of the gRPC client: the
    service calls its method [ProcessPayment].  A client answers with a
    response or with an error; [C] is the state that the calls of the client
    act on. *)
Class PaymentServiceClient {PE : PaymentEnums} (C : Type) : Type := {
  client_ProcessPayment :
    C -> Context -> PaymentRequest -> M ((PaymentResponse + rpc_error) * C)
}.

(** The [OrderService] struct, without its mutex.  [orders] holds pointers in
    the source: an order is written through the pointer that [CreateOrder]
    holds while it is the entry of the map under its [ID], so the map holds
    the structs here. *)
Record OrderService {OE : OrderEnums} (C : Type) : Type := mkOrderService {
  orders : gmap string Order;
  paymentClient : C;
  broker : bref;
  topicName : string
}.
Arguments mkOrderService {_ _} _ _ _ _.
Arguments orders {_ _} _.
Arguments paymentClient {_ _} _.
Arguments broker {_ _} _.
Arguments topicName {_ _} _.

Definition NewOrderService {OE : OrderEnums} {C : Type} (paymentClient : C) (b : bref)
    (topicName : string) : OrderService C :=
  {| orders := ∅; paymentClient := paymentClient; broker := b; topicName := topicName |}.

Record CreateOrderRequest : Type := mkCreateOrderRequest {
  req_CustomerID : string;
  req_CustomerEmail : string;
  req_Items : list OrderItem;
  req_Currency : string
}.

Record OrderStats : Type := mkOrderStats {
  TotalOrders : Z;
  PaidOrders : Z;
  CancelledOrders : Z;
  PendingOrders : Z;
  TotalRevenueCents : Z
}.

Definition set_orders {OE : OrderEnums} {C : Type} (x : gmap string Order) (s : OrderService C)
    : OrderService C :=
  mkOrderService x (paymentClient s) (broker s) (topicName s).
Definition set_paymentClient {OE : OrderEnums} {C : Type} (x : C) (s : OrderService C)
    : OrderService C :=
  mkOrderService (orders s) x (broker s) (topicName s).

Definition set_order_Status {OE : OrderEnums} (x : OrderStatus) (o : Order) : Order :=
  mkOrder _ (order_ID o) (order_CustomerID o) (order_CustomerEmail o) (order_Items o)
          (order_TotalCents o) (order_Currency o) x (order_CreatedAt o) (order_UpdatedAt o)
          (order_PaymentTransactionID o).
Definition set_order_UpdatedAt {OE : OrderEnums} (x : Time) (o : Order) : Order :=
  mkOrder _ (order_ID o) (order_CustomerID o) (order_CustomerEmail o) (order_Items o)
          (order_TotalCents o) (order_Currency o) (order_Status o) (order_CreatedAt o) x
          (order_PaymentTransactionID o).
Definition set_order_PaymentTransactionID {OE : OrderEnums} (x : string) (o : Order) : Order :=
  mkOrder _ (order_ID o) (order_CustomerID o) (order_CustomerEmail o) (order_Items o)
          (order_TotalCents o) (order_Currency o) (order_Status o) (order_CreatedAt o)
          (order_UpdatedAt o) x.

Definition set_PaidOrders (x : Z) (s : OrderStats) : OrderStats :=
  mkOrderStats (TotalOrders s) x (CancelledOrders s) (PendingOrders s) (TotalRevenueCents s).
Definition set_CancelledOrders (x : Z) (s : OrderStats) : OrderStats :=
  mkOrderStats (TotalOrders s) (PaidOrders s) x (PendingOrders s) (TotalRevenueCents s).
Definition set_PendingOrders (x : Z) (s : OrderStats) : OrderStats :=
  mkOrderStats (TotalOrders s) (PaidOrders s) (CancelledOrders s) x (TotalRevenueCents s).
Definition set_TotalRevenueCents (x : Z) (s : OrderStats) : OrderStats :=
  mkOrderStats (TotalOrders s) (PaidOrders s) (CancelledOrders s) (PendingOrders s) x.

(** The goroutine that [CreateOrder] starts: [go s.publishOrderCreated(newOrder)].
    Nothing writes to the order after the [go] statement, so the goroutine
    holds the struct. *)
Inductive OrderGoroutine {OE : OrderEnums} : Type :=
  | PublishOrderCreated (o : Order).

Module OrderService.

(** The [for _, item := range req.Items] of [CreateOrder]. *)
Fixpoint CreateOrder_loop (items : list OrderItem) (totalCents : Z) : Z :=
  match items with
  | [] => totalCents
  | item :: rest =>
      CreateOrder_loop rest
        (wrap64 (totalCents + wrap64 (UnitPriceCents item * Quantity item)))
  end.

Definition updateOrderStatus {OE : OrderEnums} {C : Type} (s : OrderService C)
    (orderID : string) (status : OrderStatus) : M (OrderService C) :=
  match orders s !! orderID with
  | Some o =>
      now ← time_Now;
      mret (set_orders
              (<[orderID := set_order_UpdatedAt now (set_order_Status status o)]> (orders s)) s)
  | None => mret s
  end.

(** [CreateOrder] returns the order and the error, leaves the service in the
    state returned with them, and has started the goroutines of the list. *)
Definition CreateOrder {PE : PaymentEnums} {OE : OrderEnums} {C : Type}
    {PC : PaymentServiceClient C}
    (s : OrderService C) (ctx : Context) (req : CreateOrderRequest)
    : M ((option Order * option order_error) * OrderService C * list OrderGoroutine) :=
  if decide (length (req_Items req) = 0%nat) then mret ((None, Some ErrNoItems), s, [])
  else if decide (req_CustomerEmail req = "") then mret ((None, Some ErrMissingEmail), s, [])
  else
    let totalCents := CreateOrder_loop (req_Items req) 0 in
    now ← time_Now;
    u ← uuid_New;
    let newOrder :=
      {| order_ID := "ord_" +:+ String.substring 0 8 u;
         order_CustomerID := req_CustomerID req;
         order_CustomerEmail := req_CustomerEmail req;
         order_Items := req_Items req;
         order_TotalCents := totalCents;
         order_Currency := req_Currency req;
         order_Status := OrderStatus_ORDER_STATUS_PENDING;
         order_CreatedAt := now;
         order_UpdatedAt := now;
         order_PaymentTransactionID := "" |} in
    let s := set_orders (<[order_ID newOrder := newOrder]> (orders s)) s in
    r ← client_ProcessPayment (paymentClient s) ctx
          {| IdempotencyKey := order_ID newOrder;
             OrderID := order_ID newOrder;
             AmountCents := totalCents;
             Currency := req_Currency req;
             CustomerEmail := req_CustomerEmail req |};
    let s := set_paymentClient (snd r) s in
    match fst r with
    | inr err =>
        s ← updateOrderStatus s (order_ID newOrder) OrderStatus_ORDER_STATUS_CANCELLED;
        mret ((None, Some ErrPaymentServiceUnavailable), s, [])
    | inl paymentResp =>
        if negb (Success paymentResp) then
          s ← updateOrderStatus s (order_ID newOrder) OrderStatus_ORDER_STATUS_CANCELLED;
          mret ((None, Some (PaymentDeclinedError
                               (PaymentErrorCode_String (ErrorCode paymentResp))
                               (ErrorMessage paymentResp))), s, [])
        else
          let newOrder := set_order_Status OrderStatus_ORDER_STATUS_PAID newOrder in
          let newOrder :=
            set_order_PaymentTransactionID (TransactionID paymentResp) newOrder in
          now ← time_Now;
          let newOrder := set_order_UpdatedAt now newOrder in
          let s := set_orders (<[order_ID newOrder := newOrder]> (orders s)) s in
          mret ((Some newOrder, None), s, [PublishOrderCreated newOrder])
    end.

(** [order.NewOrderCreatedEvent] is a function of the generated package and
    [json.Marshal] the library's: the code is read for whatever they return. *)
Definition publishOrderCreated {OE : OrderEnums} {C V : Type}
    (NewOrderCreatedEvent : Order -> V) (json_Marshal : V -> list byte + error)
    (s : OrderService C) (o : Order) : M unit :=
  let event := NewOrderCreatedEvent o in
  r ← NewMessage json_Marshal "order.created" event;
  match r with
  | (_, Some err) => mret tt
  | (None, None) => mret tt
  | (Some msg, None) =>
      Message.SetMetadata msg "order_id" (order_ID o);;
      Message.SetMetadata msg "customer_email" (order_CustomerEmail o);;
      ctx ← context_WithTimeout (5 * 1000000000);
      Broker.Publish (broker s) ctx (topicName s) msg;;
      mret tt
  end.

Definition GetOrder {OE : OrderEnums} {C : Type} (s : OrderService C) (ctx : Context)
    (orderID : string) : option Order * option order_error :=
  match orders s !! orderID with
  | None => (None, Some ErrOrderNotFound)
  | Some o => (Some o, None)
  end.

(** [ListOrders]: the orders in the order in which the map is ranged over. *)
Definition ListOrders {OE : OrderEnums} {C : Type} (s : OrderService C) (ctx : Context)
    : list Order * option order_error :=
  ((map_to_list (orders s)).*2, None).

(** The [for _, o := range s.orders] of [Stats]; a [switch] takes the first
    case that matches. *)
Fixpoint Stats_loop {OE : OrderEnums} (entries : list (string * Order)) (stats : OrderStats)
    : OrderStats :=
  match entries with
  | [] => stats
  | (_, o) :: rest =>
      Stats_loop rest
        (if decide (order_Status o = OrderStatus_ORDER_STATUS_PAID) then
           set_TotalRevenueCents (wrap64 (TotalRevenueCents stats + order_TotalCents o))
             (set_PaidOrders (incr (PaidOrders stats)) stats)
         else if decide (order_Status o = OrderStatus_ORDER_STATUS_CANCELLED) then
           set_CancelledOrders (incr (CancelledOrders stats)) stats
         else if decide (order_Status o = OrderStatus_ORDER_STATUS_PENDING) then
           set_PendingOrders (incr (PendingOrders stats)) stats
         else stats)
  end.

Definition Stats {OE : OrderEnums} {C : Type} (s : OrderService C) : OrderStats :=
  Stats_loop (map_to_list (orders s))
    {| TotalOrders := Z.of_nat (size (orders s));
       PaidOrders := 0; CancelledOrders := 0; PendingOrders := 0;
       TotalRevenueCents := 0 |}.

End OrderService.

(** ** A concrete world, for running the code *)

(** An injective, never empty uuid source: ["u"], ["u1"], ["u11"], ... *)
Fixpoint tally (n : nat) : string :=
  match n with
  | O => ""
  | S k => "1" +:+ tally k
  end.

Definition unary_uuid (n : nat) : string := "u" +:+ tally n.

(** A clock that starts at 1000 ns and advances one nanosecond per reading. *)
Definition ticking_clock (n : nat) : Time := 1000 + Z.of_nat n.

Definition blank_Message : Message := mkMessage "" "" [] None 0 0 0 "".
Definition blank_Queue : Queue := mkQueue "" [] 0 0 None (mkQueueStats 0 0 0 0).

(** No message, no queue, no topic; one broker with the default
    configuration at address 0 and one idempotency store at address 0. *)
Definition empty_world (ttl : Duration) : World :=
  {| heapM := fun _ => blank_Message; nextM := 0%nat;
     heapQ := fun _ => blank_Queue; nextQ := 0%nat;
     heapT := fun _ => mkTopic "" []; nextT := 0%nat;
     heapB := fun _ => NewBroker DefaultBrokerConfig;
     heapS := fun _ => NewInMemoryIdempotencyStore ttl;
     clock := ticking_clock; tick := 0%nat;
     uuids := unary_uuid; drawn := 0%nat;
     goroutines := [] |}.

(** Running a computation for its final world, and for its result. *)
Definition exec {A} (c : M A) (w : World) : World := snd (c w).
Definition eval {A} (c : M A) (w : World) : A := fst (c w).

(** ** Vocabulary of the properties *)

(** A pointer handed out by an allocation that has already happened. *)
Definition allocated (w : World) (p : loc) : Prop := (p < nextM w)%nat.

(** [t] is a reading of [time.Now()] taken between the worlds [w] and [w']. *)
Definition read_between (w w' : World) (t : Time) : Prop :=
  exists k, (tick w <= k < tick w')%nat /\ clock w k = t.

(** The call of [IsVisible] on [p] made between [w] and [w'] answered no,
    respectively yes (each call reads the clock anew). *)
Definition seen_invisible (w w' : World) (p : loc) : Prop :=
  exists t, read_between w w' t /\ Message.visible_at t (heapM w p) = false.

Definition seen_visible (w w' : World) (p : loc) : Prop :=
  exists t, read_between w w' t /\ Message.visible_at t (heapM w p) = true.

(** The three assignments of [Receive] to the message it leases. *)
Definition leased (now : Time) (timeout : Duration) (h : string) (m : Message) : Message :=
  set_RetryCount (incr (RetryCount m))
    (set_ReceiptHandle h (set_VisibleAt (Time_Add now timeout) m)).

(** The most recent [MarkProcessed(id)] on the store [s] recorded the
    instant [t]. *)
Definition marked_at (w : World) (s : sref) (id : string) (t : Time) : Prop :=
  processed (heapS w s) !! id = Some t.

(** [MarkProcessed(id)] with [IsProcessed(id)] as the very next call. *)
Definition mark_then_ask (s : sref) (id : string) : M bool :=
  InMemoryIdempotencyStore.MarkProcessed s id;;
  InMemoryIdempotencyStore.IsProcessed s id.

(** [uuid.New()] as its library promises it: never the empty string and
    never the same value twice. *)
Definition uuids_distinct (w : World) : Prop :=
  (forall k, uuids w k <> "") /\ (forall i j, uuids w i = uuids w j -> i = j).

(** A handle value that is old in [w]: the empty string (no lease), or one of
    the uuids drawn before [w]. *)
Definition drawn_before (w : World) (h : string) : Prop :=
  h = "" \/ exists k, (k < drawn w)%nat /\ h = uuids w k.

(** The message at [p] holds the receipt handle [h]. *)
Definition holds (w : World) (h : string) (p : loc) : Prop :=
  ReceiptHandle (heapM w p) = h.

#[global] Instance holds_dec (w : World) (h : string) (p : loc) : Decision (holds w h p) :=
  decide (ReceiptHandle (heapM w p) = h).

(** The slot and message that [Acknowledge] and [Nack] locate by handle: the
    first slot, in insertion order, whose message holds [h]. *)
Definition located (w : World) (q : qref) (h : string) : option (nat * loc) :=
  list_find (holds w h) (messages (heapQ w q)).

(** The message at [p] carries the ID of the message at [msg]. *)
Definition same_ID (w : World) (msg p : loc) : Prop :=
  ID (heapM w p) = ID (heapM w msg).

#[global] Instance same_ID_dec (w : World) (msg p : loc) : Decision (same_ID w msg p) :=
  decide (ID (heapM w p) = ID (heapM w msg)).

(** The queue struct after [Enqueue], after a successful [Acknowledge] of
    slot [i], and after the dead-letter transition of slot [j]. *)
Definition appended (msg : loc) (Q : Queue) : Queue :=
  sync_CurrentSize (incr_TotalReceived (set_messages (messages Q ++ [msg]) Q)).

Definition acknowledged (i : nat) (Q : Queue) : Queue :=
  sync_CurrentSize (incr_TotalProcessed (remove_at i Q)).

Definition dead_lettered (j : nat) (Q : Queue) : Queue :=
  incr_TotalFailed (sync_CurrentSize (remove_at j Q)).

(** What [Enqueue] leaves in the message it was given: an ID and a timestamp
    if it had none. *)
Definition stamped (id : string) (now : Time) (m : Message) : Message :=
  set_Timestamp (if Time_IsZero (Timestamp m) then now else Timestamp m)
    (set_ID (if decide (ID m = "") then id else ID m) m).

(** The retry branch of [Nack]. *)
Definition retry (msg : loc) : M (option error) :=
  update msg (set_VisibleAt zero_Time);;
  update msg (set_ReceiptHandle "");;
  mret None.

(** The clone that [moveToDeadLetterQueueLocked] prepares for the DLQ. *)
Definition dead_letter_copy (qname id : string) (m : Message) : Message :=
  set_VisibleAt zero_Time
    (set_ReceiptHandle ""
       (Message.with_metadata "failure_reason" "max_retries_exceeded"
          (Message.with_metadata "original_queue" qname (Message.clone_of id m)))).

(** The clone that [Publish] prepares for one subscriber. *)
Definition delivery (tname id d : string) (m : Message) : Message :=
  Message.with_metadata "delivery_id" d
    (Message.with_metadata "source_topic" tname (Message.clone_of id m)).

(** One turn of the loop of [Publish]. *)
Definition deliver (t : tref) (ctx : Context) (msg : loc) (queue : qref) : M unit :=
  clone ← Message.Clone msg;
  T ← loadT t;
  Message.SetMetadata clone "source_topic" (topic_name T);;
  d ← uuid_New;
  Message.SetMetadata clone "delivery_id" d;;
  Queue.Enqueue queue ctx clone;;
  mret tt.

(** The clones that a fan-out over [subs] appends to queue [q], when the
    first clone is allocated at [c]: one per occurrence of [q] in [subs]. *)
Fixpoint delivered (c : loc) (subs : list qref) (q : qref) : list loc :=
  match subs with
  | [] => []
  | s :: rest => (if decide (s = q) then [c] else []) ++ delivered (S c) rest q
  end.

(** The messages in queue [q] carry pairwise distinct IDs: two slots with
    the same ID are the same slot. *)
Definition distinct_IDs (w : World) (q : qref) : Prop :=
  forall i j p p',
    messages (heapQ w q) !! i = Some p ->
    messages (heapQ w q) !! j = Some p' ->
    ID (heapM w p) = ID (heapM w p') -> i = j.

(** The deadline of [ctx] has passed at time [now]. *)
Definition deadline_exceeded (ctx : Context) (now : Time) : Prop :=
  match deadline ctx with
  | Some d => d < now
  | None => False
  end.

(** The books of a queue balance: every message ever enqueued is still in the
    queue, was acknowledged, or failed (the counters are [int64], so up to
    their wrap-around), and [CurrentSize] is the length of the queue. *)
Definition books_balance (Q : Queue) : Prop :=
  (TotalReceived (stats Q) - TotalProcessed (stats Q) - TotalFailed (stats Q)
     - len (messages Q)) mod 2 ^ 64 = 0 /\
  CurrentSize (stats Q) = len (messages Q).

Definition balanced (w : World) : Prop := forall q, books_balance (heapQ w q).

(** The computation [c] keeps the books of every queue balanced. *)
Definition keeps {A} (c : M A) : Prop := forall w, balanced w -> balanced (exec c w).

(** The options of broker.go, by name; the fields of [Queue] are not
    exported, so these are the options a client can build. *)
Inductive QueueSetting : Type :=
  | VisibilityTimeout_ (d : Duration)
  | MaxRetries_ (n : Z)
  | DLQ_ (dlq : option qref).

Definition as_option (o : QueueSetting) : QueueOption :=
  match o with
  | VisibilityTimeout_ d => WithVisibilityTimeout d
  | MaxRetries_ n => WithMaxRetries n
  | DLQ_ dlq => WithDLQ dlq
  end.

(** What can happen to a world from outside the package: a call of an
    exported function, the client building a message or assigning to its
    (exported) fields, the scheduler running a pending goroutine. *)
Inductive Call : Type :=
  | Call_CreateTopic (b : bref) (name : string)
  | Call_CreateQueue (b : bref) (name : string) (opts : list QueueSetting)
  | Call_Subscribe (b : bref) (topicName queueName : string)
  | Call_Publish (b : bref) (ctx : Context) (topicName : string) (msg : loc)
  | Call_BrokerStats (b : bref)
  | Call_TopicPublish (t : tref) (ctx : Context) (msg : loc)
  | Call_Enqueue (q : qref) (ctx : Context) (msg : loc)
  | Call_Receive (q : qref) (ctx : Context)
  | Call_Acknowledge (q : qref) (ctx : Context) (receiptHandle : string)
  | Call_Nack (q : qref) (ctx : Context) (receiptHandle : string)
  | Call_Stats (q : qref)
  | Client_new (m : Message)
  | Client_assign (p : loc) (f : Message -> Message)
  | Scheduler_runs (i : nat).

Definition run_call (c : Call) : M unit :=
  match c with
  | Call_CreateTopic b name => Broker.CreateTopic b name;; mret tt
  | Call_CreateQueue b name opts => Broker.CreateQueue b name (as_option <$> opts);; mret tt
  | Call_Subscribe b topicName queueName => Broker.Subscribe b topicName queueName;; mret tt
  | Call_Publish b ctx topicName msg => Broker.Publish b ctx topicName msg;; mret tt
  | Call_BrokerStats b => Broker.Stats b;; mret tt
  | Call_TopicPublish t ctx msg => Topic.Publish t ctx msg;; mret tt
  | Call_Enqueue q ctx msg => Queue.Enqueue q ctx msg;; mret tt
  | Call_Receive q ctx => Queue.Receive q ctx;; mret tt
  | Call_Acknowledge q ctx h => Queue.Acknowledge q ctx h;; mret tt
  | Call_Nack q ctx h => Queue.Nack q ctx h;; mret tt
  | Call_Stats q => Queue.Stats q;; mret tt
  | Client_new m => new_Message m;; mret tt
  | Client_assign p f => update p f
  | Scheduler_runs i => schedule i
  end.

Fixpoint run_calls (cs : list Call) : M unit :=
  match cs with
  | [] => mret tt
  | c :: rest => run_call c;; run_calls rest
  end.

(** What a setting assigns. *)
Definition configure (Q : Queue) (o : QueueSetting) : Queue :=
  match o with
  | VisibilityTimeout_ d => set_visibilityTimeout d Q
  | MaxRetries_ n => set_maxRetries n Q
  | DLQ_ dlq => set_deadLetterQueue dlq Q
  end.

Definition visibility_setting (o : QueueSetting) : option Duration :=
  match o with VisibilityTimeout_ d => Some d | _ => None end.
Definition retries_setting (o : QueueSetting) : option Z :=
  match o with MaxRetries_ n => Some n | _ => None end.
Definition dlq_setting (o : QueueSetting) : option (option qref) :=
  match o with DLQ_ dlq => Some dlq | _ => None end.

(** The counters that [Stats] returns for a queue struct. *)
Definition snapshot (Q : Queue) : QueueStats := stats (sync_CurrentSize Q).

(** The handler does not touch the queues and the messages of the broker. *)
Definition leaves_broker_alone (h : MessageHandler) : Prop :=
  forall msg w,
    (forall p, heapM (exec (h msg) w) p = heapM w p) /\
    (forall q, heapQ (exec (h msg) w) q = heapQ w q).

(** *** Payments *)

(** A run of [ProcessPayment] calls, one after the other. *)
Fixpoint ProcessPayments {PE : PaymentEnums} (s : PaymentService)
    (reqs : list (Context * PaymentRequest)) : M PaymentService :=
  match reqs with
  | [] => mret s
  | (ctx, req) :: rest =>
      r ← PaymentService.ProcessPayment s ctx req;
      ProcessPayments (snd r) rest
  end.

(** The requests that [processPaymentInternal] accepts. *)
Definition payable {PE : PaymentEnums} (s : PaymentService) (req : PaymentRequest) : bool :=
  (0 <? AmountCents req) && (AmountCents req <=? MaxAmountCents (payment_config s))
  && bool_decide (OrderID req <> "") && negb (Z.rem (AmountCents req) 100 =? 99).

(** The record of the payment of [req] under the transaction id [id]. *)
Definition receipt {PE : PaymentEnums} (id : string) (req : PaymentRequest) (at_ : Time)
    : PaymentStatusResponse :=
  {| tx_TransactionID := id;
     tx_OrderID := OrderID req;
     tx_AmountCents := AmountCents req;
     tx_Currency := Currency req;
     tx_Status := PaymentStatus_PAYMENT_STATUS_COMPLETED;
     tx_CreatedAt := at_ |}.

(** A request that passes [validatePaymentRequest]. *)
Definition well_formed (req : PaymentRequest) : Prop :=
  OrderID req <> "" /\ 0 < AmountCents req /\ Currency req <> "" /\ IdempotencyKey req <> "".

(** The sum of the amounts of a list of recorded transactions. *)
Fixpoint sum_amounts {PE : PaymentEnums} (entries : list (string * PaymentStatusResponse)) : Z :=
  match entries with
  | [] => 0
  | (_, tx) :: rest => tx_AmountCents tx + sum_amounts rest
  end.

(** What holds of a payment service after any run of calls. *)
Definition sound {PE : PaymentEnums} (s : PaymentService) : Prop :=
  (forall key resp, processedKeys s !! key = Some resp ->
     if Success resp then is_Some (transactions s !! TransactionID resp)
     else TransactionID resp = "") /\
  (forall id tx, transactions s !! id = Some tx ->
     tx_TransactionID tx = id /\ id <> "" /\
     0 < tx_AmountCents tx <= MaxAmountCents (payment_config s)) /\
  (size (transactions s) <= size (processedKeys s))%nat.

(** *** Orders *)

(** The payment server called in process, as a client: the request reaches
    [PaymentServer.ProcessPayment] as it was sent and the answer comes back as
    it was given (the server never answers with neither response nor error). *)
Definition InProcess {PE : PaymentEnums} (Error : rpc_error -> string)
    : PaymentServiceClient PaymentService :=
  {| client_ProcessPayment svc ctx req :=
       r ← PaymentServer.ProcessPayment Error svc ctx req;
       mret (match snd (fst r) with
             | Some err => inr err
             | None =>
                 match fst (fst r) with
                 | Some resp => inl resp
                 | None => inr (status_Error Internal "no response")
                 end
             end, snd r) |}.

(** A run of [CreateOrder] calls, one after the other. *)
Fixpoint CreateOrders {PE : PaymentEnums} {OE : OrderEnums} {C : Type}
    {PC : PaymentServiceClient C}
    (s : OrderService C) (reqs : list (Context * CreateOrderRequest)) : M (OrderService C) :=
  match reqs with
  | [] => mret s
  | (ctx, req) :: rest =>
      r ← OrderService.CreateOrder s ctx req;
      CreateOrders (snd (fst r)) rest
  end.

(** The order that [CreateOrder] stores before it calls the payment client,
    given the readings of the clock and of the uuid source. *)
Definition pending_order {OE : OrderEnums} (now : Time) (u : string) (req : CreateOrderRequest)
    : Order :=
  {| order_ID := "ord_" +:+ String.substring 0 8 u;
     order_CustomerID := req_CustomerID req;
     order_CustomerEmail := req_CustomerEmail req;
     order_Items := req_Items req;
     order_TotalCents := OrderService.CreateOrder_loop (req_Items req) 0;
     order_Currency := req_Currency req;
     order_Status := OrderStatus_ORDER_STATUS_PENDING;
     order_CreatedAt := now;
     order_UpdatedAt := now;
     order_PaymentTransactionID := "" |}.

(** The payment request that [CreateOrder] sends for it. *)
Definition payment_of {OE : OrderEnums} (o : Order) : PaymentRequest :=
  {| IdempotencyKey := order_ID o;
     OrderID := order_ID o;
     AmountCents := order_TotalCents o;
     Currency := order_Currency o;
     CustomerEmail := order_CustomerEmail o |}.

(** The order as [CreateOrder] leaves it after a refusal, and after a payment. *)
Definition cancelled {OE : OrderEnums} (at_ : Time) (o : Order) : Order :=
  set_order_UpdatedAt at_ (set_order_Status OrderStatus_ORDER_STATUS_CANCELLED o).

Definition paid {OE : OrderEnums} (tx : string) (at_ : Time) (o : Order) : Order :=
  set_order_UpdatedAt at_
    (set_order_PaymentTransactionID tx (set_order_Status OrderStatus_ORDER_STATUS_PAID o)).

(** Every stored order is stored under its id and is paid or cancelled. *)
Definition settled_store {OE : OrderEnums} {C : Type} (s : OrderService C) : Prop :=
  forall id o, orders s !! id = Some o ->
    order_ID o = id /\
    (order_Status o = OrderStatus_ORDER_STATUS_PAID \/
     order_Status o = OrderStatus_ORDER_STATUS_CANCELLED).

(** The message that [publishOrderCreated] builds, before it is published. *)
Definition order_created {OE : OrderEnums} (id : string) (payloadBytes : list byte)
    (now : Time) (o : Order) : Message :=
  Message.with_metadata "customer_email" (order_CustomerEmail o)
    (Message.with_metadata "order_id" (order_ID o)
       {| ID := id; Type_ := "order.created"; Payload := payloadBytes;
          Metadata := Some ∅; Timestamp := now; RetryCount := 0;
          VisibleAt := zero_Time; ReceiptHandle := "" |}).

(** *** Registries and metadata *)

(** The registries of the brokers name allocated queues and topics, each
    under the name it carries. *)
Definition registry_ok (w : World) : Prop :=
  (forall b n q, queues (heapB w b) !! n = Some q ->
     (q < nextQ w)%nat /\ name (heapQ w q) = n) /\
  (forall b n t, topics (heapB w b) !! n = Some t ->
     (t < nextT w)%nat /\ topic_name (heapT w t) = n).

(** From [w] to [w'] queues and topics were only added: what was allocated
    keeps its name, what was registered stays registered, and every new entry
    of a registry names a new queue or topic that carries the name. *)
Definition grows (w w' : World) : Prop :=
  (nextQ w <= nextQ w')%nat /\ (nextT w <= nextT w')%nat /\
  (forall q, (q < nextQ w)%nat -> name (heapQ w' q) = name (heapQ w q)) /\
  (forall t, (t < nextT w)%nat -> topic_name (heapT w' t) = topic_name (heapT w t)) /\
  (forall b n q, queues (heapB w b) !! n = Some q -> queues (heapB w' b) !! n = Some q) /\
  (forall b n t, topics (heapB w b) !! n = Some t -> topics (heapB w' b) !! n = Some t) /\
  (forall b n q, queues (heapB w' b) !! n = Some q ->
     queues (heapB w b) !! n = Some q \/
     ((nextQ w <= q < nextQ w')%nat /\ name (heapQ w' q) = n)) /\
  (forall b n t, topics (heapB w' b) !! n = Some t ->
     topics (heapB w b) !! n = Some t \/
     ((nextT w <= t < nextT w')%nat /\ topic_name (heapT w' t) = n)).

(** A computation that only ever adds queues and topics. *)
Definition growing {A} (c : M A) : Prop := forall w, grows w (exec c w).

(** A computation that leaves the registries, the allocation marks and the
    names alone. *)
Definition still {A} (c : M A) : Prop :=
  forall w,
    heapB (exec c w) = heapB w /\ nextQ (exec c w) = nextQ w /\
    nextT (exec c w) = nextT w /\
    (forall q, name (heapQ (exec c w) q) = name (heapQ w q)) /\
    (forall t, topic_name (heapT (exec c w) t) = topic_name (heapT w t)).




(** ** Concrete scenarios *)

(** The bytes of the JSON text ["{}"], as an order payload. *)
Definition an_order : Message :=
  mkMessage "order-1" "order.created" [x7b; x7d] (Some ∅) 0 0 0 "".

(** The wiring of services/order/cmd/main.go, with a dead-letter queue: topic
    0 is "orders", queue 0 is "dead", queue 1 is "work" ([maxRetries] 2,
    [visibilityTimeout] 10 ns, DLQ "dead"), subscribed to "orders". *)
Definition wired : M unit :=
  Broker.CreateTopic 0%nat "orders";;
  d ← Broker.CreateQueue 0%nat "dead" [];
  Broker.CreateQueue 0%nat "work"
    [WithMaxRetries 2; WithVisibilityTimeout 10; WithDLQ (Some d)];;
  Broker.Subscribe 0%nat "orders" "work";;
  mret tt.

(** One order published: the original is message 0, its copy in "work" is
    message 1. *)
Definition world_published : World :=
  exec (wired;;
        m ← new_Message an_order;
        Broker.Publish 0%nat Background "orders" m)
       (empty_world 5).

(** Then leased once (handle "u11"), nacked, and leased again (handle "u111",
    [RetryCount] 2). *)
Definition world_leased : World :=
  exec (Queue.Receive 1%nat Background) world_published.

Definition world_nacked : World :=
  exec (Queue.Nack 1%nat Background "u11") world_leased.

Definition world_exhausted : World :=
  exec (Queue.Receive 1%nat Background) world_nacked.

(** The second nack exhausts the retries; then the scheduler runs the
    goroutine that deposits the clone in "dead". *)
Definition world_dead_lettered : World :=
  exec (Queue.Nack 1%nat Background "u111";; schedule 0) world_exhausted.

(** A second order published while the first copy is leased: "work" holds
    message 1 (leased, invisible) and message 3 (pending). *)
Definition world_two_pending : World :=
  exec (m ← new_Message an_order;
        Broker.Publish 0%nat Background "orders" m)
       world_leased.

(** One message object enqueued twice into one queue, then leased. *)
Definition world_shared : World :=
  exec (q ← Broker.CreateQueue 0%nat "work" [];
        m ← new_Message an_order;
        Queue.Enqueue q Background m;;
        Queue.Enqueue q Background m)
       (empty_world 5).

Definition world_shared_leased : World :=
  exec (Queue.Receive 0%nat Background) world_shared.

(** Two messages with the same ID in one queue ([maxRetries] 1, no DLQ), both
    leased: message 0 under handle "u", message 1 under handle "u1". *)
Definition world_same_id : World :=
  exec (q ← Broker.CreateQueue 0%nat "work" [WithMaxRetries 1];
        a ← new_Message an_order;
        b ← new_Message an_order;
        Queue.Enqueue q Background a;;
        Queue.Enqueue q Background b;;
        Queue.Receive q Background;;
        Queue.Receive q Background)
       (empty_world 5).

(** Topic "orders" with the subscribers "billing" (queue 0) and "shipping"
    (queue 1), and an order (message 0) about to be published. *)
Definition world_two_subscribers : World :=
  exec (Broker.CreateTopic 0%nat "orders";;
        Broker.CreateQueue 0%nat "billing" [];;
        Broker.CreateQueue 0%nat "shipping" [];;
        Broker.Subscribe 0%nat "orders" "billing";;
        Broker.Subscribe 0%nat "orders" "shipping";;
        new_Message an_order)
       (empty_world 5).

(** A context whose deadline, the zero time, has passed before the clock's
    first reading. *)
Definition expired : Context := mkContext (Some 0).

(** A queue with the default [maxRetries] 3 and a message (message 0) that
    was already leased five times elsewhere. *)
Definition world_retried : World :=
  exec (Broker.CreateQueue 0%nat "work" [];;
        new_Message (set_RetryCount 5 an_order))
       (empty_world 5).

Definition world_fresh_order : World :=
  exec (Broker.CreateQueue 0%nat "work" [];;
        new_Message an_order)
       (empty_world 5).

(** A handler that always fails. *)
Definition declining : MessageHandler :=
  fun _ => mret (Some (ErrHandler "payment declined")).

(** A history of calls: the wiring of main.go with a dead-letter queue, one
    order published, leased, nacked beyond [maxRetries] 1 and deposited in
    the dead-letter queue. *)
Definition history : list Call :=
  [ Call_CreateTopic 0%nat "orders";
    Call_CreateQueue 0%nat "dead" [];
    Call_CreateQueue 0%nat "work" [MaxRetries_ 1; DLQ_ (Some 0%nat)];
    Call_Subscribe 0%nat "orders" "work";
    Client_new an_order;
    Call_Publish 0%nat Background "orders" 0%nat;
    Call_Receive 1%nat Background;
    Call_Nack 1%nat Background "u11";
    Scheduler_runs 0;
    Call_Stats 1%nat ].

(** The lease of [world_leased], a hundred clock readings later. *)
Definition world_lease_expired : World := set_tick 100 world_leased.

(** Two orders published and waiting in "work": messages 1 and 3. *)
Definition world_two_orders : World :=
  exec (m ← new_Message an_order;
        Broker.Publish 0%nat Background "orders" m)
       world_published.

(** A handler that always succeeds and touches nothing. *)
Definition accepting : MessageHandler := fun _ => mret None.

(** *** Payments and orders *)

(** The enumerations, numbered. *)
Definition numbered_enums : PaymentEnums :=
  {| PaymentErrorCode := Z;
     PaymentErrorCode_zero := 0;
     PaymentErrorCode_PAYMENT_ERROR_CODE_PROCESSING_ERROR := 1;
     PaymentErrorCode_PAYMENT_ERROR_CODE_LIMIT_EXCEEDED := 2;
     PaymentErrorCode_PAYMENT_ERROR_CODE_INVALID_CARD := 3;
     PaymentErrorCode_String := fun c =>
       if c =? 1 then "PROCESSING_ERROR"
       else if c =? 2 then "LIMIT_EXCEEDED"
       else if c =? 3 then "INVALID_CARD" else "UNSPECIFIED";
     PaymentStatus := Z;
     PaymentStatus_PAYMENT_STATUS_COMPLETED := 1 |}.

Definition a_payment : PaymentRequest :=
  {| IdempotencyKey := "ord_1"; OrderID := "ord_1"; AmountCents := 249900;
     Currency := "BRL"; CustomerEmail := "demo@example.com" |}.

(** The same key, for another amount. *)
Definition a_second_attempt : PaymentRequest :=
  {| IdempotencyKey := "ord_1"; OrderID := "ord_1"; AmountCents := 2000000;
     Currency := "BRL"; CustomerEmail := "demo@example.com" |}.

Definition another_payment : PaymentRequest :=
  {| IdempotencyKey := "ord_2"; OrderID := "ord_2"; AmountCents := 1999;
     Currency := "BRL"; CustomerEmail := "demo@example.com" |}.

Definition numbered_order_enums : OrderEnums :=
  {| OrderStatus := Z;
     OrderStatus_ORDER_STATUS_PENDING := 1;
     OrderStatus_ORDER_STATUS_PAID := 2;
     OrderStatus_ORDER_STATUS_CANCELLED := 3 |}.

(** The text of a grpc error, reduced to its description. *)
Definition description (err : rpc_error) : string :=
  match err with status_Error _ msg => msg end.

(** The order of the demo of the Makefile: one laptop. *)
Definition a_laptop : CreateOrderRequest :=
  {| req_CustomerID := "";
     req_CustomerEmail := "demo@example.com";
     req_Items := [ {| ProductID := ""; ProductName := "Laptop Pro";
                       Quantity := 1; UnitPriceCents := 249900 |} ];
     req_Currency := "BRL" |}.

(** An order service on broker 0 and topic "orders", with a new payment
    service with the default configuration behind it. *)
Definition a_shop : OrderService (OE := numbered_order_enums)
                      (PaymentService (PE := numbered_enums)) :=
  NewOrderService (NewPaymentService DefaultPaymentConfig) 0%nat "orders".

(** The laptop order, paid. *)
Definition a_paid_order : Order (OE := numbered_order_enums) :=
  paid "tx_u1" 1002 (pending_order 1000 "u" a_laptop).

(** An event reduced to the id of its order, and a marshaller that writes the
    JSON text ["{}"] for every event. *)
Definition id_event (o : Order (OE := numbered_order_enums)) : string := order_ID o.
Definition braces (v : string) : list byte + error := inl [x7b; x7d].

(** The broker of [wired], before anything is published. *)
Definition world_wired : World := exec wired (empty_world 5).

(** One order enqueued by hand into two queues, "billing" (queue 0) and
    "shipping" (queue 1). *)
Definition world_two_queues : World :=
  exec (a ← Broker.CreateQueue 0%nat "billing" [];
        b ← Broker.CreateQueue 0%nat "shipping" [];
        m ← new_Message an_order;
        Queue.Enqueue a Background m;;
        Queue.Enqueue b Background m)
       (empty_world 5).

(** The world of [empty_world] with a clock that stands still: every
    reading is the same instant. *)
Definition standing_clock (n : nat) : Time := 1000.

Definition world_standing_clock (ttl : Duration) : World :=
  {| heapM := fun _ => blank_Message; nextM := 0%nat;
     heapQ := fun _ => blank_Queue; nextQ := 0%nat;
     heapT := fun _ => mkTopic "" []; nextT := 0%nat;
     heapB := fun _ => NewBroker DefaultBrokerConfig;
     heapS := fun _ => NewInMemoryIdempotencyStore ttl;
     clock := standing_clock; tick := 0%nat;
     uuids := unary_uuid; drawn := 0%nat;
     goroutines := [] |}.

(** "order-1" is marked in a store with a [ttl] of 5 ns; five other orders
    are marked after it, one clock reading each. *)
Definition world_marked_earlier : World :=
  exec (InMemoryIdempotencyStore.MarkProcessed 0%nat "order-1";;
        InMemoryIdempotencyStore.MarkProcessed 0%nat "order-2";;
        InMemoryIdempotencyStore.MarkProcessed 0%nat "order-3";;
        InMemoryIdempotencyStore.MarkProcessed 0%nat "order-4";;
        InMemoryIdempotencyStore.MarkProcessed 0%nat "order-5";;
        InMemoryIdempotencyStore.MarkProcessed 0%nat "order-6")
       (empty_world 5).

(** * Properties *)

(** Unfolding one step of the state monad. *)
Ltac step := unfold mbind, M_bind, mret, M_ret, load, loadQ, loadT, loadB, loadS,
  update, updateQ, updateT, updateB, updateS, modify, get, time_Now, uuid_New, go;
  simpl.

(** Reading a store after a write. *)
Ltac heap :=
  repeat first
    [ rewrite fn_lookup_insert
    | rewrite fn_lookup_insert_ne by (first [done | congruence | lia]) ].

#[local] Arguments run_goroutine : simpl never.

(** ** Running one call after another *)

Lemma exec_bind {A B} (c : M A) (k : A -> M B) (w : World) :
  exec (c ≫= k) w = exec (k (eval c w)) (exec c w).
Proof. unfold exec, eval, mbind, M_bind. by destruct (c w). Qed.

Lemma eval_bind {A B} (c : M A) (k : A -> M B) (w : World) :
  eval (c ≫= k) w = eval (k (eval c w)) (exec c w).
Proof. unfold exec, eval, mbind, M_bind. by destruct (c w). Qed.

(** ** Built-ins and machine arithmetic *)

Lemma incr_no_overflow (x : Z) : min_int64 <= x < max_int64 -> incr x = x + 1.
Proof.
  unfold incr, wrap64, min_int64, max_int64. intros H.
  rewrite Z.mod_small by lia. lia.
Qed.

(** Within the range of [Duration], [Sub] is the difference. *)
Lemma Time_Sub_exact (t u : Time) :
  min_int64 <= t - u <= max_int64 -> Time_Sub t u = t - u.
Proof.
  intros H. unfold Time_Sub.
  destruct (max_int64 <? t - u) eqn:E1; [apply Z.ltb_lt in E1; lia|].
  destruct (t - u <? min_int64) eqn:E2; [apply Z.ltb_lt in E2; lia|done].
Qed.

(** [copy] into a fresh slice of the same length yields the source. *)
Lemma copy_make_bytes (p : list byte) : copy (make_bytes (length p)) p = p.
Proof.
  unfold copy, make_bytes. rewrite length_replicate, Nat.min_id.
  rewrite firstn_all, drop_replicate, Nat.sub_diag. simpl. apply app_nil_r.
Qed.

Lemma copy_slice_id {A} (l : list A) : copy_slice l = l.
Proof. apply firstn_all. Qed.

(** Copying a map key by key into an empty map yields the map. *)
Lemma copy_map_id (md : gmap string string) : copy_map md = md.
Proof.
  unfold copy_map.
  induction md as [|k v md Hk Hfold IH] using map_first_key_ind.
  - apply map_fold_empty.
  - rewrite map_fold_insert_first_key by done. by rewrite IH.
Qed.

(** [list_find] only looks at the elements of the list. *)
Lemma list_find_agree {A} (P Q : A -> Prop)
    `{forall x, Decision (P x)} `{forall x, Decision (Q x)} (l : list A) :
  Forall (fun x => P x <-> Q x) l -> list_find P l = list_find Q l.
Proof.
  induction 1 as [|x l [HPQ HQP] _ IH]; simpl; [done|].
  rewrite IH.
  destruct (decide (P x)) as [HP|HP], (decide (Q x)) as [HQ|HQ]; try done.
  - by destruct HQ; apply HPQ.
  - by destruct HP; apply HQP.
Qed.

(** ** The world *)

Lemma set_tick_set_tick (n k : nat) (w : World) : set_tick n (set_tick k w) = set_tick n w.
Proof. reflexivity. Qed.

Lemma set_tick_id (w : World) : set_tick (tick w) w = w.
Proof. by destruct w. Qed.

Lemma seen_invisible_earlier (w w1 w' : World) (p : loc) :
  (tick w <= tick w1)%nat -> clock w1 = clock w -> heapM w1 = heapM w ->
  seen_invisible w1 w' p -> seen_invisible w w' p.
Proof.
  intros Ht Hc Hh (t & (k & Hk & <-) & Hv).
  exists (clock w k). split.
  - exists k. split; [lia|done].
  - by rewrite Hc, Hh in Hv.
Qed.

(** ** Message *)


Lemma metadata_of_with_metadata_ne (k k' v : string) (m : Message) :
  k <> k' ->
  Message.metadata_of k (Message.with_metadata k' v m) = Message.metadata_of k m.
Proof.
  intros Hk. unfold Message.metadata_of, Message.with_metadata.
  destruct (Metadata m); simpl; rewrite lookup_insert_ne by done; done.
Qed.

Lemma with_metadata_fields (k v : string) (m : Message) :
  ID (Message.with_metadata k v m) = ID m /\
  Type_ (Message.with_metadata k v m) = Type_ m /\
  Payload (Message.with_metadata k v m) = Payload m /\
  Timestamp (Message.with_metadata k v m) = Timestamp m /\
  RetryCount (Message.with_metadata k v m) = RetryCount m /\
  VisibleAt (Message.with_metadata k v m) = VisibleAt m /\
  ReceiptHandle (Message.with_metadata k v m) = ReceiptHandle m.
Proof. unfold Message.with_metadata. by destruct (Metadata m). Qed.

(** The clone carries the payload and the metadata of the original: the
    byte-wise [copy] and the key-wise map copy rebuild them. *)
Lemma clone_of_copies (id : string) (m : Message) :
  Payload (Message.clone_of id m) = Payload m /\
  Metadata (Message.clone_of id m) = Metadata m /\
  Type_ (Message.clone_of id m) = Type_ m /\
  Timestamp (Message.clone_of id m) = Timestamp m.
Proof.
  simpl. rewrite copy_make_bytes. repeat split.
  destruct (Metadata m); [|done]. by rewrite copy_map_id.
Qed.

(** [Clone] draws one uuid and allocates one message. *)
Lemma Clone_spec (w : World) (p : loc) :
  Message.Clone p w =
    (nextM w,
     set_nextM (S (nextM w))
       (set_heapM <[nextM w := Message.clone_of (uuids w (drawn w)) (heapM w p)]>
          (set_drawn (S (drawn w)) w))).
Proof. reflexivity. Qed.

(** C10. For every message [m] (at an allocated pointer [p]), [m.Clone()]
    returns a new message whose [VisibleAt] is the zero time and whose
    [ReceiptHandle] is empty, whatever the lease state of [m]: the clone is
    visible at every instant, [IsVisible] answers true on it, and no store
    cell other than the clone's own, in particular not [m], is written. *)
Theorem Clone_resets_lease (w : World) (p : loc) :
  allocated w p ->
  let c := eval (Message.Clone p) w in
  let w' := exec (Message.Clone p) w in
  VisibleAt (heapM w' c) = zero_Time /\
  ReceiptHandle (heapM w' c) = "" /\
  (forall now, Message.visible_at now (heapM w' c) = true) /\
  (forall w'', heapM w'' c = heapM w' c -> eval (Message.IsVisible c) w'' = true) /\
  c <> p /\
  (forall p', p' <> c -> heapM w' p' = heapM w p') /\
  heapM w' p = heapM w p /\
  heapQ w' = heapQ w.
Proof.
  intros Hp c w'. subst c w'. unfold eval, exec. rewrite Clone_spec. simpl.
  rewrite fn_lookup_insert. unfold allocated in Hp.
  repeat split; try done.
  - intros w'' E. unfold Message.IsVisible. step. by rewrite E.
  - lia.
  - intros p' Hp'. by rewrite fn_lookup_insert_ne.
  - rewrite fn_lookup_insert_ne by lia. done.
Qed.

(** ** Queue.Receive *)

Lemma Receive_loop_scan (q : qref) (now : Time) (msgs : list loc) :
  forall w : World,
    let w' := exec (Queue.Receive_loop q now msgs) w in
    (tick w <= tick w')%nat /\
    match eval (Queue.Receive_loop q now msgs) w with
    | Some p =>
        exists i : nat,
          msgs !! i = Some p /\
          (forall j p', (j < i)%nat -> msgs !! j = Some p' -> seen_invisible w w' p') /\
          (Time_IsZero (VisibleAt (heapM w p)) = true \/ seen_visible w w' p) /\
          heapM w' p =
            leased now (visibilityTimeout (heapQ w q)) (uuids w (drawn w)) (heapM w p) /\
          (forall p', p' <> p -> heapM w' p' = heapM w p') /\
          heapQ w' = heapQ w /\
          drawn w' = S (drawn w)
    | None =>
        (forall p', p' ∈ msgs -> seen_invisible w w' p') /\
        set_tick (tick w) w' = w
    end.
Proof.
  induction msgs as [|msg rest IH]; intros w w'.
  - subst w'. unfold eval, exec. simpl. split; [lia|]. split.
    + intros p' Hp'. by apply elem_of_nil in Hp'.
    + apply set_tick_id.
  - subst w'. unfold eval, exec. simpl Queue.Receive_loop.
    unfold Message.IsVisible. step.
    destruct (Time_IsZero (VisibleAt (heapM w msg))) eqn:Hz; simpl.
    + split; [lia|]. exists 0%nat. repeat split; try done.
      * intros j p' Hj. lia.
      * by left.
      * by rewrite !fn_lookup_insert.
      * intros p' Hp'. by rewrite !fn_lookup_insert_ne.
    + destruct (Time_After (clock w (tick w)) (VisibleAt (heapM w msg))) eqn:Ha; simpl.
      * split; [lia|]. exists 0%nat. repeat split; try done.
        -- intros j p' Hj. lia.
        -- right. exists (clock w (tick w)). split.
           ++ exists (tick w). simpl. split; [lia|done].
           ++ unfold Message.visible_at. by rewrite Hz, Ha.
        -- by rewrite !fn_lookup_insert.
        -- intros p' Hp'. by rewrite !fn_lookup_insert_ne.
      * specialize (IH (set_tick (S (tick w)) w)). unfold eval, exec in IH.
        destruct (Queue.Receive_loop q now rest (set_tick (S (tick w)) w)) as [r w'] eqn:E.
        simpl in IH |- *. destruct IH as [Ht IH]. split; [lia|].
        assert (Hhead : seen_invisible w w' msg).
        { exists (clock w (tick w)). split.
          - exists (tick w). split; [lia|done].
          - unfold Message.visible_at. by rewrite Hz, Ha. }
        destruct r as [p|].
        -- destruct IH as (i & Hi & Hbefore & Hvis & Hp & Hothers & HQ & Hd).
           exists (S i). repeat split; try done.
           ++ intros [|j] p' Hj Hp'; simpl in Hp'.
              ** by injection Hp' as <-.
              ** eapply (seen_invisible_earlier w (set_tick (S (tick w)) w)); simpl; try done; [lia|].
                 eapply Hbefore; [|done]. lia.
           ++ destruct Hvis as [Hvis|(t & (k & Hk & <-) & Hv)]; [by left|right].
              exists (clock w k). split; [|done]. exists k. simpl in Hk. split; [lia|done].
        -- destruct IH as [Hall Hw]. split.
           ++ intros p' Hp'. apply elem_of_cons in Hp' as [->|Hp']; [done|].
              eapply (seen_invisible_earlier w (set_tick (S (tick w)) w)); simpl; try done; [lia|].
              by apply Hall.
           ++ simpl in Hw. rewrite <- (set_tick_set_tick _ (S (tick w)) w') .
              rewrite Hw. rewrite set_tick_set_tick. apply set_tick_id.
Qed.

(** The whole of [Receive]: the reading of [now], then the scan. *)
Lemma Receive_scan (w : World) (q : qref) (ctx : Context) :
  let Q := heapQ w q in
  let now := clock w (tick w) in
  let w' := exec (Queue.Receive q ctx) w in
  match eval (Queue.Receive q ctx) w with
  | (Some p, err) =>
      err = None /\
      exists i : nat,
        messages Q !! i = Some p /\
        (forall j p', (j < i)%nat -> messages Q !! j = Some p' -> seen_invisible w w' p') /\
        seen_visible w w' p /\
        heapM w' p = leased now (visibilityTimeout Q) (uuids w (drawn w)) (heapM w p) /\
        (forall p', p' <> p -> heapM w' p' = heapM w p') /\
        heapQ w' = heapQ w
  | (None, err) =>
      err = None /\
      (forall p', p' ∈ messages Q -> seen_invisible w w' p') /\
      set_tick (tick w) w' = w
  end.
Proof.
  intros Q now w'. subst Q now w'. unfold eval, exec, Queue.Receive. step.
  pose proof (Receive_loop_scan q (clock w (tick w)) (messages (heapQ w q))
                (set_tick (S (tick w)) w)) as H.
  unfold eval, exec in H.
  destruct (Queue.Receive_loop q (clock w (tick w)) (messages (heapQ w q))
              (set_tick (S (tick w)) w)) as [r w'] eqn:E.
  simpl in H |- *. destruct H as [Ht H].
  destruct r as [p|].
  - destruct H as (i & Hi & Hbefore & Hvis & Hp & Hothers & HQ & Hd).
    split; [done|]. exists i. split; [done|]. split.
    { intros j p' Hj Hp'.
      eapply (seen_invisible_earlier w (set_tick (S (tick w)) w)); simpl; try done; [lia|].
      by eapply Hbefore. }
    split.
    { destruct Hvis as [Hz|(t & (k & Hk & <-) & Hv)].
      - exists (clock w (tick w)). split.
        + exists (tick w). split; [lia|done].
        + unfold Message.visible_at. simpl in Hz. by rewrite Hz.
      - exists (clock w k). split; [|done]. exists k. simpl in Hk. split; [lia|done]. }
    done.
  - destruct H as [Hall Hw]. split; [done|]. split.
    + intros p' Hp'.
      eapply (seen_invisible_earlier w (set_tick (S (tick w)) w)); simpl; try done; [lia|].
      by apply Hall.
    + simpl in Hw. rewrite <- (set_tick_set_tick _ (S (tick w)) w').
      rewrite Hw. rewrite set_tick_set_tick. apply set_tick_id.
Qed.

Lemma Receive_loop_uuids (q : qref) (now : Time) (msgs : list loc) :
  forall w : World, uuids (exec (Queue.Receive_loop q now msgs) w) = uuids w.
Proof.
  induction msgs as [|msg rest IH]; intros w; [reflexivity|].
  unfold exec. simpl Queue.Receive_loop. unfold Message.IsVisible. step.
  destruct (Time_IsZero (VisibleAt (heapM w msg))); simpl; [reflexivity|].
  destruct (Time_After (clock w (tick w)) (VisibleAt (heapM w msg))); simpl; [reflexivity|].
  exact (IH (set_tick (S (tick w)) w)).
Qed.

(** [Receive] calls [uuid.New()] once when it leases a message, and not at
    all otherwise. *)
Lemma Receive_draws (w : World) (q : qref) (ctx : Context) :
  let w' := exec (Queue.Receive q ctx) w in
  uuids w' = uuids w /\
  drawn w' = match fst (eval (Queue.Receive q ctx) w) with
             | Some _ => S (drawn w)
             | None => drawn w
             end.
Proof.
  cbv zeta. unfold eval, exec, Queue.Receive. step.
  pose proof (Receive_loop_scan q (clock w (tick w)) (messages (heapQ w q))
                (set_tick (S (tick w)) w)) as H.
  unfold eval, exec in H.
  destruct (Queue.Receive_loop q (clock w (tick w)) (messages (heapQ w q))
              (set_tick (S (tick w)) w)) as [r w'] eqn:E.
  simpl in H |- *. destruct H as [_ H].
  assert (HU : uuids w' = uuids w).
  { pose proof (Receive_loop_uuids q (clock w (tick w)) (messages (heapQ w q))
                  (set_tick (S (tick w)) w)) as HU.
    unfold exec in HU. by rewrite E in HU. }
  split; [exact HU|].
  destruct r as [p|].
  - by destruct H as (i & _ & _ & _ & _ & _ & _ & Hd).
  - destruct H as [_ Hw]. apply (f_equal drawn) in Hw. exact Hw.
Qed.

(** C1. [Receive] scans the slots in insertion order and leases the first
    message on which [IsVisible] answers yes: every earlier slot was seen
    invisible at a clock reading of this call (so an invisible head does not
    block a later visible message), the leased message gets [VisibleAt] equal
    to [now] plus the queue's [visibilityTimeout], where [now] is the reading
    taken on entry, a fresh [ReceiptHandle], and [RetryCount] incremented
    ([++] on a Go [int]: plus one below the largest [int]); no other message
    and no queue is written.  The handle is fresh: it is the value of the one
    call of [uuid.New()] that this [Receive] makes, and with a uuid source
    that never repeats itself it differs from every handle held in the world
    before the call (empty, or drawn earlier) and is returned by no later
    call of [uuid.New()].  If every slot was seen invisible, [Receive]
    returns no message and no error, and nothing but the clock has moved. *)
Theorem Receive_leases_first_visible (w : World) (q : qref) (ctx : Context) :
  let Q := heapQ w q in
  let now := clock w (tick w) in
  let w' := exec (Queue.Receive q ctx) w in
  match eval (Queue.Receive q ctx) w with
  | (Some p, err) =>
      err = None /\
      exists i : nat,
        messages Q !! i = Some p /\
        (forall j p', (j < i)%nat -> messages Q !! j = Some p' -> seen_invisible w w' p') /\
        seen_visible w w' p /\
        heapM w' p = leased now (visibilityTimeout Q) (uuids w (drawn w)) (heapM w p) /\
        VisibleAt (heapM w' p) = Time_Add now (visibilityTimeout Q) /\
        ReceiptHandle (heapM w' p) = uuids w (drawn w) /\
        drawn w' = S (drawn w) /\
        uuids w' = uuids w /\
        (uuids_distinct w ->
         (forall p', drawn_before w (ReceiptHandle (heapM w p')) ->
                     ReceiptHandle (heapM w p') <> ReceiptHandle (heapM w' p)) /\
         (forall k, (drawn w' <= k)%nat -> uuids w' k <> ReceiptHandle (heapM w' p))) /\
        RetryCount (heapM w' p) = incr (RetryCount (heapM w p)) /\
        (min_int64 <= RetryCount (heapM w p) < max_int64 ->
         RetryCount (heapM w' p) = RetryCount (heapM w p) + 1) /\
        (forall p', p' <> p -> heapM w' p' = heapM w p') /\
        heapQ w' = heapQ w
  | (None, err) =>
      err = None /\
      (forall p', p' ∈ messages Q -> seen_invisible w w' p') /\
      set_tick (tick w) w' = w
  end.
Proof.
  pose proof (Receive_scan w q ctx) as H.
  pose proof (Receive_draws w q ctx) as [HU Hd]. cbv zeta in H, HU, Hd |- *.
  destruct (eval (Queue.Receive q ctx) w) as [[p|] err]; [|exact H].
  destruct H as (He & i & Hi & Hbefore & Hvis & Hp & Hothers & HQ).
  simpl in Hd.
  assert (Hh : ReceiptHandle (heapM (exec (Queue.Receive q ctx) w) p) = uuids w (drawn w))
    by (by rewrite Hp).
  split; [done|]. exists i.
  split; [exact Hi|]. split; [exact Hbefore|]. split; [exact Hvis|].
  split; [exact Hp|]. split; [by rewrite Hp|]. split; [exact Hh|].
  split; [exact Hd|]. split; [exact HU|]. split.
  { intros [Hne Hinj]. rewrite Hh, HU, Hd. split.
    - intros p' [Hempty|(k & Hk & Hold)] Heq.
      + rewrite Hempty in Heq. by apply (Hne (drawn w)).
      + rewrite Hold in Heq. apply Hinj in Heq. lia.
    - intros k Hk Heq. apply Hinj in Heq. lia. }
  split; [by rewrite Hp|]. split; [|done].
  intros Hrange. rewrite Hp. simpl. by apply incr_no_overflow.
Qed.

(** With a clock that stands still during the call, the leased message is the
    first one visible at that instant. *)
Lemma Receive_steady_clock (w : World) (q : qref) (ctx : Context) (now : Time) :
  (forall k, clock w k = now) ->
  fst (eval (Queue.Receive q ctx) w) =
    snd <$> list_find (fun p => Message.visible_at now (heapM w p) = true)
              (messages (heapQ w q)).
Proof.
  intros Hclock.
  pose proof (Receive_scan w q ctx) as H. simpl in H.
  destruct (eval (Queue.Receive q ctx) w) as [[p|] err]; simpl.
  - destruct H as (_ & i & Hi & Hbefore & (t & (k & _ & <-) & Hvis) & _).
    rewrite Hclock in Hvis.
    assert (list_find (fun p => Message.visible_at now (heapM w p) = true)
              (messages (heapQ w q)) = Some (i, p)) as ->; [|done].
    apply list_find_Some. split; [done|]. split; [done|].
    intros j y Hy Hj. destruct (Hbefore j y Hj Hy) as (t & (k' & _ & <-) & Hinv).
    rewrite Hclock in Hinv. by rewrite Hinv.
  - destruct H as (_ & Hall & _).
    assert (list_find (fun p => Message.visible_at now (heapM w p) = true)
              (messages (heapQ w q)) = None) as ->; [|done].
    apply list_find_None, list.Forall_forall. intros p Hp.
    destruct (Hall p Hp) as (t & (k' & _ & <-) & Hinv).
    rewrite Hclock in Hinv. by rewrite Hinv.
Qed.

(** ** Queue.Enqueue *)

Lemma Enqueue_spec (q : qref) (ctx : Context) (msg : loc) (w : World) :
  let w' := exec (Queue.Enqueue q ctx msg) w in
  eval (Queue.Enqueue q ctx msg) w = None /\
  heapQ w' q = appended msg (heapQ w q) /\
  (forall q', q' <> q -> heapQ w' q' = heapQ w q') /\
  heapM w' msg = stamped (uuids w (drawn w)) (clock w (tick w)) (heapM w msg) /\
  (forall p, p <> msg -> heapM w' p = heapM w p) /\
  nextM w' = nextM w /\ goroutines w' = goroutines w /\ heapT w' = heapT w /\
  clock w' = clock w /\ uuids w' = uuids w /\
  (drawn w <= drawn w')%nat /\ (tick w <= tick w')%nat /\
  (ID (heapM w msg) <> "" -> drawn w' = drawn w).
Proof.
  intros w'. subst w'. unfold eval, exec, Queue.Enqueue. step.
  destruct (decide (ID (heapM w msg) = "")) as [E|NE]; simpl;
    destruct (Time_IsZero (Timestamp (heapM w msg))) eqn:Hz; simpl; heap; simpl;
    try rewrite Hz; simpl; heap;
    unfold stamped; try rewrite Hz; try rewrite (decide_True _ _ E);
    try rewrite (decide_False _ _ NE);
    (repeat split; try done; try lia;
     try (intros; heap; done); try (by destruct (heapM w msg))).
Qed.

(** ** Queue.Acknowledge *)

Lemma set_heapQ_reset w : set_heapQ (fun _ => heapQ w) w = w.
Proof. by destruct w. Qed.

(** What it means to be located by handle. *)
Lemma located_Some_holds (w : World) (q : qref) (h : string) (i : nat) (p : loc) :
  located w q h = Some (i, p) ->
  messages (heapQ w q) !! i = Some p /\ ReceiptHandle (heapM w p) = h /\
  (forall j p', messages (heapQ w q) !! j = Some p' -> (j < i)%nat ->
                ReceiptHandle (heapM w p') <> h).
Proof. intros H. by apply list_find_Some in H. Qed.

Lemma located_None (w : World) (q : qref) (h : string) :
  located w q h = None <->
  forall p, p ∈ messages (heapQ w q) -> ReceiptHandle (heapM w p) <> h.
Proof.
  unfold located. rewrite list_find_None, list.Forall_forall. reflexivity.
Qed.

(** The loop of [Acknowledge], started at slot [i] on the rest [msgs] of the
    slice. *)
Lemma Acknowledge_loop_spec (q : qref) (h : string) (msgs : list loc) :
  forall (i : nat) (w : World),
    let w' := exec (Queue.Acknowledge_loop q h i msgs) w in
    match list_find (holds w h) msgs with
    | Some (j, p) =>
        eval (Queue.Acknowledge_loop q h i msgs) w = None /\
        heapQ w' q = acknowledged (i + j) (heapQ w q) /\
        (forall q', q' <> q -> heapQ w' q' = heapQ w q') /\
        set_heapQ (fun _ => heapQ w) w' = w
    | None =>
        eval (Queue.Acknowledge_loop q h i msgs) w = Some ErrInvalidReceiptHandle /\
        w' = w
    end.
Proof.
  induction msgs as [|msg rest IH]; intros i w w'; subst w'.
  - done.
  - unfold eval, exec. simpl. step. unfold holds at 1.
    destruct (decide (ReceiptHandle (heapM w msg) = h)) as [E|NE].
    + simpl.
      rewrite !fn_lookup_insert. rewrite Nat.add_0_r. repeat split; try done.
      * intros q' Hq'. by rewrite !fn_lookup_insert_ne.
      * by destruct w.
    + simpl.
      specialize (IH (S i) w). unfold eval, exec in IH. simpl in IH.
      destruct (list_find (holds w h) rest) as [[j p]|]; simpl.
      * by replace (i + S j)%nat with (S i + j)%nat by lia.
      * done.
Qed.

(** [Acknowledge] cuts the located slot, or fails and changes nothing. *)
Lemma Acknowledge_spec (q : qref) (ctx : Context) (h : string) (w : World) :
  let w' := exec (Queue.Acknowledge q ctx h) w in
  match located w q h with
  | Some (i, p) =>
      eval (Queue.Acknowledge q ctx h) w = None /\
      heapQ w' q = acknowledged i (heapQ w q) /\
      (forall q', q' <> q -> heapQ w' q' = heapQ w q') /\
      set_heapQ (fun _ => heapQ w) w' = w
  | None =>
      eval (Queue.Acknowledge q ctx h) w = Some ErrInvalidReceiptHandle /\
      w' = w
  end.
Proof.
  apply (Acknowledge_loop_spec q h (messages (heapQ w q)) 0 w).
Qed.

(** An acknowledgement with the empty handle takes the first message that is
    not leased. *)
Lemma Acknowledge_empty_handle (w : World) (q : qref) (ctx : Context) (p : loc) :
  p ∈ messages (heapQ w q) ->
  ReceiptHandle (heapM w p) = "" ->
  eval (Queue.Acknowledge q ctx "") w = None.
Proof.
  intros Hp Hh. pose proof (Acknowledge_spec q ctx "" w) as H. simpl in H.
  destruct (located w q "") as [[i y]|] eqn:E; [by destruct H|].
  pose proof (proj1 (located_None w q "") E p Hp) as Hne. by destruct Hne.
Qed.

Lemma remove_at_delete (i : nat) (Q : Queue) :
  messages (remove_at i Q) = delete i (messages Q).
Proof. simpl. symmetry. apply delete_take_drop. Qed.

(** A message that occupies the single slot [i] is gone once slot [i] is cut. *)
Lemma single_slot_delete {A} (l : list A) (i : nat) (x : A) :
  (forall j, l !! j = Some x -> j = i) -> x ∉ delete i l.
Proof.
  intros Hsingle Hin. apply list_elem_of_lookup in Hin as [j Hj].
  destruct (decide (j < i)%nat) as [Hlt|Hge].
  - rewrite list_lookup_delete_lt in Hj by done. apply Hsingle in Hj. lia.
  - rewrite list_lookup_delete_ge in Hj by lia. apply Hsingle in Hj. lia.
Qed.

(** C3 (amended). For every handle [h], [Acknowledge(h)] cuts out the first
    slot whose message holds [h] and increments [TotalProcessed] when there is
    one, and returns [ErrInvalidReceiptHandle], changing nothing, exactly when
    no message of the queue holds [h].  In particular, for a handle just
    issued by a lease, when the leased message occupies a single slot of the
    queue and no other message of the queue holds the uuid being issued, the
    first [Acknowledge] of that handle succeeds and the second one fails with
    [ErrInvalidReceiptHandle].  A message holds [h] when its [ReceiptHandle]
    field equals [h]; the empty handle is held by every message that is not
    leased. *)
Theorem Acknowledge_by_handle (w : World) (q : qref) (ctx : Context) (h : string) :
  let Q := heapQ w q in
  let w' := exec (Queue.Acknowledge q ctx h) w in
  (forall (i : nat) (p : loc),
     located w q h = Some (i, p) ->
     eval (Queue.Acknowledge q ctx h) w = None /\
     messages (heapQ w' q) = delete i (messages Q) /\
     TotalProcessed (stats (heapQ w' q)) = incr (TotalProcessed (stats Q)) /\
     CurrentSize (stats (heapQ w' q)) = len (delete i (messages Q)) /\
     heapM w' = heapM w /\
     (forall q', q' <> q -> heapQ w' q' = heapQ w q')) /\
  (eval (Queue.Acknowledge q ctx h) w = Some ErrInvalidReceiptHandle <->
   forall p, p ∈ messages Q -> ReceiptHandle (heapM w p) <> h) /\
  (eval (Queue.Acknowledge q ctx h) w = None \/
   eval (Queue.Acknowledge q ctx h) w = Some ErrInvalidReceiptHandle) /\
  (eval (Queue.Acknowledge q ctx h) w = Some ErrInvalidReceiptHandle -> w' = w) /\
  (forall (ctx0 ctx1 ctx2 : Context) (p : loc),
     eval (Queue.Receive q ctx0) w = (Some p, None) ->
     (forall j j', messages Q !! j = Some p -> messages Q !! j' = Some p -> j = j') ->
     (forall p', p' ∈ messages Q -> p' <> p ->
                 ReceiptHandle (heapM w p') <> uuids w (drawn w)) ->
     let w1 := exec (Queue.Receive q ctx0) w in
     let h1 := ReceiptHandle (heapM w1 p) in
     eval (Queue.Acknowledge q ctx1 h1) w1 = None /\
     eval (Queue.Acknowledge q ctx2 h1) (exec (Queue.Acknowledge q ctx1 h1) w1)
       = Some ErrInvalidReceiptHandle).
Proof.
  intros Q w'. subst Q w'.
  pose proof (Acknowledge_spec q ctx h w) as H. simpl in H.
  split_and!.
  - intros i p Hloc. rewrite Hloc in H. destruct H as (Hr & HQ & Hothers & Hw).
    rewrite HQ. split_and!; try done.
    + apply remove_at_delete.
    + simpl. by rewrite delete_take_drop.
    + by apply (f_equal heapM) in Hw.
  - rewrite <- located_None.
    destruct (located w q h) as [[i p]|]; destruct H as [Hr _]; rewrite Hr; split; done.
  - destruct (located w q h) as [[i p]|]; destruct H as [Hr _]; rewrite Hr; auto.
  - destruct (located w q h) as [[i p]|]; destruct H as [Hr Hw]; rewrite Hr; done.
  - clear H. intros ctx0 ctx1 ctx2 p Hrecv Hnd Hfresh w1 h1.
    pose proof (Receive_scan w q ctx0) as HR. simpl in HR.
    rewrite Hrecv in HR.
    destruct HR as (_ & i & Hi & _ & _ & Hp & HMothers & HQ).
    fold w1 in Hp, HMothers, HQ.
    assert (Hh : ReceiptHandle (heapM w1 p) = uuids w (drawn w)) by (by rewrite Hp).
    assert (Hloc : located w1 q h1 = Some (i, p)).
    { apply list_find_Some. rewrite HQ. split; [done|]. split; [done|].
      intros j y Hy Hj. unfold holds.
      assert (y <> p) as Hne.
      { intros ->. pose proof (Hnd _ _ Hy Hi). lia. }
      rewrite HMothers by done. subst h1. rewrite Hh.
      apply Hfresh; [by eapply list_elem_of_lookup_2|done]. }
    pose proof (Acknowledge_spec q ctx1 h1 w1) as H1. simpl in H1.
    rewrite Hloc in H1. destruct H1 as (Hr1 & HQ1 & _ & Hw1).
    split; [done|].
    set (w2 := exec (Queue.Acknowledge q ctx1 h1) w1) in *.
    pose proof (Acknowledge_spec q ctx2 h1 w2) as H2. simpl in H2.
    assert (Hnone : located w2 q h1 = None).
    { apply located_None. rewrite HQ1. intros y Hy.
      simpl in Hy. rewrite <- delete_take_drop, HQ in Hy.
      assert (y <> p) as Hne.
      { intros ->. revert Hy. apply single_slot_delete. intros j Hj. by apply (Hnd j i). }
      apply (f_equal heapM) in Hw1. simpl in Hw1. rewrite Hw1.
      rewrite HMothers by done. subst h1. rewrite Hh.
      apply Hfresh; [by eapply list_elem_of_delete_inv|done]. }
    rewrite Hnone in H2. by destruct H2.
Qed.

(** ** Queue.Nack and the dead-letter transition *)

Lemma remove_loop_spec (q : qref) (msg : loc) (msgs : list loc) :
  forall (i : nat) (w : World),
    let w' := exec (Queue.remove_loop q msg i msgs) w in
    match list_find (same_ID w msg) msgs with
    | Some (j, _) =>
        heapQ w' q = sync_CurrentSize (remove_at (i + j) (heapQ w q)) /\
        (forall q', q' <> q -> heapQ w' q' = heapQ w q') /\
        set_heapQ (fun _ => heapQ w) w' = w
    | None => w' = w
    end.
Proof.
  induction msgs as [|p rest IH]; intros i w w'; subst w'.
  - done.
  - unfold eval, exec. simpl. step. unfold same_ID at 1.
    destruct (decide (ID (heapM w p) = ID (heapM w msg))) as [E|NE]; simpl.
    + rewrite !fn_lookup_insert. rewrite Nat.add_0_r. repeat split; try done.
      * intros q' Hq'. by rewrite !fn_lookup_insert_ne.
      * by destruct w.
    + specialize (IH (S i) w). unfold eval, exec in IH. simpl in IH.
      destruct (list_find (same_ID w msg) rest) as [[j p']|]; simpl.
      * by replace (i + S j)%nat with (S i + j)%nat by lia.
      * done.
Qed.

(** The dead-letter transition cuts the first slot with the ID of [msg]; with
    a DLQ it allocates the clone and starts the depositing goroutine. *)
Lemma moveToDeadLetterQueueLocked_spec (q : qref) (msg : loc) (w : World)
    (j : nat) (x : loc) :
  Forall (allocated w) (messages (heapQ w q)) ->
  allocated w msg ->
  list_find (same_ID w msg) (messages (heapQ w q)) = Some (j, x) ->
  let Q := heapQ w q in
  let w' := exec (Queue.moveToDeadLetterQueueLocked q msg) w in
  eval (Queue.moveToDeadLetterQueueLocked q msg) w = None /\
  heapQ w' q = dead_lettered j Q /\
  (forall q', q' <> q -> heapQ w' q' = heapQ w q') /\
  (forall p, allocated w p -> heapM w' p = heapM w p) /\
  match deadLetterQueue Q with
  | None =>
      heapM w' = heapM w /\ nextM w' = nextM w /\ drawn w' = drawn w /\
      goroutines w' = goroutines w
  | Some _ =>
      nextM w' = S (nextM w) /\ drawn w' = S (drawn w) /\
      heapM w' (nextM w) =
        dead_letter_copy (name Q) (uuids w (drawn w)) (heapM w msg) /\
      goroutines w' = goroutines w ++ [DLQDeposit q (nextM w)]
  end.
Proof.
  intros Hall Hmsg Hfind Q w'. subst Q w'.
  unfold eval, exec, Queue.moveToDeadLetterQueueLocked. step.
  destruct (deadLetterQueue (heapQ w q)) as [dlq|] eqn:Hdlq; simpl.
  - unfold Message.Clone, Message.SetMetadata, new_Message. step.
    match goal with
    | |- context [Queue.remove_loop q msg 0 ?l ?w1] =>
        pose proof (remove_loop_spec q msg l 0 w1) as Hrem;
        destruct (Queue.remove_loop q msg 0 l w1) as [[] w2] eqn:E
    end.
    unfold exec in Hrem. rewrite E in Hrem. simpl in Hrem.
    rewrite (list_find_agree _ (same_ID w msg)) in Hrem.
    2:{ apply list.Forall_forall. intros p Hp.
        pose proof (proj1 (list.Forall_forall _ _) Hall p Hp) as Hlt.
        unfold same_ID. simpl. unfold allocated in *. heap. done. }
    rewrite Hfind in Hrem. simpl in Hrem. destruct Hrem as (Hq & Hothers & Hw).
    simpl. heap. rewrite Hq. repeat split; try done.
    + intros q' Hq'. heap. by apply Hothers.
    + intros p Hp. unfold allocated in Hp.
      apply (f_equal heapM) in Hw. simpl in Hw. rewrite Hw. by heap.
    + by apply (f_equal nextM) in Hw.
    + by apply (f_equal drawn) in Hw.
    + apply (f_equal heapM) in Hw. simpl in Hw. rewrite Hw. by heap.
    + apply (f_equal goroutines) in Hw. simpl in Hw. by rewrite Hw.
  - match goal with
    | |- context [Queue.remove_loop q msg 0 ?l ?w1] =>
        pose proof (remove_loop_spec q msg l 0 w1) as Hrem;
        destruct (Queue.remove_loop q msg 0 l w1) as [[] w2] eqn:E
    end.
    unfold exec in Hrem. rewrite E in Hrem. simpl in Hrem.
    rewrite (list_find_agree _ (same_ID w msg)) in Hrem
      by (apply Forall_forall; intros p Hp; unfold same_ID; simpl; done).
    revert Hrem. heap. simpl. rewrite Hfind. simpl. intros (Hq & Hothers & Hw).
    rewrite Hq. heap. repeat split; try done.
    + intros q' Hq'. rewrite Hothers by done. by heap.
    + intros p _. apply (f_equal heapM) in Hw. simpl in Hw. by rewrite Hw.
    + by apply (f_equal heapM) in Hw.
    + by apply (f_equal nextM) in Hw.
    + by apply (f_equal drawn) in Hw.
    + by apply (f_equal goroutines) in Hw.
Qed.

(** [Nack] is the retry or the dead-letter transition of the located
    message. *)
Lemma Nack_loop_locates (q : qref) (h : string) (msgs : list loc) (w : World) :
  Queue.Nack_loop q h msgs w =
    match list_find (holds w h) msgs with
    | None => (Some ErrInvalidReceiptHandle, w)
    | Some (_, p) =>
        if maxRetries (heapQ w q) <=? RetryCount (heapM w p)
        then Queue.moveToDeadLetterQueueLocked q p w
        else retry p w
    end.
Proof.
  induction msgs as [|msg rest IH]; [done|].
  simpl. step. unfold holds at 1.
  destruct (decide (ReceiptHandle (heapM w msg) = h)) as [E|NE]; simpl.
  - by destruct (maxRetries (heapQ w q) <=? RetryCount (heapM w msg)).
  - rewrite IH. by destruct (list_find (holds w h) rest) as [[j p]|].
Qed.

Lemma Nack_locates (q : qref) (ctx : Context) (h : string) (w : World) :
  Queue.Nack q ctx h w =
    match located w q h with
    | None => (Some ErrInvalidReceiptHandle, w)
    | Some (_, p) =>
        if maxRetries (heapQ w q) <=? RetryCount (heapM w p)
        then Queue.moveToDeadLetterQueueLocked q p w
        else retry p w
    end.
Proof. apply Nack_loop_locates. Qed.

(** The first slot that carries the ID of the located message is its own
    slot when no earlier slot shares that ID. *)
Lemma same_ID_at_own_slot (w : World) (l : list loc) (h : string) (i : nat) (p : loc) :
  list_find (holds w h) l = Some (i, p) ->
  (forall j p', (j < i)%nat -> l !! j = Some p' -> ID (heapM w p') <> ID (heapM w p)) ->
  list_find (same_ID w p) l = Some (i, p).
Proof.
  intros Hfind Hids. apply list_find_Some in Hfind as (Hi & _ & _).
  apply list_find_Some. split; [done|]. split; [done|].
  intros j p' Hp' Hj. unfold same_ID. by eapply Hids.
Qed.

(** Running the depositing goroutine appends the clone to the DLQ. *)
Lemma run_DLQDeposit (q dlq : qref) (c : loc) (w : World) :
  deadLetterQueue (heapQ w q) = Some dlq ->
  ID (heapM w c) <> "" ->
  let w' := exec (run_goroutine (DLQDeposit q c)) w in
  messages (heapQ w' dlq) = messages (heapQ w dlq) ++ [c] /\
  (forall q', q' <> dlq -> heapQ w' q' = heapQ w q') /\
  (exists ts, heapM w' c = set_Timestamp ts (heapM w c)) /\
  (forall p, p <> c -> heapM w' p = heapM w p).
Proof.
  intros Hdlq Hid w'. subst w'. unfold exec, run_goroutine, context_WithTimeout. step.
  rewrite Hdlq. step.
  match goal with
  | |- context [Queue.Enqueue dlq ?ctx c ?w1] =>
      pose proof (Enqueue_spec dlq ctx c w1) as HE;
      destruct (Queue.Enqueue dlq ctx c w1) as [r w2] eqn:E
  end.
  unfold eval, exec in HE. rewrite E in HE. simpl in HE |- *.
  destruct HE as (_ & HQ & Hothers & HM & HMothers & _).
  rewrite HQ. split; [done|]. split; [done|]. split; [|done].
  rewrite HM. unfold stamped. simpl. rewrite decide_False by done.
  eexists. reflexivity.
Qed.

Lemma dead_letter_copy_fields (qname id : string) (m : Message) :
  let c := dead_letter_copy qname id m in
  ID c = id /\ Type_ c = Type_ m /\ Payload c = Payload m /\
  Timestamp c = Timestamp m /\ RetryCount c = 0 /\
  VisibleAt c = zero_Time /\ ReceiptHandle c = "" /\
  Message.metadata_of "failure_reason" c = "max_retries_exceeded" /\
  Message.metadata_of "original_queue" c = qname.
Proof.
  unfold dead_letter_copy, Message.with_metadata, Message.metadata_of,
    Message.clone_of.
  destruct (Metadata m); simpl; repeat split; try done;
    try apply copy_make_bytes;
    try (by rewrite lookup_insert_eq);
    by rewrite lookup_insert_ne, lookup_insert_eq.
Qed.

(** The dead-letter transition always returns nil. *)
Lemma moveToDeadLetterQueueLocked_nil (q : qref) (msg : loc) (w : World) :
  eval (Queue.moveToDeadLetterQueueLocked q msg) w = None.
Proof.
  unfold eval, Queue.moveToDeadLetterQueueLocked. step.
  destruct (deadLetterQueue (heapQ w q)); simpl.
  - unfold Message.Clone, Message.SetMetadata, new_Message. step.
    match goal with |- context [Queue.remove_loop ?a ?b ?c ?d ?e] =>
      by destruct (Queue.remove_loop a b c d e) as [[] ?] end.
  - match goal with |- context [Queue.remove_loop ?a ?b ?c ?d ?e] =>
      by destruct (Queue.remove_loop a b c d e) as [[] ?] end.
Qed.

(** What [Nack] does on every input.  [Nack(h)] fails with
    [ErrInvalidReceiptHandle], changing nothing, when no message of the queue
    holds [h].  Otherwise let [p], in
    slot [i], be the message that [Nack] locates (the first one holding [h]);
    [Nack] returns nil.  If [RetryCount] of [p] is below [maxRetries], [p]
    gets the zero [VisibleAt] and the empty [ReceiptHandle], so it is visible
    at every instant, and the queue is unchanged.  If [RetryCount] is at or
    above [maxRetries], and no earlier slot carries the ID of [p], slot [i]
    is cut out of the queue and [TotalFailed] is incremented; without a DLQ
    nothing is allocated and no goroutine is started (the message is
    dropped); with a DLQ one goroutine is started, and running it appends to
    the DLQ a clone with the fresh uuid as ID, [RetryCount] 0, the payload
    and type of [p], and the metadata [failure_reason = max_retries_exceeded]
    and [original_queue]. *)
Theorem Nack_retries_or_dead_letters (w : World) (q : qref) (ctx : Context)
    (h : string) :
  let Q := heapQ w q in
  let w' := exec (Queue.Nack q ctx h) w in
  ((forall p, p ∈ messages Q -> ReceiptHandle (heapM w p) <> h) ->
   eval (Queue.Nack q ctx h) w = Some ErrInvalidReceiptHandle /\ w' = w) /\
  (forall (i : nat) (p : loc),
     located w q h = Some (i, p) ->
     eval (Queue.Nack q ctx h) w = None /\
     (RetryCount (heapM w p) < maxRetries Q ->
      heapM w' p = set_ReceiptHandle "" (set_VisibleAt zero_Time (heapM w p)) /\
      (forall now, Message.visible_at now (heapM w' p) = true) /\
      (forall p', p' <> p -> heapM w' p' = heapM w p') /\
      heapQ w' = heapQ w /\
      goroutines w' = goroutines w) /\
     (maxRetries Q <= RetryCount (heapM w p) ->
      Forall (allocated w) (messages Q) ->
      (forall j p', (j < i)%nat -> messages Q !! j = Some p' ->
                    ID (heapM w p') <> ID (heapM w p)) ->
      messages (heapQ w' q) = delete i (messages Q) /\
      TotalFailed (stats (heapQ w' q)) = incr (TotalFailed (stats Q)) /\
      (forall q', q' <> q -> heapQ w' q' = heapQ w q') /\
      (forall p', allocated w p' -> heapM w' p' = heapM w p') /\
      match deadLetterQueue Q with
      | None => goroutines w' = goroutines w /\ nextM w' = nextM w
      | Some dlq =>
          let c := nextM w in
          let w'' := exec (run_goroutine (DLQDeposit q c)) w' in
          goroutines w' = goroutines w ++ [DLQDeposit q c] /\
          (uuids w (drawn w) <> "" ->
           messages (heapQ w'' dlq) = messages (heapQ w' dlq) ++ [c] /\
           ID (heapM w'' c) = uuids w (drawn w) /\
           RetryCount (heapM w'' c) = 0 /\
           Message.metadata_of "failure_reason" (heapM w'' c) = "max_retries_exceeded" /\
           Message.metadata_of "original_queue" (heapM w'' c) = name Q /\
           Payload (heapM w'' c) = Payload (heapM w p) /\
           Type_ (heapM w'' c) = Type_ (heapM w p))
      end)).
Proof.
  intros Q w'. subst Q w'. unfold eval, exec. rewrite Nack_locates. split.
  - intros Hnone. apply located_None in Hnone. by rewrite Hnone.
  - intros i p Hloc. rewrite Hloc.
    destruct (located_Some_holds _ _ _ _ _ Hloc) as (Hi & Hh & Hfirst).
    destruct (maxRetries (heapQ w q) <=? RetryCount (heapM w p)) eqn:Hcmp.
    + apply Z.leb_le in Hcmp. split; [apply moveToDeadLetterQueueLocked_nil|].
      split; [lia|]. intros _ Hall Hids.
      assert (Hp : allocated w p).
      { apply (proj1 (list.Forall_forall _ _) Hall). by eapply list_elem_of_lookup_2. }
      pose proof (moveToDeadLetterQueueLocked_spec q p w i p Hall Hp
                    (same_ID_at_own_slot _ _ _ _ _ Hloc Hids)) as H.
      simpl in H. unfold eval, exec in H.
      destruct (Queue.moveToDeadLetterQueueLocked q p w) as [r w'] eqn:E.
      simpl in H |- *. destruct H as (_ & HQ & Hothers & HM & Hdlq).
      rewrite HQ. split; [apply remove_at_delete|]. split; [done|].
      split; [done|]. split; [done|].
      destruct (deadLetterQueue (heapQ w q)) as [dlq|] eqn:Hd.
      * destruct Hdlq as (Hnext & Hdrawn & Hc & Hgo). split; [done|].
        intros Huuid.
        destruct (run_DLQDeposit q dlq (nextM w) w') as (Hmsgs & _ & (ts & Hts) & _).
        { rewrite HQ. done. }
        { rewrite Hc. by rewrite (proj1 (dead_letter_copy_fields _ _ _)). }
        unfold exec in Hmsgs, Hts. cbv zeta.
        split; [done|]. rewrite Hts, Hc.
        destruct (dead_letter_copy_fields (name (heapQ w q)) (uuids w (drawn w)) (heapM w p))
          as (c1 & c2 & c3 & c4 & c5 & c6 & c7 & c8 & c9).
        simpl in *. done.
      * by destruct Hdlq as (_ & Hnext & _ & Hgo).
    + apply Z.leb_gt in Hcmp. split; [done|]. split; [|lia].
      intros _. unfold retry. step. heap. repeat split; try done.
      intros p' Hp'. by heap.
Qed.

(** ** Topic.Publish *)

Lemma Publish_loop_cons t ctx msg queue rest w :
  Topic.Publish_loop t ctx msg (queue :: rest) w =
  Topic.Publish_loop t ctx msg rest (exec (deliver t ctx msg queue) w).
Proof.
  unfold exec, deliver. cbn [Topic.Publish_loop]. unfold mbind, M_bind, mret, M_ret.
  destruct (Message.Clone msg w) as [c w1].
  destruct (loadT t w1) as [T w2].
  destruct (Message.SetMetadata c "source_topic" (topic_name T) w2) as [[] w3].
  destruct (uuid_New w3) as [d w4].
  destruct (Message.SetMetadata c "delivery_id" d w4) as [[] w5].
  destruct (Queue.Enqueue queue ctx c w5) as [r w6]. done.
Qed.

(** One turn of the loop: one allocation, two uuids, one [Enqueue]. *)
Lemma deliver_spec (t : tref) (ctx : Context) (msg : loc) (queue : qref) (w : World) :
  allocated w msg ->
  uuids w (drawn w) <> "" ->
  let w' := exec (deliver t ctx msg queue) w in
  let c := nextM w in
  nextM w' = S c /\
  drawn w' = S (S (drawn w)) /\
  heapT w' = heapT w /\ uuids w' = uuids w /\ goroutines w' = goroutines w /\
  (forall p, allocated w p -> heapM w' p = heapM w p) /\
  (exists ts, heapM w' c =
     set_Timestamp ts (delivery (topic_name (heapT w t)) (uuids w (drawn w))
                         (uuids w (S (drawn w))) (heapM w msg))) /\
  heapQ w' queue = appended c (heapQ w queue) /\
  (forall q', q' <> queue -> heapQ w' q' = heapQ w q').
Proof.
  intros Hmsg Huuid w' c. subst w' c.
  unfold exec, deliver, Message.Clone, Message.SetMetadata, new_Message, loadT. step.
  match goal with
  | |- context [Queue.Enqueue queue ctx ?c ?w1] =>
      pose proof (Enqueue_spec queue ctx c w1) as HE;
      destruct (Queue.Enqueue queue ctx c w1) as [r w2] eqn:E
  end.
  unfold eval, exec in HE. rewrite E in HE. simpl in HE |- *.
  destruct HE as (_ & HQ & Hothers & HM & HMothers & Hn & Hg & HT & Hc & Hu & _ & _ & Hd).
  revert HM Hd. heap. intros HM Hd.
  assert (Hid : ID (Message.with_metadata "delivery_id" (uuids w (S (drawn w)))
                 (Message.with_metadata "source_topic" (topic_name (heapT w t))
                    (Message.clone_of (uuids w (drawn w)) (heapM w msg)))) <> "").
  { rewrite (proj1 (with_metadata_fields _ _ _)).
    rewrite (proj1 (with_metadata_fields _ _ _)). done. }
  repeat split; try done.
  - by rewrite Hd.
  - intros p Hp. unfold allocated in Hp. rewrite HMothers by lia. by heap.
  - rewrite HM. unfold stamped. rewrite decide_False by done.
    eexists. unfold delivery. 
    reflexivity.
Qed.

(** The clone of the [k]-th subscriber entry is the [k]-th allocation. *)
Lemma delivered_lookup (c : loc) (subs : list qref) (q : qref) (p : loc) :
  p ∈ delivered c subs q <-> exists k, subs !! k = Some q /\ p = (c + k)%nat.
Proof.
  revert c. induction subs as [|s rest IH]; intros c; simpl.
  - split; [by intros ?%elem_of_nil|]. by intros (k & Hk & _).
  - rewrite elem_of_app, IH. split.
    + intros [Hp|(k & Hk & ->)].
      * destruct (decide (s = q)) as [->|]; [|by apply elem_of_nil in Hp].
        apply list_elem_of_singleton in Hp as ->. exists 0%nat. split; [done|lia].
      * exists (S k). split; [done|lia].
    + intros ([|k] & Hk & ->); simpl in Hk.
      * injection Hk as ->. left. rewrite decide_True by done.
        rewrite Nat.add_0_r. apply list_elem_of_singleton. done.
      * right. exists k. split; [done|lia].
Qed.

(** The loop of [Publish] over [subs]. *)
Lemma Publish_loop_spec (t : tref) (ctx : Context) (msg : loc) (subs : list qref) :
  forall w : World,
    allocated w msg ->
    (forall k, uuids w k <> "") ->
    let w' := exec (Topic.Publish_loop t ctx msg subs) w in
    nextM w' = (nextM w + length subs)%nat /\
    drawn w' = (drawn w + 2 * length subs)%nat /\
    heapT w' = heapT w /\ uuids w' = uuids w /\ goroutines w' = goroutines w /\
    (forall p, allocated w p -> heapM w' p = heapM w p) /\
    (forall k q, subs !! k = Some q ->
       exists ts, heapM w' (nextM w + k)%nat =
         set_Timestamp ts
           (delivery (topic_name (heapT w t)) (uuids w (drawn w + 2 * k)%nat)
              (uuids w (S (drawn w + 2 * k))) (heapM w msg))) /\
    (forall q, messages (heapQ w' q) = messages (heapQ w q) ++ delivered (nextM w) subs q) /\
    (forall q, name (heapQ w' q) = name (heapQ w q) /\
               visibilityTimeout (heapQ w' q) = visibilityTimeout (heapQ w q) /\
               maxRetries (heapQ w' q) = maxRetries (heapQ w q) /\
               deadLetterQueue (heapQ w' q) = deadLetterQueue (heapQ w q)).
Proof.
  induction subs as [|s rest IH]; intros w Hmsg Huuid w'; subst w'.
  - unfold exec. simpl. rewrite Nat.add_0_r. split_and!; try done; try lia.
    intros q. by rewrite app_nil_r.
  - unfold exec. rewrite Publish_loop_cons. fold (exec (Topic.Publish_loop t ctx msg rest) (exec (deliver t ctx msg s) w)).
    destruct (deliver_spec t ctx msg s w Hmsg (Huuid _))
      as (Hn & Hd & HT & Hu & Hg & HM & (ts & Hc) & HQ & HQothers).
    set (w1 := exec (deliver t ctx msg s) w) in *.
    destruct (IH w1) as (Hn' & Hd' & HT' & Hu' & Hg' & HM' & Hc' & HQ' & Hcfg').
    { unfold allocated in *. lia. }
    { intros k. by rewrite Hu. }
    set (w' := exec (Topic.Publish_loop t ctx msg rest) w1) in *.
    simpl length. split_and!; [| | | | | | | |intros q; split_and!].
    + lia.
    + lia.
    + congruence.
    + congruence.
    + congruence.
    + intros p Hp. rewrite HM'; [by apply HM|]. unfold allocated in *. lia.
    + intros [|k] q Hk; simpl in Hk.
      * exists ts. rewrite Nat.add_0_r, Nat.mul_0_r, Nat.add_0_r.
        rewrite HM'; [done|]. unfold allocated. lia.
      * destruct (Hc' k q Hk) as (ts' & Hck). exists ts'.
        rewrite Hn, HT, Hu, Hd, (HM msg Hmsg) in Hck.
        replace (nextM w + S k)%nat with (S (nextM w) + k)%nat by lia.
        replace (drawn w + 2 * S k)%nat with (S (S (drawn w)) + 2 * k)%nat by lia.
        exact Hck.
    + intros q. rewrite HQ', Hn. simpl.
      destruct (decide (s = q)) as [->|Hne].
      * rewrite HQ. simpl. by rewrite <- app_assoc.
      * by rewrite HQothers.
    + destruct (Hcfg' q) as (-> & _).
      destruct (decide (q = s)) as [->|Hne]; [by rewrite HQ|by rewrite HQothers].
    + destruct (Hcfg' q) as (_ & -> & _).
      destruct (decide (q = s)) as [->|Hne]; [by rewrite HQ|by rewrite HQothers].
    + destruct (Hcfg' q) as (_ & _ & -> & _).
      destruct (decide (q = s)) as [->|Hne]; [by rewrite HQ|by rewrite HQothers].
    + destruct (Hcfg' q) as (_ & _ & _ & ->).
      destruct (decide (q = s)) as [->|Hne]; [by rewrite HQ|by rewrite HQothers].
Qed.

Lemma delivery_fields (tname id d : string) (m : Message) :
  let c := delivery tname id d m in
  ID c = id /\ Type_ c = Type_ m /\ Payload c = Payload m /\
  Timestamp c = Timestamp m /\ RetryCount c = 0 /\
  VisibleAt c = zero_Time /\ ReceiptHandle c = "" /\
  Message.metadata_of "source_topic" c = tname /\
  Message.metadata_of "delivery_id" c = d.
Proof.
  unfold delivery, Message.with_metadata, Message.metadata_of, Message.clone_of.
  destruct (Metadata m); simpl; repeat split; try done;
    try apply copy_make_bytes;
    try (by rewrite lookup_insert_eq);
    by rewrite lookup_insert_ne, lookup_insert_eq.
Qed.

(** The world in which the loop of [Publish] starts: the timestamp of the
    original is set if it was zero. *)
Lemma Publish_unfold (t : tref) (ctx : Context) (msg : loc) (w : World) :
  exists w0 ts,
    Topic.Publish t ctx msg w =
      (None, exec (Topic.Publish_loop t ctx msg (subscribers (heapT w t))) w0) /\
    heapM w0 msg = set_Timestamp ts (heapM w msg) /\
    (forall p, p <> msg -> heapM w0 p = heapM w p) /\
    heapQ w0 = heapQ w /\ heapT w0 = heapT w /\ nextM w0 = nextM w /\
    drawn w0 = drawn w /\ uuids w0 = uuids w /\ goroutines w0 = goroutines w.
Proof.
  unfold Topic.Publish. step. rewrite copy_slice_id.
  destruct (Time_IsZero (Timestamp (heapM w msg))) eqn:Hz; simpl.
  - exists (set_heapM (fun h => <[msg := set_Timestamp (clock w (tick w)) (h msg)]> h)
              (set_tick (S (tick w)) w)), (clock w (tick w)). split.
    + unfold exec.
      match goal with |- context [Topic.Publish_loop ?a ?b ?c ?d ?e] =>
        destruct (Topic.Publish_loop a b c d e) as [[] w'] end. reflexivity.
    + simpl. heap. split_and!; try done. intros p Hp. by heap.
  - exists w, (Timestamp (heapM w msg)). split.
    + unfold exec.
      match goal with |- context [Topic.Publish_loop ?a ?b ?c ?d ?e] =>
        destruct (Topic.Publish_loop a b c d e) as [[] w'] end. reflexivity.
    + split_and!; try done. by destruct (heapM w msg).
Qed.

(** [Publish] as a whole. *)
Lemma Publish_spec (t : tref) (ctx : Context) (msg : loc) (w : World) :
  allocated w msg ->
  (forall k, uuids w k <> "") ->
  let subs := subscribers (heapT w t) in
  let w' := exec (Topic.Publish t ctx msg) w in
  eval (Topic.Publish t ctx msg) w = None /\
  nextM w' = (nextM w + length subs)%nat /\
  (forall p, allocated w p -> p <> msg -> heapM w' p = heapM w p) /\
  (exists ts, heapM w' msg = set_Timestamp ts (heapM w msg)) /\
  (forall k q, subs !! k = Some q ->
     exists ts ts', heapM w' (nextM w + k)%nat =
       set_Timestamp ts
         (delivery (topic_name (heapT w t)) (uuids w (drawn w + 2 * k)%nat)
            (uuids w (S (drawn w + 2 * k))) (set_Timestamp ts' (heapM w msg)))) /\
  (forall q, messages (heapQ w' q) = messages (heapQ w q) ++ delivered (nextM w) subs q) /\
  (forall q, name (heapQ w' q) = name (heapQ w q) /\
             visibilityTimeout (heapQ w' q) = visibilityTimeout (heapQ w q) /\
             maxRetries (heapQ w' q) = maxRetries (heapQ w q) /\
             deadLetterQueue (heapQ w' q) = deadLetterQueue (heapQ w q)) /\
  goroutines w' = goroutines w.
Proof.
  intros Hmsg Huuid subs w'. subst subs w'.
  destruct (Publish_unfold t ctx msg w)
    as (w0 & ts0 & HP & Hm0 & Hothers0 & HQ0 & HT0 & Hn0 & Hd0 & Hu0 & Hg0).
  assert (He : eval (Topic.Publish t ctx msg) w = None) by (unfold eval; by rewrite HP).
  assert (Hx : exec (Topic.Publish t ctx msg) w =
               exec (Topic.Publish_loop t ctx msg (subscribers (heapT w t))) w0)
    by (unfold exec at 1; by rewrite HP).
  rewrite He, Hx. clear He Hx HP.
  destruct (Publish_loop_spec t ctx msg (subscribers (heapT w t)) w0)
    as (Hn & Hd & HT & Hu & Hg & HM & Hc & HQ & Hcfg).
  { unfold allocated in *. lia. }
  { intros k. by rewrite Hu0. }
  set (w' := exec (Topic.Publish_loop t ctx msg (subscribers (heapT w t))) w0) in *.
  split_and!.
  - done.
  - lia.
  - intros p Hp Hne. rewrite HM; [by apply Hothers0|]. unfold allocated in *. lia.
  - exists ts0. rewrite HM; [done|]. unfold allocated in *. lia.
  - intros k q Hk. destruct (Hc k q Hk) as (ts & Hck). exists ts, ts0.
    rewrite Hn0, HT0, Hu0, Hd0, Hm0 in Hck. done.
  - intros q. by rewrite HQ, HQ0, Hn0.
  - intros q. rewrite HQ0 in Hcfg. apply Hcfg.
  - by rewrite Hg.
Qed.

Lemma delivered_NoDup (c : loc) (subs : list qref) (q : qref) :
  NoDup (delivered c subs q).
Proof.
  revert c. induction subs as [|s rest IH]; intros c; simpl; [apply NoDup_nil_2|].
  destruct (decide (s = q)) as [->|Hne]; simpl; [|apply IH].
  apply NoDup_cons_2; [|apply IH].
  intros (k & _ & Hk)%delivered_lookup. lia.
Qed.

(** The copies that [Publish] appends are new objects: a queue whose slots
    were pairwise distinct allocated messages keeps that shape. *)
Lemma Publish_keeps_slots_distinct (w : World) (t : tref) (ctx : Context)
    (msg : loc) (q : qref) :
  allocated w msg ->
  (forall k, uuids w k <> "") ->
  Forall (allocated w) (messages (heapQ w q)) ->
  NoDup (messages (heapQ w q)) ->
  let w' := exec (Topic.Publish t ctx msg) w in
  NoDup (messages (heapQ w' q)) /\ Forall (allocated w') (messages (heapQ w' q)).
Proof.
  intros Hmsg Huuid Hall Hnd w'. subst w'.
  destruct (Publish_spec t ctx msg w Hmsg Huuid) as (_ & Hn & _ & _ & _ & HQ & _).
  rewrite HQ. split.
  - apply list.NoDup_app. split; [done|]. split; [|apply delivered_NoDup].
    intros p Hp (k & _ & ->)%delivered_lookup.
    apply (proj1 (list.Forall_forall _ _) Hall) in Hp. unfold allocated in Hp. lia.
  - apply list.Forall_app. split.
    + apply list.Forall_forall. intros p Hp.
      apply (proj1 (list.Forall_forall _ _) Hall) in Hp. unfold allocated in *. lia.
    + apply list.Forall_forall. intros p (k & Hk & ->)%delivered_lookup.
      apply lookup_lt_Some in Hk. unfold allocated. lia.
Qed.

(** X15. [Publish] keeps the IDs in a queue pairwise distinct: the copies it
    appends carry fresh uuids, so a queue whose messages had pairwise distinct
    IDs, none of them a uuid still to be drawn, has pairwise distinct IDs
    afterwards.  This is the shape of queue in which the dead-letter
    transition of [Nack] removes the message it was called for. *)
Theorem Publish_keeps_IDs_distinct (w : World) (t : tref) (ctx : Context)
    (msg : loc) (q : qref) :
  allocated w msg ->
  (forall k, uuids w k <> "") ->
  (forall i j, uuids w i = uuids w j -> i = j) ->
  Forall (allocated w) (messages (heapQ w q)) ->
  (forall p k, p ∈ messages (heapQ w q) -> (drawn w <= k)%nat ->
               ID (heapM w p) <> uuids w k) ->
  distinct_IDs w q ->
  distinct_IDs (exec (Topic.Publish t ctx msg) w) q.
Proof.
  intros Hmsg Huuid Hinj Hall Hfresh Hdist.
  destruct (Publish_spec t ctx msg w Hmsg Huuid)
    as (_ & _ & Hold & (ts0 & Hm) & Hc & HQ & _).
  set (w' := exec (Topic.Publish t ctx msg) w) in *.
  assert (HoldID : forall p, p ∈ messages (heapQ w q) ->
            ID (heapM w' p) = ID (heapM w p)).
  { intros p Hp. pose proof (proj1 (list.Forall_forall _ _) Hall p Hp) as Ha.
    destruct (decide (p = msg)) as [->|Hne]; [by rewrite Hm|by rewrite Hold]. }
  assert (HnewID : forall p, p ∈ delivered (nextM w) (subscribers (heapT w t)) q ->
            exists k, p = (nextM w + k)%nat /\
                      ID (heapM w' p) = uuids w (drawn w + 2 * k)%nat).
  { intros p (k & Hk & ->)%delivered_lookup. exists k. split; [done|].
    destruct (Hc k q Hk) as (ts & ts' & ->).
    exact (proj1 (delivery_fields _ _ _ _)). }
  intros i j p p' Hi Hj Heq. rewrite HQ in Hi, Hj.
  apply lookup_app_Some in Hi as [Hi|[Hil Hi]];
    apply lookup_app_Some in Hj as [Hj|[Hjl Hj]];
    pose proof (list_elem_of_lookup_2 _ _ _ Hi) as Hp;
    pose proof (list_elem_of_lookup_2 _ _ _ Hj) as Hp'.
  - apply (Hdist i j p p' Hi Hj). by rewrite <- (HoldID p Hp), <- (HoldID p' Hp').
  - exfalso. destruct (HnewID p' Hp') as (k & _ & Hk).
    rewrite (HoldID p Hp), Hk in Heq.
    apply (Hfresh p (drawn w + 2 * k)%nat); [done|lia|exact Heq].
  - exfalso. destruct (HnewID p Hp) as (k & _ & Hk).
    rewrite (HoldID p' Hp'), Hk in Heq.
    apply (Hfresh p' (drawn w + 2 * k)%nat); [done|lia|symmetry; exact Heq].
  - destruct (HnewID p Hp) as (k & -> & Hk).
    destruct (HnewID p' Hp') as (k' & -> & Hk').
    rewrite Hk, Hk' in Heq. apply Hinj in Heq.
    assert (k = k') as <- by lia.
    pose proof (NoDup_lookup _ _ _ _ (delivered_NoDup _ _ _) Hi Hj). lia.
Qed.

(** C4. Publishing one message to a topic with [N] subscribers allocates
    exactly [N] new messages, one per entry of the subscriber list, and
    appends each to the queue of its entry.  Each clone has its own fresh
    uuid as ID (pairwise distinct, as are the delivery ids), the payload
    bytes of the original (so every decoder yields the same value), its type,
    [RetryCount] 0, no lease, and the metadata [source_topic] (the name of the
    topic) and [delivery_id] (a fresh uuid).  [Publish] returns nil
    unconditionally: the result of [Enqueue] never reaches its caller.  The
    uuid source is assumed to yield non-empty, pairwise distinct strings. *)
Theorem Publish_fans_out (w : World) (t : tref) (ctx : Context) (msg : loc) :
  allocated w msg ->
  (forall k, uuids w k <> "") ->
  (forall i j, uuids w i = uuids w j -> i = j) ->
  let T := heapT w t in
  let subs := subscribers T in
  let w' := exec (Topic.Publish t ctx msg) w in
  eval (Topic.Publish t ctx msg) w = None /\
  nextM w' = (nextM w + length subs)%nat /\
  (forall q, messages (heapQ w' q) = messages (heapQ w q) ++ delivered (nextM w) subs q) /\
  (forall k q, subs !! k = Some q ->
     let c := (nextM w + k)%nat in
     c ∈ messages (heapQ w' q) /\
     ~ allocated w c /\
     ID (heapM w' c) = uuids w (drawn w + 2 * k)%nat /\
     Type_ (heapM w' c) = Type_ (heapM w msg) /\
     Payload (heapM w' c) = Payload (heapM w msg) /\
     (forall (V : Type) (unmarshal : list byte -> V),
        unmarshal (Payload (heapM w' c)) = unmarshal (Payload (heapM w msg))) /\
     RetryCount (heapM w' c) = 0 /\
     VisibleAt (heapM w' c) = zero_Time /\
     ReceiptHandle (heapM w' c) = "" /\
     Message.metadata_of "source_topic" (heapM w' c) = topic_name T /\
     Message.metadata_of "delivery_id" (heapM w' c) = uuids w (S (drawn w + 2 * k))) /\
  (forall k k', (k < length subs)%nat -> (k' < length subs)%nat -> k <> k' ->
     (nextM w + k)%nat <> (nextM w + k')%nat /\
     ID (heapM w' (nextM w + k)%nat) <> ID (heapM w' (nextM w + k')%nat) /\
     Message.metadata_of "delivery_id" (heapM w' (nextM w + k)%nat) <>
       Message.metadata_of "delivery_id" (heapM w' (nextM w + k')%nat)) /\
  Payload (heapM w' msg) = Payload (heapM w msg).
Proof.
  intros Hmsg Huuid Hinj T subs w'. subst T subs w'.
  destruct (Publish_spec t ctx msg w Hmsg Huuid)
    as (Hr & Hn & _ & (ts0 & Hm) & Hc & HQ & _ & _).
  set (w' := exec (Topic.Publish t ctx msg) w) in *.
  assert (Hfields : forall k q, subscribers (heapT w t) !! k = Some q ->
            ID (heapM w' (nextM w + k)%nat) = uuids w (drawn w + 2 * k)%nat /\
            Type_ (heapM w' (nextM w + k)%nat) = Type_ (heapM w msg) /\
            Payload (heapM w' (nextM w + k)%nat) = Payload (heapM w msg) /\
            RetryCount (heapM w' (nextM w + k)%nat) = 0 /\
            VisibleAt (heapM w' (nextM w + k)%nat) = zero_Time /\
            ReceiptHandle (heapM w' (nextM w + k)%nat) = "" /\
            Message.metadata_of "source_topic" (heapM w' (nextM w + k)%nat)
              = topic_name (heapT w t) /\
            Message.metadata_of "delivery_id" (heapM w' (nextM w + k)%nat)
              = uuids w (S (drawn w + 2 * k))).
  { intros k q Hk. destruct (Hc k q Hk) as (ts & ts' & ->).
    destruct (delivery_fields (topic_name (heapT w t)) (uuids w (drawn w + 2 * k)%nat)
                (uuids w (S (drawn w + 2 * k))) (set_Timestamp ts' (heapM w msg)))
      as (f1 & f2 & f3 & f4 & f5 & f6 & f7 & f8 & f9).
    simpl in *. done. }
  split_and!; try done.
  - intros k q Hk c. subst c.
    destruct (Hfields k q Hk) as (f1 & f2 & f3 & f5 & f6 & f7 & f8 & f9).
    split_and!; try done.
    + rewrite HQ. apply elem_of_app. right. apply delivered_lookup. by exists k.
    + unfold allocated. lia.
    + intros V unmarshal. by rewrite f3.
  - intros k k' Hk Hk' Hne.
    destruct (lookup_lt_is_Some_2 _ _ Hk) as [q Hq].
    destruct (lookup_lt_is_Some_2 _ _ Hk') as [q' Hq'].
    destruct (Hfields k q Hq) as (-> & _ & _ & _ & _ & _ & _ & ->).
    destruct (Hfields k' q' Hq') as (-> & _ & _ & _ & _ & _ & _ & ->).
    split_and!.
    + lia.
    + intros E%Hinj. lia.
    + intros E%Hinj. lia.
  - by rewrite Hm.
Qed.

(** No function of the package reads its context. *)
Lemma Enqueue_ignores_ctx (q : qref) (ctx ctx' : Context) (msg : loc) :
  Queue.Enqueue q ctx msg = Queue.Enqueue q ctx' msg.
Proof. reflexivity. Qed.

Lemma Publish_loop_ignores_ctx (t : tref) (ctx ctx' : Context) (msg : loc)
    (subs : list qref) (w : World) :
  Topic.Publish_loop t ctx msg subs w = Topic.Publish_loop t ctx' msg subs w.
Proof.
  revert w. induction subs as [|s rest IH]; intros w; [done|].
  rewrite !Publish_loop_cons.
  change (deliver t ctx msg s) with (deliver t ctx' msg s). apply IH.
Qed.

Lemma Publish_ignores_ctx (t : tref) (ctx ctx' : Context) (msg : loc) (w : World) :
  Topic.Publish t ctx msg w = Topic.Publish t ctx' msg w.
Proof.
  unfold Topic.Publish. step.
  destruct (Time_IsZero (Timestamp (heapM w msg))); simpl;
    by rewrite (Publish_loop_ignores_ctx t ctx ctx').
Qed.

(** [Broker.Publish] on a registered topic is [Topic.Publish]. *)
Lemma Broker_Publish_delegates (w : World) (b : bref) (ctx : Context)
    (topicName : string) (msg : loc) (t : tref) :
  topics (heapB w b) !! topicName = Some t ->
  Broker.Publish b ctx topicName msg w = Topic.Publish t ctx msg w.
Proof. intros Ht. unfold Broker.Publish. step. by rewrite Ht. Qed.

(** C8 (amended). [Publish] does not look at its context: a call with any
    context, with or without a deadline, exceeded or not, is the same
    computation as the call with the background context.  Delivery is never
    aborted: every entry of the subscriber snapshot gets its copy, and the
    queues keep everything they held. *)
Theorem Publish_ignores_deadline (w : World) (b : bref) (ctx : Context)
    (topicName : string) (msg : loc) (t : tref) :
  allocated w msg ->
  (forall k, uuids w k <> "") ->
  topics (heapB w b) !! topicName = Some t ->
  let subs := subscribers (heapT w t) in
  let w' := exec (Broker.Publish b ctx topicName msg) w in
  Broker.Publish b ctx topicName msg w = Broker.Publish b Background topicName msg w /\
  eval (Broker.Publish b ctx topicName msg) w = None /\
  (forall q, messages (heapQ w' q) = messages (heapQ w q) ++ delivered (nextM w) subs q) /\
  (forall k q, subs !! k = Some q -> (nextM w + k)%nat ∈ messages (heapQ w' q)).
Proof.
  intros Hmsg Huuid Ht subs w'. subst subs w'.
  assert (He : eval (Broker.Publish b ctx topicName msg) w = eval (Topic.Publish t ctx msg) w)
    by (unfold eval; by rewrite (Broker_Publish_delegates _ _ _ _ _ _ Ht)).
  assert (Hx : exec (Broker.Publish b ctx topicName msg) w = exec (Topic.Publish t ctx msg) w)
    by (unfold exec; by rewrite (Broker_Publish_delegates _ _ _ _ _ _ Ht)).
  rewrite He, Hx, !(Broker_Publish_delegates _ _ _ _ _ _ Ht).
  destruct (Publish_spec t ctx msg w Hmsg Huuid) as (Hr & _ & _ & _ & _ & HQ & _).
  split_and!; try done; [apply Publish_ignores_ctx|].
  intros k q Hk. rewrite HQ.
  apply elem_of_app. right. apply delivered_lookup. by exists k.
Qed.

(** ** The retry count at Enqueue *)

(** C9 (amended). [Enqueue] performs no check: it appends the message it is
    given and leaves its [RetryCount] and the queue's [maxRetries] as they
    are.  So the appended message satisfies [RetryCount <= maxRetries]
    whenever the message passed to [Enqueue] did. *)
Theorem Enqueue_keeps_RetryCount (w : World) (q : qref) (ctx : Context) (msg : loc) :
  RetryCount (heapM w msg) <= maxRetries (heapQ w q) ->
  let w' := exec (Queue.Enqueue q ctx msg) w in
  eval (Queue.Enqueue q ctx msg) w = None /\
  messages (heapQ w' q) = messages (heapQ w q) ++ [msg] /\
  RetryCount (heapM w' msg) = RetryCount (heapM w msg) /\
  maxRetries (heapQ w' q) = maxRetries (heapQ w q) /\
  RetryCount (heapM w' msg) <= maxRetries (heapQ w' q).
Proof.
  intros Hle w'. subst w'.
  destruct (Enqueue_spec q ctx msg w) as (Hr & HQ & _ & HM & _).
  rewrite Hr, HQ, HM. simpl. done.
Qed.

(** ** Broker.CreateTopic and Broker.CreateQueue *)

Lemma CreateTopic_existing (w : World) (b : bref) (name : string) (t : tref) :
  topics (heapB w b) !! name = Some t -> Broker.CreateTopic b name w = (t, w).
Proof. intros H. unfold Broker.CreateTopic. step. by rewrite H. Qed.

Lemma CreateQueue_existing (w : World) (b : bref) (name : string)
    (opts : list QueueOption) (q : qref) :
  queues (heapB w b) !! name = Some q -> Broker.CreateQueue b name opts w = (q, w).
Proof. intros H. unfold Broker.CreateQueue. step. by rewrite H. Qed.

(** After [CreateTopic] and [CreateQueue] the name is registered with the
    pointer returned. *)
Lemma CreateTopic_registers (w : World) (b : bref) (name : string) :
  topics (heapB (exec (Broker.CreateTopic b name) w) b) !! name
    = Some (eval (Broker.CreateTopic b name) w).
Proof.
  unfold eval, exec, Broker.CreateTopic, new_Topic. step.
  destruct (topics (heapB w b) !! name) eqn:E; simpl; [done|].
  heap. simpl. by rewrite lookup_insert_eq.
Qed.

Lemma CreateQueue_registers (w : World) (b : bref) (name : string)
    (opts : list QueueOption) :
  queues (heapB (exec (Broker.CreateQueue b name opts) w) b) !! name
    = Some (eval (Broker.CreateQueue b name opts) w).
Proof.
  unfold eval, exec, Broker.CreateQueue, new_Queue. step.
  destruct (queues (heapB w b) !! name) eqn:E; simpl; [done|].
  match goal with |- context [apply_opts ?a ?b ?c] =>
    destruct (apply_opts a b c) as [[] w2] end.
  simpl. heap. simpl. by rewrite lookup_insert_eq.
Qed.

(** C5. A second [CreateTopic] or [CreateQueue] with a name already
    registered returns the pointer that the first call returned and leaves
    the world as it is: the options of the second [CreateQueue] are not run,
    and the queue keeps its [visibilityTimeout], [maxRetries] and
    [deadLetterQueue]. *)
Theorem Create_idempotent (w : World) (b : bref) (name : string)
    (opts opts' : list QueueOption) :
  (let t1 := eval (Broker.CreateTopic b name) w in
   let w1 := exec (Broker.CreateTopic b name) w in
   Broker.CreateTopic b name w1 = (t1, w1)) /\
  (let q1 := eval (Broker.CreateQueue b name opts) w in
   let w1 := exec (Broker.CreateQueue b name opts) w in
   let w2 := exec (Broker.CreateQueue b name opts') w1 in
   Broker.CreateQueue b name opts' w1 = (q1, w1) /\
   visibilityTimeout (heapQ w2 q1) = visibilityTimeout (heapQ w1 q1) /\
   maxRetries (heapQ w2 q1) = maxRetries (heapQ w1 q1) /\
   deadLetterQueue (heapQ w2 q1) = deadLetterQueue (heapQ w1 q1)).
Proof.
  split.
  - intros t1 w1. apply CreateTopic_existing, CreateTopic_registers.
  - intros q1 w1 w2.
    assert (H : Broker.CreateQueue b name opts' w1 = (q1, w1))
      by apply CreateQueue_existing, CreateQueue_registers.
    assert (Hw2 : w2 = w1) by (subst w2; unfold exec at 1; by rewrite H).
    by rewrite Hw2.
Qed.

(** ** The idempotency store *)

Lemma IsProcessed_spec (s : sref) (id : string) (w : World) :
  eval (InMemoryIdempotencyStore.IsProcessed s id) w =
    match processed (heapS w s) !! id with
    | None => false
    | Some t => negb (ttl (heapS w s) <? Time_Sub (clock w (tick w)) t)
    end.
Proof.
  unfold eval, InMemoryIdempotencyStore.IsProcessed, time_Since. step.
  destruct (processed (heapS w s) !! id) as [t|]; [|done]. simpl.
  by destruct (ttl (heapS w s) <? Time_Sub (clock w (tick w)) t).
Qed.

(** [MarkProcessed] overwrites the entry with the current reading. *)
Lemma MarkProcessed_spec (s : sref) (id : string) (w : World) :
  let w' := exec (InMemoryIdempotencyStore.MarkProcessed s id) w in
  eval (InMemoryIdempotencyStore.MarkProcessed s id) w = None /\
  processed (heapS w' s) = <[id := clock w (tick w)]> (processed (heapS w s)) /\
  ttl (heapS w' s) = ttl (heapS w s) /\
  tick w' = S (tick w) /\ clock w' = clock w.
Proof.
  unfold eval, exec, InMemoryIdempotencyStore.MarkProcessed. step. by heap.
Qed.

(** A [MarkProcessed] of another id, and any [IsProcessed], leave the entry
    of [id] as it is. *)
Lemma marked_at_MarkProcessed_other (w : World) (s : sref) (id id' : string) (t : Time) :
  id' <> id -> marked_at w s id t ->
  marked_at (exec (InMemoryIdempotencyStore.MarkProcessed s id') w) s id t.
Proof.
  intros Hne H. unfold marked_at.
  destruct (MarkProcessed_spec s id' w) as (_ & Hp & _).
  by rewrite Hp, lookup_insert_ne.
Qed.

Lemma marked_at_IsProcessed (w : World) (s : sref) (id id' : string) (t : Time) :
  marked_at w s id t ->
  marked_at (exec (InMemoryIdempotencyStore.IsProcessed s id') w) s id t.
Proof.
  intros H. unfold marked_at, exec, InMemoryIdempotencyStore.IsProcessed, time_Since. step.
  destruct (processed (heapS w s) !! id') as [t'|]; [|exact H]. simpl.
  by destruct (ttl (heapS w s) <? Time_Sub (clock w (tick w)) t').
Qed.

(** C6, as amended.  [MarkProcessed(id)] returns nil and records the current
    clock reading as the entry of [id].  In every later world in which that
    entry is still the one recorded (no [MarkProcessed(id)] since; other ids
    may have been marked), [IsProcessed(id)] answers true when the time
    elapsed since the recorded instant ([time.Since]) is at most [ttl], and
    false once it is strictly more than [ttl].  The call that follows
    immediately answers true exactly when the time between the two clock
    readings is at most [ttl]: always when [ttl] is not negative and the
    clock has not moved, never when the readings differ by more than [ttl].
    With no entry for [id], [IsProcessed(id)] answers false. *)
Theorem IsProcessed_within_ttl (w : World) (s : sref) (id : string) :
  let marked := clock w (tick w) in
  let w1 := exec (InMemoryIdempotencyStore.MarkProcessed s id) w in
  eval (InMemoryIdempotencyStore.MarkProcessed s id) w = None /\
  marked_at w1 s id marked /\
  ttl (heapS w1 s) = ttl (heapS w s) /\
  (forall w2 : World,
     marked_at w2 s id marked ->
     let elapsed := Time_Sub (clock w2 (tick w2)) marked in
     (elapsed <= ttl (heapS w2 s) ->
      eval (InMemoryIdempotencyStore.IsProcessed s id) w2 = true) /\
     (ttl (heapS w2 s) < elapsed ->
      eval (InMemoryIdempotencyStore.IsProcessed s id) w2 = false)) /\
  (eval (mark_then_ask s id) w = true <->
   Time_Sub (clock w (S (tick w))) marked <= ttl (heapS w s)) /\
  (0 <= ttl (heapS w s) -> clock w (S (tick w)) = marked ->
   eval (mark_then_ask s id) w = true) /\
  (processed (heapS w s) !! id = None ->
   eval (InMemoryIdempotencyStore.IsProcessed s id) w = false).
Proof.
  intros marked w1. subst marked w1.
  destruct (MarkProcessed_spec s id w) as (Hr & Hp & Httl & Htick & Hclock).
  set (w1 := exec (InMemoryIdempotencyStore.MarkProcessed s id) w) in *.
  assert (Hm : marked_at w1 s id (clock w (tick w))).
  { unfold marked_at. by rewrite Hp, lookup_insert_eq. }
  assert (Hask : eval (mark_then_ask s id) w
                 = negb (ttl (heapS w s) <? Time_Sub (clock w (S (tick w))) (clock w (tick w)))).
  { unfold mark_then_ask. rewrite eval_bind. fold w1.
    rewrite IsProcessed_spec, Hm, Httl, Htick, Hclock. reflexivity. }
  split; [exact Hr|]. split; [exact Hm|]. split; [exact Httl|]. split.
  { intros w2 Hs. cbv zeta. rewrite IsProcessed_spec, Hs.
    split; intros H.
    - apply negb_true_iff, Z.ltb_ge. done.
    - apply negb_false_iff, Z.ltb_lt. done. }
  split.
  { rewrite Hask, negb_true_iff, Z.ltb_ge. reflexivity. }
  split.
  { intros Hpos Hsame. rewrite Hask, Hsame, negb_true_iff, Z.ltb_ge.
    unfold Time_Sub. rewrite Z.sub_diag.
    change (max_int64 <? 0) with false. change (0 <? min_int64) with false.
    cbv iota. exact Hpos. }
  intros H. by rewrite IsProcessed_spec, H.
Qed.

(** ** The idempotent worker *)

Section IdempotentWorker.
Context {S : Type} `{IdempotencyStore S}.
Variables (name : string) (queue : qref) (store : S).

(** The three ways through the wrapped handler. *)
Lemma IdempotentWorker_run (inner : MessageHandler) (msg : loc) (w : World) :
  let wrapped := handler (IdempotentWorker name queue inner store) in
  let id := ID (heapM w msg) in
  let w1 := exec (IsProcessed store id) w in
  (eval (IsProcessed store id) w = true -> wrapped msg w = (None, w1)) /\
  (eval (IsProcessed store id) w = false ->
   let w2 := exec (inner msg) w1 in
   (forall e, eval (inner msg) w1 = Some e -> wrapped msg w = (Some e, w2)) /\
   (eval (inner msg) w1 = None ->
    wrapped msg w = MarkProcessed store (ID (heapM w2 msg)) w2)).
Proof.
  intros wrapped id w1. subst wrapped id w1. simpl. unfold wrappedHandler, eval, exec. step.
  destruct (IsProcessed store (ID (heapM w msg)) w) as [skip w1] eqn:E. simpl.
  split.
  - intros ->. done.
  - intros ->. destruct (inner msg w1) as [err w2] eqn:E'. simpl. split.
    + intros e ->. done.
    + intros ->. done.
Qed.

(** C7. The handler of [IdempotentWorker] first asks the store about the ID
    of the message.  If the store answers yes, it returns nil and the world
    is the one the store's answer left, whatever the inner handler is: the
    inner handler is not run.  Otherwise it runs the inner handler; if that
    fails, its error is returned and the world is the one the inner handler
    left, so nothing is marked; if it succeeds, the result is that of
    [MarkProcessed] on the ID of the message. *)
Theorem IdempotentWorker_guards_handler (inner : MessageHandler) (msg : loc) (w : World) :
  let wrapped := handler (IdempotentWorker name queue inner store) in
  let id := ID (heapM w msg) in
  let w1 := exec (IsProcessed store id) w in
  (eval (IsProcessed store id) w = true ->
   wrapped msg w = (None, w1) /\
   forall inner' : MessageHandler,
     handler (IdempotentWorker name queue inner' store) msg w = (None, w1)) /\
  (eval (IsProcessed store id) w = false ->
   let w2 := exec (inner msg) w1 in
   (forall e, eval (inner msg) w1 = Some e -> wrapped msg w = (Some e, w2)) /\
   (eval (inner msg) w1 = None ->
    wrapped msg w = MarkProcessed store (ID (heapM w2 msg)) w2)).
Proof.
  intros wrapped id w1. destruct (IdempotentWorker_run inner msg w) as [Hskip Hrun].
  split; [|exact Hrun].
  intros Hyes. split; [exact (Hskip Hyes)|].
  intros inner'. destruct (IdempotentWorker_run inner' msg w) as [Hskip' _].
  exact (Hskip' Hyes).
Qed.
End IdempotentWorker.

(** With the in-memory store: a failing inner handler leaves the store as it
    found it, and a succeeding one gets the ID recorded, with the clock
    reading taken after it returned. *)
Lemma IdempotentWorker_marks_only_on_success (name : string) (queue : qref) (s : sref)
    (inner : MessageHandler) (msg : loc) (w : World) :
  let wrapped := handler (IdempotentWorker name queue inner s) in
  let w1 := exec (IsProcessed s (ID (heapM w msg))) w in
  let w2 := exec (inner msg) w1 in
  let w' := exec (wrapped msg) w in
  eval (IsProcessed s (ID (heapM w msg))) w = false ->
  (forall e, eval (inner msg) w1 = Some e -> heapS w' = heapS w2) /\
  (eval (inner msg) w1 = None ->
   processed (heapS w' s) !! ID (heapM w2 msg) = Some (clock w2 (tick w2))).
Proof.
  intros wrapped w1 w2 w' Hfresh.
  destruct (IdempotentWorker_run name queue s inner msg w) as [_ Hrun].
  destruct (Hrun Hfresh) as [Hfail Hok]. fold wrapped w1 w2 in Hfail, Hok. split.
  - intros e He. subst w'. unfold exec at 1. by rewrite (Hfail e He).
  - intros He. subst w'. unfold exec at 1. rewrite (Hok He).
    destruct (MarkProcessed_spec s (ID (heapM w2 msg)) w2) as (_ & Hp & _).
    unfold exec at 1 in Hp.
    change (MarkProcessed s (ID (heapM w2 msg)) w2)
      with (InMemoryIdempotencyStore.MarkProcessed s (ID (heapM w2 msg)) w2).
    rewrite Hp. apply lookup_insert_eq.
Qed.

(** ** The books of the queues *)

Lemma keeps_bind {A B} (c : M A) (k : A -> M B) :
  keeps c -> (forall a, keeps (k a)) -> keeps (c ≫= k).
Proof.
  intros Hc Hk w Hw. unfold exec, mbind, M_bind.
  specialize (Hc w Hw). unfold exec in Hc. destruct (c w) as [a w1]. simpl in Hc.
  apply (Hk a w1 Hc).
Qed.

Lemma keeps_ret {A} (a : A) : keeps (mret a).
Proof. intros w Hw. exact Hw. Qed.

Lemma keeps_heapQ {A} (c : M A) :
  (forall w, heapQ (exec c w) = heapQ w) -> keeps c.
Proof. intros H w Hw q. rewrite H. apply Hw. Qed.

Lemma wrap64_congruent (z : Z) : exists k, wrap64 z = z + k * 2 ^ 64.
Proof.
  unfold wrap64. exists (- ((z + 2 ^ 63) / 2 ^ 64)).
  pose proof (Z.div_mod (z + 2 ^ 63) (2 ^ 64) ltac:(lia)). lia.
Qed.

Lemma incr_congruent (z : Z) : exists k, incr z = z + 1 + k * 2 ^ 64.
Proof. apply wrap64_congruent. Qed.

Lemma mod_zero_iff (z : Z) : z mod 2 ^ 64 = 0 <-> exists k, z = k * 2 ^ 64.
Proof.
  rewrite Z.mod_divide by lia. unfold Z.divide. done.
Qed.

Lemma len_app {A} (l k : list A) : len (l ++ k) = len l + len k.
Proof. unfold len. rewrite length_app. lia. Qed.

Lemma len_delete {A} (l : list A) (i : nat) :
  (i < length l)%nat -> len (delete i l) = len l - 1.
Proof.
  intros Hi. unfold len.
  pose proof (length_delete l i (lookup_lt_is_Some_2 l i Hi)). lia.
Qed.

Lemma books_balance_appended (msg : loc) (Q : Queue) :
  books_balance Q -> books_balance (appended msg Q).
Proof.
  unfold books_balance, appended. cbn -[incr Z.pow len]. intros [H1 H2].
  split; [|done]. rewrite len_app. unfold len at 2. cbn [length].
  apply mod_zero_iff in H1 as [k Hk]. apply mod_zero_iff.
  destruct (incr_congruent (TotalReceived (stats Q))) as [k' ->].
  exists (k + k'). lia.
Qed.

Lemma books_balance_acknowledged (i : nat) (Q : Queue) :
  (i < length (messages Q))%nat ->
  books_balance Q -> books_balance (acknowledged i Q).
Proof.
  unfold books_balance, acknowledged. cbn -[incr Z.pow len]. intros Hi [H1 H2].
  rewrite <- delete_take_drop.
  split; [|done]. rewrite len_delete by done.
  apply mod_zero_iff in H1 as [k Hk]. apply mod_zero_iff.
  destruct (incr_congruent (TotalProcessed (stats Q))) as [k' ->].
  exists (k - k'). lia.
Qed.

Lemma books_balance_dead_lettered (j : nat) (Q : Queue) :
  (j < length (messages Q))%nat ->
  books_balance Q -> books_balance (dead_lettered j Q).
Proof.
  unfold books_balance, dead_lettered. cbn -[incr Z.pow len]. intros Hi [H1 H2].
  rewrite <- delete_take_drop.
  split; [|done]. rewrite len_delete by done.
  apply mod_zero_iff in H1 as [k Hk]. apply mod_zero_iff.
  destruct (incr_congruent (TotalFailed (stats Q))) as [k' ->].
  exists (k - k'). lia.
Qed.

Lemma books_balance_sync (Q : Queue) : books_balance Q -> books_balance (sync_CurrentSize Q).
Proof. unfold books_balance. simpl. tauto. Qed.

Ltac quiet := apply keeps_heapQ; intros; reflexivity.

Lemma keeps_Clone (p : loc) : keeps (Message.Clone p).
Proof. quiet. Qed.

Lemma keeps_SetMetadata (p : loc) (k v : string) : keeps (Message.SetMetadata p k v).
Proof. quiet. Qed.

Lemma keeps_Enqueue (q : qref) (ctx : Context) (msg : loc) : keeps (Queue.Enqueue q ctx msg).
Proof.
  intros w Hw q'.
  destruct (Enqueue_spec q ctx msg w) as (_ & Hq & Hothers & _).
  destruct (decide (q' = q)) as [->|Hne].
  - rewrite Hq. apply books_balance_appended, Hw.
  - rewrite Hothers by done. apply Hw.
Qed.

Lemma keeps_Receive (q : qref) (ctx : Context) : keeps (Queue.Receive q ctx).
Proof.
  apply keeps_heapQ. intros w.
  pose proof (Receive_scan w q ctx) as H. cbv zeta in H.
  destruct (eval (Queue.Receive q ctx) w) as [[p|] err].
  - destruct H as (_ & i & _ & _ & _ & _ & _ & H). exact H.
  - destruct H as (_ & _ & H). apply (f_equal heapQ) in H. exact H.
Qed.

Lemma keeps_Acknowledge (q : qref) (ctx : Context) (h : string) :
  keeps (Queue.Acknowledge q ctx h).
Proof.
  intros w Hw q'.
  pose proof (Acknowledge_spec q ctx h w) as H. cbv zeta in H.
  destruct (located w q h) as [[i p]|] eqn:E.
  - destruct H as (_ & Hq & Hothers & _).
    destruct (decide (q' = q)) as [->|Hne].
    + rewrite Hq. apply books_balance_acknowledged; [|apply Hw].
      apply located_Some_holds in E as (E & _). by apply lookup_lt_Some in E.
    + rewrite Hothers by done. apply Hw.
  - destruct H as (_ & ->). apply Hw.
Qed.

Lemma dead_letter_removes_one (q : qref) (msg : loc) (w : World) :
  msg ∈ messages (heapQ w q) ->
  exists j, (j < length (messages (heapQ w q)))%nat /\
    heapQ (exec (Queue.moveToDeadLetterQueueLocked q msg) w) q
      = dead_lettered j (heapQ w q) /\
    forall q', q' <> q ->
      heapQ (exec (Queue.moveToDeadLetterQueueLocked q msg) w) q' = heapQ w q'.
Proof.
  intros Hin. unfold exec, Queue.moveToDeadLetterQueueLocked. step.
  destruct (deadLetterQueue (heapQ w q)) as [dlq|] eqn:Hdlq; simpl.
  - unfold Message.Clone, Message.SetMetadata, new_Message. step.
    match goal with
    | |- context [Queue.remove_loop q msg 0 ?l ?w1] =>
        pose proof (remove_loop_spec q msg l 0 w1) as Hrem;
        destruct (Queue.remove_loop q msg 0 l w1) as [[] w2] eqn:E;
        destruct (list_find (same_ID w1 msg) l) as [[j x]|] eqn:Hfind
    end.
    + unfold exec in Hrem. rewrite E in Hrem. simpl in Hrem.
      destruct Hrem as (Hq & Hothers & _).
      apply list_find_Some in Hfind as (Hj & _). apply lookup_lt_Some in Hj.
      exists j. split; [done|]. simpl. heap. rewrite Hq. split; [done|].
      intros q' Hq'. heap. by apply Hothers.
    + exfalso. apply list_find_None in Hfind.
      apply (proj1 (list.Forall_forall _ _) Hfind msg Hin). done.
  - match goal with
    | |- context [Queue.remove_loop q msg 0 ?l ?w1] =>
        pose proof (remove_loop_spec q msg l 0 w1) as Hrem;
        destruct (Queue.remove_loop q msg 0 l w1) as [[] w2] eqn:E;
        destruct (list_find (same_ID w1 msg) l) as [[j x]|] eqn:Hfind
    end.
    + unfold exec in Hrem. rewrite E in Hrem. simpl in Hrem.
      destruct Hrem as (Hq & Hothers & _).
      revert Hfind Hq. heap. simpl. intros Hfind Hq.
      apply list_find_Some in Hfind as (Hj & _). apply lookup_lt_Some in Hj.
      exists j. split; [done|]. simpl. rewrite Hq. split; [done|].
      intros q' Hq'. rewrite Hothers by done. by heap.
    + exfalso. apply list_find_None in Hfind. revert Hfind. heap. simpl. intros Hfind.
      apply (proj1 (list.Forall_forall _ _) Hfind msg Hin). done.
Qed.

Lemma keeps_Nack (q : qref) (ctx : Context) (h : string) : keeps (Queue.Nack q ctx h).
Proof.
  intros w Hw q'. unfold exec. rewrite Nack_locates.
  destruct (located w q h) as [[i p]|] eqn:E; [|apply Hw].
  destruct (maxRetries (heapQ w q) <=? RetryCount (heapM w p)).
  - apply located_Some_holds in E as (E & _).
    destruct (dead_letter_removes_one q p w) as (j & Hj & Hq & Hothers).
    { by eapply list_elem_of_lookup_2. }
    unfold exec in *.
    destruct (decide (q' = q)) as [->|Hne].
    + rewrite Hq. apply books_balance_dead_lettered; [done|apply Hw].
    + rewrite Hothers by done. apply Hw.
  - apply Hw.
Qed.

Lemma keeps_Stats (q : qref) : keeps (Queue.Stats q).
Proof.
  intros w Hw q'. unfold exec, Queue.Stats. step.
  destruct (decide (q' = q)) as [->|Hne]; heap; [|apply Hw].
  apply books_balance_sync, Hw.
Qed.

Lemma keeps_Publish_loop (t : tref) (ctx : Context) (msg : loc) (subs : list qref) :
  keeps (Topic.Publish_loop t ctx msg subs).
Proof.
  induction subs as [|queue rest IH]; simpl; [apply keeps_ret|].
  apply keeps_bind; [apply keeps_Clone|intros clone].
  apply keeps_bind; [quiet|intros T].
  apply keeps_bind; [apply keeps_SetMetadata|intros _].
  apply keeps_bind; [quiet|intros d].
  apply keeps_bind; [apply keeps_SetMetadata|intros _].
  apply keeps_bind; [apply keeps_Enqueue|intros _]. exact IH.
Qed.

Lemma keeps_Publish (t : tref) (ctx : Context) (msg : loc) : keeps (Topic.Publish t ctx msg).
Proof.
  unfold Topic.Publish.
  apply keeps_bind; [quiet|intros T].
  apply keeps_bind; [quiet|intros m].
  apply keeps_bind.
  { destruct (Time_IsZero (Timestamp m)); quiet. }
  intros _. apply keeps_bind; [apply keeps_Publish_loop|intros _]. apply keeps_ret.
Qed.

Lemma books_balance_new (name : string) (vt : Duration) (mr : Z) :
  books_balance (mkQueue name [] vt mr None (mkQueueStats 0 0 0 0)).
Proof. by split. Qed.

Lemma keeps_apply_settings (queue : qref) (opts : list QueueSetting) :
  keeps (apply_opts queue (as_option <$> opts)).
Proof.
  induction opts as [|o rest IH]; simpl; [apply keeps_ret|].
  apply keeps_bind; [|intros _; exact IH].
  intros w Hw q'. destruct o; unfold exec; step;
    (destruct (decide (q' = queue)) as [->|Hne]; heap; [|apply Hw]);
    specialize (Hw queue); unfold books_balance in *; simpl; exact Hw.
Qed.

Lemma keeps_CreateQueue (b : bref) (name : string) (opts : list QueueSetting) :
  keeps (Broker.CreateQueue b name (as_option <$> opts)).
Proof.
  unfold Broker.CreateQueue.
  apply keeps_bind; [quiet|intros B].
  destruct (queues B !! name); [apply keeps_ret|].
  apply keeps_bind.
  { intros w Hw q'. unfold exec, new_Queue. simpl.
    destruct (decide (q' = nextQ w)) as [->|Hne]; heap; [|apply Hw].
    apply books_balance_new. }
  intros queue. apply keeps_bind; [apply keeps_apply_settings|intros _].
  apply keeps_bind; [quiet|intros _]. apply keeps_ret.
Qed.

Lemma keeps_CreateTopic (b : bref) (name : string) : keeps (Broker.CreateTopic b name).
Proof.
  unfold Broker.CreateTopic.
  apply keeps_bind; [quiet|intros B].
  destruct (topics B !! name); [apply keeps_ret|].
  apply keeps_bind; [quiet|intros topic].
  apply keeps_bind; [quiet|intros _]. apply keeps_ret.
Qed.

Lemma keeps_Subscribe (b : bref) (topicName queueName : string) :
  keeps (Broker.Subscribe b topicName queueName).
Proof.
  unfold Broker.Subscribe.
  apply keeps_bind; [quiet|intros B].
  destruct (topics B !! topicName); [|apply keeps_ret].
  destruct (queues B !! queueName); [|apply keeps_ret].
  apply keeps_bind; [quiet|intros _]. apply keeps_ret.
Qed.

Lemma keeps_Broker_Publish (b : bref) (ctx : Context) (topicName : string) (msg : loc) :
  keeps (Broker.Publish b ctx topicName msg).
Proof.
  unfold Broker.Publish.
  apply keeps_bind; [quiet|intros B].
  destruct (topics B !! topicName); [apply keeps_Publish|apply keeps_ret].
Qed.

Lemma keeps_Stats_loop (entries : list (string * qref)) (stats : BrokerStats) :
  keeps (Broker.Stats_loop entries stats).
Proof.
  revert stats. induction entries as [|[name queue] rest IH]; intros stats; simpl.
  - apply keeps_ret.
  - apply keeps_bind; [apply keeps_Stats|intros s]. apply IH.
Qed.

Lemma keeps_Broker_Stats (b : bref) : keeps (Broker.Stats b).
Proof.
  unfold Broker.Stats. apply keeps_bind; [quiet|intros B]. apply keeps_Stats_loop.
Qed.

Lemma keeps_schedule (i : nat) : keeps (schedule i).
Proof.
  unfold schedule. apply keeps_bind; [quiet|intros w0].
  destruct (goroutines w0 !! i) as [[q dlqMsg]|]; [|apply keeps_ret].
  apply keeps_bind; [quiet|intros _].
  unfold run_goroutine, context_WithTimeout.
  apply keeps_bind.
  { apply keeps_bind; [quiet|intros now]. apply keeps_ret. }
  intros ctx. apply keeps_bind; [quiet|intros Q].
  destruct (deadLetterQueue Q); [|apply keeps_ret].
  apply keeps_bind; [apply keeps_Enqueue|intros _]. apply keeps_ret.
Qed.

Lemma keeps_run_call (c : Call) : keeps (run_call c).
Proof.
  destruct c; simpl.
  - apply keeps_bind; [apply keeps_CreateTopic|intros _; apply keeps_ret].
  - apply keeps_bind; [apply keeps_CreateQueue|intros _; apply keeps_ret].
  - apply keeps_bind; [apply keeps_Subscribe|intros _; apply keeps_ret].
  - apply keeps_bind; [apply keeps_Broker_Publish|intros _; apply keeps_ret].
  - apply keeps_bind; [apply keeps_Broker_Stats|intros _; apply keeps_ret].
  - apply keeps_bind; [apply keeps_Publish|intros _; apply keeps_ret].
  - apply keeps_bind; [apply keeps_Enqueue|intros _; apply keeps_ret].
  - apply keeps_bind; [apply keeps_Receive|intros _; apply keeps_ret].
  - apply keeps_bind; [apply keeps_Acknowledge|intros _; apply keeps_ret].
  - apply keeps_bind; [apply keeps_Nack|intros _; apply keeps_ret].
  - apply keeps_bind; [apply keeps_Stats|intros _; apply keeps_ret].
  - apply keeps_bind; [quiet|intros _; apply keeps_ret].
  - quiet.
  - apply keeps_schedule.
Qed.

Lemma keeps_run_calls (cs : list Call) : keeps (run_calls cs).
Proof.
  induction cs as [|c rest IH]; simpl; [apply keeps_ret|].
  apply keeps_bind; [apply keeps_run_call|intros _; exact IH].
Qed.

(** X1. The books of the queues balance after every history.  Whatever the
    clients do (any sequence of exported calls on brokers, topics and queues,
    of assignments to messages, and of scheduler steps that run a pending
    dead-letter deposit), if the books of every queue balanced before, they
    balance afterwards: for each queue [TotalReceived] equals [TotalProcessed]
    plus [TotalFailed] plus the number of messages still queued (the counters
    are [int64], so the equation is modulo 2^64), and [CurrentSize] is the
    length of the queue.  So the snapshot that [Stats] returns satisfies the
    same equation, and its [CurrentSize] is what [Size] returns.  A queue as
    [CreateQueue] builds it starts with balanced books. *)
Theorem queue_books_always_balance (cs : list Call) (w : World) :
  (forall q, books_balance (heapQ w q)) ->
  let w' := exec (run_calls cs) w in
  forall q,
    books_balance (heapQ w' q) /\
    let s := eval (Queue.Stats q) w' in
    (TotalReceived s - TotalProcessed s - TotalFailed s - CurrentSize s) mod 2 ^ 64 = 0 /\
    CurrentSize s = eval (Queue.Size q) w'.
Proof.
  intros Hw w' q. pose proof (keeps_run_calls cs w Hw q) as H. fold w' in H.
  split; [exact H|]. destruct H as [H1 H2].
  unfold eval, Queue.Stats, Queue.Size. step. heap. cbn -[Z.pow len].
  split; [exact H1|]. done.
Qed.

(** ** Leases and handles *)

(** X2. While a lease runs, [Receive] does not hand the message out again: a
    message whose [VisibleAt] is set, in a call during which no reading of the
    clock is after that instant, is not the message returned, and the call
    leaves it as it is. *)
Theorem Receive_respects_running_lease (w : World) (q : qref) (ctx : Context) (p : loc) :
  let w' := exec (Queue.Receive q ctx) w in
  VisibleAt (heapM w p) <> zero_Time ->
  (forall t, read_between w w' t -> t <= VisibleAt (heapM w p)) ->
  fst (eval (Queue.Receive q ctx) w) <> Some p /\
  heapM w' p = heapM w p.
Proof.
  intros w' Hset Hclock.
  pose proof (Receive_scan w q ctx) as H. cbv zeta in H. fold w' in H.
  destruct (eval (Queue.Receive q ctx) w) as [[p0|] err]; simpl.
  - destruct H as (_ & i & _ & _ & (t & Ht & Hvis) & _ & Hothers & _).
    destruct (decide (p0 = p)) as [->|Hne].
    + exfalso. specialize (Hclock t Ht).
      unfold Message.visible_at, Time_IsZero, Time_After in Hvis.
      apply orb_true_iff in Hvis as [Hz|Ha].
      * apply Z.eqb_eq in Hz. done.
      * apply Z.ltb_lt in Ha. lia.
    + split; [congruence|]. by apply Hothers.
  - destruct H as (_ & _ & H). split; [done|].
    apply (f_equal heapM) in H. simpl in H. by rewrite H.
Qed.

(** X3. [Acknowledge] never looks at the clock.  The handle issued by a lease
    (on a message that occupies one slot, the uuid being held by no other
    message of the queue) is accepted in every later world in which the queue
    and the handles of its messages are as the lease left them, however much
    time has passed, the visibility timeout included: the message is removed.
    Once the message has been leased again the old handle is no longer held:
    [Acknowledge] with it fails with [ErrInvalidReceiptHandle] and changes
    nothing. *)
Theorem handle_outlives_timeout_until_redelivery (w : World) (q : qref) (ctx : Context)
    (p : loc) :
  eval (Queue.Receive q ctx) w = (Some p, None) ->
  (forall j j', messages (heapQ w q) !! j = Some p ->
                messages (heapQ w q) !! j' = Some p -> j = j') ->
  (forall p', p' ∈ messages (heapQ w q) -> p' <> p ->
              ReceiptHandle (heapM w p') <> uuids w (drawn w)) ->
  let w1 := exec (Queue.Receive q ctx) w in
  let h := uuids w (drawn w) in
  ReceiptHandle (heapM w1 p) = h /\
  forall w2 : World,
    heapQ w2 q = heapQ w1 q ->
    (forall p', p' ∈ messages (heapQ w1 q) ->
                ReceiptHandle (heapM w2 p') = ReceiptHandle (heapM w1 p')) ->
    (forall ctx1,
       eval (Queue.Acknowledge q ctx1 h) w2 = None /\
       p ∉ messages (heapQ (exec (Queue.Acknowledge q ctx1 h) w2) q)) /\
    (forall ctx1 ctx2,
       eval (Queue.Receive q ctx1) w2 = (Some p, None) ->
       uuids w2 (drawn w2) <> h ->
       let w3 := exec (Queue.Receive q ctx1) w2 in
       ReceiptHandle (heapM w3 p) = uuids w2 (drawn w2) /\
       eval (Queue.Acknowledge q ctx2 h) w3 = Some ErrInvalidReceiptHandle /\
       exec (Queue.Acknowledge q ctx2 h) w3 = w3).
Proof.
  intros Hrecv Hnd Hfresh w1 h.
  pose proof (Receive_scan w q ctx) as HR. cbv zeta in HR. rewrite Hrecv in HR.
  destruct HR as (_ & i & Hi & _ & _ & Hp & HMothers & HQ).
  fold w1 in Hp, HMothers, HQ.
  assert (Hh : ReceiptHandle (heapM w1 p) = h) by (by rewrite Hp).
  split; [exact Hh|]. intros w2 HQ2 HH2.
  assert (Hothers2 : forall y, y ∈ messages (heapQ w q) -> y <> p ->
             ReceiptHandle (heapM w2 y) <> h).
  { intros y Hy Hne. rewrite HH2 by (by rewrite HQ). rewrite HMothers by done.
    by apply Hfresh. }
  assert (Hloc : located w2 q h = Some (i, p)).
  { apply list_find_Some. rewrite HQ2, HQ. split; [done|]. split.
    - unfold holds. rewrite HH2; [done|]. rewrite HQ. by eapply list_elem_of_lookup_2.
    - intros j y Hy Hj. unfold holds.
      apply Hothers2; [by eapply list_elem_of_lookup_2|].
      intros ->. pose proof (Hnd _ _ Hy Hi). lia. }
  split.
  - intros ctx1. pose proof (Acknowledge_spec q ctx1 h w2) as H1. cbv zeta in H1.
    rewrite Hloc in H1. destruct H1 as (Hr1 & HQ1 & _). split; [done|].
    rewrite HQ1. simpl. rewrite <- delete_take_drop, HQ2, HQ.
    apply single_slot_delete. intros j Hj. by apply (Hnd j i).
  - intros ctx1 ctx2 Hrecv2 Hnew w3.
    pose proof (Receive_scan w2 q ctx1) as HR. cbv zeta in HR. rewrite Hrecv2 in HR.
    destruct HR as (_ & i' & Hi' & _ & _ & Hp3 & HMothers3 & HQ3).
    fold w3 in Hp3, HMothers3, HQ3.
    assert (Hh3 : ReceiptHandle (heapM w3 p) = uuids w2 (drawn w2)) by (by rewrite Hp3).
    split; [exact Hh3|].
    pose proof (Acknowledge_spec q ctx2 h w3) as H3. cbv zeta in H3.
    assert (Hnone : located w3 q h = None).
    { apply located_None. rewrite HQ3, HQ2, HQ. intros y Hy.
      destruct (decide (y = p)) as [->|Hne].
      - rewrite Hh3. done.
      - rewrite HMothers3 by done. by apply Hothers2. }
    rewrite Hnone in H3. exact H3.
Qed.

(** X4. The empty receipt handle is held by every message that is not under
    lease (never received, or nacked).  If the queue has such a message,
    [Acknowledge("")] does not fail: it removes the first of them, a message
    that no consumer holds; [Nack("")] returns nil as well. *)
Theorem empty_handle_matches_unleased_message (w : World) (q : qref) (ctx : Context)
    (p : loc) :
  p ∈ messages (heapQ w q) ->
  ReceiptHandle (heapM w p) = "" ->
  exists (i : nat) (p0 : loc),
    located w q "" = Some (i, p0) /\
    messages (heapQ w q) !! i = Some p0 /\
    ReceiptHandle (heapM w p0) = "" /\
    eval (Queue.Acknowledge q ctx "") w = None /\
    messages (heapQ (exec (Queue.Acknowledge q ctx "") w) q)
      = delete i (messages (heapQ w q)) /\
    eval (Queue.Nack q ctx "") w = None.
Proof.
  intros Hin He.
  destruct (located w q "") as [[i p0]|] eqn:E.
  - pose proof (located_Some_holds _ _ _ _ _ E) as (Hi & Hh & _).
    exists i, p0. split; [done|]. split; [done|]. split; [done|].
    pose proof (Acknowledge_spec q ctx "" w) as H. cbv zeta in H. rewrite E in H.
    destruct H as (Hr & HQ & _). split; [done|]. split.
    + rewrite HQ. apply remove_at_delete.
    + unfold eval. rewrite Nack_locates, E.
      destruct (maxRetries (heapQ w q) <=? RetryCount (heapM w p0)).
      * apply moveToDeadLetterQueueLocked_nil.
      * done.
  - exfalso. exact (proj1 (located_None w q "") E p Hin He).
Qed.

(** ** Subscriptions and the registry of the broker *)

(** X8. [Subscribe] looks the topic up first, then the queue: with an unknown
    topic it returns [ErrTopicNotFound] (whether or not the queue exists),
    with a known topic and an unknown queue [ErrQueueNotFound], and in both
    cases nothing changes.  With both known it returns nil and appends the
    queue to the subscribers of the topic, whether or not it is subscribed
    already: [SubscriberCount] grows by one and nothing else changes. *)
Theorem Subscribe_checks_topic_then_queue (w : World) (b : bref)
    (topicName queueName : string) :
  let B := heapB w b in
  let r := eval (Broker.Subscribe b topicName queueName) w in
  let w' := exec (Broker.Subscribe b topicName queueName) w in
  (topics B !! topicName = None -> r = Some ErrTopicNotFound /\ w' = w) /\
  (forall t, topics B !! topicName = Some t -> queues B !! queueName = None ->
     r = Some ErrQueueNotFound /\ w' = w) /\
  (forall t queue,
     topics B !! topicName = Some t -> queues B !! queueName = Some queue ->
     r = None /\
     subscribers (heapT w' t) = subscribers (heapT w t) ++ [queue] /\
     topic_name (heapT w' t) = topic_name (heapT w t) /\
     eval (Topic.SubscriberCount t) w' = eval (Topic.SubscriberCount t) w + 1 /\
     (forall t', t' <> t -> heapT w' t' = heapT w t') /\
     set_heapT (fun _ => heapT w) w' = w).
Proof.
  intros B r w'. subst B r w'. unfold eval, exec, Broker.Subscribe. step.
  split_and!.
  - intros ->. done.
  - intros t -> ->. done.
  - intros t queue -> ->. unfold Topic.addSubscriber, Topic.SubscriberCount. step. heap.
    split_and!; try done.
    + unfold len. simpl. rewrite length_app. simpl. lia.
    + intros t' Ht'. by heap.
    + by destruct w.
Qed.

(** X10. A message can be published to nobody.  [Broker.Publish] on an unknown
    topic returns [ErrTopicNotFound] and changes nothing.  On a topic without
    subscribers it returns nil although no queue receives anything: no message
    is allocated, no uuid drawn, no queue touched; the only effect is the
    timestamp given to a message that had none. *)
Theorem Publish_to_nobody (w : World) (b : bref) (ctx : Context)
    (topicName : string) (msg : loc) :
  let B := heapB w b in
  (topics B !! topicName = None ->
   Broker.Publish b ctx topicName msg w = (Some ErrTopicNotFound, w)) /\
  (forall t, topics B !! topicName = Some t -> subscribers (heapT w t) = [] ->
     let w' := exec (Broker.Publish b ctx topicName msg) w in
     eval (Broker.Publish b ctx topicName msg) w = None /\
     heapQ w' = heapQ w /\ nextM w' = nextM w /\ drawn w' = drawn w /\
     goroutines w' = goroutines w /\
     (forall p, p <> msg -> heapM w' p = heapM w p) /\
     heapM w' msg =
       set_Timestamp (if Time_IsZero (Timestamp (heapM w msg))
                      then clock w (tick w) else Timestamp (heapM w msg))
                     (heapM w msg)).
Proof.
  intros B. subst B. split.
  - intros Hnone. unfold Broker.Publish. step. by rewrite Hnone.
  - intros t Ht Hsubs w'. subst w'.
    unfold eval, exec. rewrite (Broker_Publish_delegates w b ctx topicName msg t Ht).
    unfold Topic.Publish. step. rewrite Hsubs. simpl.
    destruct (Time_IsZero (Timestamp (heapM w msg))) eqn:Hz; simpl.
    + split_and!; try done. intros p Hp. by heap. by heap.
    + split_and!; try done. by destruct (heapM w msg).
Qed.

Lemma as_option_spec (o : QueueSetting) (queue : qref) (w : World) :
  as_option o queue w = (tt, set_heapQ (fun h => <[queue := configure (h queue) o]> h) w).
Proof. by destruct o. Qed.

Lemma apply_settings_spec (queue : qref) (settings : list QueueSetting) (w : World) :
  let w' := exec (apply_opts queue (as_option <$> settings)) w in
  heapQ w' queue = foldl configure (heapQ w queue) settings /\
  (forall q', q' <> queue -> heapQ w' q' = heapQ w q') /\
  set_heapQ (fun _ => heapQ w) w' = w.
Proof.
  revert w. induction settings as [|o rest IH]; intros w.
  - simpl. split_and!; try done. by destruct w.
  - cbv zeta. rewrite fmap_cons.
    change (apply_opts queue (as_option o :: (as_option <$> rest)))
      with (as_option o queue ≫= (fun _ => apply_opts queue (as_option <$> rest))).
    rewrite exec_bind. cbv beta.
    assert (Hex : exec (as_option o queue) w
              = set_heapQ (fun h => <[queue := configure (h queue) o]> h) w)
      by (unfold exec; by rewrite as_option_spec).
    rewrite !Hex. clear Hex.
    match goal with |- context [exec _ ?w0] => set (w1 := w0) in * end.
    specialize (IH w1). cbv zeta in IH. destruct IH as (Hq & Hothers & Hw).
    set (w2 := exec (apply_opts queue (as_option <$> rest)) w1) in *.
    assert (H1 : heapQ w1 queue = configure (heapQ w queue) o)
      by (subst w1; simpl; by heap).
    assert (H2 : forall q', q' <> queue -> heapQ w1 q' = heapQ w q')
      by (intros; subst w1; simpl; by heap).
    split_and!.
    + by rewrite Hq, H1.
    + intros q' Hq'. rewrite Hothers, H2; done.
    + apply (f_equal (set_heapQ (fun _ => heapQ w))) in Hw.
      transitivity (set_heapQ (fun _ => heapQ w) (set_heapQ (fun _ => heapQ w1) w2)).
      { by destruct w2. }
      rewrite Hw. subst w1. by destruct w.
Qed.

Lemma foldl_configure_fields (settings : list QueueSetting) (Q : Queue) :
  let Q' := foldl configure Q settings in
  name Q' = name Q /\ messages Q' = messages Q /\ stats Q' = stats Q /\
  visibilityTimeout Q' = default (visibilityTimeout Q) (list.last (omap visibility_setting settings)) /\
  maxRetries Q' = default (maxRetries Q) (list.last (omap retries_setting settings)) /\
  deadLetterQueue Q' = default (deadLetterQueue Q) (list.last (omap dlq_setting settings)).
Proof.
  induction settings as [|o rest IH] using rev_ind; simpl; [done|].
  rewrite foldl_app. simpl. rewrite !omap_app. simpl.
  destruct IH as (H1 & H2 & H3 & H4 & H5 & H6).
  destruct o; simpl; rewrite ?last_snoc, ?app_nil_r; simpl; done.
Qed.

Lemma CreateQueue_new (w : World) (b : bref) (queueName : string)
    (settings : list QueueSetting) :
  queues (heapB w b) !! queueName = None ->
  let cfg := config (heapB w b) in
  let q := eval (Broker.CreateQueue b queueName (as_option <$> settings)) w in
  let w' := exec (Broker.CreateQueue b queueName (as_option <$> settings)) w in
  let Q := heapQ w' q in
  q = nextQ w /\ nextQ w' = S (nextQ w) /\
  name Q = queueName /\ messages Q = [] /\ stats Q = mkQueueStats 0 0 0 0 /\
  visibilityTimeout Q =
    default (DefaultVisibilityTimeout cfg) (list.last (omap visibility_setting settings)) /\
  maxRetries Q = default (DefaultMaxRetries cfg) (list.last (omap retries_setting settings)) /\
  deadLetterQueue Q = default None (list.last (omap dlq_setting settings)) /\
  (forall q', q' <> q -> heapQ w' q' = heapQ w q') /\
  queues (heapB w' b) = <[queueName := q]> (queues (heapB w b)) /\
  topics (heapB w' b) = topics (heapB w b) /\
  config (heapB w' b) = config (heapB w b).
Proof.
  intros Hnew cfg q w' Q. subst cfg q w' Q.
  unfold eval, exec, Broker.CreateQueue. step. rewrite Hnew. unfold new_Queue. step.
  match goal with |- context [apply_opts ?queue _ ?w1] =>
    pose proof (apply_settings_spec queue settings w1) as H; unfold exec in H;
    destruct (apply_opts queue (as_option <$> settings) w1) as [[] w2] eqn:E end.
  simpl in *. destruct H as (Hq & Hothers & Hw). revert Hq. heap. intros Hq.
  rewrite Hq.
  match type of Hq with _ = foldl configure ?Q0 _ =>
    pose proof (foldl_configure_fields settings Q0) as HF end.
  cbv zeta in HF. simpl in HF. destruct HF as (H1 & H2 & H3 & H4 & H5 & H6).
  assert (HB : heapB w2 = heapB w) by (by apply (f_equal heapB) in Hw).
  assert (HN : nextQ w2 = S (nextQ w)) by (by apply (f_equal nextQ) in Hw).
  rewrite HB, HN. heap. simpl. split_and!; try done.
  intros q' Hq'. rewrite Hothers by done. by heap.
Qed.

(** X12. [CreateQueue] on a new name allocates a queue with that name, no
    messages and zero counters, takes the visibility timeout and the retry
    limit from the broker's configuration and no dead-letter queue, and then
    applies the options in order: for each setting the last option given
    wins.  No other queue is touched. *)
Theorem CreateQueue_last_setting_wins (w : World) (b : bref) (queueName : string)
    (settings : list QueueSetting) :
  queues (heapB w b) !! queueName = None ->
  let cfg := config (heapB w b) in
  let q := eval (Broker.CreateQueue b queueName (as_option <$> settings)) w in
  let w' := exec (Broker.CreateQueue b queueName (as_option <$> settings)) w in
  let Q := heapQ w' q in
  q = nextQ w /\ nextQ w' = S (nextQ w) /\
  name Q = queueName /\ messages Q = [] /\ stats Q = mkQueueStats 0 0 0 0 /\
  visibilityTimeout Q =
    default (DefaultVisibilityTimeout cfg) (list.last (omap visibility_setting settings)) /\
  maxRetries Q = default (DefaultMaxRetries cfg) (list.last (omap retries_setting settings)) /\
  deadLetterQueue Q = default None (list.last (omap dlq_setting settings)) /\
  (forall q', q' <> q -> heapQ w' q' = heapQ w q').
Proof.
  intros Hnew. pose proof (CreateQueue_new w b queueName settings Hnew) as H. cbv zeta in *.
  destruct H as (H1 & H2 & H3 & H4 & H5 & H6 & H7 & H8 & H9 & _). done.
Qed.

(** X13. Registration round trip.  [GetQueue] finds under a name the queue
    that [CreateQueue] returned for it, and [GetTopic] the topic that
    [CreateTopic] returned; creating under one name changes what is found
    under no other name, and topics and queues are separate name spaces.  On
    a new broker nothing is found. *)
Theorem Get_finds_what_Create_registered (w : World) (b : bref) (name : string)
    (settings : list QueueSetting) :
  let q := eval (Broker.CreateQueue b name (as_option <$> settings)) w in
  let w1 := exec (Broker.CreateQueue b name (as_option <$> settings)) w in
  let t := eval (Broker.CreateTopic b name) w in
  let w2 := exec (Broker.CreateTopic b name) w in
  Broker.GetQueue b name w1 = (Some q, w1) /\
  (forall other, other <> name ->
     eval (Broker.GetQueue b other) w1 = eval (Broker.GetQueue b other) w) /\
  (forall other, eval (Broker.GetTopic b other) w1 = eval (Broker.GetTopic b other) w) /\
  Broker.GetTopic b name w2 = (Some t, w2) /\
  (forall other, other <> name ->
     eval (Broker.GetTopic b other) w2 = eval (Broker.GetTopic b other) w) /\
  (forall other, eval (Broker.GetQueue b other) w2 = eval (Broker.GetQueue b other) w) /\
  (forall cfg, heapB w b = NewBroker cfg ->
     eval (Broker.GetQueue b name) w = None /\ eval (Broker.GetTopic b name) w = None).
Proof.
  intros q w1 t w2.
  assert (HGQ : forall other w0, eval (Broker.GetQueue b other) w0 = queues (heapB w0 b) !! other)
    by (intros; unfold eval, Broker.GetQueue; by step).
  assert (HGT : forall other w0, eval (Broker.GetTopic b other) w0 = topics (heapB w0 b) !! other)
    by (intros; unfold eval, Broker.GetTopic; by step).
  split_and!.
  - unfold Broker.GetQueue. step. subst q w1. by rewrite CreateQueue_registers.
  - intros other Hne. rewrite !HGQ. subst w1.
    destruct (queues (heapB w b) !! name) as [q0|] eqn:E.
    + unfold exec. by rewrite (CreateQueue_existing w b name _ q0 E).
    + destruct (CreateQueue_new w b name settings E)
        as (_ & _ & _ & _ & _ & _ & _ & _ & _ & -> & _).
      by rewrite lookup_insert_ne.
  - intros other. rewrite !HGT. subst w1.
    destruct (queues (heapB w b) !! name) as [q0|] eqn:E.
    + unfold exec. by rewrite (CreateQueue_existing w b name _ q0 E).
    + by destruct (CreateQueue_new w b name settings E)
        as (_ & _ & _ & _ & _ & _ & _ & _ & _ & _ & -> & _).
  - unfold Broker.GetTopic. step. subst t w2. by rewrite CreateTopic_registers.
  - intros other Hne. rewrite !HGT. subst w2.
    destruct (topics (heapB w b) !! name) as [t0|] eqn:E.
    + unfold exec. by rewrite (CreateTopic_existing w b name t0 E).
    + unfold exec, Broker.CreateTopic, new_Topic. step. rewrite E. simpl. heap. simpl.
      by rewrite lookup_insert_ne.
  - intros other. rewrite !HGQ. subst w2.
    destruct (topics (heapB w b) !! name) as [t0|] eqn:E.
    + unfold exec. by rewrite (CreateTopic_existing w b name t0 E).
    + unfold exec, Broker.CreateTopic, new_Topic. step. rewrite E. simpl. by heap.
  - intros cfg HB. rewrite HGQ, HGT, HB. done.
Qed.

Lemma delivered_app (c : loc) (subs subs' : list qref) (q : qref) :
  delivered c (subs ++ subs') q = delivered c subs q ++ delivered (c + length subs)%nat subs' q.
Proof.
  revert c. induction subs as [|s rest IH]; intros c; simpl.
  - by rewrite Nat.add_0_r.
  - rewrite IH, <- app_assoc. by replace (S c + length rest)%nat with (c + S (length rest))%nat by lia.
Qed.

Lemma Subscribe_registered (w : World) (b : bref) (topicName queueName : string)
    (t : tref) (queue : qref) :
  topics (heapB w b) !! topicName = Some t ->
  queues (heapB w b) !! queueName = Some queue ->
  Broker.Subscribe b topicName queueName w =
    (None, set_heapT (fun h => <[t := mkTopic (topic_name (h t)) (subscribers (h t) ++ [queue])]> h) w).
Proof.
  intros Ht Hq. unfold Broker.Subscribe, Topic.addSubscriber. step. by rewrite Ht, Hq.
Qed.

(** X9. [Subscribe] is not idempotent: subscribing the same queue to the same
    topic twice puts it twice in the subscriber list, and a [Publish] then
    appends two copies of the message to that queue, with different IDs and
    the payload of the original. *)
Theorem subscribing_twice_delivers_twice (w : World) (b : bref) (ctx : Context)
    (topicName queueName : string) (t : tref) (queue : qref) (msg : loc) :
  topics (heapB w b) !! topicName = Some t ->
  queues (heapB w b) !! queueName = Some queue ->
  allocated w msg ->
  (forall k, uuids w k <> "") ->
  (forall i j, uuids w i = uuids w j -> i = j) ->
  let subs := subscribers (heapT w t) in
  let w2 := exec (Broker.Subscribe b topicName queueName;;
                  Broker.Subscribe b topicName queueName) w in
  let w3 := exec (Broker.Publish b ctx topicName msg) w2 in
  let c1 := (nextM w + length subs)%nat in
  let c2 := S c1 in
  subscribers (heapT w2 t) = subs ++ [queue; queue] /\
  eval (Topic.SubscriberCount t) w2 = eval (Topic.SubscriberCount t) w + 2 /\
  messages (heapQ w3 queue)
    = messages (heapQ w queue) ++ delivered (nextM w) subs queue ++ [c1; c2] /\
  ID (heapM w3 c1) <> ID (heapM w3 c2) /\
  Payload (heapM w3 c1) = Payload (heapM w msg) /\
  Payload (heapM w3 c2) = Payload (heapM w msg).
Proof.
  intros Ht Hq Hmsg Huuid Hinj subs w2 w3 c1 c2.
  assert (Hw2 : w2 = set_heapT (fun h => <[t := mkTopic (topic_name (h t))
                  (subscribers (h t) ++ [queue])]> h)
                (set_heapT (fun h => <[t := mkTopic (topic_name (h t))
                  (subscribers (h t) ++ [queue])]> h) w)).
  { subst w2. rewrite exec_bind. cbv beta.
    assert (E : forall w0, topics (heapB w0 b) !! topicName = Some t ->
                  queues (heapB w0 b) !! queueName = Some queue ->
                  exec (Broker.Subscribe b topicName queueName) w0
                  = set_heapT (fun h => <[t := mkTopic (topic_name (h t))
                      (subscribers (h t) ++ [queue])]> h) w0).
    { intros w0 H1 H2. unfold exec. by rewrite (Subscribe_registered w0 b _ _ t queue H1 H2). }
    rewrite (E w Ht Hq). by rewrite E. }
  assert (Hsubs : subscribers (heapT w2 t) = subs ++ [queue; queue]).
  { rewrite Hw2. simpl. heap. simpl. heap. simpl. by rewrite <- app_assoc. }
  assert (HB : heapB w2 = heapB w) by (by rewrite Hw2).
  assert (HM : heapM w2 = heapM w) by (by rewrite Hw2).
  assert (HQ : heapQ w2 = heapQ w) by (by rewrite Hw2).
  assert (HN : nextM w2 = nextM w) by (by rewrite Hw2).
  assert (HU : uuids w2 = uuids w) by (by rewrite Hw2).
  assert (HD : drawn w2 = drawn w) by (by rewrite Hw2).
  clear Hw2.
  split; [done|]. split.
  { unfold eval, Topic.SubscriberCount. step. rewrite Hsubs. unfold len.
    rewrite length_app. simpl. fold subs. lia. }
  assert (Hmsg2 : allocated w2 msg) by (unfold allocated; by rewrite HN).
  assert (Huuid2 : forall k, uuids w2 k <> "") by (intros k; by rewrite HU).
  assert (Ht2 : topics (heapB w2 b) !! topicName = Some t) by (by rewrite HB).
  pose proof (Publish_spec t ctx msg w2 Hmsg2 Huuid2) as HP. cbv zeta in HP.
  assert (Hw3 : w3 = exec (Topic.Publish t ctx msg) w2).
  { subst w3. unfold exec. by rewrite (Broker_Publish_delegates w2 b ctx topicName msg t Ht2). }
  clearbody w3. subst w3.
  set (w' := exec (Topic.Publish t ctx msg) w2) in *.
  destruct HP as (_ & _ & _ & _ & Hc & HQ' & _).
  rewrite Hsubs in Hc, HQ'. rewrite HN, HU, HD, HM in Hc. rewrite HN, HQ in HQ'.
  split.
  { rewrite HQ', delivered_app. simpl. rewrite !decide_True by done. simpl.
    done. }
  destruct (Hc (length subs) queue) as (ts1 & ts1' & H1).
  { rewrite lookup_app_r by done. by rewrite Nat.sub_diag. }
  destruct (Hc (S (length subs)) queue) as (ts2 & ts2' & H2).
  { rewrite lookup_app_r by lia. by replace (S (length subs) - length subs)%nat with 1%nat by lia. }
  fold c1 in H1. replace (nextM w + S (length subs))%nat with c2 in H2 by (subst c1 c2; lia).
  pose proof (delivery_fields (topic_name (heapT w2 t)) (uuids w (drawn w + 2 * length subs)%nat)
                (uuids w (S (drawn w + 2 * length subs))) (set_Timestamp ts1' (heapM w msg))) as F1.
  pose proof (delivery_fields (topic_name (heapT w2 t)) (uuids w (drawn w + 2 * S (length subs))%nat)
                (uuids w (S (drawn w + 2 * S (length subs)))) (set_Timestamp ts2' (heapM w msg))) as F2.
  cbv zeta in F1, F2. destruct F1 as (I1 & _ & P1 & _). destruct F2 as (I2 & _ & P2 & _).
  assert (J1 : ID (heapM w' c1) = uuids w (drawn w + 2 * length subs)%nat)
    by (rewrite H1; exact I1).
  assert (J2 : ID (heapM w' c2) = uuids w (drawn w + 2 * S (length subs))%nat)
    by (rewrite H2; exact I2).
  assert (Q1 : Payload (heapM w' c1) = Payload (heapM w msg)) by (rewrite H1; exact P1).
  assert (Q2 : Payload (heapM w' c2) = Payload (heapM w msg)) by (rewrite H2; exact P2).
  rewrite J1, J2. split_and!; try done.
  intros E. apply Hinj in E. lia.
Qed.

Lemma Enqueue_of_stamped (q : qref) (ctx : Context) (msg : loc) (w : World) :
  ID (heapM w msg) <> "" ->
  Time_IsZero (Timestamp (heapM w msg)) = false ->
  heapM (exec (Queue.Enqueue q ctx msg) w) = heapM w /\
  tick (exec (Queue.Enqueue q ctx msg) w) = tick w.
Proof.
  intros Hid Hts. unfold exec, Queue.Enqueue. step.
  rewrite decide_False by done. simpl. rewrite Hts. simpl. done.
Qed.

Lemma clone_of_metadata (key id : string) (m : Message) :
  Message.metadata_of key (Message.clone_of id m) = Message.metadata_of key m.
Proof.
  unfold Message.metadata_of, Message.clone_of. simpl.
  destruct (Metadata m); [by rewrite copy_map_id|done].
Qed.

Lemma delivery_inherits_metadata (key tname id d : string) (m : Message) :
  key <> "source_topic" -> key <> "delivery_id" ->
  Message.metadata_of key (delivery tname id d m) = Message.metadata_of key m.
Proof.
  intros H1 H2. unfold delivery.
  rewrite !metadata_of_with_metadata_ne by done. apply clone_of_metadata.
Qed.

Lemma delivery_has_metadata (tname id d : string) (m : Message) :
  Metadata (delivery tname id d m) <> None.
Proof.
  unfold delivery, Message.with_metadata. simpl.
  destruct (Metadata m); simpl; done.
Qed.

Lemma deliver_keeps_Timestamp (t : tref) (ctx : Context) (msg : loc) (queue : qref)
    (w : World) :
  allocated w msg ->
  uuids w (drawn w) <> "" ->
  Time_IsZero (Timestamp (heapM w msg)) = false ->
  let w' := exec (deliver t ctx msg queue) w in
  heapM w' (nextM w) =
    delivery (topic_name (heapT w t)) (uuids w (drawn w)) (uuids w (S (drawn w)))
             (heapM w msg) /\
  tick w' = tick w.
Proof.
  intros Hmsg Huuid Hts w'. subst w'.
  unfold exec, deliver, Message.Clone, Message.SetMetadata, new_Message, loadT. step.
  match goal with
  | |- context [Queue.Enqueue queue ctx ?c ?w1] =>
      pose proof (Enqueue_of_stamped queue ctx c w1) as HE;
      destruct (Queue.Enqueue queue ctx c w1) as [r w2] eqn:E
  end.
  unfold exec in HE. rewrite E in HE. simpl in HE |- *.
  revert HE. heap. intros HE.
  destruct HE as (HM & HT).
  - rewrite (proj1 (with_metadata_fields _ _ _)).
    rewrite (proj1 (with_metadata_fields _ _ _)). done.
  - destruct (with_metadata_fields "delivery_id" (uuids w (S (drawn w)))
                (Message.with_metadata "source_topic" (topic_name (heapT w t))
                   (Message.clone_of (uuids w (drawn w)) (heapM w msg))))
      as (_ & _ & _ & -> & _).
    destruct (with_metadata_fields "source_topic" (topic_name (heapT w t))
                (Message.clone_of (uuids w (drawn w)) (heapM w msg)))
      as (_ & _ & _ & -> & _).
    exact Hts.
  - rewrite HM, HT. by heap.
Qed.

Lemma Publish_loop_keeps_Timestamp (t : tref) (ctx : Context) (msg : loc)
    (subs : list qref) :
  forall w : World,
    allocated w msg ->
    (forall k, uuids w k <> "") ->
    Time_IsZero (Timestamp (heapM w msg)) = false ->
    let w' := exec (Topic.Publish_loop t ctx msg subs) w in
    tick w' = tick w /\
    forall k q, subs !! k = Some q ->
      heapM w' (nextM w + k)%nat =
        delivery (topic_name (heapT w t)) (uuids w (drawn w + 2 * k)%nat)
                 (uuids w (S (drawn w + 2 * k))) (heapM w msg).
Proof.
  induction subs as [|s rest IH]; intros w Hmsg Huuid Hts w'; subst w'.
  - split; [done|]. intros k q Hk. done.
  - unfold exec. rewrite Publish_loop_cons.
    fold (exec (Topic.Publish_loop t ctx msg rest) (exec (deliver t ctx msg s) w)).
    destruct (deliver_spec t ctx msg s w Hmsg (Huuid _))
      as (Hn & Hd & HT & Hu & Hg & HM & _ & _ & _).
    destruct (deliver_keeps_Timestamp t ctx msg s w Hmsg (Huuid _) Hts) as (Hc & Htick).
    set (w1 := exec (deliver t ctx msg s) w) in *.
    assert (Hmsg1 : allocated w1 msg) by (unfold allocated in *; lia).
    assert (Huuid1 : forall k, uuids w1 k <> "") by (intros k; by rewrite Hu).
    assert (Hts1 : Time_IsZero (Timestamp (heapM w1 msg)) = false) by (by rewrite HM).
    destruct (IH w1 Hmsg1 Huuid1 Hts1) as (Htick' & Hc').
    destruct (Publish_loop_spec t ctx msg rest w1 Hmsg1 Huuid1)
      as (_ & _ & _ & _ & _ & HM' & _).
    set (w' := exec (Topic.Publish_loop t ctx msg rest) w1) in *.
    split; [congruence|].
    intros [|k] q Hk; simpl in Hk.
    + rewrite Nat.add_0_r, Nat.mul_0_r, Nat.add_0_r.
      rewrite HM'; [done|]. unfold allocated. lia.
    + specialize (Hc' k q Hk). rewrite Hn, HT, Hu, Hd, (HM msg Hmsg) in Hc'.
      replace (nextM w + S k)%nat with (S (nextM w) + k)%nat by lia.
      replace (drawn w + 2 * S k)%nat with (S (S (drawn w)) + 2 * k)%nat by lia.
      exact Hc'.
Qed.

(** X11. What the copies of a fan-out inherit.  [Publish] gives the original a
    timestamp if it has none and changes nothing else in it (with a timestamp
    it does not even read the clock).  Every copy carries the metadata of the
    original under every key other than [source_topic] and [delivery_id], has
    a metadata map even if the original had none, and carries the timestamp
    of the original (the one just given, unless that reading of the clock is
    itself the zero time). *)
Theorem Publish_copies_inherit_envelope (w : World) (t : tref) (ctx : Context) (msg : loc) :
  allocated w msg ->
  (forall k, uuids w k <> "") ->
  let m := heapM w msg in
  let ts := if Time_IsZero (Timestamp m) then clock w (tick w) else Timestamp m in
  let w' := exec (Topic.Publish t ctx msg) w in
  heapM w' msg = set_Timestamp ts m /\
  (Time_IsZero (Timestamp m) = false -> heapM w' msg = m /\ tick w' = tick w) /\
  forall k q, subscribers (heapT w t) !! k = Some q ->
    let c := heapM w' (nextM w + k)%nat in
    (forall key, key <> "source_topic" -> key <> "delivery_id" ->
       Message.metadata_of key c = Message.metadata_of key m) /\
    Metadata c <> None /\
    (ts <> zero_Time -> Timestamp c = ts).
Proof.
  intros Hmsg Huuid m ts w'.
  assert (HP : exists w0,
            w' = exec (Topic.Publish_loop t ctx msg (subscribers (heapT w t))) w0 /\
            heapM w0 msg = set_Timestamp ts m /\
            heapQ w0 = heapQ w /\ heapT w0 = heapT w /\ nextM w0 = nextM w /\
            drawn w0 = drawn w /\ uuids w0 = uuids w /\
            (Time_IsZero (Timestamp m) = false -> w0 = w)).
  { subst w' ts m. unfold exec at 1, Topic.Publish. step. rewrite copy_slice_id.
    destruct (Time_IsZero (Timestamp (heapM w msg))) eqn:Hz; simpl.
    - exists (set_heapM (fun h => <[msg := set_Timestamp (clock w (tick w)) (h msg)]> h)
                (set_tick (S (tick w)) w)). split.
      + unfold exec.
        match goal with |- context [Topic.Publish_loop ?a ?b ?c ?d ?e] =>
          destruct (Topic.Publish_loop a b c d e) as [[] w1] end. reflexivity.
      + simpl. heap. split_and!; done.
    - exists w. split.
      + unfold exec.
        match goal with |- context [Topic.Publish_loop ?a ?b ?c ?d ?e] =>
          destruct (Topic.Publish_loop a b c d e) as [[] w1] end. reflexivity.
      + split_and!; try done. by destruct (heapM w msg). }
  destruct HP as (w0 & Hw' & Hm0 & HQ0 & HT0 & Hn0 & Hd0 & Hu0 & Hsame).
  assert (Hmsg0 : allocated w0 msg) by (unfold allocated in *; lia).
  assert (Huuid0 : forall k, uuids w0 k <> "") by (intros k; by rewrite Hu0).
  destruct (Publish_loop_spec t ctx msg (subscribers (heapT w t)) w0 Hmsg0 Huuid0)
    as (_ & _ & _ & _ & _ & HM & Hc & _).
  rewrite <- Hw' in HM, Hc.
  split_and!.
  - rewrite HM by done. done.
  - intros Hz. rewrite HM by done. rewrite Hm0. subst ts. rewrite Hz.
    split; [by destruct m|].
    destruct (Publish_loop_keeps_Timestamp t ctx msg (subscribers (heapT w t)) w0 Hmsg0 Huuid0)
      as (Htick & _).
    { rewrite Hm0. simpl. by rewrite Hz. }
    rewrite <- Hw' in Htick. rewrite Htick. by rewrite (Hsame Hz).
  - intros k q Hk c. subst c. split_and!.
    + intros key H1 H2. destruct (Hc k q Hk) as (ts1 & Hck).
      rewrite Hn0 in Hck. rewrite Hck.
      change (Message.metadata_of key (set_Timestamp ts1 ?x)) with (Message.metadata_of key x).
      rewrite delivery_inherits_metadata by done. rewrite Hm0. done.
    + destruct (Hc k q Hk) as (ts1 & Hck). rewrite Hn0 in Hck. rewrite Hck.
      apply delivery_has_metadata.
    + intros Hts.
      destruct (Publish_loop_keeps_Timestamp t ctx msg (subscribers (heapT w t)) w0 Hmsg0 Huuid0)
        as (_ & Hc').
      { rewrite Hm0. simpl. unfold Time_IsZero. by apply Z.eqb_neq. }
      rewrite <- Hw' in Hc'. specialize (Hc' k q Hk). rewrite Hn0 in Hc'. rewrite Hc'.
      rewrite (proj1 (proj2 (proj2 (proj2 (delivery_fields _ _ _ _))))). by rewrite Hm0.
Qed.

Lemma Queue_Stats_spec (q : qref) (w : World) :
  Queue.Stats q w =
    (snapshot (heapQ w q), set_heapQ (fun h => <[q := sync_CurrentSize (h q)]> h) w).
Proof. unfold Queue.Stats. step. by heap. Qed.

Lemma Stats_loop_spec (entries : list (string * qref)) :
  forall (stats : BrokerStats) (w : World),
    NoDup entries.*1 ->
    let r := eval (Broker.Stats_loop entries stats) w in
    let w' := exec (Broker.Stats_loop entries stats) w in
    TopicCount r = TopicCount stats /\
    QueueCount r = QueueCount stats /\
    (forall name,
       Queues r !! name =
         match (list_to_map entries : gmap string qref) !! name with
         | Some q => Some (snapshot (heapQ w q))
         | None => Queues stats !! name
         end) /\
    (forall q, heapQ w' q =
       if decide (q ∈ entries.*2) then sync_CurrentSize (heapQ w q) else heapQ w q) /\
    set_heapQ (fun _ => heapQ w) w' = w.
Proof.
  induction entries as [|[n q] rest IH]; intros stats w Hnd.
  - simpl. split_and!; try done. by destruct w.
  - cbv zeta.
    change (Broker.Stats_loop ((n, q) :: rest) stats)
      with (Queue.Stats q ≫= (fun s => Broker.Stats_loop rest
              (mkBrokerStats (TopicCount stats) (QueueCount stats) (<[n := s]> (Queues stats))))).
    rewrite exec_bind, eval_bind.
    assert (He : eval (Queue.Stats q) w = snapshot (heapQ w q))
      by (unfold eval; by rewrite Queue_Stats_spec).
    assert (Hx : exec (Queue.Stats q) w
                 = set_heapQ (fun h => <[q := sync_CurrentSize (h q)]> h) w)
      by (unfold exec; by rewrite Queue_Stats_spec).
    rewrite !He, !Hx. clear He Hx. cbv beta.
    set (w1 := set_heapQ (fun h => <[q := sync_CurrentSize (h q)]> h) w) in *.
    set (stats1 := mkBrokerStats _ _ _).
    apply list.NoDup_cons in Hnd as [Hn Hnd]. simpl in Hn.
    destruct (IH stats1 w1 Hnd) as (H1 & H2 & H3 & H4 & H5).
    assert (Hsnap : forall q', snapshot (heapQ w1 q') = snapshot (heapQ w q')).
    { intros q'. subst w1. simpl.
      destruct (decide (q' = q)) as [->|Hne]; heap; [|done]. by destruct (heapQ w q). }
    split_and!; try done.
    + intros name. rewrite H3. cbn [list_to_map foldr uncurry fst snd]. subst stats1. cbn [Queues].
      destruct (decide (name = n)) as [->|Hne].
      * rewrite lookup_insert_eq. rewrite (not_elem_of_list_to_map_1 _ _ Hn).
        by rewrite lookup_insert_eq.
      * rewrite !lookup_insert_ne by done.
        destruct (list_to_map rest !! name) as [q'|]; [by rewrite Hsnap|done].
    + intros q'. rewrite H4. rewrite fmap_cons. cbn [snd]. subst w1. cbn [heapQ set_heapQ].
      destruct (decide (q' = q)) as [->|Hne]; heap.
      * rewrite (decide_True (P := q ∈ q :: rest.*2)) by (apply elem_of_cons; by left).
        destruct (decide (q ∈ rest.*2)); [by destruct (heapQ w q)|done].
      * destruct (decide (q' ∈ rest.*2)) as [Hin|Hnin].
        -- rewrite (decide_True (P := q' ∈ q :: rest.*2)) by (apply elem_of_cons; by right).
           done.
        -- rewrite (decide_False (P := q' ∈ q :: rest.*2)); [done|].
           intros [?|?]%elem_of_cons; done.
    + apply (f_equal (set_heapQ (fun _ => heapQ w))) in H5.
      transitivity (set_heapQ (fun _ => heapQ w) (set_heapQ (fun _ => heapQ w1)
                      (exec (Broker.Stats_loop rest stats1) w1))).
      { by destruct (exec (Broker.Stats_loop rest stats1) w1). }
      rewrite H5. subst w1. by destruct w.
Qed.

(** X14. [Broker.Stats] counts the registered topics and queues and reports,
    under the name of each registered queue and under no other name, the
    counters of that queue with [CurrentSize] brought up to date.  Its only
    effect is that update of [CurrentSize] in the registered queues.  The
    result does not depend on the order in which the map of queues is
    visited. *)
Theorem Broker_Stats_snapshot (w : World) (b : bref) :
  let B := heapB w b in
  let r := eval (Broker.Stats b) w in
  let w' := exec (Broker.Stats b) w in
  TopicCount r = Z.of_nat (size (topics B)) /\
  QueueCount r = Z.of_nat (size (queues B)) /\
  (forall name, Queues r !! name = (fun q => snapshot (heapQ w q)) <$> queues B !! name) /\
  (forall name q, queues B !! name = Some q ->
     heapQ w' q = sync_CurrentSize (heapQ w q)) /\
  (forall q, (forall name, queues B !! name <> Some q) -> heapQ w' q = heapQ w q) /\
  set_heapQ (fun _ => heapQ w) w' = w /\
  (forall entries, entries ≡ₚ map_to_list (queues B) ->
     let r0 := {| TopicCount := Z.of_nat (size (topics B));
                  QueueCount := Z.of_nat (size (queues B));
                  Queues := ∅ |} in
     eval (Broker.Stats_loop entries r0) w = r /\
     forall q, heapQ (exec (Broker.Stats_loop entries r0) w) q = heapQ w' q).
Proof.
  intros B r w'.
  set (r0 := {| TopicCount := Z.of_nat (size (topics B));
                QueueCount := Z.of_nat (size (queues B));
                Queues := ∅ |}).
  assert (Hr : r = eval (Broker.Stats_loop (map_to_list (queues B)) r0) w) by done.
  assert (Hw' : w' = exec (Broker.Stats_loop (map_to_list (queues B)) r0) w) by done.
  assert (Hany : forall entries, entries ≡ₚ map_to_list (queues B) ->
            let r1 := eval (Broker.Stats_loop entries r0) w in
            let w1 := exec (Broker.Stats_loop entries r0) w in
            TopicCount r1 = Z.of_nat (size (topics B)) /\
            QueueCount r1 = Z.of_nat (size (queues B)) /\
            (forall name, Queues r1 !! name
                          = (fun q => snapshot (heapQ w q)) <$> queues B !! name) /\
            (forall q, heapQ w1 q =
               if decide (q ∈ (map_to_list (queues B)).*2)
               then sync_CurrentSize (heapQ w q) else heapQ w q) /\
            set_heapQ (fun _ => heapQ w) w1 = w).
  { intros entries Hperm r1 w1.
    assert (Hnd : NoDup entries.*1).
    { rewrite Hperm. apply NoDup_fst_map_to_list. }
    destruct (Stats_loop_spec entries r0 w Hnd) as (H1 & H2 & H3 & H4 & H5).
    fold r1 w1 in H1, H2, H3, H4, H5.
    split_and!; try done.
    - intros name. rewrite H3.
      rewrite (list_to_map_proper _ _ Hnd Hperm), list_to_map_to_list.
      destruct (queues B !! name); done.
    - intros q. rewrite H4.
      destruct (decide (q ∈ entries.*2)) as [Hin|Hnin].
      + rewrite decide_True; [done|]. by rewrite <- Hperm.
      + rewrite decide_False; [done|]. by rewrite <- Hperm. }
  destruct (Hany (map_to_list (queues B)) ltac:(done)) as (H1 & H2 & H3 & H4 & H5).
  cbv zeta in *. rewrite <- Hr, <- Hw' in *.
  split_and!; try done.
  - intros name q Hq. rewrite H4, decide_True; [done|].
    apply list_elem_of_fmap. exists (name, q). split; [done|]. by apply elem_of_map_to_list.
  - intros q Hq. rewrite H4, decide_False; [done|].
    intros ([name q'] & -> & Hin)%list_elem_of_fmap. apply elem_of_map_to_list in Hin.
    by apply (Hq name).
  - intros entries Hperm.
    destruct (Hany entries Hperm) as (G1 & G2 & G3 & G4 & G5). split.
    + destruct (eval (Broker.Stats_loop entries r0) w) as [tc qc qs].
      destruct r as [tc' qc' qs']. simpl in *. f_equal; try congruence.
      apply map_eq. intros name. by rewrite G3, H3.
    + intros q. by rewrite G4, H4.
Qed.

(** ** The loop of the worker *)

Lemma Receive_front (q : qref) (ctx : Context) (p : loc) (rest : list loc) (w : World) :
  messages (heapQ w q) = p :: rest ->
  VisibleAt (heapM w p) = zero_Time ->
  let w' := exec (Queue.Receive q ctx) w in
  eval (Queue.Receive q ctx) w = (Some p, None) /\
  heapM w' p = leased (clock w (tick w)) (visibilityTimeout (heapQ w q))
                      (uuids w (drawn w)) (heapM w p) /\
  (forall p', p' <> p -> heapM w' p' = heapM w p') /\
  heapQ w' = heapQ w.
Proof.
  intros Hmsgs Hvis w'. subst w'. unfold eval, exec, Queue.Receive. step.
  rewrite Hmsgs. simpl. unfold Message.IsVisible. step. rewrite Hvis. simpl.
  heap. split_and!; try done. intros p' Hp'. by heap.
Qed.

Lemma Receive_empty (q : qref) (ctx : Context) (w : World) :
  messages (heapQ w q) = [] ->
  Queue.Receive q ctx w = ((None, None), set_tick (S (tick w)) w).
Proof. intros Hmsgs. unfold Queue.Receive. step. by rewrite Hmsgs. Qed.

Lemma processMessage_unfold (wk : Worker) (ctx : Context) (msg : loc) (w : World) :
  let w1 := set_tick (S (tick w)) w in
  let err := eval (handler wk msg) w1 in
  let w2 := exec (handler wk msg) w1 in
  let elapsed := Time_Sub (clock w2 (tick w2)) (clock w (tick w)) in
  let w3 := set_tick (S (tick w2)) w2 in
  let h := ReceiptHandle (heapM w3 msg) in
  Worker.processMessage wk ctx msg w =
    match err with
    | Some _ =>
        (incr_MessagesFailed wk, exec (Queue.Nack (worker_queue wk) ctx h) w3)
    | None =>
        (match eval (Queue.Acknowledge (worker_queue wk) ctx h) w3 with
         | Some _ => wk
         | None => count_processed elapsed wk
         end,
         exec (Queue.Acknowledge (worker_queue wk) ctx h) w3)
    end.
Proof.
  cbv zeta. unfold Worker.processMessage, time_Since, eval, exec. step.
  destruct (handler wk msg (set_tick (S (tick w)) w)) as [[e|] w2]; simpl.
  - destruct (Queue.Nack _ _ _ _) as [r w4]. done.
  - destruct (Queue.Acknowledge _ _ _ _) as [[e|] w4]; done.
Qed.

Lemma located_front (w : World) (q : qref) (h : string) (p : loc) (rest : list loc) :
  messages (heapQ w q) = p :: rest ->
  ReceiptHandle (heapM w p) = h ->
  located w q h = Some (0%nat, p).
Proof.
  intros Hmsgs Hh. unfold located. rewrite Hmsgs. simpl.
  rewrite decide_True by done. done.
Qed.

(** One turn of the loop on a queue whose front message is visible: what
    reaches the handler, and the world in which [Acknowledge] or [Nack] is
    called. *)
(** One turn of the loop of a worker that has not been stopped. *)
Lemma Start_loop_Proceed (signals : list Signal) (wk : Worker) (ctx : Context) (w : World) :
  stopCh wk = chan_open ->
  Worker.Start_loop (Proceed :: signals) wk ctx w =
    (Queue.Receive (worker_queue wk) ctx ≫= (fun r =>
       match r with
       | (_, Some _) =>
           time_Sleep (PollInterval (worker_config wk));;
           Worker.Start_loop signals wk ctx
       | (None, None) =>
           time_Sleep (PollInterval (worker_config wk));;
           Worker.Start_loop signals wk ctx
       | (Some msg, None) =>
           w ← Worker.processMessage wk ctx msg;
           Worker.Start_loop signals w ctx
       end)) w.
Proof. intros Hopen. cbn [Worker.Start_loop]. by rewrite Hopen. Qed.

Lemma turn_delivers_front (wk : Worker) (ctx : Context) (w : World) (p : loc)
    (rest : list loc) :
  stopCh wk = chan_open ->
  leaves_broker_alone (handler wk) ->
  messages (heapQ w (worker_queue wk)) = p :: rest ->
  VisibleAt (heapM w p) = zero_Time ->
  exists (w1 w3 : World) (elapsed : Duration),
    let q := worker_queue wk in
    let h := uuids w (drawn w) in
    heapM w1 p = leased (clock w (tick w)) (visibilityTimeout (heapQ w q)) h (heapM w p) /\
    (forall p', p' <> p -> heapM w1 p' = heapM w p') /\
    (forall q', heapQ w1 q' = heapQ w q') /\
    (forall p', heapM w3 p' = heapM w1 p') /\
    (forall q', heapQ w3 q' = heapQ w q') /\
    forall signals,
    Worker.Start_loop (Proceed :: signals) wk ctx w =
      match eval (handler wk p) w1 with
      | Some _ =>
          Worker.Start_loop signals (incr_MessagesFailed wk) ctx
            (exec (Queue.Nack q ctx h) w3)
      | None =>
          Worker.Start_loop signals
            (match eval (Queue.Acknowledge q ctx h) w3 with
             | Some _ => wk
             | None => count_processed elapsed wk
             end) ctx
            (exec (Queue.Acknowledge q ctx h) w3)
      end.
Proof.
  intros Hopen Halone Hmsgs Hvis.
  pose proof (Receive_front (worker_queue wk) ctx p rest w Hmsgs Hvis) as HR.
  cbv zeta in HR. unfold eval, exec in HR.
  destruct (Queue.Receive (worker_queue wk) ctx w) as [r wR] eqn:E. cbn [fst snd] in HR.
  destruct HR as (-> & Hp & Hothers & HQ).
  pose proof (processMessage_unfold wk ctx p wR) as HP. cbv zeta in HP.
  set (w1 := set_tick (S (tick wR)) wR) in *.
  destruct (Halone p w1) as (HM2 & HQ2).
  set (w2 := exec (handler wk p) w1) in *.
  set (w3 := set_tick (S (tick w2)) w2) in *.
  exists w1, w3, (Time_Sub (clock w2 (tick w2)) (clock wR (tick wR))).
  cbv zeta.
  assert (Hh : ReceiptHandle (heapM w3 p) = uuids w (drawn w)).
  { change (heapM w3 p) with (heapM w2 p). rewrite HM2.
    change (heapM w1 p) with (heapM wR p). by rewrite Hp. }
  rewrite Hh in HP.
  split_and!.
  - exact Hp.
  - exact Hothers.
  - intros q'. change (heapQ w1 q') with (heapQ wR q'). by rewrite HQ.
  - intros p'. change (heapM w3 p') with (heapM w2 p'). apply HM2.
  - intros q'. change (heapQ w3 q') with (heapQ w2 q'). rewrite HQ2.
    change (heapQ w1 q') with (heapQ wR q'). by rewrite HQ.
  - intros signals.
    rewrite (Start_loop_Proceed signals wk ctx w Hopen).
    unfold mbind at 1, M_bind at 1. rewrite E.
    unfold mbind, M_bind. rewrite HP.
    destruct (eval (handler wk p) w1); reflexivity.
Qed.

Lemma elem_of_drop_inv {A} (x : A) (n : nat) (l : list A) : x ∈ drop n l -> x ∈ l.
Proof. intros H. rewrite <- (take_drop n l). apply elem_of_app. by right. Qed.

Lemma elem_of_take_inv {A} (x : A) (n : nat) (l : list A) : x ∈ take n l -> x ∈ l.
Proof. intros H. rewrite <- (take_drop n l). apply elem_of_app. by left. Qed.

Lemma Start_loop_idle (wk : Worker) (ctx : Context) (w : World) (signals : list Signal) :
  stopCh wk = chan_open ->
  messages (heapQ w (worker_queue wk)) = [] ->
  Worker.Start_loop (Proceed :: signals) wk ctx w =
    Worker.Start_loop signals wk ctx (set_tick (S (tick w)) w).
Proof.
  intros Hopen Hmsgs. rewrite (Start_loop_Proceed signals wk ctx w Hopen).
  unfold mbind at 1, M_bind at 1. rewrite (Receive_empty _ _ _ Hmsgs). reflexivity.
Qed.

Lemma Start_loop_drains (k : nat) :
  forall (ps : list loc) (wk : Worker) (ctx : Context) (w : World),
    stopCh wk = chan_open ->
    leaves_broker_alone (handler wk) ->
    (forall msg w0, eval (handler wk msg) w0 = None) ->
    messages (heapQ w (worker_queue wk)) = ps ->
    NoDup ps ->
    Forall (fun p => VisibleAt (heapM w p) = zero_Time) ps ->
    exists (wk' : Worker) (w' : World),
      let q := worker_queue wk in
      let n := (k `min` length ps)%nat in
      (forall tail, Worker.Start_loop (replicate k Proceed ++ tail) wk ctx w
                    = Worker.Start_loop tail wk' ctx w') /\
      worker_queue wk' = q /\ handler wk' = handler wk /\
      (running wk' = running wk /\ stopCh wk' = stopCh wk) /\
      MessagesProcessed (worker_stats wk')
        = Nat.iter n incr (MessagesProcessed (worker_stats wk)) /\
      MessagesFailed (worker_stats wk') = MessagesFailed (worker_stats wk) /\
      messages (heapQ w' q) = drop k ps /\
      TotalProcessed (stats (heapQ w' q))
        = Nat.iter n incr (TotalProcessed (stats (heapQ w q))) /\
      TotalFailed (stats (heapQ w' q)) = TotalFailed (stats (heapQ w q)) /\
      (forall q', q' <> q -> heapQ w' q' = heapQ w q') /\
      (forall p, p ∈ drop k ps -> heapM w' p = heapM w p) /\
      (forall p, p ∈ take k ps ->
         RetryCount (heapM w' p) = incr (RetryCount (heapM w p)) /\
         ID (heapM w' p) = ID (heapM w p) /\
         Payload (heapM w' p) = Payload (heapM w p)) /\
      (forall p, p ∉ ps -> heapM w' p = heapM w p).
Proof.
  induction k as [|k IH]; intros ps wk ctx w Hopen Halone Hok Hmsgs Hnd Hvis.
  - exists wk, w. cbv zeta. simpl. rewrite drop_0. split_and!; try done.
    intros p Hp. by apply elem_of_nil in Hp.
  - destruct ps as [|p rest].
    + destruct (IH [] wk ctx (set_tick (S (tick w)) w) Hopen Halone Hok Hmsgs Hnd Hvis)
        as (wk' & w' & H).
      exists wk', w'. cbv zeta in *.
      rewrite !drop_nil, !take_nil in *. cbn [length] in *. rewrite !Nat.min_0_r in *.
      destruct H as (E & H). split; [|exact H]. intros tail.
      change (replicate (S k) Proceed ++ tail) with (Proceed :: (replicate k Proceed ++ tail)).
      rewrite (Start_loop_idle wk ctx w _ Hopen Hmsgs). apply E.
    + apply list.NoDup_cons in Hnd as [Hp Hnd].
      apply list.Forall_cons in Hvis as [Hvp Hvis].
      destruct (turn_delivers_front wk ctx w p rest Hopen Halone Hmsgs Hvp)
        as (w1 & w3 & elapsed & Hlease & HM1 & HQ1 & HM3 & HQ3 & Hturn).
      cbv zeta in *. rewrite (Hok p w1) in Hturn.
      set (q := worker_queue wk) in *. set (h := uuids w (drawn w)) in *.
      assert (Hloc : located w3 q h = Some (0%nat, p)).
      { apply (located_front w3 q h p rest).
        - by rewrite HQ3.
        - rewrite HM3, Hlease. done. }
      pose proof (Acknowledge_spec q ctx h w3) as HA. cbv zeta in HA.
      rewrite Hloc in HA. destruct HA as (Hr & HQ4 & HQ4' & Hw4).
      rewrite Hr in Hturn.
      set (w4 := exec (Queue.Acknowledge q ctx h) w3) in *.
      assert (HM4 : forall p', heapM w4 p' = heapM w3 p').
      { intros p'. apply (f_equal heapM) in Hw4. simpl in Hw4. by rewrite Hw4. }
      rewrite HQ3 in HQ4.
      destruct (IH rest (count_processed elapsed wk) ctx w4) as (wk' & w' & H).
      { exact Hopen. }
      { exact Halone. }
      { exact Hok. }
      { change (worker_queue (count_processed elapsed wk)) with q. rewrite HQ4.
        change (messages (acknowledged 0 (heapQ w q)))
          with (take 0 (messages (heapQ w q)) ++ drop 1 (messages (heapQ w q))).
        by rewrite Hmsgs. }
      { exact Hnd. }
      { apply list.Forall_forall. intros p' Hp'.
        rewrite HM4, HM3, HM1 by (intros ->; done).
        by apply (proj1 (list.Forall_forall _ _) Hvis). }
      cbv zeta in H.
      change (worker_queue (count_processed elapsed wk)) with q in H.
      change (handler (count_processed elapsed wk)) with (handler wk) in H.
      change (running (count_processed elapsed wk)) with (running wk) in H.
      change (stopCh (count_processed elapsed wk)) with (stopCh wk) in H.
      destruct H as (E & G1 & G2 & [G3 G3'] & G4 & G5 & G6 & G7 & G8 & G9 & G10 & G11 & G12).
      exists wk', w'. cbv zeta.
      fold q.
      replace (S k `min` length (p :: rest))%nat with (S (k `min` length rest))%nat
        by (simpl; lia).
      rewrite !Nat.iter_succ_r.
      split_and!; try done.
      * intros tail.
        change (replicate (S k) Proceed ++ tail) with (Proceed :: (replicate k Proceed ++ tail)).
        rewrite Hturn. apply E.
      * rewrite G7, HQ4. done.
      * rewrite G8, HQ4. done.
      * intros q' Hq'. rewrite G9 by done. rewrite HQ4' by done. apply HQ3.
      * simpl. intros p' Hp'. rewrite G10 by done.
        assert (p' <> p).
        { intros ->. apply Hp. by eapply elem_of_drop_inv. }
        by rewrite HM4, HM3, HM1.
      * simpl. intros p' [->|Hp']%elem_of_cons.
        -- rewrite G12 by done. rewrite HM4, HM3, Hlease. done.
        -- destruct (G11 p' Hp') as (R1 & R2 & R3).
           assert (p' <> p).
           { intros ->. apply Hp. by eapply elem_of_take_inv. }
           rewrite R1, R2, R3. by rewrite HM4, HM3, HM1.
      * intros p' Hp'. apply not_elem_of_cons in Hp' as [Hne Hp'].
        rewrite G12 by done. by rewrite HM4, HM3, HM1.
Qed.

(** X5. A worker whose handler always succeeds, and leaves the queues and
    messages of the broker alone, works the queue off from the front (the
    worker is new: not running, its stop channel open).  On a
    queue of pairwise distinct messages that are all visible, after [k] turns
    of the loop of [Start] the first [k] messages are gone (each was delivered
    once and acknowledged), the others are untouched and in their order, and
    [MessagesProcessed] and the queue's [TotalProcessed] have grown by the
    number of messages worked off, [min k (length queue)]; turns on the empty
    queue only poll.  [Start] is still in its loop then, the worker running
    and its stop channel open.  When the next [select] takes the case of the
    done context, [Start] returns the context's error in this same state.
    When another goroutine calls [Stop], which closes [stopCh] and clears
    [running], the next [select] makes [Start] return nil: the worker is then
    not running, and its counters and the queue are those of this state. *)
Theorem Start_drains_the_queue_in_order (wk : Worker) (ctx : Context) (w : World) (k : nat) :
  leaves_broker_alone (handler wk) ->
  (forall msg w0, eval (handler wk msg) w0 = None) ->
  running wk = false ->
  stopCh wk = chan_open ->
  let q := worker_queue wk in
  let ps := messages (heapQ w q) in
  let n := (k `min` length ps)%nat in
  NoDup ps ->
  Forall (fun p => VisibleAt (heapM w p) = zero_Time) ps ->
  exists (wk' : Worker) (w' : World),
    Worker.Start (replicate k Proceed) wk ctx w = ((Polling, wk'), w') /\
    (forall e more, Worker.Start (replicate k Proceed ++ Cancelled e :: more) wk ctx w
                    = ((Returned (Some e), wk'), w')) /\
    running wk' = true /\
    stopCh wk' = chan_open /\
    (let stopped := set_running false (set_stopCh chan_closed wk') in
     Worker.Stop wk' = Done stopped /\
     (forall more, Worker.Start (replicate k Proceed ++ Stopped :: Proceed :: more) wk ctx w
                   = ((Returned None, stopped), w')) /\
     (forall e more,
        Worker.Start (replicate k Proceed ++ Stopped :: Cancelled e :: more) wk ctx w
        = ((Returned (Some e), stopped), w')) /\
     running stopped = false /\
     Worker.Stats stopped = Worker.Stats wk') /\
    MessagesProcessed (Worker.Stats wk')
      = Nat.iter n incr (MessagesProcessed (Worker.Stats wk)) /\
    MessagesFailed (Worker.Stats wk') = MessagesFailed (Worker.Stats wk) /\
    messages (heapQ w' q) = drop k ps /\
    TotalProcessed (stats (heapQ w' q))
      = Nat.iter n incr (TotalProcessed (stats (heapQ w q))) /\
    TotalFailed (stats (heapQ w' q)) = TotalFailed (stats (heapQ w q)) /\
    (forall p, p ∈ drop k ps -> heapM w' p = heapM w p) /\
    (forall p, p ∈ take k ps ->
       RetryCount (heapM w' p) = incr (RetryCount (heapM w p)) /\
       ID (heapM w' p) = ID (heapM w p) /\
       Payload (heapM w' p) = Payload (heapM w p)).
Proof.
  intros Halone Hok Hrun Hopen q ps n Hnd Hvis.
  destruct (Start_loop_drains k ps (set_running true wk) ctx w) as (wk' & w' & H);
    try done.
  cbv zeta in H.
  change (worker_queue (set_running true wk)) with q in H.
  change (handler (set_running true wk)) with (handler wk) in H.
  change (worker_stats (set_running true wk)) with (worker_stats wk) in H.
  change (running (set_running true wk)) with true in H.
  change (stopCh (set_running true wk)) with (stopCh wk) in H.
  rewrite Hopen in H.
  destruct H as (E & G1 & G2 & [G3 G3'] & G4 & G5 & G6 & G7 & G8 & G9 & G10 & G11 & G12).
  assert (Hstop : Worker.Stop wk' = Done (set_running false (set_stopCh chan_closed wk'))).
  { unfold Worker.Stop. by rewrite G3, G3'. }
  exists wk', w'. unfold Worker.Start, Worker.Stats. rewrite Hrun. cbv zeta.
  split.
  { rewrite <- (app_nil_r (replicate k Proceed)). by rewrite E. }
  split; [intros e more; by rewrite E|].
  split; [exact G3|]. split; [exact G3'|].
  split.
  { split; [exact Hstop|]. split.
    - intros more. rewrite E. cbn [Worker.Start_loop]. by rewrite Hstop.
    - split; [|done]. intros e more. rewrite E. cbn [Worker.Start_loop]. by rewrite Hstop. }
  split_and!; done.
Qed.





(** ** The idempotency window *)

Lemma IsProcessed_run (s : sref) (id : string) (w : World) (t : Time) :
  processed (heapS w s) !! id = Some t ->
  InMemoryIdempotencyStore.IsProcessed s id w =
    (negb (ttl (heapS w s) <? Time_Sub (clock w (tick w)) t), set_tick (S (tick w)) w).
Proof.
  intros Ht. unfold InMemoryIdempotencyStore.IsProcessed, time_Since. step. rewrite Ht. simpl.
  by destruct (ttl (heapS w s) <? Time_Sub (clock w (tick w)) t).
Qed.

(** X7. The idempotency window of [IdempotentWorker] over the in-memory store.
    After the wrapped handler has run the inner handler successfully on a
    message, it returns nil on that message without running any inner handler
    for as long as the store is as it left it, the message keeps its ID, and
    the time elapsed since the mark is at most [ttl]; the only effect is one
    reading of the clock.  Once more than [ttl] has elapsed the inner handler
    runs again, and its error is returned. *)
Theorem redelivery_is_skipped_within_ttl (name : string) (queue : qref) (s : sref)
    (inner : MessageHandler) (msg : loc) (w : World) :
  let wrapped := handler (IdempotentWorker name queue inner s) in
  let w1 := exec (IsProcessed s (ID (heapM w msg))) w in
  let w2 := exec (inner msg) w1 in
  let w' := exec (wrapped msg) w in
  let marked := clock w2 (tick w2) in
  eval (IsProcessed s (ID (heapM w msg))) w = false ->
  eval (inner msg) w1 = None ->
  eval (wrapped msg) w = None /\
  forall (w3 : World) (inner' : MessageHandler),
    heapS w3 s = heapS w' s ->
    ID (heapM w3 msg) = ID (heapM w2 msg) ->
    let again := handler (IdempotentWorker name queue inner' s) in
    let elapsed := Time_Sub (clock w3 (tick w3)) marked in
    let w4 := set_tick (S (tick w3)) w3 in
    (elapsed <= ttl (heapS w' s) -> again msg w3 = (None, w4)) /\
    (ttl (heapS w' s) < elapsed ->
     eval (again msg) w3 =
       match eval (inner' msg) w4 with
       | Some e => Some e
       | None => None
       end /\
     forall e, eval (inner' msg) w4 = Some e -> exec (again msg) w3 = exec (inner' msg) w4).
Proof.
  intros wrapped w1 w2 w' marked Hfresh Hok.
  destruct (IdempotentWorker_run name queue s inner msg w) as [_ Hrun].
  destruct (Hrun Hfresh) as [_ Hmark]. specialize (Hmark Hok).
  fold wrapped w1 w2 in Hmark.
  destruct (IdempotentWorker_marks_only_on_success name queue s inner msg w Hfresh)
    as [_ Hentry].
  specialize (Hentry Hok). fold wrapped w1 w2 w' in Hentry.
  destruct (MarkProcessed_spec s (ID (heapM w2 msg)) w2) as (Hnil & _ & Httl & _).
  assert (Httl' : ttl (heapS w' s) = ttl (heapS w2 s)).
  { subst w'. unfold exec at 1. rewrite Hmark. exact Httl. }
  split.
  { unfold eval. rewrite Hmark. exact Hnil. }
  intros w3 inner' HS Hid again elapsed w4.
  assert (Hrun3 : InMemoryIdempotencyStore.IsProcessed s (ID (heapM w3 msg)) w3 =
            (negb (ttl (heapS w' s) <? elapsed), w4)).
  { rewrite (IsProcessed_run s _ w3 marked); [by rewrite HS|].
    by rewrite HS, Hid. }
  destruct (IdempotentWorker_run name queue s inner' msg w3) as [Hskip Hrun'].
  fold again in Hskip, Hrun'.
  change (IsProcessed s (ID (heapM w3 msg)))
    with (InMemoryIdempotencyStore.IsProcessed s (ID (heapM w3 msg))) in Hskip, Hrun'.
  cbv zeta in Hskip, Hrun'.
  assert (Hev : eval (InMemoryIdempotencyStore.IsProcessed s (ID (heapM w3 msg))) w3
                = negb (ttl (heapS w' s) <? elapsed)) by (unfold eval; by rewrite Hrun3).
  assert (Hex : exec (InMemoryIdempotencyStore.IsProcessed s (ID (heapM w3 msg))) w3 = w4)
    by (unfold exec; by rewrite Hrun3).
  rewrite Hev, !Hex in Hskip, Hrun'.
  split.
  - intros Hle. apply Hskip. apply negb_true_iff. apply Z.ltb_ge. exact Hle.
  - intros Hlt.
    assert (Hf : negb (ttl (heapS w' s) <? elapsed) = false)
      by (apply negb_false_iff; by apply Z.ltb_lt).
    destruct (Hrun' Hf) as [Hfail' Hok'].
    destruct (eval (inner' msg) w4) as [e|] eqn:He.
    + split.
      * unfold eval. by rewrite (Hfail' e eq_refl).
      * intros e' _. unfold exec at 1. by rewrite (Hfail' e eq_refl).
    + split; [|done]. unfold eval at 1. rewrite (Hok' eq_refl).
      exact (proj1 (MarkProcessed_spec s (ID (heapM (exec (inner' msg) w4) msg))
                      (exec (inner' msg) w4))).
Qed.

(** ** The backoff schedule *)

Lemma BackoffDuration_loop_capped (u : float -> Z) (c : RetryConfig) (n : nat)
    (backoff : Duration) :
  backoff <= MaxBackoff c ->
  RetryConfig.BackoffDuration_loop u c n backoff <= MaxBackoff c.
Proof.
  revert backoff. induction n as [|n IH]; intros backoff Hb; simpl; [done|].
  destruct (Z.ltb_spec (MaxBackoff c)
    (int64_of_float64 u (float64_of_int64 backoff * BackoffFactor c)%float)); [lia|].
  by apply IH.
Qed.

(** X16. The cap of the backoff applies from the first retry on.  For an
    attempt number of zero or less [BackoffDuration] returns [InitialBackoff]
    as it is, even when that exceeds [MaxBackoff]; for every attempt from 1 on
    the result is at most [MaxBackoff], whatever the factor and whatever the
    conversion to [time.Duration] does with a product it cannot represent. *)
Theorem BackoffDuration_is_capped_from_the_first_retry (u : float -> Z) (c : RetryConfig)
    (attempt : Z) :
  (attempt <= 0 -> RetryConfig.BackoffDuration u c attempt = InitialBackoff c) /\
  (0 < attempt -> RetryConfig.BackoffDuration u c attempt <= MaxBackoff c).
Proof.
  unfold RetryConfig.BackoffDuration. split; intros Ha.
  - by destruct (Z.leb_spec attempt 0); [|lia].
  - destruct (Z.leb_spec attempt 0); [lia|].
    destruct (Z.to_nat attempt) as [|n] eqn:E; [lia|]. simpl.
    destruct (Z.ltb_spec (MaxBackoff c)
      (int64_of_float64 u (float64_of_int64 (InitialBackoff c) * BackoffFactor c)%float));
      [lia|].
    by apply BackoffDuration_loop_capped.
Qed.

Lemma default_loop_saturates (u : float -> Z) (k : nat) :
  RetryConfig.BackoffDuration_loop u DefaultRetryConfig (9 + k) (100 * 1000000)
  = 30 * 1000000000.
Proof. vm_compute. reflexivity. Qed.

(** X17. The schedule of [DefaultRetryConfig]: the backoff of attempt [n]
    (from 0 on) is 100 ms doubled [n] times, cut off at 30 s: 100 ms, 200 ms,
    ..., 25.6 s for the attempts 0 to 8 and 30 s from attempt 9 on. *)
Theorem DefaultRetryConfig_doubles_up_to_30s (u : float -> Z) (attempt : Z) :
  0 <= attempt ->
  RetryConfig.BackoffDuration u DefaultRetryConfig attempt
  = Z.min (100 * 1000000 * 2 ^ attempt) (30 * 1000000000).
Proof.
  intros Ha. destruct (Z.le_gt_cases 9 attempt) as [Hbig|Hsmall].
  - unfold RetryConfig.BackoffDuration. destruct (Z.leb_spec attempt 0); [lia|].
    replace (Z.to_nat attempt) with (9 + Z.to_nat (attempt - 9))%nat by lia.
    change (InitialBackoff DefaultRetryConfig) with (100 * 1000000).
    rewrite default_loop_saturates.
    assert (2 ^ 9 <= 2 ^ attempt) by (apply Z.pow_le_mono_r; lia).
    change (2 ^ 9) with 512 in *. lia.
  - assert (Hc : attempt = 0 \/ attempt = 1 \/ attempt = 2 \/ attempt = 3 \/ attempt = 4 \/
                 attempt = 5 \/ attempt = 6 \/ attempt = 7 \/ attempt = 8) by lia.
    destruct Hc as [->|[->|[->|[->|[->|[->|[->|[->| ->]]]]]]]]; vm_compute; reflexivity.
Qed.

(** ** The payment service *)

Section payments.
Context {PE : PaymentEnums}.

Ltac fields := unfold set_transactions, set_processedKeys;
  cbn [processedKeys transactions payment_config tx_TransactionID tx_AmountCents receipt
       query_TransactionID].

Lemma ProcessPayment_hit (s : PaymentService) (ctx : Context) (req : PaymentRequest)
    (cached : PaymentResponse) (w : World) :
  processedKeys s !! IdempotencyKey req = Some cached ->
  PaymentService.ProcessPayment s ctx req w = ((Some cached, None, s), w).
Proof.
  intros Hk. unfold PaymentService.ProcessPayment, time_Sleep.
  destruct (0 <? SimulateLatency (payment_config s)); step; by rewrite Hk.
Qed.

(** What [processPaymentInternal] answers, and what it consumes. *)
Lemma processPaymentInternal_spec (s : PaymentService) (req : PaymentRequest) (w : World) :
  let resp := eval (PaymentService.processPaymentInternal s req) w in
  let w' := exec (PaymentService.processPaymentInternal s req) w in
  Success resp = payable s req /\
  ProcessedAt resp = clock w (tick w) /\
  TransactionID resp =
    (if payable s req then "tx_" +:+ String.substring 0 8 (uuids w (drawn w)) else "") /\
  w' = (if payable s req then set_drawn (S (drawn w)) (set_tick (S (tick w)) w)
        else set_tick (S (tick w)) w).
Proof.
  unfold PaymentService.processPaymentInternal, payable, eval, exec, time_Now, uuid_New.
  step.
  destruct (Z.leb_spec (AmountCents req) 0) as [Ha|Ha].
  { destruct (Z.ltb_spec 0 (AmountCents req)); [lia|]. done. }
  destruct (Z.ltb_spec 0 (AmountCents req)); [|lia].
  destruct (Z.ltb_spec (MaxAmountCents (payment_config s)) (AmountCents req)) as [Hm|Hm].
  { destruct (Z.leb_spec (AmountCents req) (MaxAmountCents (payment_config s))); [lia|]. done. }
  destruct (Z.leb_spec (AmountCents req) (MaxAmountCents (payment_config s))); [|lia].
  destruct (decide (OrderID req = "")) as [Ho|Ho].
  { rewrite bool_decide_eq_false_2 by (by intros ?). done. }
  rewrite bool_decide_eq_true_2 by done.
  destruct (Z.rem (AmountCents req) 100 =? 99); done.
Qed.

Lemma ProcessPayment_miss (s : PaymentService) (ctx : Context) (req : PaymentRequest)
    (w : World) :
  processedKeys s !! IdempotencyKey req = None ->
  let resp := eval (PaymentService.processPaymentInternal s req) w in
  let w' := exec (PaymentService.processPaymentInternal s req) w in
  let cached := set_processedKeys (<[IdempotencyKey req := resp]> (processedKeys s)) s in
  PaymentService.ProcessPayment s ctx req w =
    ((Some resp, None,
      if Success resp
      then set_transactions
             (<[TransactionID resp := receipt (TransactionID resp) req (ProcessedAt resp)]>
                (transactions s)) cached
      else cached), w').
Proof.
  intros Hk. unfold PaymentService.ProcessPayment, time_Sleep, eval, exec.
  destruct (0 <? SimulateLatency (payment_config s)); step; rewrite Hk;
    by destruct (PaymentService.processPaymentInternal s req w) as [resp w1].
Qed.

(** A call leaves the entries of the cache as they are, and the configuration. *)
Lemma ProcessPayment_keeps_cache (s : PaymentService) (ctx : Context) (req : PaymentRequest)
    (w : World) (key : string) (resp : PaymentResponse) :
  processedKeys s !! key = Some resp ->
  processedKeys (snd (eval (PaymentService.ProcessPayment s ctx req) w)) !! key = Some resp.
Proof.
  intros Hk. destruct (processedKeys s !! IdempotencyKey req) as [cached|] eqn:E.
  - unfold eval. by rewrite (ProcessPayment_hit _ _ _ _ _ E).
  - unfold eval. rewrite (ProcessPayment_miss _ _ _ _ E). cbn [fst snd].
    assert (IdempotencyKey req <> key) by (intros Heq; rewrite Heq in E; congruence).
    destruct (Success _); fields; by rewrite lookup_insert_ne.
Qed.

Lemma ProcessPayments_keep_cache (reqs : list (Context * PaymentRequest))
    (s : PaymentService) (w : World) (key : string) (resp : PaymentResponse) :
  processedKeys s !! key = Some resp ->
  processedKeys (eval (ProcessPayments s reqs) w) !! key = Some resp.
Proof.
  revert s w. induction reqs as [|[ctx req] reqs IH]; intros s w Hk; [done|].
  cbn [ProcessPayments]. rewrite eval_bind. apply IH.
  by apply ProcessPayment_keeps_cache.
Qed.

Lemma ProcessPayment_caches (s : PaymentService) (ctx : Context) (req : PaymentRequest)
    (w : World) :
  exists resp, eval (PaymentService.ProcessPayment s ctx req) w = (Some resp, None,
                 snd (eval (PaymentService.ProcessPayment s ctx req) w)) /\
    processedKeys (snd (eval (PaymentService.ProcessPayment s ctx req) w))
      !! IdempotencyKey req = Some resp.
Proof.
  destruct (processedKeys s !! IdempotencyKey req) as [cached|] eqn:E.
  - exists cached. unfold eval. by rewrite (ProcessPayment_hit _ _ _ _ _ E).
  - eexists. unfold eval. rewrite (ProcessPayment_miss _ _ _ _ E). cbn [fst snd].
    split; [done|]. destruct (Success _); fields; by rewrite lookup_insert_eq.
Qed.

(** X18. The idempotency key decides.  Once [ProcessPayment] has answered a
    request, every later request with the same key (after any number of
    calls in between, and whatever its amount, order or currency) gets the
    response of the first one, be it a success or a refusal, with a nil
    error; that call leaves the service as it is, reads no clock and draws no
    uuid.  The calls run one after the other. *)
Theorem ProcessPayment_replays_the_first_response (s : PaymentService)
    (ctx ctx' : Context) (req req' : PaymentRequest)
    (between : list (Context * PaymentRequest)) (w : World) :
  IdempotencyKey req' = IdempotencyKey req ->
  let first := eval (PaymentService.ProcessPayment s ctx req) w in
  let w1 := exec (PaymentService.ProcessPayment s ctx req) w in
  let s2 := eval (ProcessPayments (snd first) between) w1 in
  let w2 := exec (ProcessPayments (snd first) between) w1 in
  (exists resp, fst first = (Some resp, None)) /\
  PaymentService.ProcessPayment s2 ctx' req' w2 = ((fst first, s2), w2).
Proof.
  intros Hkey first w1 s2 w2.
  destruct (ProcessPayment_caches s ctx req w) as (resp & Hr & Hc).
  fold first in Hr, Hc. split; [exists resp; by rewrite Hr|].
  rewrite Hr. cbn [fst].
  apply ProcessPayment_hit. rewrite Hkey. subst s2. by apply ProcessPayments_keep_cache.
Qed.


Lemma payable_amount (s : PaymentService) (req : PaymentRequest) :
  payable s req = true -> 0 < AmountCents req <= MaxAmountCents (payment_config s).
Proof.
  unfold payable. intros Hp.
  destruct (Z.ltb_spec 0 (AmountCents req)); [|done].
  destruct (Z.leb_spec (AmountCents req) (MaxAmountCents (payment_config s))); [lia|done].
Qed.

Lemma size_insert_le {A} (m : gmap string A) (k : string) (x : A) :
  (size (<[k := x]> m) <= S (size m))%nat.
Proof.
  destruct (m !! k) as [y|] eqn:E.
  - rewrite map_size_insert_Some by done. lia.
  - rewrite map_size_insert_None by done. lia.
Qed.

Lemma ProcessPayment_sound (s : PaymentService) (ctx : Context) (req : PaymentRequest)
    (w : World) :
  sound s -> sound (snd (eval (PaymentService.ProcessPayment s ctx req) w)) /\
  payment_config (snd (eval (PaymentService.ProcessPayment s ctx req) w)) = payment_config s /\
  (size (processedKeys (snd (eval (PaymentService.ProcessPayment s ctx req) w)))
   <= S (size (processedKeys s)))%nat.
Proof.
  intros (Hc & Ht & Hn).
  destruct (processedKeys s !! IdempotencyKey req) as [cached|] eqn:E.
  { unfold eval. rewrite (ProcessPayment_hit _ _ _ _ _ E). cbn [fst snd].
    split_and!; [by split_and!|done|lia]. }
  unfold eval. rewrite (ProcessPayment_miss _ _ _ _ E). cbn [fst snd].
  destruct (processPaymentInternal_spec s req w) as (HS & HP & HT & _).
  set (resp := eval (PaymentService.processPaymentInternal s req) w) in *.
  rewrite HS. destruct (payable s req) eqn:Hp.
  - split_and!; [split_and!|done|].
    + intros key r. fields. destruct (decide (key = IdempotencyKey req)) as [->|Hne].
      * rewrite lookup_insert_eq. intros [= <-]. rewrite HS.
        rewrite lookup_insert_eq. by eexists.
      * rewrite lookup_insert_ne by done. intros Hr. specialize (Hc key r Hr).
        destruct (Success r); [|done].
        destruct (decide (TransactionID r = TransactionID resp)) as [->|Hd].
        -- rewrite lookup_insert_eq. by eexists.
        -- by rewrite lookup_insert_ne.
    + intros id tx. fields. destruct (decide (id = TransactionID resp)) as [->|Hne].
      * rewrite lookup_insert_eq. intros [= <-]. fields.
        pose proof (payable_amount _ _ Hp). split_and!; [done| |lia|lia].
        rewrite HT. intros Hid. discriminate Hid.
      * rewrite lookup_insert_ne by done. apply Ht.
    + fields. rewrite (map_size_insert_None (IdempotencyKey req) _ (processedKeys s)) by done.
      pose proof (size_insert_le (transactions s) (TransactionID resp)
        (receipt (TransactionID resp) req (ProcessedAt resp))). lia.
    + fields. rewrite map_size_insert_None by done. lia.
  - split_and!; [split_and!|done|].
    + intros key r. fields. destruct (decide (key = IdempotencyKey req)) as [->|Hne].
      * rewrite lookup_insert_eq. intros [= <-]. rewrite HS. done.
      * rewrite lookup_insert_ne by done. apply Hc.
    + apply Ht.
    + fields. rewrite map_size_insert_None by done. lia.
    + fields. rewrite map_size_insert_None by done. lia.
Qed.

Lemma ProcessPayments_sound (reqs : list (Context * PaymentRequest)) (s : PaymentService)
    (w : World) :
  sound s ->
  sound (eval (ProcessPayments s reqs) w) /\
  payment_config (eval (ProcessPayments s reqs) w) = payment_config s /\
  (size (processedKeys (eval (ProcessPayments s reqs) w))
   <= size (processedKeys s) + length reqs)%nat.
Proof.
  revert s w. induction reqs as [|[ctx req] reqs IH]; intros s w Hs.
  { cbn. split_and!; [done|done|lia]. }
  cbn [ProcessPayments]. rewrite eval_bind.
  destruct (ProcessPayment_sound s ctx req w Hs) as (Hs1 & Hc1 & Hn1).
  destruct (IH _ (exec (PaymentService.ProcessPayment s ctx req) w) Hs1) as (Hs2 & Hc2 & Hn2).
  split_and!; [done|congruence|]. cbn [length]. lia.
Qed.


(** *** The totals of [Stats] *)

Lemma wrap64_idem_add (a b : Z) : wrap64 (wrap64 a + b) = wrap64 (a + b).
Proof.
  unfold wrap64. f_equal.
  replace ((a + 2 ^ 63) mod 2 ^ 64 - 2 ^ 63 + b + 2 ^ 63) with ((a + 2 ^ 63) mod 2 ^ 64 + b) by lia.
  rewrite Zplus_mod_idemp_l. f_equal. lia.
Qed.

Lemma wrap64_in_range (z : Z) : min_int64 <= z <= max_int64 -> wrap64 z = z.
Proof.
  unfold wrap64, min_int64, max_int64. intros Hz. rewrite Z.mod_small by lia. lia.
Qed.

Lemma Stats_loop_sum (entries : list (string * PaymentStatusResponse)) (a : Z) :
  PaymentService.Stats_loop entries (wrap64 a) = wrap64 (a + sum_amounts entries).
Proof.
  revert a. induction entries as [|[id tx] rest IH]; intros a; cbn.
  - by rewrite Z.add_0_r.
  - rewrite wrap64_idem_add, IH. f_equal. lia.
Qed.

Lemma Stats_loop_total (entries : list (string * PaymentStatusResponse)) :
  PaymentService.Stats_loop entries 0 = wrap64 (sum_amounts entries).
Proof. exact (Stats_loop_sum entries 0). Qed.

Lemma sum_amounts_perm (l l' : list (string * PaymentStatusResponse)) :
  l ≡ₚ l' -> sum_amounts l = sum_amounts l'.
Proof.
  induction 1 as [|[??] ?? _ IH|[??] [??] ?|???? IH1 ? IH2]; cbn; [done|lia|lia|congruence].
Qed.

Lemma sum_amounts_bounds (l : list (string * PaymentStatusResponse)) (limit : Z) :
  Forall (fun e => 0 < tx_AmountCents e.2 <= limit) l ->
  len l <= sum_amounts l <= len l * limit.
Proof.
  unfold len. induction 1 as [|[id tx] l Hx _ IH]; cbn [sum_amounts length]; [lia|].
  cbn in Hx. nia.
Qed.

(** X21. The total of [Stats].  [TotalAmountCents] does not depend on the
    order in which the map of transactions is ranged over.  After any run of
    calls on a new service, as long as [TotalTransactions] times
    [MaxAmountCents] fits an [int64], the total is the exact sum of the
    recorded amounts and lies between [TotalTransactions] and
    [TotalTransactions] times [MaxAmountCents]. *)
Theorem payment_Stats_adds_up (config : PaymentConfig)
    (reqs : list (Context * PaymentRequest)) (w : World) :
  let s := eval (ProcessPayments (NewPaymentService config) reqs) w in
  let stats := PaymentService.Stats s in
  (forall entries, entries ≡ₚ map_to_list (transactions s) ->
     PaymentService.Stats_loop entries 0 = TotalAmountCents stats) /\
  (TotalTransactions stats * MaxAmountCents config <= max_int64 ->
     TotalAmountCents stats = sum_amounts (map_to_list (transactions s)) /\
     TotalTransactions stats <= TotalAmountCents stats
       <= TotalTransactions stats * MaxAmountCents config).
Proof.
  intros s stats. subst stats. unfold PaymentService.Stats.
  cbn [TotalAmountCents TotalTransactions].
  split.
  - intros entries Hp. rewrite !Stats_loop_total. by rewrite (sum_amounts_perm _ _ Hp).
  - intros Hfit. rewrite Stats_loop_total.
    assert (Hnew : sound (NewPaymentService config)).
    { split_and!; cbn; [intros ?? Hk|intros ?? Hk|done]; by rewrite lookup_empty in Hk. }
    destruct (ProcessPayments_sound reqs _ w Hnew) as ((_ & Ht & _) & Hcfg & _).
    fold s in Ht, Hcfg. cbn in Hcfg.
    assert (Hall : Forall (fun e => 0 < tx_AmountCents e.2 <= MaxAmountCents config)
                     (map_to_list (transactions s))).
    { apply list.Forall_forall. intros [id tx] Hin. apply elem_of_map_to_list in Hin.
      destruct (Ht _ _ Hin) as (_ & _ & Ha). cbn. by rewrite <- Hcfg. }
    pose proof (sum_amounts_bounds _ _ Hall) as Hb.
    unfold len in Hb. rewrite length_map_to_list in Hb.
    rewrite wrap64_in_range; [done|]. unfold min_int64, max_int64 in *. lia.
Qed.

(** *** The server in front of the service *)

Lemma processPaymentInternal_reason (s : PaymentService) (req : PaymentRequest) (w : World) :
  ErrorMessage (eval (PaymentService.processPaymentInternal s req) w) =
    if AmountCents req <=? 0 then "Amount must be positive"
    else if MaxAmountCents (payment_config s) <? AmountCents req
      then "Amount exceeds maximum allowed"
    else if decide (OrderID req = "") then "Order ID is required"
    else if Z.rem (AmountCents req) 100 =? 99 then "Card declined (simulated)"
    else "".
Proof.
  unfold PaymentService.processPaymentInternal, eval, time_Now, uuid_New. step.
  destruct (AmountCents req <=? 0); [done|].
  destruct (MaxAmountCents (payment_config s) <? AmountCents req); [done|].
  destruct (decide (OrderID req = "")); [done|].
  by destruct (Z.rem (AmountCents req) 100 =? 99).
Qed.

Lemma validatePaymentRequest_spec (req : PaymentRequest) :
  (well_formed req -> validatePaymentRequest req = None) /\
  (~ well_formed req ->
   exists msg, validatePaymentRequest req = Some (status_Error InvalidArgument msg)).
Proof.
  unfold well_formed, validatePaymentRequest.
  destruct (decide (OrderID req = "")) as [Ho|Ho].
  { split; [by intros (? & _)|by eexists]. }
  destruct (Z.leb_spec (AmountCents req) 0) as [Ha|Ha].
  { split; [intros (_ & ? & _); lia|by eexists]. }
  destruct (decide (Currency req = "")) as [Hc|Hc].
  { split; [by intros (_ & _ & ? & _)|by eexists]. }
  destruct (decide (IdempotencyKey req = "")) as [Hk|Hk].
  { split; [by intros (_ & _ & _ & ?)|by eexists]. }
  split; [done|]. intros Hn. by destruct Hn.
Qed.

Lemma PaymentServer_ProcessPayment_unfold (Error : rpc_error -> string)
    (svc : PaymentService) (ctx : Context) (req : PaymentRequest) (w : World) :
  (~ well_formed req ->
     exists msg, PaymentServer.ProcessPayment Error svc ctx req w
                 = (None, Some (status_Error InvalidArgument msg), svc, w)) /\
  (well_formed req ->
     PaymentServer.ProcessPayment Error svc ctx req w
     = (fst (fst (eval (PaymentService.ProcessPayment svc ctx req) w)), None,
        snd (eval (PaymentService.ProcessPayment svc ctx req) w),
        exec (PaymentService.ProcessPayment svc ctx req) w)).
Proof.
  unfold PaymentServer.ProcessPayment, eval, exec.
  destruct (validatePaymentRequest_spec req) as [Hok Hbad]. split.
  - intros Hn. destruct (Hbad Hn) as [msg ->]. step. by eexists.
  - intros Hwf. rewrite (Hok Hwf). step.
    destruct (ProcessPayment_caches svc ctx req w) as (resp & Hr & _).
    unfold eval in Hr.
    destruct (PaymentService.ProcessPayment svc ctx req w) as [[[resp' err] svc'] w1].
    cbn [fst snd] in *. by injection Hr as -> ->.
Qed.

(** X22. The server screens a request before the service sees it.  A request
    with an empty order id, an amount that is not positive, an empty currency
    or an empty idempotency key is answered with an [InvalidArgument] error
    and no response; the service is not called, so nothing is cached under
    its key.  Every other request gets the response of the service with a nil
    error (the branch for an error of the service is never taken); under a
    key not seen before it succeeds unless the amount exceeds the limit or
    ends in 99 cents, the two refusals that remain. *)
Theorem PaymentServer_screens_before_the_cache (Error : rpc_error -> string)
    (svc : PaymentService) (ctx : Context) (req : PaymentRequest) (w : World) :
  let r := eval (PaymentServer.ProcessPayment Error svc ctx req) w in
  let w' := exec (PaymentServer.ProcessPayment Error svc ctx req) w in
  (~ well_formed req ->
     (exists msg, r = (None, Some (status_Error InvalidArgument msg), svc)) /\ w' = w) /\
  (well_formed req ->
     let direct := eval (PaymentService.ProcessPayment svc ctx req) w in
     r = (fst (fst direct), None, snd direct) /\
     w' = exec (PaymentService.ProcessPayment svc ctx req) w /\
     (processedKeys svc !! IdempotencyKey req = None ->
      exists resp,
        fst (fst direct) = Some resp /\
        Success resp = (AmountCents req <=? MaxAmountCents (payment_config svc))
                       && negb (AmountCents req mod 100 =? 99) /\
        ErrorMessage resp =
          if MaxAmountCents (payment_config svc) <? AmountCents req
            then "Amount exceeds maximum allowed"
          else if AmountCents req mod 100 =? 99 then "Card declined (simulated)"
          else "")).
Proof.
  intros r w'. subst r w'.
  destruct (PaymentServer_ProcessPayment_unfold Error svc ctx req w) as [Hbad Hok]. split.
  - intros Hn. destruct (Hbad Hn) as [msg Hr]. unfold eval, exec. rewrite Hr.
    split; [by eexists|done].
  - intros Hwf. cbv zeta. unfold eval at 1, exec at 1. rewrite (Hok Hwf). cbn [fst snd].
    split_and!; [reflexivity|reflexivity|].
    intros Hk.
    pose proof (ProcessPayment_miss svc ctx req w Hk) as Hm. cbv zeta in Hm.
    assert (Hd : fst (fst (eval (PaymentService.ProcessPayment svc ctx req) w))
                 = Some (eval (PaymentService.processPaymentInternal svc req) w))
      by (unfold eval at 1; by rewrite Hm).
    rewrite Hd. eexists. split; [reflexivity|].
    destruct (processPaymentInternal_spec svc req w) as (HS & _).
    pose proof (processPaymentInternal_reason svc req w) as HE.
    rewrite HS, HE. unfold payable.
    destruct Hwf as (Ho & Ha & _).
    rewrite Z.rem_mod_nonneg by lia.
    destruct (Z.leb_spec (AmountCents req) 0); [lia|].
    destruct (Z.ltb_spec 0 (AmountCents req)); [|lia].
    destruct (decide (OrderID req = "")); [done|].
    rewrite bool_decide_eq_true_2 by done.
    destruct (Z.leb_spec (AmountCents req) (MaxAmountCents (payment_config svc))),
             (Z.ltb_spec (MaxAmountCents (payment_config svc)) (AmountCents req));
      try lia; cbn; [|done].
    by destruct (AmountCents req mod 100 =? 99).
Qed.

End payments.

(** ** The order service *)

Section orders.
Context {PE : PaymentEnums} {OE : OrderEnums} {C : Type} {PC : PaymentServiceClient C}.

Ltac order_fields := unfold set_orders, set_paymentClient;
  cbn [orders paymentClient broker topicName].

(** [CreateOrder] on a request that passes its two checks. *)
Lemma CreateOrder_valid (s : OrderService C) (ctx : Context) (req : CreateOrderRequest)
    (w : World) :
  req_Items req <> [] -> req_CustomerEmail req <> "" ->
  let o := pending_order (clock w (tick w)) (uuids w (drawn w)) req in
  let w1 := set_drawn (S (drawn w)) (set_tick (S (tick w)) w) in
  let answer := client_ProcessPayment (paymentClient s) ctx (payment_of o) w1 in
  let w2 := snd answer in
  let now := clock w2 (tick w2) in
  let w3 := set_tick (S (tick w2)) w2 in
  let settled final :=
    mkOrderService (<[order_ID o := final]> (orders s)) (snd (fst answer))
                   (broker s) (topicName s) in
  OrderService.CreateOrder s ctx req w =
    match fst (fst answer) with
    | inr err =>
        (None, Some ErrPaymentServiceUnavailable, settled (cancelled now o), [], w3)
    | inl resp =>
        if Success resp then
          (Some (paid (TransactionID resp) now o), None,
           settled (paid (TransactionID resp) now o),
           [PublishOrderCreated (paid (TransactionID resp) now o)], w3)
        else
          (None, Some (PaymentDeclinedError (PaymentErrorCode_String (ErrorCode resp))
                         (ErrorMessage resp)),
           settled (cancelled now o), [], w3)
    end.
Proof.
  intros Hitems Hemail. cbv zeta.
  unfold OrderService.CreateOrder.
  rewrite decide_False by (by destruct (req_Items req)).
  rewrite decide_False by done.
  unfold time_Now, uuid_New. step. cbn [tick drawn set_tick set_drawn clock uuids].
  unfold payment_of. order_fields.
  cbn [pending_order order_ID order_TotalCents order_Currency order_CustomerEmail].
  destruct (client_ProcessPayment _ _ _ _) as [[answer c'] w2].
  cbn [fst snd]. destruct answer as [resp|err].
  - destruct (Success resp); cbn [negb].
    + unfold paid. cbn [set_order_UpdatedAt set_order_PaymentTransactionID set_order_Status
                        order_ID].
      by rewrite insert_insert_eq.
    + unfold OrderService.updateOrderStatus. order_fields.
      rewrite lookup_insert_eq. step. unfold cancelled.
      by rewrite insert_insert_eq.
  - unfold OrderService.updateOrderStatus. order_fields.
    rewrite lookup_insert_eq. step. unfold cancelled.
    by rewrite insert_insert_eq.
Qed.

Lemma CreateOrder_invalid (s : OrderService C) (ctx : Context) (req : CreateOrderRequest)
    (w : World) :
  (req_Items req = [] ->
   OrderService.CreateOrder s ctx req w = (None, Some ErrNoItems, s, [], w)) /\
  (req_Items req <> [] -> req_CustomerEmail req = "" ->
   OrderService.CreateOrder s ctx req w = (None, Some ErrMissingEmail, s, [], w)).
Proof.
  unfold OrderService.CreateOrder. split.
  - intros ->. done.
  - intros Hi He. rewrite decide_False by (by destruct (req_Items req)).
    by rewrite decide_True.
Qed.


Lemma CreateOrder_keeps_settled (s : OrderService C) (ctx : Context)
    (req : CreateOrderRequest) (w : World) :
  settled_store s ->
  settled_store (snd (fst (eval (OrderService.CreateOrder s ctx req) w))) /\
  (size (orders (snd (fst (eval (OrderService.CreateOrder s ctx req) w))))
   <= S (size (orders s)))%nat.
Proof.
  intros Hs. unfold eval.
  destruct (CreateOrder_invalid s ctx req w) as [H1 H2].
  destruct (decide (req_Items req = [])) as [Hi|Hi].
  { rewrite (H1 Hi). cbn [fst snd]. split; [done|lia]. }
  destruct (decide (req_CustomerEmail req = "")) as [He|He].
  { rewrite (H2 Hi He). cbn [fst snd]. split; [done|lia]. }
  rewrite (CreateOrder_valid s ctx req w Hi He). cbv zeta.
  set (o := pending_order (clock w (tick w)) (uuids w (drawn w)) req).
  destruct (client_ProcessPayment (paymentClient s) ctx (payment_of o)
              (set_drawn (S (drawn w)) (set_tick (S (tick w)) w))) as [[answer c'] w2].
  cbn [fst snd].
  assert (Hgen : forall final,
    order_ID final = order_ID o ->
    (order_Status final = OrderStatus_ORDER_STATUS_PAID \/
     order_Status final = OrderStatus_ORDER_STATUS_CANCELLED) ->
    settled_store (mkOrderService (<[order_ID o := final]> (orders s)) c'
                     (broker s) (topicName s)) /\
    (size (orders (mkOrderService (<[order_ID o := final]> (orders s)) c'
                     (broker s) (topicName s))) <= S (size (orders s)))%nat).
  { intros final Hid Hst. split.
    - intros id x. cbn [orders]. destruct (decide (id = order_ID o)) as [->|Hne].
      + rewrite lookup_insert_eq. intros [= <-]. done.
      + rewrite lookup_insert_ne by done. apply Hs.
    - cbn [orders]. apply size_insert_le. }
  destruct answer as [resp|err]; [destruct (Success resp)|]; cbn [fst snd];
    apply Hgen; try reflexivity; [left|right|right]; reflexivity.
Qed.

Lemma CreateOrders_keep_settled (reqs : list (Context * CreateOrderRequest))
    (s : OrderService C) (w : World) :
  settled_store s ->
  settled_store (eval (CreateOrders s reqs) w) /\
  (size (orders (eval (CreateOrders s reqs) w)) <= size (orders s) + length reqs)%nat.
Proof.
  revert s w. induction reqs as [|[ctx req] reqs IH]; intros s w Hs.
  { cbn. split; [done|lia]. }
  cbn [CreateOrders]. rewrite eval_bind.
  destruct (CreateOrder_keeps_settled s ctx req w Hs) as [Hs1 Hn1].
  destruct (IH _ (exec (OrderService.CreateOrder s ctx req) w) Hs1) as [Hs2 Hn2].
  split; [done|]. cbn [length]. lia.
Qed.

(** The loop of [Stats] over orders that are paid or cancelled. *)
Lemma Stats_loop_settled (entries : list (string * Order)) (stats : OrderStats) :
  Forall (fun e => order_Status e.2 = OrderStatus_ORDER_STATUS_PAID \/
                   order_Status e.2 = OrderStatus_ORDER_STATUS_CANCELLED) entries ->
  0 <= PaidOrders stats -> 0 <= CancelledOrders stats ->
  PaidOrders stats + CancelledOrders stats + len entries <= max_int64 ->
  let stats' := OrderService.Stats_loop entries stats in
  TotalOrders stats' = TotalOrders stats /\
  PendingOrders stats' = PendingOrders stats /\
  0 <= PaidOrders stats' /\ 0 <= CancelledOrders stats' /\
  PaidOrders stats' + CancelledOrders stats' =
    PaidOrders stats + CancelledOrders stats + len entries.
Proof.
  unfold len. intros Hall. revert stats.
  induction Hall as [|[id o] rest Hx _ IH]; intros stats Hp Hc Hfit;
    cbn [OrderService.Stats_loop].
  { cbn. lia. }
  cbn [length] in Hfit. cbn [snd] in Hx. cbv zeta in IH |- *.
  destruct (decide (order_Status o = OrderStatus_ORDER_STATUS_PAID)) as [Hpaid|Hnp].
  - set (st1 := set_TotalRevenueCents
                  (wrap64 (TotalRevenueCents stats + order_TotalCents o))
                  (set_PaidOrders (incr (PaidOrders stats)) stats)).
    assert (E1 : PaidOrders st1 = PaidOrders stats + 1).
    { cbn. apply incr_no_overflow. unfold max_int64, min_int64 in *. lia. }
    assert (E2 : CancelledOrders st1 = CancelledOrders stats) by reflexivity.
    assert (E3 : TotalOrders st1 = TotalOrders stats) by reflexivity.
    assert (E4 : PendingOrders st1 = PendingOrders stats) by reflexivity.
    destruct (IH st1) as (H1 & H2 & H3 & H4 & H5); [lia|lia|lia|].
    rewrite H1, H2, H5, E1, E2, E3, E4. cbn [length]. split_and!; try done; lia.
  - destruct (decide (order_Status o = OrderStatus_ORDER_STATUS_CANCELLED)) as [Hcan|Hnc];
      [|by destruct Hx].
    set (st1 := set_CancelledOrders (incr (CancelledOrders stats)) stats).
    assert (E1 : PaidOrders st1 = PaidOrders stats) by reflexivity.
    assert (E2 : CancelledOrders st1 = CancelledOrders stats + 1).
    { cbn. apply incr_no_overflow. unfold max_int64, min_int64 in *. lia. }
    assert (E3 : TotalOrders st1 = TotalOrders stats) by reflexivity.
    assert (E4 : PendingOrders st1 = PendingOrders stats) by reflexivity.
    destruct (IH st1) as (H1 & H2 & H3 & H4 & H5); [lia|lia|lia|].
    rewrite H1, H2, H5, E1, E2, E3, E4. cbn [length]. split_and!; try done; lia.
Qed.

(** X24. No order stays pending.  After any run of [CreateOrder] calls on a
    new order service (at most 2^63 - 1 of them), whatever the payment client
    answers: every order that [GetOrder] finds is stored under its own id
    and is paid or cancelled; [Stats] counts no pending order, its total is
    the number of paid plus the number of cancelled orders and the length of
    what [ListOrders] returns, and is at most the number of calls. *)
Theorem no_order_stays_pending (client : C) (b : bref) (topic : string)
    (reqs : list (Context * CreateOrderRequest)) (ctx : Context) (w : World) :
  len reqs <= max_int64 ->
  let s := eval (CreateOrders (NewOrderService client b topic) reqs) w in
  let stats := OrderService.Stats s in
  (forall id o, OrderService.GetOrder s ctx id = (Some o, None) ->
     order_ID o = id /\
     (order_Status o = OrderStatus_ORDER_STATUS_PAID \/
      order_Status o = OrderStatus_ORDER_STATUS_CANCELLED)) /\
  PendingOrders stats = 0 /\
  TotalOrders stats = PaidOrders stats + CancelledOrders stats /\
  TotalOrders stats = len (fst (OrderService.ListOrders s ctx)) /\
  TotalOrders stats <= len reqs.
Proof.
  intros Hfit s stats.
  assert (Hnew : settled_store (NewOrderService client b topic)).
  { intros id o Hk. cbn in Hk. by rewrite lookup_empty in Hk. }
  destruct (CreateOrders_keep_settled reqs _ w Hnew) as [Hs Hn]. fold s in Hs, Hn.
  cbn [NewOrderService orders] in Hn. rewrite map_size_empty in Hn.
  assert (Hall : Forall (fun e => order_Status e.2 = OrderStatus_ORDER_STATUS_PAID \/
                                  order_Status e.2 = OrderStatus_ORDER_STATUS_CANCELLED)
                   (map_to_list (orders s))).
  { apply list.Forall_forall. intros [id o] Hin. apply elem_of_map_to_list in Hin.
    by destruct (Hs _ _ Hin). }
  unfold len in Hfit.
  destruct (Stats_loop_settled (map_to_list (orders s))
              {| TotalOrders := Z.of_nat (size (orders s));
                 PaidOrders := 0; CancelledOrders := 0; PendingOrders := 0;
                 TotalRevenueCents := 0 |} Hall) as (H1 & H2 & H3 & H4 & H5).
  { cbn. lia. } { cbn. lia. }
  { cbn. unfold len. rewrite length_map_to_list. lia. }
  fold (OrderService.Stats s) in H1, H2, H3, H4, H5. fold stats in H1, H2, H3, H4, H5.
  cbn in H1, H2, H5. unfold len in H5. rewrite length_map_to_list in H5.
  split_and!.
  - intros id o. unfold OrderService.GetOrder.
    destruct (orders s !! id) as [x|] eqn:E; [|done]. intros [= <-]. by apply Hs.
  - done.
  - lia.
  - unfold OrderService.ListOrders, len. cbn [fst].
    rewrite length_fmap, length_map_to_list. done.
  - unfold len. lia.
Qed.

End orders.

(** *** Orders paid through the payment server *)

Section orders_in_process.
Context {PE : PaymentEnums} {OE : OrderEnums} (Error : rpc_error -> string).

Lemma InProcess_answer (svc : PaymentService) (ctx : Context) (req : PaymentRequest)
    (w : World) :
  let answer := client_ProcessPayment (PaymentServiceClient := InProcess Error)
                  svc ctx req w in
  let direct := PaymentService.ProcessPayment svc ctx req w in
  (~ well_formed req -> exists err, answer = (inr err, svc, w)) /\
  (well_formed req ->
   exists resp, fst (fst direct) = (Some resp, None) /\
                answer = (inl resp, snd (fst direct), snd direct)).
Proof.
  cbv zeta. unfold client_ProcessPayment, InProcess.
  destruct (PaymentServer_ProcessPayment_unfold Error svc ctx req w) as [Hbad Hok]. split.
  - intros Hn. destruct (Hbad Hn) as (msg & Hr). step. rewrite Hr. cbn. by eexists.
  - intros Hwf. step. rewrite (Hok Hwf).
    destruct (ProcessPayment_caches svc ctx req w) as (resp & Hc & _).
    unfold eval, exec in *. exists resp.
    rewrite Hc. cbn [fst snd]. done.
Qed.

(** X25. Orders and payments, end to end.  With the payment server called in
    process as the payment client, a request with items and an email whose
    order id is new to the payment service ends in one of three ways.  When
    the total is not positive or the currency is empty the server rejects the
    payment request, [CreateOrder] reports [ErrPaymentServiceUnavailable],
    the order is cancelled and the payment service is as before.  When the
    total exceeds [MaxAmountCents] or ends in 99 cents the payment is
    refused: a [PaymentDeclinedError] with the message of the refusal, the
    order cancelled, the refusal cached under the order id, no transaction
    recorded.  Otherwise the order is returned paid, its transaction id is
    "tx_" and the first eight characters of the next uuid, [GetPaymentStatus]
    finds the transaction with the id of the order, its total and its
    currency, and the event goroutine is started. *)
Theorem order_is_paid_iff_the_payment_is_accepted (s : OrderService PaymentService)
    (ctx : Context) (req : CreateOrderRequest) (w : World) :
  req_Items req <> [] ->
  req_CustomerEmail req <> "" ->
  let o := pending_order (clock w (tick w)) (uuids w (drawn w)) req in
  processedKeys (paymentClient s) !! order_ID o = None ->
  let svc := paymentClient s in
  let total := order_TotalCents o in
  let r := eval (OrderService.CreateOrder (PC := InProcess Error)
                   s ctx req) w in
  let result := fst (fst r) in
  let s' := snd (fst r) in
  let svc' := paymentClient s' in
  exists final,
    OrderService.GetOrder s' ctx (order_ID o) = (Some final, None) /\
    order_ID final = order_ID o /\
    if decide (total <= 0 \/ req_Currency req = "") then
      result = (None, Some ErrPaymentServiceUnavailable) /\
      order_Status final = OrderStatus_ORDER_STATUS_CANCELLED /\
      svc' = svc /\ snd r = []
    else if decide (MaxAmountCents (payment_config svc) < total \/ total mod 100 = 99) then
      (exists code,
         result = (None, Some (PaymentDeclinedError code
                     (if MaxAmountCents (payment_config svc) <? total
                      then "Amount exceeds maximum allowed"
                      else "Card declined (simulated)")))) /\
      order_Status final = OrderStatus_ORDER_STATUS_CANCELLED /\
      is_Some (processedKeys svc' !! order_ID o) /\
      transactions svc' = transactions svc /\ snd r = []
    else
      result = (Some final, None) /\
      order_Status final = OrderStatus_ORDER_STATUS_PAID /\
      order_PaymentTransactionID final =
        "tx_" +:+ String.substring 0 8 (uuids w (S (drawn w))) /\
      (exists tx,
         PaymentService.GetPaymentStatus svc' ctx
           (mkPaymentStatusRequest (order_PaymentTransactionID final)) = (Some tx, None) /\
         tx_OrderID tx = order_ID final /\ tx_AmountCents tx = total /\
         tx_Currency tx = req_Currency req) /\
      snd r = [PublishOrderCreated final].
Proof.
  intros Hi He o Hfresh svc total r result s' svc'. subst r result s' svc'.
  unfold eval. rewrite (CreateOrder_valid s ctx req w Hi He). cbv zeta. fold o.
  set (w1 := set_drawn (S (drawn w)) (set_tick (S (tick w)) w)).
  destruct (InProcess_answer svc ctx (payment_of o) w1) as [Hbad Hok].
  change (paymentClient s) with svc.
  assert (Hwf : well_formed (payment_of o) <-> ~ (total <= 0 \/ req_Currency req = "")).
  { unfold well_formed, payment_of.
    cbn [OrderID AmountCents Currency IdempotencyKey]. fold total.
    change (order_Currency o) with (req_Currency req).
    assert (order_ID o <> "") by (intros Hid; discriminate Hid).
    split; [intros (_ & ? & ? & _) [?|?]; [lia|done]|].
    intros Hn. split_and!; try done.
    - destruct (Z.lt_ge_cases 0 total); [done|]. destruct Hn. left. lia.
    - intros Hc. destruct Hn. by right. }
  destruct (decide (total <= 0 \/ req_Currency req = "")) as [Hrej|Hacc].
  { destruct Hbad as [err ->]; [by intros Hw; apply Hwf in Hw|].
    cbn [fst snd]. eexists. unfold OrderService.GetOrder. cbn [orders paymentClient].
    rewrite lookup_insert_eq. split_and!; reflexivity. }
  destruct Hok as (resp & Hresp & ->); [by apply Hwf|]. cbn [fst snd].
  pose proof (ProcessPayment_miss svc ctx (payment_of o) w1 Hfresh) as Hm. cbv zeta in Hm.
  rewrite Hm in Hresp. cbn [fst snd] in Hresp. injection Hresp as Hresp.
  rewrite Hm. cbn [fst snd]. clear Hm.
  destruct (processPaymentInternal_spec svc (payment_of o) w1) as (HS & HP & HT & _).
  rewrite Hresp in HS, HP, HT |- *.
  assert (Hpos : 0 < total).
  { destruct (Z.lt_ge_cases 0 total); [done|]. destruct Hacc. left. lia. }
  assert (Hpay : payable svc (payment_of o) =
                 (total <=? MaxAmountCents (payment_config svc))
                 && negb (total mod 100 =? 99)).
  { unfold payable, payment_of. cbn [OrderID AmountCents]. fold total.
    rewrite Z.rem_mod_nonneg by lia.
    destruct (Z.ltb_spec 0 total); [|lia].
    rewrite bool_decide_eq_true_2 by (intros Hid; discriminate Hid). cbn.
    by rewrite andb_true_r. }
  pose proof (processPaymentInternal_reason svc (payment_of o) w1) as Hmsg.
  rewrite Hresp in Hmsg. cbn [payment_of OrderID AmountCents] in Hmsg. fold total in Hmsg.
  destruct (decide (MaxAmountCents (payment_config svc) < total \/ total mod 100 = 99))
    as [Hdec|Hok].
  - assert (Hnp : payable svc (payment_of o) = false).
    { rewrite Hpay. destruct Hdec as [Hm|Hm].
      - destruct (Z.leb_spec total (MaxAmountCents (payment_config svc))); [lia|done].
      - rewrite Hm. cbn. apply andb_false_r. }
    rewrite Hnp in HS, HT. rewrite HS. cbn [fst snd].
    eexists. unfold OrderService.GetOrder. cbn [orders paymentClient].
    rewrite lookup_insert_eq. split_and!; try reflexivity.
    + eexists. rewrite Hmsg.
      destruct (Z.leb_spec total 0); [lia|].
      destruct (Z.ltb_spec (MaxAmountCents (payment_config svc)) total); [reflexivity|].
      destruct (decide (order_ID o = "")) as [Hid|_]; [discriminate Hid|].
      rewrite Z.rem_mod_nonneg by lia.
      destruct Hdec as [?|Hm]; [lia|]. rewrite Hm. reflexivity.
    + unfold set_processedKeys. cbn [processedKeys payment_of IdempotencyKey].
      rewrite lookup_insert_eq. by eexists.
  - assert (Hp : payable svc (payment_of o) = true).
    { rewrite Hpay.
      destruct (Z.leb_spec total (MaxAmountCents (payment_config svc)));
        [|destruct Hok; left; lia].
      destruct (Z.eqb_spec (total mod 100) 99); [destruct Hok; by right|done]. }
    rewrite Hp in HS, HT. rewrite HS. cbn [fst snd].
    eexists. unfold OrderService.GetOrder. cbn [orders paymentClient].
    rewrite lookup_insert_eq. split_and!; try reflexivity.
    + cbn. exact HT.
    + cbn [paid set_order_UpdatedAt set_order_PaymentTransactionID
           order_PaymentTransactionID order_ID].
      eexists. split.
      * unfold PaymentService.GetPaymentStatus, set_transactions, set_processedKeys.
        cbn [transactions query_TransactionID]. rewrite lookup_insert_eq. reflexivity.
      * split_and!; reflexivity.
Qed.

End orders_in_process.

(** ** The event of a paid order *)

Section order_events.
Context {OE : OrderEnums} {C V : Type}.
Context (NewOrderCreatedEvent : Order -> V) (json_Marshal : V -> list byte + error).

Lemma publishOrderCreated_unfold (s : OrderService C) (o : Order) (w : World)
    (payloadBytes : list byte) :
  json_Marshal (NewOrderCreatedEvent o) = inl payloadBytes ->
  exists w0 ctx,
    exec (OrderService.publishOrderCreated NewOrderCreatedEvent json_Marshal s o) w =
      exec (Broker.Publish (broker s) ctx (topicName s) (nextM w)) w0 /\
    heapM w0 (nextM w) =
      order_created (uuids w (drawn w)) payloadBytes (clock w (tick w)) o /\
    (forall p, p <> nextM w -> heapM w0 p = heapM w p) /\
    heapQ w0 = heapQ w /\ heapT w0 = heapT w /\ heapB w0 = heapB w /\
    nextM w0 = S (nextM w) /\ drawn w0 = S (drawn w) /\ uuids w0 = uuids w /\
    goroutines w0 = goroutines w.
Proof.
  intros HM.
  unfold OrderService.publishOrderCreated, NewMessage, exec. rewrite HM.
  unfold context_WithTimeout, new_Message, Message.SetMetadata. step.
  match goal with |- context [Broker.Publish ?a ?b ?c ?d ?e] => exists e, b end. split.
  - match goal with |- context [Broker.Publish ?a ?b ?c ?d ?e] =>
      destruct (Broker.Publish a b c d e) as [r w'] end.
    reflexivity.
  - cbn. heap. split_and!; try reflexivity.
    intros p Hp. by heap.
Qed.

Lemma order_created_fields (id : string) (payloadBytes : list byte) (now : Time) (o : Order) :
  let m := order_created id payloadBytes now o in
  ID m = id /\ Type_ m = "order.created" /\ Payload m = payloadBytes /\
  Message.metadata_of "order_id" m = order_ID o /\
  Message.metadata_of "customer_email" m = order_CustomerEmail o.
Proof.
  unfold order_created, Message.with_metadata, Message.metadata_of. cbn.
  split_and!; done.
Qed.

(** X26. The event of a paid order.  When the event cannot be marshalled
    [publishOrderCreated] does nothing; when the topic of the service is not
    registered the error of [Publish] is dropped and no queue changes.
    Otherwise every entry of the subscriber list of the topic gets one new
    message at the end of its queue: type "order.created", the marshalled
    event as payload (so [Decode] sees those bytes), the metadata [order_id]
    and [customer_email] of the order and [source_topic] of the topic, a fresh
    id, no retries and no lease. *)
Theorem publishOrderCreated_reaches_every_subscriber (s : OrderService C) (o : Order)
    (w : World) :
  (forall k, uuids w k <> "") ->
  let w' := exec (OrderService.publishOrderCreated NewOrderCreatedEvent json_Marshal s o) w in
  match json_Marshal (NewOrderCreatedEvent o) with
  | inr _ => w' = w
  | inl payloadBytes =>
      match topics (heapB w (broker s)) !! topicName s with
      | None => heapQ w' = heapQ w /\ goroutines w' = goroutines w
      | Some t =>
          let subs := subscribers (heapT w t) in
          let first := S (nextM w) in
          (forall q, messages (heapQ w' q) =
                     messages (heapQ w q) ++ delivered first subs q) /\
          (forall k q, subs !! k = Some q ->
             let c := heapM w' (first + k)%nat in
             ID c = uuids w (S (drawn w) + 2 * k)%nat /\
             Type_ c = "order.created" /\
             Payload c = payloadBytes /\
             Message.metadata_of "order_id" c = order_ID o /\
             Message.metadata_of "customer_email" c = order_CustomerEmail o /\
             Message.metadata_of "source_topic" c = topic_name (heapT w t) /\
             RetryCount c = 0 /\ VisibleAt c = zero_Time /\ ReceiptHandle c = "" /\
             forall (V' : Type) (json_Unmarshal : list byte -> V' + error),
               eval (Message.Decode json_Unmarshal (first + k)%nat) w'
               = json_Unmarshal payloadBytes)
      end
  end.
Proof.
  intros Huuid w'. subst w'.
  destruct (json_Marshal (NewOrderCreatedEvent o)) as [payloadBytes|err] eqn:HM.
  2: { unfold OrderService.publishOrderCreated, NewMessage, exec. rewrite HM. done. }
  destruct (publishOrderCreated_unfold s o w payloadBytes HM)
    as (w0 & ctx & -> & Hm0 & Hothers & HQ0 & HT0 & HB0 & Hn0 & Hd0 & Hu0 & Hg0).
  destruct (topics (heapB w (broker s)) !! topicName s) as [t|] eqn:Ht.
  2: { unfold Broker.Publish, exec. step. rewrite HB0, Ht. cbn. done. }
  rewrite <- HB0 in Ht.
  unfold exec. rewrite (Broker_Publish_delegates w0 _ ctx _ _ t Ht).
  fold (exec (Topic.Publish t ctx (nextM w)) w0).
  destruct (Publish_spec t ctx (nextM w) w0)
    as (_ & Hn & _ & _ & Hc & HQ & _ & _).
  { unfold allocated. lia. }
  { intros k. by rewrite Hu0. }
  rewrite HT0, Hn0, Hu0, Hd0, Hm0 in Hc. rewrite HT0, Hn0, HQ0 in HQ.
  cbv zeta. split; [exact HQ|].
  intros k q Hk. destruct (Hc k q Hk) as (ts & ts' & Hck).
  assert (Hdec : forall (V' : Type) (json_Unmarshal : list byte -> V' + error),
            eval (Message.Decode json_Unmarshal (S (nextM w) + k)%nat)
                 (exec (Topic.Publish t ctx (nextM w)) w0)
            = json_Unmarshal (Payload (heapM (exec (Topic.Publish t ctx (nextM w)) w0)
                                         (S (nextM w) + k)%nat))) by reflexivity.
  rewrite Hck in Hdec |- *.
  set (m := set_Timestamp ts'
              (order_created (uuids w (drawn w)) payloadBytes (clock w (tick w)) o)) in *.
  destruct (delivery_fields (topic_name (heapT w t)) (uuids w (S (drawn w) + 2 * k)%nat)
              (uuids w (S (S (drawn w) + 2 * k))) m)
    as (F1 & F2 & F3 & _ & F5 & F6 & F7 & F8 & _).
  destruct (order_created_fields (uuids w (drawn w)) payloadBytes (clock w (tick w)) o)
    as (_ & G2 & G3 & G4 & G5).
  assert (Hmeta : forall key m', Message.metadata_of key (set_Timestamp ts m')
                                 = Message.metadata_of key m') by reflexivity.
  assert (Hmeta' : forall key, Message.metadata_of key m
            = Message.metadata_of key
                (order_created (uuids w (drawn w)) payloadBytes (clock w (tick w)) o))
    by reflexivity.
  split_and!.
  - exact F1.
  - cbn [Type_ set_Timestamp]. rewrite F2. exact G2.
  - cbn [Payload set_Timestamp]. rewrite F3. exact G3.
  - rewrite Hmeta, delivery_inherits_metadata by done. rewrite Hmeta'. exact G4.
  - rewrite Hmeta, delivery_inherits_metadata by done. rewrite Hmeta'. exact G5.
  - rewrite Hmeta. exact F8.
  - exact F5.
  - exact F6.
  - exact F7.
  - intros V' json_Unmarshal. rewrite Hdec. cbn [Payload set_Timestamp].
    rewrite F3. by rewrite <- G3.
Qed.

End order_events.

(** ** The registries of the brokers *)

Lemma grows_refl (w : World) : grows w w.
Proof. unfold grows. split_and!; try done; intros; by left. Qed.

Lemma grows_trans (w1 w2 w3 : World) : grows w1 w2 -> grows w2 w3 -> grows w1 w3.
Proof.
  intros (A1 & A2 & A3 & A4 & A5 & A6 & A7 & A8) (B1 & B2 & B3 & B4 & B5 & B6 & B7 & B8).
  unfold grows. split_and!.
  - lia.
  - lia.
  - intros q Hq. rewrite B3 by lia. by apply A3.
  - intros t Ht. rewrite B4 by lia. by apply A4.
  - intros b n q Hq. by apply B5, A5.
  - intros b n t Ht. by apply B6, A6.
  - intros b n q Hq. destruct (B7 b n q Hq) as [H2|[H2 H2']].
    + destruct (A7 b n q H2) as [H1|[H1 H1']]; [by left|right].
      split; [lia|]. rewrite B3 by lia. done.
    + right. split; [lia|done].
  - intros b n t Ht. destruct (B8 b n t Ht) as [H2|[H2 H2']].
    + destruct (A8 b n t H2) as [H1|[H1 H1']]; [by left|right].
      split; [lia|]. rewrite B4 by lia. done.
    + right. split; [lia|done].
Qed.

Lemma grows_registry_ok (w w' : World) : registry_ok w -> grows w w' -> registry_ok w'.
Proof.
  intros [HQ HT] (A1 & A2 & A3 & A4 & A5 & A6 & A7 & A8). split.
  - intros b n q Hq. destruct (A7 b n q Hq) as [H|[H H']].
    + destruct (HQ b n q H) as [Hlt Hn]. split; [lia|]. by rewrite A3.
    + split; [lia|done].
  - intros b n t Ht. destruct (A8 b n t Ht) as [H|[H H']].
    + destruct (HT b n t H) as [Hlt Hn]. split; [lia|]. by rewrite A4.
    + split; [lia|done].
Qed.

Lemma growing_bind {A B} (c : M A) (k : A -> M B) :
  growing c -> (forall a, growing (k a)) -> growing (c ≫= k).
Proof.
  intros Hc Hk w. unfold exec, mbind, M_bind.
  specialize (Hc w). unfold exec in Hc. destruct (c w) as [a w1]. simpl in Hc.
  eapply grows_trans; [exact Hc|]. apply (Hk a w1).
Qed.

Lemma still_growing {A} (c : M A) : still c -> growing c.
Proof.
  intros Hc w. destruct (Hc w) as (HB & HQ & HT & Hn & Ht).
  unfold grows. rewrite HB, HQ, HT. split_and!; try done.
  - intros b n q Hq. left. done.
  - intros b n t H. left. done.
Qed.

Lemma still_ret {A} (a : A) : still (mret a).
Proof. intros w. by split_and!. Qed.

Lemma still_bind {A B} (c : M A) (k : A -> M B) :
  still c -> (forall a, still (k a)) -> still (c ≫= k).
Proof.
  intros Hc Hk w. unfold exec, mbind, M_bind.
  specialize (Hc w). unfold exec in Hc. destruct (c w) as [a w1]. simpl in Hc.
  destruct Hc as (HB & HQ & HT & Hn & Ht).
  destruct (Hk a w1) as (HB' & HQ' & HT' & Hn' & Ht'). unfold exec in *.
  rewrite HB', HQ', HT', HB, HQ, HT. split_and!; try done.
  - intros q. by rewrite Hn', Hn.
  - intros t. by rewrite Ht', Ht.
Qed.

(** The primitive steps. *)
Lemma still_quiet {A} (c : M A) :
  (forall w, heapB (exec c w) = heapB w /\ nextQ (exec c w) = nextQ w /\
             nextT (exec c w) = nextT w /\ heapQ (exec c w) = heapQ w /\
             heapT (exec c w) = heapT w) ->
  still c.
Proof.
  intros H w. destruct (H w) as (HB & HQ & HT & Hq & Ht).
  rewrite HB, HQ, HT, Hq, Ht. by split_and!.
Qed.

Lemma still_updateQ (q : qref) (f : Queue -> Queue) :
  (forall Q, name (f Q) = name Q) -> still (updateQ q f).
Proof.
  intros Hf w. unfold exec, updateQ, modify. simpl. split_and!; try done.
  intros q'. destruct (decide (q' = q)) as [->|Hne]; heap; [apply Hf|done].
Qed.

Lemma still_updateT (t : tref) (f : Topic -> Topic) :
  (forall T, topic_name (f T) = topic_name T) -> still (updateT t f).
Proof.
  intros Hf w. unfold exec, updateT, modify. simpl. split_and!; try done.
  intros t'. destruct (decide (t' = t)) as [->|Hne]; heap; [apply Hf|done].
Qed.

Ltac calm := apply still_quiet; intros; by split_and!.

Ltac still_step :=
  first
    [ apply still_ret
    | apply still_bind; [|intros ?]
    | apply still_updateQ; intros ?; reflexivity
    | apply still_updateT; intros ?; reflexivity
    | assumption
    | calm ].

Lemma still_Clone (p : loc) : still (Message.Clone p).
Proof. calm. Qed.

Lemma still_SetMetadata (p : loc) (k v : string) : still (Message.SetMetadata p k v).
Proof. calm. Qed.

Lemma still_update (p : loc) (f : Message -> Message) : still (update p f).
Proof. calm. Qed.

Lemma still_IsVisible (p : loc) : still (Message.IsVisible p).
Proof.
  unfold Message.IsVisible. apply still_bind; [calm|intros m].
  destruct (Time_IsZero (VisibleAt m)); [apply still_ret|].
  apply still_bind; [calm|intros now]. apply still_ret.
Qed.

Lemma still_Enqueue (q : qref) (ctx : Context) (msg : loc) : still (Queue.Enqueue q ctx msg).
Proof.
  unfold Queue.Enqueue.
  apply still_bind; [calm|intros m].
  apply still_bind.
  { destruct (decide (ID m = "")); [|apply still_ret].
    apply still_bind; [calm|intros id]. calm. }
  intros _. apply still_bind; [calm|intros m'].
  apply still_bind.
  { destruct (Time_IsZero (Timestamp m')); [|apply still_ret].
    apply still_bind; [calm|intros now]. calm. }
  intros _. repeat still_step.
Qed.

Lemma still_Receive_loop (q : qref) (now : Time) (msgs : list loc) :
  still (Queue.Receive_loop q now msgs).
Proof.
  induction msgs as [|msg rest IH]; simpl; [apply still_ret|].
  apply still_bind; [apply still_IsVisible|intros v].
  destruct v; [|exact IH].
  apply still_bind; [calm|intros Q].
  apply still_bind; [calm|intros _].
  apply still_bind; [calm|intros h].
  apply still_bind; [calm|intros _].
  apply still_bind; [calm|intros _]. apply still_ret.
Qed.

Lemma still_Receive (q : qref) (ctx : Context) : still (Queue.Receive q ctx).
Proof.
  unfold Queue.Receive.
  apply still_bind; [calm|intros now].
  apply still_bind; [calm|intros Q].
  apply still_bind; [apply still_Receive_loop|intros r]. apply still_ret.
Qed.

Lemma still_Acknowledge_loop (q : qref) (h : string) (i : nat) (msgs : list loc) :
  still (Queue.Acknowledge_loop q h i msgs).
Proof.
  revert i. induction msgs as [|msg rest IH]; intros i; simpl; [apply still_ret|].
  apply still_bind; [calm|intros m].
  destruct (decide (ReceiptHandle m = h)); [|apply IH].
  repeat still_step.
Qed.

Lemma still_Acknowledge (q : qref) (ctx : Context) (h : string) :
  still (Queue.Acknowledge q ctx h).
Proof.
  unfold Queue.Acknowledge. apply still_bind; [calm|intros Q].
  apply still_Acknowledge_loop.
Qed.

Lemma still_remove_loop (q : qref) (msg : loc) (i : nat) (msgs : list loc) :
  still (Queue.remove_loop q msg i msgs).
Proof.
  revert i. induction msgs as [|p rest IH]; intros i; simpl; [apply still_ret|].
  apply still_bind; [calm|intros m].
  apply still_bind; [calm|intros x].
  destruct (decide (ID m = ID x)); [|apply IH].
  repeat still_step.
Qed.

Lemma still_moveToDeadLetterQueueLocked (q : qref) (msg : loc) :
  still (Queue.moveToDeadLetterQueueLocked q msg).
Proof.
  unfold Queue.moveToDeadLetterQueueLocked.
  apply still_bind; [calm|intros Q].
  destruct (deadLetterQueue Q).
  - apply still_bind; [apply still_Clone|intros dlqMsg].
    apply still_bind; [apply still_SetMetadata|intros _].
    apply still_bind; [apply still_SetMetadata|intros _].
    apply still_bind; [calm|intros _].
    apply still_bind; [calm|intros _].
    apply still_bind; [calm|intros Q'].
    apply still_bind; [apply still_remove_loop|intros _].
    apply still_bind; [apply still_updateQ; intros ?; reflexivity|intros _].
    apply still_bind; [calm|intros _]. apply still_ret.
  - apply still_bind; [apply still_updateQ; intros ?; reflexivity|intros _].
    apply still_bind; [calm|intros Q'].
    apply still_bind; [apply still_remove_loop|intros _]. apply still_ret.
Qed.

Lemma still_Nack_loop (q : qref) (h : string) (msgs : list loc) :
  still (Queue.Nack_loop q h msgs).
Proof.
  induction msgs as [|msg rest IH]; simpl; [apply still_ret|].
  apply still_bind; [calm|intros m].
  destruct (decide (ReceiptHandle m = h)); [|apply IH].
  apply still_bind; [calm|intros Q].
  destruct (maxRetries Q <=? RetryCount m);
    [apply still_moveToDeadLetterQueueLocked|].
  apply still_bind; [calm|intros _].
  apply still_bind; [calm|intros _]. apply still_ret.
Qed.

Lemma still_Nack (q : qref) (ctx : Context) (h : string) : still (Queue.Nack q ctx h).
Proof.
  unfold Queue.Nack. apply still_bind; [calm|intros Q]. apply still_Nack_loop.
Qed.

Lemma still_Stats (q : qref) : still (Queue.Stats q).
Proof.
  unfold Queue.Stats.
  apply still_bind; [apply still_updateQ; intros ?; reflexivity|intros _].
  apply still_bind; [calm|intros Q]. apply still_ret.
Qed.

Lemma still_Publish_loop (t : tref) (ctx : Context) (msg : loc) (subs : list qref) :
  still (Topic.Publish_loop t ctx msg subs).
Proof.
  induction subs as [|queue rest IH]; simpl; [apply still_ret|].
  apply still_bind; [apply still_Clone|intros clone].
  apply still_bind; [calm|intros T].
  apply still_bind; [apply still_SetMetadata|intros _].
  apply still_bind; [calm|intros d].
  apply still_bind; [apply still_SetMetadata|intros _].
  apply still_bind; [apply still_Enqueue|intros _]. exact IH.
Qed.

Lemma still_Publish (t : tref) (ctx : Context) (msg : loc) : still (Topic.Publish t ctx msg).
Proof.
  unfold Topic.Publish.
  apply still_bind; [calm|intros T].
  apply still_bind; [calm|intros m].
  apply still_bind.
  { destruct (Time_IsZero (Timestamp m)); [|apply still_ret].
    apply still_bind; [calm|intros now]. calm. }
  intros _. apply still_bind; [apply still_Publish_loop|intros _]. apply still_ret.
Qed.

Lemma still_Subscribe (b : bref) (topicName queueName : string) :
  still (Broker.Subscribe b topicName queueName).
Proof.
  unfold Broker.Subscribe.
  apply still_bind; [calm|intros B].
  destruct (topics B !! topicName); [|apply still_ret].
  destruct (queues B !! queueName); [|apply still_ret].
  apply still_bind; [|intros _; apply still_ret].
  unfold Topic.addSubscriber. apply still_updateT. intros T. reflexivity.
Qed.

Lemma still_Broker_Publish (b : bref) (ctx : Context) (topicName : string) (msg : loc) :
  still (Broker.Publish b ctx topicName msg).
Proof.
  unfold Broker.Publish.
  apply still_bind; [calm|intros B].
  destruct (topics B !! topicName); [apply still_Publish|apply still_ret].
Qed.

Lemma still_Stats_loop (entries : list (string * qref)) (stats : BrokerStats) :
  still (Broker.Stats_loop entries stats).
Proof.
  revert stats. induction entries as [|[name queue] rest IH]; intros stats; simpl.
  - apply still_ret.
  - apply still_bind; [apply still_Stats|intros s]. apply IH.
Qed.

Lemma still_Broker_Stats (b : bref) : still (Broker.Stats b).
Proof.
  unfold Broker.Stats. apply still_bind; [calm|intros B]. apply still_Stats_loop.
Qed.

Lemma still_schedule (i : nat) : still (schedule i).
Proof.
  unfold schedule. apply still_bind; [calm|intros w0].
  destruct (goroutines w0 !! i) as [[q dlqMsg]|]; [|apply still_ret].
  apply still_bind; [calm|intros _].
  unfold run_goroutine, context_WithTimeout.
  apply still_bind.
  { apply still_bind; [calm|intros now]. apply still_ret. }
  intros ctx. apply still_bind; [calm|intros Q].
  destruct (deadLetterQueue Q); [|apply still_ret].
  apply still_bind; [apply still_Enqueue|intros _]. apply still_ret.
Qed.

Lemma still_apply_settings (queue : qref) (opts : list QueueSetting) :
  still (apply_opts queue (as_option <$> opts)).
Proof.
  induction opts as [|o rest IH]; simpl; [apply still_ret|].
  apply still_bind; [|intros _; exact IH].
  destruct o; apply still_updateQ; intros Q; reflexivity.
Qed.

Lemma growing_CreateTopic (b : bref) (topic : string) : growing (Broker.CreateTopic b topic).
Proof.
  intros w. destruct (topics (heapB w b) !! topic) as [t|] eqn:E.
  { unfold exec. rewrite (CreateTopic_existing w b topic t E). apply grows_refl. }
  unfold exec, Broker.CreateTopic, new_Topic. step. rewrite E. simpl.
  unfold grows. simpl. split_and!.
  - lia.
  - lia.
  - done.
  - intros t Ht. heap. done.
  - intros b' n q Hq. destruct (decide (b' = b)) as [->|Hb]; heap; done.
  - intros b' n t Ht.
    destruct (decide (b' = b)) as [->|Hb]; heap; [|done]. simpl.
    assert (n <> topic) by (intros ->; congruence).
    by rewrite lookup_insert_ne.
  - intros b' n q. destruct (decide (b' = b)) as [->|Hb]; heap; [|by left].
    simpl. by left.
  - intros b' n t. destruct (decide (b' = b)) as [->|Hb]; heap; [|by left]. simpl.
    destruct (decide (n = topic)) as [->|Hn].
    + rewrite lookup_insert_eq. intros [= <-]. right. heap. split; [lia|done].
    + rewrite lookup_insert_ne by done. by left.
Qed.

Lemma growing_CreateQueue (b : bref) (queue : string) (opts : list QueueSetting) :
  growing (Broker.CreateQueue b queue (as_option <$> opts)).
Proof.
  intros w. destruct (queues (heapB w b) !! queue) as [q|] eqn:E.
  { unfold exec. rewrite (CreateQueue_existing w b queue _ q E). apply grows_refl. }
  unfold exec, Broker.CreateQueue, new_Queue. step. rewrite E.
  match goal with |- context [apply_opts ?a _ ?w1] =>
    pose proof (still_apply_settings a opts w1) as H; unfold exec in H;
    destruct (apply_opts a (as_option <$> opts) w1) as [[] w2] end.
  simpl in *. destruct H as (HB & HQ & HT & Hn & Ht).
  unfold grows. simpl. rewrite HB, HQ, HT. split_and!.
  - lia.
  - lia.
  - intros q Hq. rewrite Hn. heap. done.
  - intros t Hlt. by rewrite Ht.
  - intros b' n q Hq.
    destruct (decide (b' = b)) as [->|Hb]; heap; [|done]. simpl.
    assert (n <> queue) by (intros ->; congruence).
    by rewrite lookup_insert_ne.
  - intros b' n t. destruct (decide (b' = b)) as [->|Hb]; heap; done.
  - intros b' n q. destruct (decide (b' = b)) as [->|Hb]; heap; [|by left]. simpl.
    destruct (decide (n = queue)) as [->|Hne].
    + rewrite lookup_insert_eq. intros [= <-]. right. rewrite Hn. heap. split; [lia|done].
    + rewrite lookup_insert_ne by done. by left.
  - intros b' n t. destruct (decide (b' = b)) as [->|Hb]; heap; by left.
Qed.

Lemma growing_run_call (c : Call) : growing (run_call c).
Proof.
  destruct c; simpl.
  - apply growing_bind; [apply growing_CreateTopic|intros _; apply still_growing, still_ret].
  - apply growing_bind; [apply growing_CreateQueue|intros _; apply still_growing, still_ret].
  - apply still_growing, still_bind; [apply still_Subscribe|intros _; apply still_ret].
  - apply still_growing, still_bind; [apply still_Broker_Publish|intros _; apply still_ret].
  - apply still_growing, still_bind; [apply still_Broker_Stats|intros _; apply still_ret].
  - apply still_growing, still_bind; [apply still_Publish|intros _; apply still_ret].
  - apply still_growing, still_bind; [apply still_Enqueue|intros _; apply still_ret].
  - apply still_growing, still_bind; [apply still_Receive|intros _; apply still_ret].
  - apply still_growing, still_bind; [apply still_Acknowledge|intros _; apply still_ret].
  - apply still_growing, still_bind; [apply still_Nack|intros _; apply still_ret].
  - apply still_growing, still_bind; [apply still_Stats|intros _; apply still_ret].
  - apply still_growing, still_bind; [calm|intros _; apply still_ret].
  - apply still_growing, still_update.
  - apply still_growing, still_schedule.
Qed.

Lemma growing_run_calls (cs : list Call) : growing (run_calls cs).
Proof.
  induction cs as [|c rest IH]; simpl; [apply still_growing, still_ret|].
  apply growing_bind; [apply growing_run_call|intros _; exact IH].
Qed.

(** X27. Names are bound for good.  Starting from registries that name
    allocated queues and topics under the names they carry (those of new
    brokers do), after any history of calls: what [GetQueue] and [GetTopic]
    found before they still find; whatever they find is allocated and
    answers [Name()] with the name it is registered under; no queue is
    registered under two names; and a queue never changes its name. *)
Theorem names_are_bound_for_good (cs : list Call) (w : World) :
  registry_ok w ->
  let w' := exec (run_calls cs) w in
  (forall b n q, eval (Broker.GetQueue b n) w = Some q ->
     eval (Broker.GetQueue b n) w' = Some q) /\
  (forall b n t, eval (Broker.GetTopic b n) w = Some t ->
     eval (Broker.GetTopic b n) w' = Some t) /\
  (forall b n q, eval (Broker.GetQueue b n) w' = Some q ->
     (q < nextQ w')%nat /\ eval (Queue.Name q) w' = n) /\
  (forall b n t, eval (Broker.GetTopic b n) w' = Some t ->
     (t < nextT w')%nat /\ eval (Topic.Name t) w' = n) /\
  (forall b b' n n' q, eval (Broker.GetQueue b n) w' = Some q ->
     eval (Broker.GetQueue b' n') w' = Some q -> n = n') /\
  (forall q, (q < nextQ w)%nat -> eval (Queue.Name q) w' = eval (Queue.Name q) w).
Proof.
  intros Hok w'.
  pose proof (growing_run_calls cs w) as Hg. fold w' in Hg.
  pose proof (grows_registry_ok w w' Hok Hg) as [HQ HT].
  destruct Hg as (_ & _ & G3 & _ & G5 & G6 & _ & _).
  assert (HGQ : forall b other w0, eval (Broker.GetQueue b other) w0 = queues (heapB w0 b) !! other)
    by (intros; unfold eval, Broker.GetQueue; by step).
  assert (HGT : forall b other w0, eval (Broker.GetTopic b other) w0 = topics (heapB w0 b) !! other)
    by (intros; unfold eval, Broker.GetTopic; by step).
  assert (HNQ : forall q w0, eval (Queue.Name q) w0 = name (heapQ w0 q))
    by (intros; unfold eval, Queue.Name; by step).
  assert (HNT : forall t w0, eval (Topic.Name t) w0 = topic_name (heapT w0 t))
    by (intros; unfold eval, Topic.Name; by step).
  split_and!.
  - intros b n q. rewrite !HGQ. apply G5.
  - intros b n t. rewrite !HGT. apply G6.
  - intros b n q. rewrite HGQ, HNQ. apply HQ.
  - intros b n t. rewrite HGT, HNT. apply HT.
  - intros b b' n n' q. rewrite !HGQ. intros H1 H2.
    destruct (HQ b n q H1) as [_ <-]. by destruct (HQ b' n' q H2) as [_ <-].
  - intros q Hq. rewrite !HNQ. by apply G3.
Qed.

(** ** One message in two queues *)

(** X28. [Enqueue] stores the pointer, so a message enqueued into two queues
    is one message.  When [Receive] on the first queue leases it, the lease
    (with the visibility timeout of the first queue) hides it from the second
    queue until a reading of the clock makes it visible again; and the receipt handle
    issued by the first queue acknowledges the message in the second queue
    too: that [Acknowledge] succeeds and removes one message there, the first
    queue is unchanged, and a further [Acknowledge] with the same handle on
    the first queue succeeds as well. *)
Theorem a_shared_message_is_leased_in_every_queue (w : World) (q1 q2 : qref)
    (ctx ctx1 ctx2 : Context) (p : loc) :
  q1 <> q2 ->
  eval (Queue.Receive q1 ctx) w = (Some p, None) ->
  p ∈ messages (heapQ w q2) ->
  let w1 := exec (Queue.Receive q1 ctx) w in
  let h := ReceiptHandle (heapM w1 p) in
  h = uuids w (drawn w) /\
  VisibleAt (heapM w1 p) = Time_Add (clock w (tick w)) (visibilityTimeout (heapQ w q1)) /\
  (forall ctx', fst (eval (Queue.Receive q2 ctx') w1) = Some p ->
     exists t, read_between w1 (exec (Queue.Receive q2 ctx') w1) t /\
               Message.visible_at t (heapM w1 p) = true) /\
  eval (Queue.Acknowledge q2 ctx2 h) w1 = None /\
  let w2 := exec (Queue.Acknowledge q2 ctx2 h) w1 in
  S (length (messages (heapQ w2 q2))) = length (messages (heapQ w q2)) /\
  messages (heapQ w2 q1) = messages (heapQ w q1) /\
  eval (Queue.Acknowledge q1 ctx1 h) w2 = None.
Proof.
  intros Hne Hrecv Hin w1 h.
  pose proof (Receive_scan w q1 ctx) as H. cbv zeta in H. rewrite Hrecv in H.
  fold w1 in H. destruct H as (_ & i & Hi & _ & _ & Hp & Hothers & HQ).
  assert (Hh : h = uuids w (drawn w)) by (subst h; rewrite Hp; reflexivity).
  split; [exact Hh|]. split; [rewrite Hp; reflexivity|]. split.
  { intros ctx' Hr. pose proof (Receive_scan w1 q2 ctx') as H. cbv zeta in H.
    destruct (eval (Queue.Receive q2 ctx') w1) as [[p'|] err]; [|done].
    cbn [fst] in Hr. injection Hr as ->. by destruct H as (_ & _ & _ & _ & Hv & _). }
  assert (Hin1 : p ∈ messages (heapQ w1 q2)) by (by rewrite HQ).
  pose proof (Acknowledge_spec q2 ctx2 h w1) as HA. cbv zeta in HA.
  destruct (located w1 q2 h) as [[j p']|] eqn:E.
  2: { exfalso. by apply (proj1 (located_None w1 q2 h) E p Hin1). }
  destruct HA as (Hr & Hq2 & Hq' & Hreset). split; [exact Hr|]. cbv zeta.
  set (w2 := exec (Queue.Acknowledge q2 ctx2 h) w1) in *.
  apply located_Some_holds in E as (Hj & _ & _).
  split_and!.
  - rewrite Hq2. unfold acknowledged. cbn [messages set_messages remove_at incr_TotalProcessed
                                           sync_CurrentSize set_stats].
    rewrite <- HQ. rewrite <- delete_take_drop.
    pose proof (length_delete (messages (heapQ w1 q2)) j (lookup_lt_is_Some_2 _ _
                  (lookup_lt_Some _ _ _ Hj))) as Hlen.
    pose proof (lookup_lt_Some _ _ _ Hj). lia.
  - rewrite Hq' by done. by rewrite HQ.
  - assert (HM : heapM w2 = heapM w1).
    { apply (f_equal heapM) in Hreset. exact Hreset. }
    pose proof (Acknowledge_spec q1 ctx1 h w2) as HA1. cbv zeta in HA1.
    destruct (located w2 q1 h) as [[j1 p1]|] eqn:E1; [by destruct HA1|].
    exfalso. apply (proj1 (located_None w2 q1 h) E1 p).
    + rewrite Hq' by done. rewrite HQ. by eapply list_elem_of_lookup_2.
    + by rewrite HM.
Qed.

(** ** A worker is started once *)






(** ** Metadata *)




(** * The scenarios, run *)

(** ** The uuid source of the scenarios *)

Lemma tally_inj (i j : nat) : tally i = tally j -> i = j.
Proof.
  revert j. induction i as [|i IH]; intros [|j]; simpl; intros E.
  - reflexivity.
  - discriminate E.
  - discriminate E.
  - f_equal. apply IH. by injection E.
Qed.

Lemma unary_uuid_inj (i j : nat) : unary_uuid i = unary_uuid j -> i = j.
Proof. unfold unary_uuid. simpl. intros E. apply tally_inj. by injection E. Qed.

Lemma unary_uuid_nonempty (k : nat) : unary_uuid k <> "".
Proof. unfold unary_uuid. simpl. intros E. discriminate E. Qed.

(** ** Cloning a leased message *)

(** The copy in "work" is leased under handle "u11"; its clone holds no
    handle, and the leased message is as it was. *)
Lemma Clone_resets_lease_witness :
  allocated world_leased 1%nat /\
  ReceiptHandle (heapM world_leased 1%nat) = "u11" /\
  ReceiptHandle (heapM (exec (Message.Clone 1%nat) world_leased)
                   (eval (Message.Clone 1%nat) world_leased)) = "" /\
  heapM (exec (Message.Clone 1%nat) world_leased) 1%nat = heapM world_leased 1%nat.
Proof.
  assert (H : allocated world_leased 1%nat) by (vm_compute; lia).
  split; [exact H|]. split; [vm_compute; reflexivity|].
  destruct (Clone_resets_lease world_leased 1%nat H) as (_ & Hh & _ & _ & _ & _ & Hm & _).
  split; [exact Hh | exact Hm].
Defined.

(** ** Receive: an invisible head does not block *)

Lemma world_two_pending_Receive :
  eval (Queue.Receive 1%nat Background) world_two_pending = (Some 3%nat, None).
Proof. vm_compute. reflexivity. Qed.

Lemma world_two_pending_messages :
  messages (heapQ world_two_pending 1%nat) = [1%nat; 3%nat].
Proof. vm_compute. reflexivity. Qed.

Lemma world_two_pending_uuids :
  uuids world_two_pending = unary_uuid /\ drawn world_two_pending = 5%nat /\
  ReceiptHandle (heapM world_two_pending 1%nat) = unary_uuid 2.
Proof. vm_compute. done. Qed.

(** "work" holds message 1, leased under "u11", and message 3, pending:
    [Receive] sees message 1 invisible and leases message 3, whose
    [RetryCount] goes from 0 to 1 and whose handle is the sixth uuid,
    "u11111": it is not the handle of message 1, and the uuid source has
    moved on by one. *)
Lemma Receive_leases_first_visible_witness :
  let w' := exec (Queue.Receive 1%nat Background) world_two_pending in
  messages (heapQ world_two_pending 1%nat) = [1%nat; 3%nat] /\
  eval (Queue.Receive 1%nat Background) world_two_pending = (Some 3%nat, None) /\
  seen_invisible world_two_pending w' 1%nat /\
  RetryCount (heapM w' 3%nat) = RetryCount (heapM world_two_pending 3%nat) + 1 /\
  ReceiptHandle (heapM world_two_pending 1%nat) = "u11" /\
  ReceiptHandle (heapM w' 3%nat) = "u11111" /\
  ReceiptHandle (heapM world_two_pending 1%nat) <> ReceiptHandle (heapM w' 3%nat) /\
  drawn w' = S (drawn world_two_pending) /\
  uuids w' (drawn w') <> ReceiptHandle (heapM w' 3%nat).
Proof.
  cbv zeta.
  split; [exact world_two_pending_messages|].
  split; [exact world_two_pending_Receive|].
  pose proof (Receive_leases_first_visible world_two_pending 1%nat Background) as H.
  cbv zeta in H. rewrite world_two_pending_Receive in H.
  destruct H as (_ & i & Hi & Hbefore & _ & _ & _ & Hh & Hd & _ & Hfresh & _ & Hrc & _).
  destruct world_two_pending_uuids as (Hu & Hn & Hh1).
  rewrite world_two_pending_messages in Hi.
  assert (i = 1%nat) as ->.
  { destruct i as [|[|i]]; simpl in Hi; [discriminate Hi|reflexivity|discriminate Hi]. }
  assert (Hdistinct : uuids_distinct world_two_pending).
  { split; rewrite Hu; [exact unary_uuid_nonempty | exact unary_uuid_inj]. }
  destruct (Hfresh Hdistinct) as [Hold Hlater].
  split.
  { apply (Hbefore 0%nat 1%nat); [lia|]. rewrite world_two_pending_messages; reflexivity. }
  split.
  { apply Hrc. clear.
    assert (E0 : RetryCount (heapM world_two_pending 3%nat) = 0) by (vm_compute; reflexivity).
    rewrite E0. unfold min_int64, max_int64. lia. }
  split; [rewrite Hh1; reflexivity|].
  split; [rewrite Hh, Hu, Hn; reflexivity|].
  split.
  { apply Hold. right. exists 2%nat. rewrite Hn, Hu. split; [lia|exact Hh1]. }
  split; [exact Hd|].
  apply Hlater. apply Nat.le_refl.
Defined.

(** ** Nack *)

(** C2: the code at its failing input.  Messages 0 and 1 carry the same ID
    and are both leased; message 1 holds handle "u1" and has used up its
    retries ([RetryCount] 1, [maxRetries] 1).  [Nack("u1")] locates message 1
    and returns nil, but [moveToDeadLetterQueueLocked] scans the queue again
    by ID, so the slot it cuts out is that of message 0: message 1 is still
    in the queue, still holding "u1", whereas [Acknowledge] removes the slot
    it has located. *)
Lemma Nack_removes_other_message_with_same_ID :
  messages (heapQ world_same_id 0%nat) = [0%nat; 1%nat] /\
  ReceiptHandle (heapM world_same_id 1%nat) = "u1" /\
  RetryCount (heapM world_same_id 1%nat) = 1 /\
  maxRetries (heapQ world_same_id 0%nat) = 1 /\
  eval (Queue.Nack 0%nat Background "u1") world_same_id = None /\
  messages (heapQ (exec (Queue.Nack 0%nat Background "u1") world_same_id) 0%nat)
    = [1%nat] /\
  ReceiptHandle (heapM (exec (Queue.Nack 0%nat Background "u1") world_same_id) 1%nat)
    = "u1".
Proof. vm_compute. repeat split; reflexivity. Qed.

Lemma world_exhausted_facts :
  located world_exhausted 1%nat "u111" = Some (0%nat, 1%nat) /\
  RetryCount (heapM world_exhausted 1%nat) = 2 /\
  maxRetries (heapQ world_exhausted 1%nat) = 2 /\
  messages (heapQ world_exhausted 1%nat) = [1%nat] /\
  nextM world_exhausted = 2%nat /\
  deadLetterQueue (heapQ world_exhausted 1%nat) = Some 0%nat /\
  uuids world_exhausted (drawn world_exhausted) = "u1111".
Proof. vm_compute. repeat split; reflexivity. Qed.

(** The copy in "work" was leased twice and holds "u111": [Nack("u111")]
    empties the queue, and the goroutine it starts deposits a clone marked
    [max_retries_exceeded]. *)
Lemma Nack_retries_or_dead_letters_witness :
  located world_exhausted 1%nat "u111" = Some (0%nat, 1%nat) /\
  maxRetries (heapQ world_exhausted 1%nat) <= RetryCount (heapM world_exhausted 1%nat) /\
  Forall (allocated world_exhausted) (messages (heapQ world_exhausted 1%nat)) /\
  uuids world_exhausted (drawn world_exhausted) <> "" /\
  eval (Queue.Nack 1%nat Background "u111") world_exhausted = None /\
  messages (heapQ (exec (Queue.Nack 1%nat Background "u111") world_exhausted) 1%nat)
    = delete 0%nat (messages (heapQ world_exhausted 1%nat)) /\
  Message.metadata_of "failure_reason"
    (heapM (exec (run_goroutine (DLQDeposit 1%nat (nextM world_exhausted)))
              (exec (Queue.Nack 1%nat Background "u111") world_exhausted))
       (nextM world_exhausted))
    = "max_retries_exceeded".
Proof.
  destruct world_exhausted_facts as (Hloc & Hrc & Hmax & Hmsgs & Hnext & Hdlq & Huuid).
  assert (H1 : maxRetries (heapQ world_exhausted 1%nat)
               <= RetryCount (heapM world_exhausted 1%nat))
    by (rewrite Hrc, Hmax; lia).
  assert (H2 : Forall (allocated world_exhausted) (messages (heapQ world_exhausted 1%nat))).
  { rewrite Hmsgs. constructor; [|constructor].
    unfold allocated. rewrite Hnext. lia. }
  assert (H3 : uuids world_exhausted (drawn world_exhausted) <> "")
    by (rewrite Huuid; intros E; discriminate E).
  assert (H4 : forall (j : nat) (p' : loc), (j < 0)%nat ->
            messages (heapQ world_exhausted 1%nat) !! j = Some p' ->
            ID (heapM world_exhausted p') <> ID (heapM world_exhausted 1%nat))
    by (intros j p' Hj; lia).
  split; [exact Hloc|]. split; [exact H1|]. split; [exact H2|]. split; [exact H3|].
  destruct (Nack_retries_or_dead_letters world_exhausted 1%nat Background "u111")
    as [_ H].
  destruct (H 0%nat 1%nat Hloc) as (Hnil & _ & Hdead).
  split; [exact Hnil|].
  destruct (Hdead H1 H2 H4) as (Hdel & _ & _ & _ & Hcase).
  split; [exact Hdel|].
  rewrite Hdlq in Hcase. destruct Hcase as [_ Hrun].
  destruct (Hrun H3) as (_ & _ & _ & Hreason & _).
  exact Hreason.
Defined.

(** The scenario of the specification, to its end: the queue is empty, one
    failure is counted, no goroutine is pending, and "dead" holds the clone
    (message 2), with a fresh ID and no retries. *)
Lemma retry_scenario :
  RetryCount (heapM world_exhausted 1%nat) = 2 /\
  messages (heapQ world_dead_lettered 1%nat) = [] /\
  TotalFailed (stats (heapQ world_dead_lettered 1%nat)) = 1 /\
  goroutines world_dead_lettered = [] /\
  messages (heapQ world_dead_lettered 0%nat) = [2%nat] /\
  ID (heapM world_dead_lettered 2%nat) = "u1111" /\
  RetryCount (heapM world_dead_lettered 2%nat) = 0 /\
  Message.metadata_of "failure_reason" (heapM world_dead_lettered 2%nat)
    = "max_retries_exceeded" /\
  Message.metadata_of "original_queue" (heapM world_dead_lettered 2%nat) = "work".
Proof. vm_compute. repeat split; reflexivity. Qed.

(** ** Acknowledge *)

(** C3, as stated, fails here.  The same message object was enqueued twice,
    so it occupies slots 0 and 1; [Receive] leases it under handle "u".  The
    first [Acknowledge("u")] cuts slot 0 and succeeds; the second one finds
    the same object, still holding "u", in the remaining slot and succeeds
    too. *)
Lemma Acknowledge_twice_succeeds_on_shared_message :
  messages (heapQ world_shared 0%nat) = [0%nat; 0%nat] /\
  eval (Queue.Receive 0%nat Background) world_shared = (Some 0%nat, None) /\
  ReceiptHandle (heapM world_shared_leased 0%nat) = "u" /\
  eval (Queue.Acknowledge 0%nat Background "u") world_shared_leased = None /\
  eval (Queue.Acknowledge 0%nat Background "u")
       (exec (Queue.Acknowledge 0%nat Background "u") world_shared_leased) = None.
Proof. vm_compute. repeat split; reflexivity. Qed.

Lemma world_published_facts :
  eval (Queue.Receive 1%nat Background) world_published = (Some 1%nat, None) /\
  messages (heapQ world_published 1%nat) = [1%nat] /\
  ReceiptHandle (heapM world_leased 1%nat) = "u11".
Proof. vm_compute. repeat split; reflexivity. Qed.

(** The copy in "work" occupies one slot: acknowledged twice under the handle
    of its lease, "u11", it is removed the first time and the second call
    fails. *)
Lemma Acknowledge_by_handle_witness :
  eval (Queue.Receive 1%nat Background) world_published = (Some 1%nat, None) /\
  (forall j j', messages (heapQ world_published 1%nat) !! j = Some 1%nat ->
                messages (heapQ world_published 1%nat) !! j' = Some 1%nat -> j = j') /\
  eval (Queue.Acknowledge 1%nat Background "u11") world_leased = None /\
  eval (Queue.Acknowledge 1%nat Background "u11")
       (exec (Queue.Acknowledge 1%nat Background "u11") world_leased)
    = Some ErrInvalidReceiptHandle.
Proof.
  destruct world_published_facts as (Hrecv & Hmsgs & Hh).
  assert (Hnd : forall j j', messages (heapQ world_published 1%nat) !! j = Some 1%nat ->
            messages (heapQ world_published 1%nat) !! j' = Some 1%nat -> j = j').
  { rewrite Hmsgs. intros [|j] [|j'] Hj Hj'; simpl in Hj, Hj';
      [reflexivity|discriminate Hj'|discriminate Hj|discriminate Hj]. }
  assert (Hfresh : forall p', p' ∈ messages (heapQ world_published 1%nat) -> p' <> 1%nat ->
            ReceiptHandle (heapM world_published p')
              <> uuids world_published (drawn world_published)).
  { rewrite Hmsgs. intros p' Hp' Hne. apply list_elem_of_singleton in Hp'. contradiction. }
  split; [exact Hrecv|]. split; [exact Hnd|].
  destruct (Acknowledge_by_handle world_published 1%nat Background "")
    as (_ & _ & _ & _ & Htwice).
  pose proof (Htwice Background Background Background 1%nat Hrecv Hnd Hfresh) as H.
  cbv zeta in H. fold world_leased in H. rewrite Hh in H. exact H.
Defined.

(** ** Publish *)

Lemma world_two_subscribers_facts :
  nextM world_two_subscribers = 1%nat /\
  uuids world_two_subscribers = unary_uuid /\
  clock world_two_subscribers = ticking_clock /\
  topics (heapB world_two_subscribers 0%nat) !! "orders" = Some 0%nat /\
  subscribers (heapT world_two_subscribers 0%nat) = [0%nat; 1%nat] /\
  messages (heapQ world_two_subscribers 0%nat) = [] /\
  messages (heapQ world_two_subscribers 1%nat) = [].
Proof. vm_compute. repeat split; reflexivity. Qed.

(** Two subscribers, two clones, with different IDs. *)
Lemma Publish_fans_out_witness :
  allocated world_two_subscribers 0%nat /\
  (forall k, uuids world_two_subscribers k <> "") /\
  (forall i j, uuids world_two_subscribers i = uuids world_two_subscribers j -> i = j) /\
  eval (Topic.Publish 0%nat Background 0%nat) world_two_subscribers = None /\
  nextM (exec (Topic.Publish 0%nat Background 0%nat) world_two_subscribers)
    = (nextM world_two_subscribers + length (subscribers (heapT world_two_subscribers 0%nat)))%nat /\
  ID (heapM (exec (Topic.Publish 0%nat Background 0%nat) world_two_subscribers) 1%nat)
    <> ID (heapM (exec (Topic.Publish 0%nat Background 0%nat) world_two_subscribers) 2%nat).
Proof.
  destruct world_two_subscribers_facts as (Hnext & Huuids & _ & _ & Hsubs & _).
  assert (H1 : allocated world_two_subscribers 0%nat)
    by (unfold allocated; rewrite Hnext; lia).
  assert (H2 : forall k, uuids world_two_subscribers k <> "")
    by (rewrite Huuids; exact unary_uuid_nonempty).
  assert (H3 : forall i j,
            uuids world_two_subscribers i = uuids world_two_subscribers j -> i = j)
    by (rewrite Huuids; exact unary_uuid_inj).
  split; [exact H1|]. split; [exact H2|]. split; [exact H3|].
  destruct (Publish_fans_out world_two_subscribers 0%nat Background 0%nat H1 H2 H3)
    as (Hnil & Hn & _ & _ & Hdistinct & _).
  split; [exact Hnil|]. split; [exact Hn|].
  rewrite Hsubs in Hdistinct.
  destruct (Hdistinct 0%nat 1%nat) as (_ & Hid & _); [simpl; lia|simpl; lia|lia|].
  rewrite Hnext in Hid. exact Hid.
Defined.

(** C8, as stated, fails here.  The deadline of the context (the zero time)
    lies before every reading of the clock, so it is exceeded before the
    fan-out reaches any subscriber; still "billing" and "shipping" both get
    their copy. *)
Lemma Publish_past_deadline_delivers :
  (forall k, deadline_exceeded expired (clock world_two_subscribers k)) /\
  subscribers (heapT world_two_subscribers 0%nat) = [0%nat; 1%nat] /\
  eval (Broker.Publish 0%nat expired "orders" 0%nat) world_two_subscribers = None /\
  messages (heapQ (exec (Broker.Publish 0%nat expired "orders" 0%nat)
                     world_two_subscribers) 0%nat) = [1%nat] /\
  messages (heapQ (exec (Broker.Publish 0%nat expired "orders" 0%nat)
                     world_two_subscribers) 1%nat) = [2%nat].
Proof.
  split.
  - destruct world_two_subscribers_facts as (_ & _ & -> & _).
    intros k. unfold deadline_exceeded, expired, ticking_clock. simpl. lia.
  - vm_compute. repeat split; reflexivity.
Qed.

(** The call with the expired context is the call with the background
    context; the second subscriber gets its copy. *)
Lemma Publish_ignores_deadline_witness :
  allocated world_two_subscribers 0%nat /\
  (forall k, uuids world_two_subscribers k <> "") /\
  topics (heapB world_two_subscribers 0%nat) !! "orders" = Some 0%nat /\
  Broker.Publish 0%nat expired "orders" 0%nat world_two_subscribers
    = Broker.Publish 0%nat Background "orders" 0%nat world_two_subscribers /\
  (nextM world_two_subscribers + 1)%nat
    ∈ messages (heapQ (exec (Broker.Publish 0%nat expired "orders" 0%nat)
                         world_two_subscribers) 1%nat).
Proof.
  destruct world_two_subscribers_facts as (Hnext & Huuids & _ & Htopic & Hsubs & _).
  assert (H1 : allocated world_two_subscribers 0%nat)
    by (unfold allocated; rewrite Hnext; lia).
  assert (H2 : forall k, uuids world_two_subscribers k <> "")
    by (rewrite Huuids; exact unary_uuid_nonempty).
  split; [exact H1|]. split; [exact H2|]. split; [exact Htopic|].
  destruct (Publish_ignores_deadline world_two_subscribers 0%nat expired "orders"
              0%nat 0%nat H1 H2 Htopic) as (Hsame & _ & _ & Hin).
  split; [exact Hsame|].
  apply (Hin 1%nat 1%nat). rewrite Hsubs. reflexivity.
Defined.

(** ** Enqueue *)

(** C9, as stated, fails here.  The queue has [maxRetries] 3; the message
    handed to [Enqueue] has [RetryCount] 5 and is appended as it is. *)
Lemma Enqueue_accepts_exhausted_message :
  messages (heapQ (exec (Queue.Enqueue 0%nat Background 0%nat) world_retried) 0%nat)
    = [0%nat] /\
  RetryCount (heapM (exec (Queue.Enqueue 0%nat Background 0%nat) world_retried) 0%nat)
    = 5 /\
  maxRetries (heapQ (exec (Queue.Enqueue 0%nat Background 0%nat) world_retried) 0%nat)
    = 3 /\
  ~ RetryCount (heapM (exec (Queue.Enqueue 0%nat Background 0%nat) world_retried) 0%nat)
    <= maxRetries (heapQ (exec (Queue.Enqueue 0%nat Background 0%nat) world_retried) 0%nat).
Proof. vm_compute. repeat split; try reflexivity. intros H. apply H. reflexivity. Qed.

(** A new order, [RetryCount] 0, into a queue with [maxRetries] 3. *)
Lemma Enqueue_keeps_RetryCount_witness :
  RetryCount (heapM world_fresh_order 0%nat) <= maxRetries (heapQ world_fresh_order 0%nat) /\
  RetryCount (heapM (exec (Queue.Enqueue 0%nat Background 0%nat) world_fresh_order) 0%nat)
    <= maxRetries (heapQ (exec (Queue.Enqueue 0%nat Background 0%nat) world_fresh_order) 0%nat).
Proof.
  assert (H : RetryCount (heapM world_fresh_order 0%nat)
              <= maxRetries (heapQ world_fresh_order 0%nat)).
  { assert (E : RetryCount (heapM world_fresh_order 0%nat) = 0
                /\ maxRetries (heapQ world_fresh_order 0%nat) = 3)
      by (vm_compute; split; reflexivity).
    destruct E as [-> ->]. lia. }
  split; [exact H|].
  destruct (Enqueue_keeps_RetryCount world_fresh_order 0%nat Background 0%nat H)
    as (_ & _ & _ & _ & Hle).
  exact Hle.
Defined.

(** ** The idempotency store and the idempotent worker *)

(** C6, as stated, fails here.  In a store created with a [ttl] of 0 the
    query that follows the mark reads the clock one nanosecond later and
    answers false; in a store created with a [ttl] of -1 ns it answers false
    although the clock has not moved at all. *)
Lemma IsProcessed_right_after_MarkProcessed_is_false :
  ttl (heapS (empty_world 0) 0%nat) = 0 /\
  eval (mark_then_ask 0%nat "order-1") (empty_world 0) = false /\
  ttl (heapS (world_standing_clock (-1)) 0%nat) = -1 /\
  (forall k, clock (world_standing_clock (-1)) k = 1000) /\
  eval (mark_then_ask 0%nat "order-1") (world_standing_clock (-1)) = false.
Proof. split_and!; try reflexivity. Qed.

Lemma world_marked_earlier_facts :
  marked_at world_marked_earlier 0%nat "order-1" 1000 /\
  ttl (heapS world_marked_earlier 0%nat) = 5 /\
  Time_Sub (clock world_marked_earlier (tick world_marked_earlier)) 1000 = 6.
Proof. vm_compute. done. Qed.

(** With a [ttl] of 5 ns and a clock that advances 1 ns per reading, the
    query that follows the mark answers true; once five other orders have
    been marked, 6 ns have passed and the query answers false; before any
    mark it answers false. *)
Lemma IsProcessed_within_ttl_witness :
  eval (mark_then_ask 0%nat "order-1") (empty_world 5) = true /\
  marked_at world_marked_earlier 0%nat "order-1" (clock (empty_world 5) (tick (empty_world 5))) /\
  ttl (heapS world_marked_earlier 0%nat)
    < Time_Sub (clock world_marked_earlier (tick world_marked_earlier))
        (clock (empty_world 5) (tick (empty_world 5))) /\
  eval (InMemoryIdempotencyStore.IsProcessed 0%nat "order-1") world_marked_earlier = false /\
  processed (heapS (empty_world 5) 0%nat) !! "order-1" = None /\
  eval (InMemoryIdempotencyStore.IsProcessed 0%nat "order-1") (empty_world 5) = false.
Proof.
  destruct world_marked_earlier_facts as (Hm & Httl & Hsub).
  assert (H1 : Time_Sub (clock (empty_world 5) (S (tick (empty_world 5))))
                 (clock (empty_world 5) (tick (empty_world 5)))
               <= ttl (heapS (empty_world 5) 0%nat))
    by (vm_compute; intros E; discriminate E).
  assert (H2 : processed (heapS (empty_world 5) 0%nat) !! "order-1" = None)
    by reflexivity.
  assert (H3 : ttl (heapS world_marked_earlier 0%nat)
               < Time_Sub (clock world_marked_earlier (tick world_marked_earlier))
                   (clock (empty_world 5) (tick (empty_world 5)))).
  { change (clock (empty_world 5) (tick (empty_world 5))) with 1000.
    rewrite Httl, Hsub. reflexivity. }
  destruct (IsProcessed_within_ttl (empty_world 5) 0%nat "order-1")
    as (_ & _ & _ & Hlater & Hnow & _ & Hnever).
  split; [exact (proj2 Hnow H1)|]. split; [exact Hm|]. split; [exact H3|].
  split; [exact (proj2 (Hlater world_marked_earlier Hm) H3)|].
  split; [exact H2|exact (Hnever H2)].
Defined.

(** The published copy has not been processed; the inner handler declines
    it, and the wrapped handler returns that error from the world the inner
    handler left. *)
Lemma IdempotentWorker_guards_handler_witness :
  eval (IsProcessed 0%nat (ID (heapM world_published 1%nat))) world_published = false /\
  eval (declining 1%nat) (exec (IsProcessed 0%nat (ID (heapM world_published 1%nat)))
                            world_published)
    = Some (ErrHandler "payment declined") /\
  handler (IdempotentWorker "worker" 1%nat declining 0%nat) 1%nat world_published
    = (Some (ErrHandler "payment declined"),
       exec (declining 1%nat)
            (exec (IsProcessed 0%nat (ID (heapM world_published 1%nat))) world_published)).
Proof.
  assert (H1 : eval (IsProcessed 0%nat (ID (heapM world_published 1%nat))) world_published
               = false) by (vm_compute; reflexivity).
  assert (H2 : eval (declining 1%nat)
                 (exec (IsProcessed 0%nat (ID (heapM world_published 1%nat)))
                    world_published)
               = Some (ErrHandler "payment declined")) by reflexivity.
  split; [exact H1|]. split; [exact H2|].
  destruct (IdempotentWorker_guards_handler "worker" 1%nat 0%nat declining 1%nat
              world_published) as [_ Hrun].
  destruct (Hrun H1) as [Hfail _].
  exact (Hfail _ H2).
Defined.

(** ** More scenarios *)

Lemma queue_books_always_balance_witness :
  (forall q, books_balance (heapQ (empty_world 5) q)) /\
  books_balance (heapQ (exec (run_calls history) (empty_world 5)) 1%nat) /\
  TotalReceived (eval (Queue.Stats 1%nat) (exec (run_calls history) (empty_world 5))) = 1 /\
  TotalFailed (eval (Queue.Stats 1%nat) (exec (run_calls history) (empty_world 5))) = 1 /\
  CurrentSize (eval (Queue.Stats 1%nat) (exec (run_calls history) (empty_world 5))) = 0.
Proof.
  assert (H : forall q, books_balance (heapQ (empty_world 5) q))
    by (intros q; split; reflexivity).
  split; [exact H|].
  split; [exact (proj1 (queue_books_always_balance history (empty_world 5) H 1%nat))|].
  split_and!; vm_compute; reflexivity.
Defined.

Lemma world_two_pending_lease :
  VisibleAt (heapM world_two_pending 1%nat) = 1011 /\
  tick world_two_pending = 3%nat /\
  tick (exec (Queue.Receive 1%nat Background) world_two_pending) = 5%nat /\
  clock world_two_pending = ticking_clock.
Proof. vm_compute. repeat split; reflexivity. Qed.

Lemma Receive_respects_running_lease_witness :
  VisibleAt (heapM world_two_pending 1%nat) <> zero_Time /\
  (forall t, read_between world_two_pending
               (exec (Queue.Receive 1%nat Background) world_two_pending) t ->
             t <= VisibleAt (heapM world_two_pending 1%nat)) /\
  fst (eval (Queue.Receive 1%nat Background) world_two_pending) <> Some 1%nat /\
  heapM (exec (Queue.Receive 1%nat Background) world_two_pending) 1%nat
    = heapM world_two_pending 1%nat.
Proof.
  destruct world_two_pending_lease as (Hv & Ht & Ht' & Hc).
  assert (H1 : VisibleAt (heapM world_two_pending 1%nat) <> zero_Time)
    by (rewrite Hv; discriminate).
  assert (H2 : forall t, read_between world_two_pending
               (exec (Queue.Receive 1%nat Background) world_two_pending) t ->
             t <= VisibleAt (heapM world_two_pending 1%nat)).
  { intros t (k & Hk & <-). rewrite Ht, Ht' in Hk. rewrite Hv, Hc.
    unfold ticking_clock. clear -Hk. lia. }
  split; [exact H1|]. split; [exact H2|].
  exact (Receive_respects_running_lease world_two_pending 1%nat Background 1%nat H1 H2).
Defined.

Lemma heapQ_set_tick (n : nat) (w : World) : heapQ (set_tick n w) = heapQ w.
Proof. reflexivity. Qed.

Lemma heapM_set_tick (n : nat) (w : World) : heapM (set_tick n w) = heapM w.
Proof. reflexivity. Qed.

Lemma world_lease_expired_facts :
  eval (Queue.Receive 1%nat Background) world_lease_expired = (Some 1%nat, None) /\
  uuids world_lease_expired (drawn world_lease_expired) = "u111" /\
  Time_After (clock world_lease_expired (tick world_lease_expired))
             (VisibleAt (heapM world_lease_expired 1%nat)) = true /\
  uuids world_published (drawn world_published) = "u11".
Proof. vm_compute. repeat split; reflexivity. Qed.

Lemma handle_outlives_timeout_until_redelivery_witness :
  eval (Queue.Receive 1%nat Background) world_published = (Some 1%nat, None) /\
  Time_After (clock world_lease_expired (tick world_lease_expired))
             (VisibleAt (heapM world_lease_expired 1%nat)) = true /\
  eval (Queue.Acknowledge 1%nat Background "u11") world_lease_expired = None /\
  eval (Queue.Acknowledge 1%nat Background "u11")
       (exec (Queue.Receive 1%nat Background) world_lease_expired)
    = Some ErrInvalidReceiptHandle.
Proof.
  destruct world_published_facts as (Hrecv & Hmsgs & Hh).
  destruct world_lease_expired_facts as (Hrecv2 & Hnew & Hexp & Hu).
  assert (Hnd : forall j j', messages (heapQ world_published 1%nat) !! j = Some 1%nat ->
            messages (heapQ world_published 1%nat) !! j' = Some 1%nat -> j = j').
  { rewrite Hmsgs. intros [|j] [|j'] Hj Hj'; simpl in Hj, Hj';
      [reflexivity|discriminate Hj'|discriminate Hj|discriminate Hj]. }
  assert (Hfresh : forall p', p' ∈ messages (heapQ world_published 1%nat) -> p' <> 1%nat ->
            ReceiptHandle (heapM world_published p')
              <> uuids world_published (drawn world_published)).
  { rewrite Hmsgs. intros p' Hp' Hne. apply list_elem_of_singleton in Hp'. contradiction. }
  split; [exact Hrecv|]. split; [exact Hexp|].
  destruct (handle_outlives_timeout_until_redelivery world_published 1%nat Background 1%nat
              Hrecv Hnd Hfresh) as (_ & H).
  fold world_leased in H. rewrite Hu in H.
  assert (HQ : heapQ world_lease_expired 1%nat = heapQ world_leased 1%nat)
    by (unfold world_lease_expired; apply (f_equal (fun h => h 1%nat)), heapQ_set_tick).
  assert (HH : forall p', p' ∈ messages (heapQ world_leased 1%nat) ->
            ReceiptHandle (heapM world_lease_expired p')
            = ReceiptHandle (heapM world_leased p'))
    by (intros p' _; unfold world_lease_expired; by rewrite heapM_set_tick).
  destruct (H world_lease_expired HQ HH) as (Hack & Hstale).
  split; [exact (proj1 (Hack Background))|].
  assert (Hne : uuids world_lease_expired (drawn world_lease_expired) <> "u11")
    by (rewrite Hnew; discriminate).
  exact (proj1 (proj2 (Hstale Background Background Hrecv2 Hne))).
Defined.

Lemma empty_handle_matches_unleased_message_witness :
  1%nat ∈ messages (heapQ world_published 1%nat) /\
  ReceiptHandle (heapM world_published 1%nat) = "" /\
  eval (Queue.Acknowledge 1%nat Background "") world_published = None /\
  eval (Queue.Nack 1%nat Background "") world_published = None.
Proof.
  destruct world_published_facts as (_ & Hmsgs & _).
  assert (H1 : 1%nat ∈ messages (heapQ world_published 1%nat))
    by (rewrite Hmsgs; apply list_elem_of_singleton; reflexivity).
  assert (H2 : ReceiptHandle (heapM world_published 1%nat) = "")
    by (vm_compute; reflexivity).
  split; [exact H1|]. split; [exact H2|].
  destruct (empty_handle_matches_unleased_message world_published 1%nat Background 1%nat H1 H2)
    as (i & p0 & _ & _ & _ & Hack & _ & Hnack).
  split; [exact Hack|exact Hnack].
Defined.

Lemma CreateQueue_last_setting_wins_witness :
  queues (heapB (empty_world 5) 0%nat) !! "work" = None /\
  let w' := exec (Broker.CreateQueue 0%nat "work"
                    (as_option <$> [MaxRetries_ 2; MaxRetries_ 7; VisibilityTimeout_ 10]))
                 (empty_world 5) in
  maxRetries (heapQ w' 0%nat) = 7 /\
  visibilityTimeout (heapQ w' 0%nat) = 10 /\
  deadLetterQueue (heapQ w' 0%nat) = None.
Proof.
  assert (H : queues (heapB (empty_world 5) 0%nat) !! "work" = None)
    by (vm_compute; reflexivity).
  split; [exact H|]. cbv zeta.
  destruct (CreateQueue_last_setting_wins (empty_world 5) 0%nat "work"
              [MaxRetries_ 2; MaxRetries_ 7; VisibilityTimeout_ 10] H)
    as (Hq & _ & _ & _ & _ & Hv & Hm & Hd & _).
  rewrite Hq in Hv, Hm, Hd. split_and!; [exact Hm|exact Hv|exact Hd].
Defined.

Lemma world_two_subscribers_queues :
  queues (heapB world_two_subscribers 0%nat) !! "billing" = Some 0%nat.
Proof. vm_compute. reflexivity. Qed.

Lemma subscribing_twice_delivers_twice_witness :
  topics (heapB world_two_subscribers 0%nat) !! "orders" = Some 0%nat /\
  queues (heapB world_two_subscribers 0%nat) !! "billing" = Some 0%nat /\
  let w2 := exec (Broker.Subscribe 0%nat "orders" "billing";;
                  Broker.Subscribe 0%nat "orders" "billing") world_two_subscribers in
  let w3 := exec (Broker.Publish 0%nat Background "orders" 0%nat) w2 in
  subscribers (heapT w2 0%nat) = [0%nat; 1%nat; 0%nat; 0%nat] /\
  messages (heapQ w3 0%nat) = [1%nat; 3%nat; 4%nat] /\
  ID (heapM w3 3%nat) <> ID (heapM w3 4%nat).
Proof.
  destruct world_two_subscribers_facts as (Hnext & Huuids & _ & Ht & Hsubs & Hq0 & _).
  pose proof world_two_subscribers_queues as Hq.
  assert (H1 : allocated world_two_subscribers 0%nat)
    by (unfold allocated; rewrite Hnext; lia).
  assert (H2 : forall k, uuids world_two_subscribers k <> "")
    by (rewrite Huuids; exact unary_uuid_nonempty).
  assert (H3 : forall i j,
            uuids world_two_subscribers i = uuids world_two_subscribers j -> i = j)
    by (rewrite Huuids; exact unary_uuid_inj).
  split; [exact Ht|]. split; [exact Hq|]. cbv zeta.
  destruct (subscribing_twice_delivers_twice world_two_subscribers 0%nat Background
              "orders" "billing" 0%nat 0%nat 0%nat Ht Hq H1 H2 H3)
    as (Hs & _ & Hm & Hid & _).
  rewrite Hsubs in Hs, Hm, Hid. rewrite Hnext in Hm, Hid. rewrite Hq0 in Hm.
  split; [exact Hs|]. split; [exact Hm|exact Hid].
Defined.

Lemma Publish_copies_inherit_envelope_witness :
  allocated world_two_subscribers 0%nat /\
  (forall k, uuids world_two_subscribers k <> "") /\
  let w' := exec (Topic.Publish 0%nat Background 0%nat) world_two_subscribers in
  Timestamp (heapM world_two_subscribers 0%nat) = zero_Time /\
  Timestamp (heapM w' 0%nat) = clock world_two_subscribers (tick world_two_subscribers) /\
  Timestamp (heapM w' 2%nat) = clock world_two_subscribers (tick world_two_subscribers) /\
  Message.metadata_of "order_id" (heapM w' 2%nat)
    = Message.metadata_of "order_id" (heapM world_two_subscribers 0%nat).
Proof.
  destruct world_two_subscribers_facts as (Hnext & Huuids & Hclock & _ & Hsubs & _).
  assert (H1 : allocated world_two_subscribers 0%nat)
    by (unfold allocated; rewrite Hnext; lia).
  assert (H2 : forall k, uuids world_two_subscribers k <> "")
    by (rewrite Huuids; exact unary_uuid_nonempty).
  assert (Hz : Timestamp (heapM world_two_subscribers 0%nat) = zero_Time)
    by (vm_compute; reflexivity).
  split; [exact H1|]. split; [exact H2|]. cbv zeta. split; [exact Hz|].
  destruct (Publish_copies_inherit_envelope world_two_subscribers 0%nat Background 0%nat H1 H2)
    as (Hm & _ & Hc).
  rewrite Hz in Hm, Hc. change (Time_IsZero zero_Time) with true in Hm, Hc. cbv iota in Hm, Hc.
  split; [by rewrite Hm|].
  destruct (Hc 1%nat 1%nat) as (Hmeta & _ & Hts).
  { rewrite Hsubs. reflexivity. }
  rewrite Hnext in Hmeta, Hts. split.
  - apply Hts. rewrite Hclock. unfold ticking_clock, zero_Time. clear. lia.
  - apply Hmeta; discriminate.
Defined.

Lemma accepting_leaves_broker_alone : leaves_broker_alone accepting.
Proof. intros msg w. split; reflexivity. Qed.


Lemma world_two_orders_facts :
  messages (heapQ world_two_orders 1%nat) = [1%nat; 3%nat] /\
  VisibleAt (heapM world_two_orders 1%nat) = zero_Time /\
  VisibleAt (heapM world_two_orders 3%nat) = zero_Time.
Proof. vm_compute. repeat split; reflexivity. Qed.

(** Two orders wait in "work": the worker handles both, then another
    goroutine stops it, and [Start] returns nil with the worker not running
    any more. *)
Lemma Start_drains_the_queue_in_order_witness :
  leaves_broker_alone accepting /\
  NoDup (messages (heapQ world_two_orders 1%nat)) /\
  Forall (fun p => VisibleAt (heapM world_two_orders p) = zero_Time)
         (messages (heapQ world_two_orders 1%nat)) /\
  exists (wk' : Worker) (w' : World),
    Worker.Start (replicate 2 Proceed ++ [Stopped; Proceed])
                 (NewWorker "audit-worker" 1%nat accepting)
                 Background world_two_orders
      = ((Returned None, set_running false (set_stopCh chan_closed wk')), w') /\
    running wk' = true /\
    messages (heapQ w' 1%nat) = [] /\
    MessagesProcessed (Worker.Stats wk') = 2.
Proof.
  destruct world_two_orders_facts as (Hmsgs & Hv1 & Hv3).
  assert (Hnd : NoDup (messages (heapQ world_two_orders 1%nat))).
  { rewrite Hmsgs. apply NoDup_cons_2.
    - intros H%list_elem_of_singleton. discriminate H.
    - apply NoDup_singleton. }
  assert (Hvis : Forall (fun p => VisibleAt (heapM world_two_orders p) = zero_Time)
                   (messages (heapQ world_two_orders 1%nat))).
  { rewrite Hmsgs. apply list.Forall_cons. split; [exact Hv1|].
    apply list.Forall_cons. split; [exact Hv3|]. apply list.Forall_nil_2. }
  split; [exact accepting_leaves_broker_alone|]. split; [exact Hnd|]. split; [exact Hvis|].
  destruct (Start_drains_the_queue_in_order (NewWorker "audit-worker" 1%nat accepting)
              Background world_two_orders 2 accepting_leaves_broker_alone
              (fun _ _ => eq_refl) eq_refl eq_refl Hnd Hvis)
    as (wk' & w' & _ & _ & Hrun & _ & (_ & Hstop & _) & Hp & _ & Hm & _).
  exists wk', w'. split; [exact (Hstop [])|]. split; [exact Hrun|].
  change (worker_queue (NewWorker "audit-worker" 1%nat accepting)) with 1%nat in Hm, Hp.
  rewrite Hmsgs in Hm, Hp. split; [exact Hm|]. rewrite Hp. reflexivity.
Defined.





Lemma world_published_store :
  eval (IsProcessed 0%nat (ID (heapM world_published 1%nat))) world_published = false /\
  ttl (heapS (exec (handler (IdempotentWorker "worker" 1%nat accepting 0%nat) 1%nat)
                world_published) 0%nat) = 5 /\
  Time_Sub
    (clock (exec (handler (IdempotentWorker "worker" 1%nat accepting 0%nat) 1%nat)
              world_published)
       (tick (exec (handler (IdempotentWorker "worker" 1%nat accepting 0%nat) 1%nat)
                world_published)))
    (clock (exec (accepting 1%nat)
              (exec (IsProcessed 0%nat (ID (heapM world_published 1%nat))) world_published))
       (tick (exec (accepting 1%nat)
                (exec (IsProcessed 0%nat (ID (heapM world_published 1%nat)))
                   world_published)))) = 1 /\
  ID (heapM (exec (handler (IdempotentWorker "worker" 1%nat accepting 0%nat) 1%nat)
               world_published) 1%nat)
    = ID (heapM (exec (accepting 1%nat)
                   (exec (IsProcessed 0%nat (ID (heapM world_published 1%nat)))
                      world_published)) 1%nat).
Proof. vm_compute. repeat split; reflexivity. Qed.

Lemma redelivery_is_skipped_within_ttl_witness :
  eval (IsProcessed 0%nat (ID (heapM world_published 1%nat))) world_published = false /\
  let w' := exec (handler (IdempotentWorker "worker" 1%nat accepting 0%nat) 1%nat)
              world_published in
  handler (IdempotentWorker "worker" 1%nat declining 0%nat) 1%nat w'
    = (None, set_tick (S (tick w')) w').
Proof.
  destruct world_published_store as (H1 & Httl & Hel & Hid).
  split; [exact H1|]. cbv zeta.
  assert (H2 : eval (accepting 1%nat)
                 (exec (IsProcessed 0%nat (ID (heapM world_published 1%nat))) world_published)
               = None) by reflexivity.
  destruct (redelivery_is_skipped_within_ttl "worker" 1%nat 0%nat accepting 1%nat
              world_published H1 H2) as (_ & H).
  destruct (H (exec (handler (IdempotentWorker "worker" 1%nat accepting 0%nat) 1%nat)
                 world_published) declining eq_refl Hid) as (Hskip & _).
  apply Hskip. clear. vm_compute. intros E. discriminate E.
Defined.

Lemma world_published_IDs :
  messages (heapQ world_published 1%nat) = [1%nat] /\
  ID (heapM world_published 1%nat) = unary_uuid 0 /\
  drawn world_published = 2%nat /\ nextM world_published = 2%nat /\
  uuids world_published = unary_uuid.
Proof. vm_compute. repeat split; reflexivity. Qed.

Lemma Publish_keeps_IDs_distinct_witness :
  allocated world_published 0%nat /\
  distinct_IDs world_published 1%nat /\
  distinct_IDs (exec (Topic.Publish 0%nat Background 0%nat) world_published) 1%nat.
Proof.
  destruct world_published_IDs as (Hmsgs & Hid & Hd & Hn & Hu).
  assert (H1 : allocated world_published 0%nat) by (unfold allocated; rewrite Hn; lia).
  assert (H2 : forall k, uuids world_published k <> "")
    by (rewrite Hu; exact unary_uuid_nonempty).
  assert (H3 : forall i j, uuids world_published i = uuids world_published j -> i = j)
    by (rewrite Hu; exact unary_uuid_inj).
  assert (H4 : Forall (allocated world_published) (messages (heapQ world_published 1%nat))).
  { rewrite Hmsgs. apply list.Forall_cons. split; [|apply list.Forall_nil_2].
    unfold allocated. rewrite Hn. lia. }
  assert (H5 : forall p k, p ∈ messages (heapQ world_published 1%nat) ->
            (drawn world_published <= k)%nat ->
            ID (heapM world_published p) <> uuids world_published k).
  { rewrite Hmsgs, Hd, Hu. intros p k ->%list_elem_of_singleton Hk. rewrite Hid.
    intros E%unary_uuid_inj. lia. }
  assert (H6 : distinct_IDs world_published 1%nat).
  { unfold distinct_IDs. rewrite Hmsgs. intros [|i] [|j] p p' Hi Hj _; simpl in Hi, Hj;
      [reflexivity|discriminate Hj|discriminate Hi|discriminate Hi]. }
  split; [exact H1|]. split; [exact H6|].
  exact (Publish_keeps_IDs_distinct world_published 0%nat Background 0%nat 1%nat
           H1 H2 H3 H4 H5 H6).
Defined.

(** ** Payments and orders, run *)

Lemma BackoffDuration_is_capped_from_the_first_retry_witness :
  RetryConfig.BackoffDuration (fun _ => min_int64)
    (mkRetryConfig 3 (50 * 1000000000) (30 * 1000000000) 2.0%float) 0 = 50 * 1000000000 /\
  RetryConfig.BackoffDuration (fun _ => min_int64)
    (mkRetryConfig 3 (50 * 1000000000) (30 * 1000000000) 2.0%float) 1 <= 30 * 1000000000.
Proof.
  pose proof (BackoffDuration_is_capped_from_the_first_retry (fun _ => min_int64)
    (mkRetryConfig 3 (50 * 1000000000) (30 * 1000000000) 2.0%float)) as H.
  split.
  - apply (H 0). lia.
  - apply (H 1). lia.
Defined.

Lemma ProcessPayment_replays_the_first_response_witness :
  IdempotencyKey a_second_attempt = IdempotencyKey a_payment /\
  let s := NewPaymentService (PE := numbered_enums) DefaultPaymentConfig in
  let first := eval (PaymentService.ProcessPayment s Background a_payment) (empty_world 5) in
  let w1 := exec (PaymentService.ProcessPayment s Background a_payment) (empty_world 5) in
  let s2 := eval (ProcessPayments (snd first) [(Background, another_payment)]) w1 in
  let w2 := exec (ProcessPayments (snd first) [(Background, another_payment)]) w1 in
  (exists resp, fst first = (Some resp, None)) /\
  PaymentService.ProcessPayment s2 Background a_second_attempt w2 = ((fst first, s2), w2).
Proof.
  split; [reflexivity|].
  exact (ProcessPayment_replays_the_first_response (PE := numbered_enums)
           (NewPaymentService DefaultPaymentConfig) Background Background
           a_payment a_second_attempt [(Background, another_payment)] (empty_world 5)
           eq_refl).
Defined.


Lemma DefaultRetryConfig_doubles_up_to_30s_witness :
  0 <= 3 /\
  RetryConfig.BackoffDuration (fun _ => min_int64) DefaultRetryConfig 3 = 800 * 1000000.
Proof.
  split; [lia|]. apply (DefaultRetryConfig_doubles_up_to_30s (fun _ => min_int64) 3). lia.
Defined.

Lemma no_order_stays_pending_witness :
  len [(Background, a_laptop); (Background, a_laptop)] <= max_int64 /\
  let s := eval (CreateOrders (PC := InProcess description) a_shop
                   [(Background, a_laptop); (Background, a_laptop)]) (empty_world 5) in
  PendingOrders (OrderService.Stats s) = 0 /\
  TotalOrders (OrderService.Stats s)
    = PaidOrders (OrderService.Stats s) + CancelledOrders (OrderService.Stats s).
Proof.
  assert (Hlen : len [(Background, a_laptop); (Background, a_laptop)] <= max_int64)
    by (vm_compute; intros E; discriminate E).
  split; [exact Hlen|]. cbv zeta.
  destruct (no_order_stays_pending (PE := numbered_enums) (OE := numbered_order_enums)
              (PC := InProcess description)
              (NewPaymentService DefaultPaymentConfig) 0%nat "orders"
              [(Background, a_laptop); (Background, a_laptop)] Background (empty_world 5)
              Hlen) as (_ & Hp & Ht & _).
  split; [exact Hp|exact Ht].
Defined.

Lemma order_is_paid_iff_the_payment_is_accepted_witness :
  req_Items a_laptop <> [] /\
  req_CustomerEmail a_laptop <> "" /\
  processedKeys (paymentClient a_shop) !! "ord_u" = None /\
  exists final,
    fst (fst (eval (OrderService.CreateOrder (PC := InProcess description)
                      a_shop Background a_laptop) (empty_world 5)))
      = (Some final, None) /\
    order_Status final = OrderStatus_ORDER_STATUS_PAID /\
    order_PaymentTransactionID final = "tx_u1".
Proof.
  assert (H1 : req_Items a_laptop <> []) by (intros E; discriminate E).
  assert (H2 : req_CustomerEmail a_laptop <> "") by (intros E; discriminate E).
  assert (H3 : processedKeys (paymentClient a_shop) !! "ord_u" = None) by reflexivity.
  split_and!; [exact H1|exact H2|exact H3|].
  destruct (order_is_paid_iff_the_payment_is_accepted (PE := numbered_enums)
              (OE := numbered_order_enums) description a_shop Background a_laptop
              (empty_world 5) H1 H2 H3) as (final & _ & _ & Hcase).
  rewrite decide_False in Hcase by (clear; vm_compute; intros [E|E]; [by apply E|discriminate E]).
  rewrite decide_False in Hcase
    by (clear; vm_compute; intros [E|E]; [discriminate E|discriminate E]).
  destruct Hcase as (Hr & Hs & Ht & _).
  exists final. split_and!; [exact Hr|exact Hs|exact Ht].
Defined.

Lemma world_wired_facts :
  topics (heapB world_wired 0%nat) !! "orders" = @Some tref 0%nat /\
  subscribers (heapT world_wired 0%nat) = [1%nat] /\
  messages (heapQ world_wired 1%nat) = [] /\
  nextM world_wired = 0%nat /\
  uuids world_wired = unary_uuid.
Proof. vm_compute. repeat split; reflexivity. Qed.

Lemma publishOrderCreated_reaches_every_subscriber_witness :
  (forall k, uuids world_wired k <> "") /\
  let w' := exec (OrderService.publishOrderCreated id_event braces a_shop a_paid_order)
              world_wired in
  messages (heapQ w' 1%nat) = [1%nat] /\
  Type_ (heapM w' 1%nat) = "order.created" /\
  Message.metadata_of "order_id" (heapM w' 1%nat) = "ord_u".
Proof.
  destruct world_wired_facts as (Ht & Hs & Hm & Hn & Hu).
  assert (H1 : forall k, uuids world_wired k <> "")
    by (rewrite Hu; exact unary_uuid_nonempty).
  split; [exact H1|]. cbv zeta.
  pose proof (publishOrderCreated_reaches_every_subscriber (OE := numbered_order_enums)
                id_event braces a_shop a_paid_order world_wired H1) as H.
  cbv zeta in H.
  change (broker a_shop) with 0%nat in H. change (topicName a_shop) with "orders" in H.
  rewrite Ht in H. rewrite Hs, Hn in H.
  change (braces (id_event a_paid_order)) with (inl (B := error) [x7b; x7d]) in H.
  cbv beta iota in H. destruct H as [HQ HC].
  specialize (HQ 1%nat). rewrite Hm in HQ.
  destruct (HC 0%nat 1%nat eq_refl) as (_ & HT & _ & HO & _).
  split_and!; [exact HQ|exact HT|exact HO].
Defined.

Lemma registry_ok_empty_world (ttl : Duration) : registry_ok (empty_world ttl).
Proof. split; intros b n x Hx; cbn in Hx; by rewrite lookup_empty in Hx. Qed.

Lemma names_are_bound_for_good_witness :
  registry_ok (empty_world 5) /\
  let w' := exec (run_calls history) (empty_world 5) in
  forall b n q, eval (Broker.GetQueue b n) w' = Some q ->
    (q < nextQ w')%nat /\ eval (Queue.Name q) w' = n.
Proof.
  split; [apply registry_ok_empty_world|]. cbv zeta.
  destruct (names_are_bound_for_good history (empty_world 5) (registry_ok_empty_world 5))
    as (_ & _ & H & _).
  exact H.
Defined.

Lemma world_two_queues_facts :
  eval (Queue.Receive 0%nat Background) world_two_queues = (Some 0%nat, None) /\
  messages (heapQ world_two_queues 1%nat) = [0%nat].
Proof. vm_compute. split; reflexivity. Qed.

Lemma a_shared_message_is_leased_in_every_queue_witness :
  0%nat <> 1%nat /\
  eval (Queue.Receive 0%nat Background) world_two_queues = (Some 0%nat, None) /\
  0%nat ∈ messages (heapQ world_two_queues 1%nat) /\
  let w1 := exec (Queue.Receive 0%nat Background) world_two_queues in
  eval (Queue.Acknowledge 1%nat Background (ReceiptHandle (heapM w1 0%nat))) w1 = None.
Proof.
  destruct world_two_queues_facts as [Hr Hm].
  assert (H1 : 0%nat <> 1%nat) by lia.
  assert (H3 : 0%nat ∈ messages (heapQ world_two_queues 1%nat))
    by (rewrite Hm; apply list_elem_of_singleton; reflexivity).
  split_and!; [exact H1|exact Hr|exact H3|]. cbv zeta.
  destruct (a_shared_message_is_leased_in_every_queue world_two_queues 0%nat 1%nat
              Background Background Background 0%nat H1 Hr H3) as (_ & _ & _ & H & _).
  exact H.
Defined.
